(** * Peer engine of the BitTorrent client: wire session, request ledger,
      choke/interest controller, and the announce-URL editor.

    The development embeds the C functions of peer-msgs.c, peer-mgr.c and
    edit.c as Rocq functions over explicit state and proves properties of
    them.  Machine integers are [Z] with their wrap-around written out,
    byte buffers are lists of [Z] in the range 0..255, C arrays are lists,
    and the heap of peer objects is a finite map from peer addresses. *)

From stdpp Require Import base numbers list gmap sorting strings.
From Stdlib Require Import ZArith Lia.

Local Open Scope Z_scope.

(** ** Machine arithmetic and byte buffers *)

Definition u8 (z : Z) : Z := z mod 256.
Definition u16 (z : Z) : Z := z mod 65536.
Definition u32 (z : Z) : Z := z mod 4294967296.

(** int16_t conversion of an [int] value (two's complement). *)
Definition i16 (z : Z) : Z := (z + 32768) mod 65536 - 32768.

Definition is_u8 (z : Z) : Prop := 0 <= z < 256.
Definition is_u16 (z : Z) : Prop := 0 <= z < 65536.
Definition is_u32 (z : Z) : Prop := 0 <= z < 4294967296.

(** evbuffer_add_uint32 / evbuffer_add_uint16: network byte order. *)
Definition be32 (z : Z) : list Z :=
  [z / 16777216 mod 256; z / 65536 mod 256; z / 256 mod 256; z mod 256].
Definition be16 (z : Z) : list Z := [z / 256 mod 256; z mod 256].

Definition rd32 (l : list Z) : Z :=
  match l with
  | a :: b :: c :: d :: _ => ((a * 256 + b) * 256 + c) * 256 + d
  | _ => 0
  end.
Definition rd16 (l : list Z) : Z :=
  match l with
  | a :: b :: _ => a * 256 + b
  | _ => 0
  end.

(** tr_peerIoReadUint8/16/32 and tr_peerIoDrain: consume from the front of
    the input buffer. *)
Definition tr_peerIoReadUint8 (inbuf : list Z) : Z * list Z :=
  (hd 0 inbuf, drop 1 inbuf).
Definition tr_peerIoReadUint16 (inbuf : list Z) : Z * list Z :=
  (rd16 inbuf, drop 2 inbuf).
Definition tr_peerIoReadUint32 (inbuf : list Z) : Z * list Z :=
  (rd32 inbuf, drop 4 inbuf).

Definition zlen {A} (l : list A) : Z := Z.of_nat (length l).

(** ** Recent-history counters (history.h)

    tr_recentHistory is declared in history.h, which is not among the
    sources; it is modelled as the log of the (time, count) pairs that were
    added, and tr_historyGet sums the counts newer than the cut-off. *)
Definition tr_recentHistory := list (Z * Z).

Definition tr_historyAdd (h : tr_recentHistory) (now n : Z) : tr_recentHistory :=
  h ++ [(now, n)].

Definition tr_historyGet (h : tr_recentHistory) (now sec : Z) : Z :=
  foldr (fun e acc => if bool_decide (now - sec < e.1) then e.2 + acc else acc) 0 h.

(** ** Shared records *)

Inductive tr_errno := EMSGSIZE | ERANGE | ENOTCONN | EIO.

Record peer_request := mk_req {
  req_index : Z;
  req_offset : Z;
  req_length : Z
}.

(** The fields of struct tr_peer that the modelled functions touch. *)
Record tr_peer := mk_peer {
  peerIsChoked : bool;
  peerIsInterested : bool;
  clientIsChoked : bool;
  clientIsInterested : bool;
  pendingReqsToClient : Z;
  pendingReqsToPeer : Z;
  io_supportsFEXT : bool;          (* tr_peerIoSupportsFEXT (peer->io) *)
  have : Z -> bool;                (* tr_bitfieldHas (&peer->have, i) *)
  peer_isSeed : bool;              (* peerIsSeed (peer) *)
  blame : list Z;
  chokeChangedAt : Z;
  blocksSentToClient : tr_recentHistory;
  cancelsSentToPeer : tr_recentHistory;
  cancelsSentToClient : tr_recentHistory
}.

Definition set_peerIsChoked (b : bool) (p : tr_peer) : tr_peer :=
  mk_peer b (peerIsInterested p) (clientIsChoked p) (clientIsInterested p)
    (pendingReqsToClient p) (pendingReqsToPeer p) (io_supportsFEXT p) (have p)
    (peer_isSeed p) (blame p) (chokeChangedAt p) (blocksSentToClient p)
    (cancelsSentToPeer p) (cancelsSentToClient p).
Definition set_peerIsInterested (b : bool) (p : tr_peer) : tr_peer :=
  mk_peer (peerIsChoked p) b (clientIsChoked p) (clientIsInterested p)
    (pendingReqsToClient p) (pendingReqsToPeer p) (io_supportsFEXT p) (have p)
    (peer_isSeed p) (blame p) (chokeChangedAt p) (blocksSentToClient p)
    (cancelsSentToPeer p) (cancelsSentToClient p).
Definition set_clientIsChoked (b : bool) (p : tr_peer) : tr_peer :=
  mk_peer (peerIsChoked p) (peerIsInterested p) b (clientIsInterested p)
    (pendingReqsToClient p) (pendingReqsToPeer p) (io_supportsFEXT p) (have p)
    (peer_isSeed p) (blame p) (chokeChangedAt p) (blocksSentToClient p)
    (cancelsSentToPeer p) (cancelsSentToClient p).
Definition set_clientIsInterested (b : bool) (p : tr_peer) : tr_peer :=
  mk_peer (peerIsChoked p) (peerIsInterested p) (clientIsChoked p) b
    (pendingReqsToClient p) (pendingReqsToPeer p) (io_supportsFEXT p) (have p)
    (peer_isSeed p) (blame p) (chokeChangedAt p) (blocksSentToClient p)
    (cancelsSentToPeer p) (cancelsSentToClient p).
Definition set_pendingReqsToClient (n : Z) (p : tr_peer) : tr_peer :=
  mk_peer (peerIsChoked p) (peerIsInterested p) (clientIsChoked p)
    (clientIsInterested p) n (pendingReqsToPeer p) (io_supportsFEXT p) (have p)
    (peer_isSeed p) (blame p) (chokeChangedAt p) (blocksSentToClient p)
    (cancelsSentToPeer p) (cancelsSentToClient p).
Definition set_pendingReqsToPeer (n : Z) (p : tr_peer) : tr_peer :=
  mk_peer (peerIsChoked p) (peerIsInterested p) (clientIsChoked p)
    (clientIsInterested p) (pendingReqsToClient p) n (io_supportsFEXT p) (have p)
    (peer_isSeed p) (blame p) (chokeChangedAt p) (blocksSentToClient p)
    (cancelsSentToPeer p) (cancelsSentToClient p).
Definition set_blame (l : list Z) (p : tr_peer) : tr_peer :=
  mk_peer (peerIsChoked p) (peerIsInterested p) (clientIsChoked p)
    (clientIsInterested p) (pendingReqsToClient p) (pendingReqsToPeer p)
    (io_supportsFEXT p) (have p) (peer_isSeed p) l (chokeChangedAt p)
    (blocksSentToClient p) (cancelsSentToPeer p) (cancelsSentToClient p).
Definition set_chokeChangedAt (t : Z) (p : tr_peer) : tr_peer :=
  mk_peer (peerIsChoked p) (peerIsInterested p) (clientIsChoked p)
    (clientIsInterested p) (pendingReqsToClient p) (pendingReqsToPeer p)
    (io_supportsFEXT p) (have p) (peer_isSeed p) (blame p) t
    (blocksSentToClient p) (cancelsSentToPeer p) (cancelsSentToClient p).
Definition set_cancelsSentToPeer (h : tr_recentHistory) (p : tr_peer) : tr_peer :=
  mk_peer (peerIsChoked p) (peerIsInterested p) (clientIsChoked p)
    (clientIsInterested p) (pendingReqsToClient p) (pendingReqsToPeer p)
    (io_supportsFEXT p) (have p) (peer_isSeed p) (blame p) (chokeChangedAt p)
    (blocksSentToClient p) h (cancelsSentToClient p).
Definition set_cancelsSentToClient (h : tr_recentHistory) (p : tr_peer) : tr_peer :=
  mk_peer (peerIsChoked p) (peerIsInterested p) (clientIsChoked p)
    (clientIsInterested p) (pendingReqsToClient p) (pendingReqsToPeer p)
    (io_supportsFEXT p) (have p) (peer_isSeed p) (blame p) (chokeChangedAt p)
    (blocksSentToClient p) (cancelsSentToPeer p) h.

(** What the peer engine reads from the torrent and session objects
    (torrent.h, completion.h and session.h are not among the sources, so
    their accessors are fields of this record). *)
Record tr_torrent := mk_torrent {
  hasMetadata : bool;                       (* tr_torrentHasMetadata *)
  isSeed : bool;                            (* tr_torrentIsSeed *)
  pieceTransferAllowed : bool;              (* tr_torrentIsPieceTransferAllowed (tor, TR_PEER_TO_CLIENT) *)
  pieceCount : Z;                           (* info.pieceCount *)
  blockSize : Z;
  blockCountInPiece : Z;
  maxConnectedPeers : Z;
  piecePriority : Z -> Z;                   (* info.pieces[i].priority *)
  pieceDnd : Z -> bool;                     (* info.pieces[i].dnd *)
  tr_torrentReqIsValid : peer_request -> bool;
  tr_cpPieceIsComplete : Z -> bool;
  tr_cpBlockIsComplete : Z -> bool;
  tr_cpMissingBlocksInPiece : Z -> Z;
  tr_cpLeftUntilDone : Z;
  _tr_block : Z -> Z -> Z;                  (* block of (piece index, offset) *)
  tr_torBlockPiece : Z -> Z;                (* piece of a block *)
  tr_torBlockCountBytes : Z -> Z;
  tr_torGetPieceBlockRange : Z -> Z * Z;    (* first and last block of a piece *)
  tr_torrentGetBlockLocation : Z -> peer_request;
  isPrefetchEnabled : bool                  (* session->isPrefetchEnabled *)
}.

(** ** peer-msgs.c: the wire session *)

Module Wire.

Definition BT_CHOKE : Z := 0.
Definition BT_UNCHOKE : Z := 1.
Definition BT_INTERESTED : Z := 2.
Definition BT_NOT_INTERESTED : Z := 3.
Definition BT_HAVE : Z := 4.
Definition BT_BITFIELD : Z := 5.
Definition BT_REQUEST : Z := 6.
Definition BT_PIECE : Z := 7.
Definition BT_CANCEL : Z := 8.
Definition BT_PORT : Z := 9.
Definition BT_FEXT_SUGGEST : Z := 13.
Definition BT_FEXT_HAVE_ALL : Z := 14.
Definition BT_FEXT_HAVE_NONE : Z := 15.
Definition BT_FEXT_REJECT : Z := 16.
Definition BT_FEXT_ALLOWED_FAST : Z := 17.
Definition BT_LTEP : Z := 20.

Definition MIN_CHOKE_PERIOD_SEC : Z := 10.
Definition REQQ : Z := 512.
Definition IMMEDIATE_PRIORITY_INTERVAL_SECS : Z := 0.
Definition HIGH_PRIORITY_INTERVAL_SECS : Z := 2.
Definition LOW_PRIORITY_INTERVAL_SECS : Z := 10.

Inductive await_state :=
  AWAITING_BT_LENGTH | AWAITING_BT_ID | AWAITING_BT_MESSAGE | AWAITING_BT_PIECE.

Inductive ReadState := READ_NOW | READ_LATER | READ_ERR.

(** The events a wire session publishes to the peer manager. *)
Inductive tr_peer_event :=
  | TR_PEER_ERROR (err : tr_errno)
  | TR_PEER_CLIENT_GOT_BLOCK (req : peer_request)
  | TR_PEER_CLIENT_GOT_REJ (req : peer_request)
  | TR_PEER_CLIENT_GOT_CHOKE
  | TR_PEER_CLIENT_GOT_DATA (len : Z) (wasPieceData : bool).

(** struct tr_peermsgs with struct tr_incoming flattened into it. *)
Record tr_peermsgs := mk_msgs {
  state : await_state;
  incoming_id : Z;
  incoming_length : Z;
  incoming_blockReq : peer_request;
  incoming_block : list Z;
  outMessages : list Z;
  outMessagesBatchPeriod : Z;
  peerAskedFor : list peer_request;
  prefetchCount : Z;
  desiredRequestCount : Z;
  metadata_size_hint : Z
}.

Definition set_state (s : await_state) (m : tr_peermsgs) : tr_peermsgs :=
  mk_msgs s (incoming_id m) (incoming_length m) (incoming_blockReq m)
    (incoming_block m) (outMessages m) (outMessagesBatchPeriod m)
    (peerAskedFor m) (prefetchCount m) (desiredRequestCount m)
    (metadata_size_hint m).
Definition set_incoming_id (v : Z) (m : tr_peermsgs) : tr_peermsgs :=
  mk_msgs (state m) v (incoming_length m) (incoming_blockReq m)
    (incoming_block m) (outMessages m) (outMessagesBatchPeriod m)
    (peerAskedFor m) (prefetchCount m) (desiredRequestCount m)
    (metadata_size_hint m).
Definition set_incoming_length (v : Z) (m : tr_peermsgs) : tr_peermsgs :=
  mk_msgs (state m) (incoming_id m) v (incoming_blockReq m)
    (incoming_block m) (outMessages m) (outMessagesBatchPeriod m)
    (peerAskedFor m) (prefetchCount m) (desiredRequestCount m)
    (metadata_size_hint m).
Definition set_incoming_blockReq (r : peer_request) (m : tr_peermsgs) : tr_peermsgs :=
  mk_msgs (state m) (incoming_id m) (incoming_length m) r
    (incoming_block m) (outMessages m) (outMessagesBatchPeriod m)
    (peerAskedFor m) (prefetchCount m) (desiredRequestCount m)
    (metadata_size_hint m).
Definition set_incoming_block (b : list Z) (m : tr_peermsgs) : tr_peermsgs :=
  mk_msgs (state m) (incoming_id m) (incoming_length m) (incoming_blockReq m)
    b (outMessages m) (outMessagesBatchPeriod m)
    (peerAskedFor m) (prefetchCount m) (desiredRequestCount m)
    (metadata_size_hint m).
Definition set_outMessages (o : list Z) (m : tr_peermsgs) : tr_peermsgs :=
  mk_msgs (state m) (incoming_id m) (incoming_length m) (incoming_blockReq m)
    (incoming_block m) o (outMessagesBatchPeriod m)
    (peerAskedFor m) (prefetchCount m) (desiredRequestCount m)
    (metadata_size_hint m).
Definition set_outMessagesBatchPeriod (v : Z) (m : tr_peermsgs) : tr_peermsgs :=
  mk_msgs (state m) (incoming_id m) (incoming_length m) (incoming_blockReq m)
    (incoming_block m) (outMessages m) v
    (peerAskedFor m) (prefetchCount m) (desiredRequestCount m)
    (metadata_size_hint m).
Definition set_peerAskedFor (q : list peer_request) (m : tr_peermsgs) : tr_peermsgs :=
  mk_msgs (state m) (incoming_id m) (incoming_length m) (incoming_blockReq m)
    (incoming_block m) (outMessages m) (outMessagesBatchPeriod m)
    q (prefetchCount m) (desiredRequestCount m) (metadata_size_hint m).
Definition set_prefetchCount (v : Z) (m : tr_peermsgs) : tr_peermsgs :=
  mk_msgs (state m) (incoming_id m) (incoming_length m) (incoming_blockReq m)
    (incoming_block m) (outMessages m) (outMessagesBatchPeriod m)
    (peerAskedFor m) v (desiredRequestCount m) (metadata_size_hint m).

(** A wire session together with the peer it points at ([msgs] and
    [msgs->peer]); the two objects are in one-to-one correspondence. *)
Abbreviation conn := (tr_peer * tr_peermsgs)%type.

Definition on_peer (f : tr_peer -> tr_peer) (c : conn) : conn := (f c.1, c.2).
Definition on_msgs (f : tr_peermsgs -> tr_peermsgs) (c : conn) : conn := (c.1, f c.2).

(** *** Outgoing protocol messages *)

Definition pokeBatchPeriod (interval : Z) (m : tr_peermsgs) : tr_peermsgs :=
  if interval <? outMessagesBatchPeriod m
  then set_outMessagesBatchPeriod interval m
  else m.

Definition add_out (bytes : list Z) (m : tr_peermsgs) : tr_peermsgs :=
  set_outMessages (outMessages m ++ bytes) m.

Definition msg_request_like (id : Z) (req : peer_request) : list Z :=
  be32 13 ++ [id] ++ be32 (req_index req) ++ be32 (req_offset req)
          ++ be32 (req_length req).

Definition protocolSendReject (req : peer_request) (m : tr_peermsgs) : tr_peermsgs :=
  add_out (msg_request_like BT_FEXT_REJECT req) m.

Definition protocolSendRequest (req : peer_request) (m : tr_peermsgs) : tr_peermsgs :=
  pokeBatchPeriod IMMEDIATE_PRIORITY_INTERVAL_SECS
    (add_out (msg_request_like BT_REQUEST req) m).

Definition protocolSendCancel (req : peer_request) (m : tr_peermsgs) : tr_peermsgs :=
  pokeBatchPeriod IMMEDIATE_PRIORITY_INTERVAL_SECS
    (add_out (msg_request_like BT_CANCEL req) m).

Definition msg_choke (choke : bool) : list Z :=
  be32 1 ++ [if choke then BT_CHOKE else BT_UNCHOKE].

Definition protocolSendChoke (choke : bool) (m : tr_peermsgs) : tr_peermsgs :=
  pokeBatchPeriod IMMEDIATE_PRIORITY_INTERVAL_SECS (add_out (msg_choke choke) m).

Definition msg_interest (interested : bool) : list Z :=
  be32 1 ++ [if interested then BT_INTERESTED else BT_NOT_INTERESTED].

Definition sendInterest (interested : bool) (c : conn) : conn :=
  (set_clientIsInterested interested c.1,
   pokeBatchPeriod HIGH_PRIORITY_INTERVAL_SECS (add_out (msg_interest interested) c.2)).

Definition tr_peerMsgsSetInterested (c : conn) (interested : bool) : conn :=
  if negb (eqb interested (clientIsInterested c.1))
  then sendInterest interested c
  else c.

Definition tr_peerMsgsCancel (tor : tr_torrent) (m : tr_peermsgs) (block : Z) : tr_peermsgs :=
  protocolSendCancel (tr_torrentGetBlockLocation tor block) m.

(** *** The queue of requests made by the peer *)

(** tr_removeElementFromArray (utils.c) on an array whose first [nmemb]
    slots are live: the slots after [pos] move down by one. *)
Definition tr_removeElementFromArray {A} (arr : list A) (pos nmemb : nat) : list A :=
  take pos arr ++ take (nmemb - 1 - pos) (drop (S pos) arr) ++ drop (nmemb - 1) arr.

Definition popNextRequest (c : conn) : option peer_request * conn :=
  if pendingReqsToClient c.1 =? 0 then (None, c)
  else
    let setme := hd (mk_req 0 0 0) (peerAskedFor c.2) in
    let n := pendingReqsToClient c.1 in
    (Some setme,
     (set_pendingReqsToClient (n - 1) c.1,
      set_peerAskedFor (tr_removeElementFromArray (peerAskedFor c.2) 0 (Z.to_nat n)) c.2)).

(** The loop [while (popNextRequest (msgs, &req)) ...]; the counter is never
    negative, so its value bounds the number of iterations. *)
Fixpoint cancelAllRequestsToClient_loop (fuel : nat) (mustSendCancel : bool) (c : conn) : conn :=
  match fuel with
  | O => c
  | S fuel' =>
      match popNextRequest c with
      | (None, c') => c'
      | (Some req, c') =>
          cancelAllRequestsToClient_loop fuel' mustSendCancel
            (if mustSendCancel then on_msgs (protocolSendReject req) c' else c')
      end
  end.

Definition cancelAllRequestsToClient (c : conn) : conn :=
  cancelAllRequestsToClient_loop (Z.to_nat (pendingReqsToClient c.1))
    (io_supportsFEXT c.1) c.

Definition tr_peerMsgsSetChoke (now : Z) (c : conn) (choke : bool) : conn :=
  let fibrillationTime := now - MIN_CHOKE_PERIOD_SEC in
  if fibrillationTime <? chokeChangedAt c.1 then c
  else if negb (eqb (peerIsChoked c.1) choke) then
    let c1 := on_peer (set_peerIsChoked choke) c in
    let c2 := if choke then cancelAllRequestsToClient c1 else c1 in
    let c3 := on_msgs (protocolSendChoke choke) c2 in
    on_peer (set_chokeChangedAt now) c3
  else c.

Definition requestIsValid (tor : tr_torrent) (req : peer_request) : bool :=
  tr_torrentReqIsValid tor req.

(** prefetchPieces: [i] runs from prefetchCount up to min (pending, 12);
    every valid queued request met on the way is handed to the cache and
    counted.  The cache call itself leaves the session untouched. *)
Fixpoint prefetchPieces_loop (tor : tr_torrent) (q : list peer_request)
    (steps : nat) (i : nat) (count : Z) : Z :=
  match steps with
  | O => count
  | S steps' =>
      let count' :=
        match q !! i with
        | Some req => if requestIsValid tor req then count + 1 else count
        | None => count
        end in
      prefetchPieces_loop tor q steps' (S i) count'
  end.

Definition prefetchPieces (tor : tr_torrent) (c : conn) : conn :=
  if negb (isPrefetchEnabled tor) then c
  else
    let lo := prefetchCount c.2 in
    let hi := Z.min (pendingReqsToClient c.1) 12 in
    on_msgs (set_prefetchCount
               (prefetchPieces_loop tor (peerAskedFor c.2) (Z.to_nat (hi - lo))
                  (Z.to_nat lo) lo)) c.

Definition peerMadeRequest (tor : tr_torrent) (c : conn) (req : peer_request) : conn :=
  let fext := io_supportsFEXT c.1 in
  let reqIsValid := requestIsValid tor req in
  let clientHasPiece := reqIsValid && tr_cpPieceIsComplete tor (req_index req) in
  let peerIsChoked := peerIsChoked c.1 in
  let allow :=
    if negb reqIsValid then false
    else if negb clientHasPiece then false
    else if peerIsChoked then false
    else if REQQ <=? pendingReqsToClient c.1 + 1 then false
    else true in
  if allow then
    let n := pendingReqsToClient c.1 in
    prefetchPieces tor
      (set_pendingReqsToClient (n + 1) c.1,
       set_peerAskedFor (<[Z.to_nat n := req]> (peerAskedFor c.2)) c.2)
  else if fext then on_msgs (protocolSendReject req) c
  else c.

(** *** Incoming framing *)

Definition messageLengthIsCorrect (tor : tr_torrent) (msg : tr_peermsgs) (id len : Z) : bool :=
  if (id =? BT_CHOKE) || (id =? BT_UNCHOKE) || (id =? BT_INTERESTED)
     || (id =? BT_NOT_INTERESTED) || (id =? BT_FEXT_HAVE_ALL)
     || (id =? BT_FEXT_HAVE_NONE)
  then len =? 1
  else if (id =? BT_HAVE) || (id =? BT_FEXT_SUGGEST) || (id =? BT_FEXT_ALLOWED_FAST)
  then len =? 5
  else if id =? BT_BITFIELD then
    if hasMetadata tor then len =? u32 (u32 (pieceCount tor + 7) / 8 + 1)
    else if 0 <? metadata_size_hint msg then len <=? metadata_size_hint msg
    else true
  else if (id =? BT_REQUEST) || (id =? BT_CANCEL) || (id =? BT_FEXT_REJECT)
  then len =? 13
  else if id =? BT_PIECE then (9 <? len) && (len <=? 16393)
  else if id =? BT_PORT then len =? 3
  else if id =? BT_LTEP then 2 <=? len
  else false.

(** The collaborators of the reader that live outside peer-msgs.c: the
    block cache, the request ledger of the peer manager, and the handlers
    of the message kinds that the properties below do not look into. *)
Record wire_env := mk_wire_env {
  tr_cacheWriteBlock : peer_request -> list Z -> option tr_errno;
  tr_peerMgrDidPeerRequest : Z -> bool;
  updateDesiredRequestCount : conn -> conn;
  (* Have, Bitfield, Port, the Fast Extension messages and LTEP *)
  handleOtherMessage :
    Z -> Z -> list Z -> conn -> (conn * list Z * list tr_peer_event) + tr_errno
}.

Definition readBtLength (c : conn) (inbuf : list Z) (inlen : Z)
  : ReadState * conn * list Z * list tr_peer_event :=
  if inlen <? 4 then (READ_LATER, c, inbuf, [])
  else
    let '(len, inbuf') := tr_peerIoReadUint32 inbuf in
    if len =? 0 then (READ_NOW, c, inbuf', [])
    else
      (READ_NOW,
       on_msgs (fun m => set_state AWAITING_BT_ID (set_incoming_length len m)) c,
       inbuf', []).

(** clientGotBlock returns 0 on success or an errno. *)
Definition clientGotBlock (env : wire_env) (tor : tr_torrent) (c : conn)
    (data : list Z) (req : peer_request)
  : option tr_errno * conn * list tr_peer_event :=
  let block := _tr_block tor (req_index req) (req_offset req) in
  if negb (req_length req =? tr_torBlockCountBytes tor block)
  then (Some EMSGSIZE, c, [])
  else if negb (tr_peerMgrDidPeerRequest env block) then (None, c, [])
  else if tr_cpPieceIsComplete tor (req_index req) then (None, c, [])
  else
    match tr_cacheWriteBlock env req data with
    | Some err => (Some err, c, [])
    | None =>
        (None,
         on_peer (fun p => if bool_decide (req_index req ∈ blame p) then p
                           else set_blame (req_index req :: blame p) p) c,
         [TR_PEER_CLIENT_GOT_BLOCK req])
    end.

Definition readBtPiece (env : wire_env) (tor : tr_torrent) (c : conn)
    (inbuf : list Z) (inlen : Z)
  : ReadState * conn * list Z * list tr_peer_event :=
  let req := incoming_blockReq c.2 in
  if req_length req =? 0 then
    if inlen <? 8 then (READ_LATER, c, inbuf, [])
    else
      let '(index, inbuf1) := tr_peerIoReadUint32 inbuf in
      let '(offset, inbuf2) := tr_peerIoReadUint32 inbuf1 in
      let len := u32 (incoming_length c.2 - 9) in
      (READ_NOW, on_msgs (set_incoming_blockReq (mk_req index offset len)) c,
       inbuf2, [])
  else
    let block_buffer := incoming_block c.2 in
    let nLeft := req_length req - zlen block_buffer in
    let n := Z.min nLeft inlen in
    let block_buffer' := block_buffer ++ take (Z.to_nat n) inbuf in
    let inbuf' := drop (Z.to_nat n) inbuf in
    let c1 := on_msgs (set_incoming_block block_buffer') c in
    let ev := [TR_PEER_CLIENT_GOT_DATA n true] in
    if zlen block_buffer' <? req_length req then (READ_LATER, c1, inbuf', ev)
    else
      let '(err, c2, evs) := clientGotBlock env tor c1 block_buffer' req in
      let c3 :=
        on_msgs (fun m =>
          set_state AWAITING_BT_LENGTH
            (set_incoming_blockReq (mk_req (req_index req) (req_offset req) 0)
               (set_incoming_block [] m))) c2 in
      (match err with Some _ => READ_ERR | None => READ_NOW end,
       c3, inbuf', ev ++ evs).

Definition read_request (inbuf : list Z) : peer_request * list Z :=
  let '(index, inbuf1) := tr_peerIoReadUint32 inbuf in
  let '(offset, inbuf2) := tr_peerIoReadUint32 inbuf1 in
  let '(len, inbuf3) := tr_peerIoReadUint32 inbuf2 in
  (mk_req index offset len, inbuf3).

Definition same_request (a b : peer_request) : bool :=
  (req_index a =? req_index b) && (req_offset a =? req_offset b)
  && (req_length a =? req_length b).

(** The Cancel case of readBtMessage: drop the first queued request equal
    to the cancelled one, if there is one among the live slots. *)
Definition peerCancelledRequest (now : Z) (c : conn) (r : peer_request) : conn :=
  let c1 := on_peer (fun p =>
              set_cancelsSentToClient (tr_historyAdd (cancelsSentToClient p) now 1) p) c in
  let n := Z.to_nat (pendingReqsToClient c1.1) in
  match list_find (fun q => same_request q r = true) (take n (peerAskedFor c1.2)) with
  | Some (i, _) =>
      (set_pendingReqsToClient (pendingReqsToClient c1.1 - 1) c1.1,
       set_peerAskedFor (tr_removeElementFromArray (peerAskedFor c1.2) i n) c1.2)
  | None => c1
  end.

Definition readBtMessage (env : wire_env) (tor : tr_torrent) (now : Z)
    (c : conn) (inbuf : list Z) (inlen : Z)
  : ReadState * conn * list Z * list tr_peer_event :=
  let msglen := u32 (incoming_length c.2 - 1) in
  let id := incoming_id c.2 in
  let fext := io_supportsFEXT c.1 in
  if inlen <? msglen then (READ_LATER, c, inbuf, [])
  else if negb (messageLengthIsCorrect tor c.2 id (u32 (msglen + 1)))
  then (READ_ERR, c, inbuf, [TR_PEER_ERROR EMSGSIZE])
  else
    let handled : (conn * list Z * list tr_peer_event) + tr_errno :=
      if id =? BT_CHOKE then
        inl (on_peer (set_clientIsChoked true) c, inbuf,
             if fext then [] else [TR_PEER_CLIENT_GOT_CHOKE])
      else if id =? BT_UNCHOKE then
        inl (updateDesiredRequestCount env (on_peer (set_clientIsChoked false) c),
             inbuf, [])
      else if id =? BT_INTERESTED then
        inl (on_peer (set_peerIsInterested true) c, inbuf, [])
      else if id =? BT_NOT_INTERESTED then
        inl (on_peer (set_peerIsInterested false) c, inbuf, [])
      else if id =? BT_REQUEST then
        let '(r, inbuf') := read_request inbuf in
        inl (peerMadeRequest tor c r, inbuf', [])
      else if id =? BT_CANCEL then
        let '(r, inbuf') := read_request inbuf in
        inl (peerCancelledRequest now c r, inbuf', [])
      else handleOtherMessage env id msglen inbuf c in
    match handled with
    | inr err => (READ_ERR, c, inbuf, [TR_PEER_ERROR err])
    | inl (c', inbuf', evs) =>
        (READ_NOW, on_msgs (set_state AWAITING_BT_LENGTH) c', inbuf', evs)
    end.

Definition readBtId (env : wire_env) (tor : tr_torrent) (now : Z)
    (c : conn) (inbuf : list Z) (inlen : Z)
  : ReadState * conn * list Z * list tr_peer_event :=
  if inlen <? 1 then (READ_LATER, c, inbuf, [])
  else
    let '(id, inbuf') := tr_peerIoReadUint8 inbuf in
    let c1 := on_msgs (set_incoming_id id) c in
    if id =? BT_PIECE then
      (READ_NOW, on_msgs (set_state AWAITING_BT_PIECE) c1, inbuf', [])
    else if negb (incoming_length c1.2 =? 1) then
      (READ_NOW, on_msgs (set_state AWAITING_BT_MESSAGE) c1, inbuf', [])
    else readBtMessage env tor now c1 inbuf' (inlen - 1).

(** canRead: one step of the four-state reader on the bytes that are
    currently buffered. *)
Definition canRead (env : wire_env) (tor : tr_torrent) (now : Z)
    (c : conn) (inbuf : list Z)
  : ReadState * conn * list Z * list tr_peer_event :=
  let inlen := zlen inbuf in
  let '(ret, c', inbuf', evs) :=
    if inlen =? 0 then (READ_LATER, c, inbuf, [])
    else
      match state c.2 with
      | AWAITING_BT_PIECE => readBtPiece env tor c inbuf inlen
      | AWAITING_BT_LENGTH => readBtLength c inbuf inlen
      | AWAITING_BT_ID => readBtId env tor now c inbuf inlen
      | AWAITING_BT_MESSAGE => readBtMessage env tor now c inbuf inlen
      end in
  let got :=
    match ret with
    | READ_ERR => []
    | _ => if zlen inbuf' =? inlen then []
           else [TR_PEER_CLIENT_GOT_DATA (inlen - zlen inbuf') false]
    end in
  (ret, c', inbuf', evs ++ got).

(** The io layer calls canRead again for as long as it answers READ_NOW. *)
Fixpoint canRead_steps (env : wire_env) (tor : tr_torrent) (now : Z)
    (n : nat) (c : conn) (inbuf : list Z)
  : list ReadState * conn * list Z * list tr_peer_event :=
  match n with
  | O => ([], c, inbuf, [])
  | S n' =>
      let '(ret, c1, inbuf1, evs1) := canRead env tor now c inbuf in
      match ret with
      | READ_NOW =>
          let '(rets, c2, inbuf2, evs2) := canRead_steps env tor now n' c1 inbuf1 in
          (ret :: rets, c2, inbuf2, evs1 ++ evs2)
      | _ => ([ret], c1, inbuf1, evs1)
      end
  end.

Definition tr_peerMsgsIsReadingBlock (tor : tr_torrent) (m : tr_peermsgs) (block : Z) : bool :=
  match state m with
  | AWAITING_BT_PIECE =>
      block =? _tr_block tor (req_index (incoming_blockReq m))
                 (req_offset (incoming_blockReq m))
  | _ => false
  end.

End Wire.

(** ** peer-mgr.c: request ledger, weighted pieces, endgame, interest *)

Module Mgr.

Definition REQUEST_TTL_SECS : Z := 120.
Definition CANCEL_HISTORY_SEC : Z := 60.
Definition MIN_INTERESTING_PEERS : Z := 5.

(** Peers are referred to by address; 0 is the NULL pointer. *)
Abbreviation peer_ptr := N.
Definition NULL : peer_ptr := 0%N.

Record block_request := mk_breq {
  block : Z;
  peer : peer_ptr;
  sentAt : Z
}.

Record weighted_piece := mk_piece {
  index : Z;
  salt : Z;              (* int16_t *)
  requestCount : Z       (* int16_t *)
}.

Global Instance block_request_eq_dec : EqDecision block_request.
Proof. solve_decision. Defined.

Global Instance weighted_piece_eq_dec : EqDecision weighted_piece.
Proof. solve_decision. Defined.

Inductive piece_sort_state :=
  PIECES_UNSORTED | PIECES_SORTED_BY_INDEX | PIECES_SORTED_BY_WEIGHT.

Definition sort_state_eqb (a b : piece_sort_state) : bool :=
  match a, b with
  | PIECES_UNSORTED, PIECES_UNSORTED
  | PIECES_SORTED_BY_INDEX, PIECES_SORTED_BY_INDEX
  | PIECES_SORTED_BY_WEIGHT, PIECES_SORTED_BY_WEIGHT => true
  | _, _ => false
  end.

(** The heap of peer objects: a tr_peer and the wire session its [msgs]
    field points at (None for a NULL [msgs]). *)
Abbreviation peer_obj := (tr_peer * option Wire.tr_peermsgs)%type.
Abbreviation peer_store := (gmap N peer_obj).

(** struct tr_torrent_peers *)
Record Torrent := mk_Torrent {
  peers : list peer_ptr;
  webseeds : list bool;            (* tr_webseedIsActive of each webseed *)
  tor : tr_torrent;
  requests : list block_request;
  pieces : list weighted_piece;
  pieceSortState : piece_sort_state;
  pieceReplication : Z -> Z;       (* uint16_t per piece, by piece index *)
  interestedCount : Z;
  maxPeers : Z;
  lastCancel : Z;
  endgame : Z
}.

Definition set_requests (r : list block_request) (t : Torrent) : Torrent :=
  mk_Torrent (peers t) (webseeds t) (tor t) r (pieces t) (pieceSortState t)
    (pieceReplication t) (interestedCount t) (maxPeers t) (lastCancel t) (endgame t).
Definition set_pieces (ps : list weighted_piece) (t : Torrent) : Torrent :=
  mk_Torrent (peers t) (webseeds t) (tor t) (requests t) ps (pieceSortState t)
    (pieceReplication t) (interestedCount t) (maxPeers t) (lastCancel t) (endgame t).
Definition set_pieceSortState (s : piece_sort_state) (t : Torrent) : Torrent :=
  mk_Torrent (peers t) (webseeds t) (tor t) (requests t) (pieces t) s
    (pieceReplication t) (interestedCount t) (maxPeers t) (lastCancel t) (endgame t).
Definition set_interestedCount (n : Z) (t : Torrent) : Torrent :=
  mk_Torrent (peers t) (webseeds t) (tor t) (requests t) (pieces t) (pieceSortState t)
    (pieceReplication t) n (maxPeers t) (lastCancel t) (endgame t).
Definition set_maxPeers (n : Z) (t : Torrent) : Torrent :=
  mk_Torrent (peers t) (webseeds t) (tor t) (requests t) (pieces t) (pieceSortState t)
    (pieceReplication t) (interestedCount t) n (lastCancel t) (endgame t).
Definition set_lastCancel (n : Z) (t : Torrent) : Torrent :=
  mk_Torrent (peers t) (webseeds t) (tor t) (requests t) (pieces t) (pieceSortState t)
    (pieceReplication t) (interestedCount t) (maxPeers t) n (endgame t).
Definition set_endgame (n : Z) (t : Torrent) : Torrent :=
  mk_Torrent (peers t) (webseeds t) (tor t) (requests t) (pieces t) (pieceSortState t)
    (pieceReplication t) (interestedCount t) (maxPeers t) (lastCancel t) n.
Definition set_pieceReplication (r : Z -> Z) (t : Torrent) : Torrent :=
  mk_Torrent (peers t) (webseeds t) (tor t) (requests t) (pieces t) (pieceSortState t)
    r (interestedCount t) (maxPeers t) (lastCancel t) (endgame t).

Definition on_peer_obj (f : tr_peer -> tr_peer) (o : peer_obj) : peer_obj := (f o.1, o.2).

(** *** Library routines used by the manager *)

(** qsort (libc): the result is a sorted permutation; which of two equal
    elements comes first is left open by the C standard, and the model
    fixes it by merge sort. *)
Definition cmp_le {A} (compar : A -> A -> Z) (a b : A) : Prop := compar a b <= 0.

Global Instance cmp_le_dec {A} (compar : A -> A -> Z) (a b : A) :
  Decision (cmp_le compar a b) := Z_le_dec (compar a b) 0.

Definition qsort {A} (compar : A -> A -> Z) (base : list A) : list A :=
  merge_sort (cmp_le compar) base.

(** tr_lowerBound (utils.c, not among the sources): on an array sorted by
    [compar] it returns the first position whose element is not below the
    key, and whether the element there equals the key. *)
Fixpoint tr_lowerBound {A} (compar : A -> A -> Z) (key : A) (base : list A) : nat * bool :=
  match base with
  | [] => (0%nat, false)
  | x :: rest =>
      if 0 <? compar key x
      then let '(pos, exact) := tr_lowerBound compar key rest in (S pos, exact)
      else (0%nat, compar key x =? 0)
  end.

(** bsearch (libc) on a sorted array: the position of an element equal to
    the key, if there is one. *)
Definition bsearch {A} (compar : A -> A -> Z) (key : A) (base : list A) : option nat :=
  fst <$> list_find (fun x => compar key x = 0) base.

(** Removing one element of a variable-length array (the element count is
    the list length). *)
Definition array_remove {A} (arr : list A) (pos : nat) : list A :=
  take pos arr ++ drop (S pos) arr.

(** memmove of the tail by one slot followed by a store at [pos]. *)
Definition array_insert {A} (arr : list A) (pos : nat) (x : A) : list A :=
  take pos arr ++ x :: drop pos arr.

(** *** struct block_request *)

Definition compareReqByBlock (a b : block_request) : Z :=
  if block a <? block b then -1
  else if block b <? block a then 1
  else if (peer a <? peer b)%N then -1
  else if (peer b <? peer a)%N then 1
  else 0.

Definition requestListAdd (now : Z) (st : peer_store) (t : Torrent)
    (blk : Z) (pr : peer_ptr) : peer_store * Torrent :=
  let key := mk_breq blk pr now in
  let '(pos, _) := tr_lowerBound compareReqByBlock key (requests t) in
  let t' := set_requests (array_insert (requests t) pos key) t in
  let st' :=
    if (pr =? NULL)%N then st
    else alter (on_peer_obj (fun p => set_pendingReqsToPeer (pendingReqsToPeer p + 1) p)) pr st in
  (st', t').

Definition requestListLookup (t : Torrent) (blk : Z) (pr : peer_ptr) : option nat :=
  bsearch compareReqByBlock (mk_breq blk pr 0) (requests t).

(** getBlockRequestPeers: the peers of the run of requests for [blk] that
    starts at the lower bound of (blk, NULL). *)
Fixpoint block_run (blk : Z) (l : list block_request) : list peer_ptr :=
  match l with
  | [] => []
  | r :: rest => if block r =? blk then peer r :: block_run blk rest else []
  end.

Definition getBlockRequestPeers (t : Torrent) (blk : Z) : list peer_ptr :=
  let '(pos, _) := tr_lowerBound compareReqByBlock (mk_breq blk NULL 0) (requests t) in
  block_run blk (drop pos (requests t)).

Definition decrementPendingReqCount (st : peer_store) (b : block_request) : peer_store :=
  if (peer b =? NULL)%N then st
  else alter (on_peer_obj (fun p =>
                if 0 <? pendingReqsToPeer p
                then set_pendingReqsToPeer (pendingReqsToPeer p - 1) p
                else p)) (peer b) st.

Definition requestListRemove (st : peer_store) (t : Torrent) (blk : Z) (pr : peer_ptr)
  : peer_store * Torrent :=
  match requestListLookup t blk pr with
  | Some pos =>
      match requests t !! pos with
      | Some b =>
          (decrementPendingReqCount st b,
           set_requests (array_remove (requests t) pos) t)
      | None => (st, t)
      end
  | None => (st, t)
  end.

(** *** Endgame *)

Definition countActiveWebseeds (t : Torrent) : Z :=
  zlen (filter (fun w => w = true) (webseeds t)).

Definition requestCount_of (t : Torrent) : Z := zlen (requests t).

(** The product is taken in unbounded integers: the C type of blockSize is
    declared in torrent.h, which is not among the sources. *)
Definition testForEndgame (t : Torrent) : bool :=
  tr_cpLeftUntilDone (tor t) <=? requestCount_of t * blockSize (tor t).

Definition peer_is_downloading (st : peer_store) (pr : peer_ptr) : bool :=
  match st !! pr with
  | Some o => 0 <? pendingReqsToPeer o.1
  | None => false
  end.

Definition updateEndgame (st : peer_store) (t : Torrent) : Torrent :=
  if negb (testForEndgame t) then set_endgame 0 t
  else if endgame t =? 0 then
    let numDownloading :=
      zlen (filter (fun pr => peer_is_downloading st pr = true) (peers t))
      + countActiveWebseeds t in
    set_endgame (requestCount_of t `quot` Z.max numDownloading 1) t
  else t.

(** *** Piece list *)

Definition rep_of (rep : Z -> Z) (i : Z) : Z := rep i.

Definition piece_weight (tr : tr_torrent) (a : weighted_piece) : Z :=
  let missing := tr_cpMissingBlocksInPiece tr (index a) in
  let pending := requestCount a in
  if pending <? missing then missing - pending
  else blockCountInPiece tr + pending.

Definition comparePieceByWeight (tr : tr_torrent) (rep : Z -> Z)
    (a b : weighted_piece) : Z :=
  let ia := piece_weight tr a in
  let ib := piece_weight tr b in
  if ia <? ib then -1
  else if ib <? ia then 1
  else
    let ia := piecePriority tr (index a) in
    let ib := piecePriority tr (index b) in
    if ib <? ia then -1
    else if ia <? ib then 1
    else
      let ia := rep_of rep (index a) in
      let ib := rep_of rep (index b) in
      if ia <? ib then -1
      else if ib <? ia then 1
      else if salt a <? salt b then -1
      else if salt b <? salt a then 1
      else 0.

Definition comparePieceByIndex (a b : weighted_piece) : Z :=
  if index a <? index b then -1
  else if index b <? index a then 1
  else 0.

Definition pieceListSort (t : Torrent) (state : piece_sort_state) : Torrent :=
  let sorted :=
    match state with
    | PIECES_SORTED_BY_WEIGHT =>
        qsort (comparePieceByWeight (tor t) (pieceReplication t)) (pieces t)
    | _ => qsort comparePieceByIndex (pieces t)
    end in
  set_pieceSortState state (set_pieces sorted t).

Definition pieceListLookup (t : Torrent) (ix : Z) : option nat :=
  fst <$> list_find (fun p => index p = ix) (pieces t).

Definition pieceListRemovePiece (t : Torrent) (piece : Z) : Torrent :=
  match pieceListLookup t piece with
  | Some pos => set_pieces (array_remove (pieces t) pos) t
  | None => t
  end.

(** pieceListResortPiece on the piece at position [p] (None for NULL). *)
Definition pieceListResortPiece (t : Torrent) (p : option nat) : Torrent :=
  match p with
  | None => t
  | Some pos =>
      let cmp := comparePieceByWeight (tor t) (pieceReplication t) in
      let ps := pieces t in
      let bad_left :=
        match pos with
        | O => false
        | S pos' =>
            match ps !! pos', ps !! pos with
            | Some l, Some x => 0 <? cmp l x
            | _, _ => false
            end
        end in
      let bad_right :=
        match ps !! pos, ps !! S pos with
        | Some x, Some r => 0 <? cmp x r
        | _, _ => false
        end in
      let isSorted := negb (bad_left || bad_right) in
      if negb (sort_state_eqb (pieceSortState t) PIECES_SORTED_BY_WEIGHT)
      then pieceListSort t PIECES_SORTED_BY_WEIGHT
      else if isSorted then t
      else
        match ps !! pos with
        | None => t
        | Some tmp =>
            let ps1 := array_remove ps pos in
            let '(newpos, _) := tr_lowerBound cmp tmp ps1 in
            set_pieces (array_insert ps1 newpos tmp) t
        end
  end.

Definition set_piece_requestCount (n : Z) (p : weighted_piece) : weighted_piece :=
  mk_piece (index p) (salt p) n.

Definition pieceListRemoveRequest (t : Torrent) (blk : Z) : Torrent :=
  let ix := tr_torBlockPiece (tor t) blk in
  match pieceListLookup t ix with
  | Some pos =>
      match pieces t !! pos with
      | Some p =>
          if 0 <? requestCount p then
            let p' := set_piece_requestCount (i16 (requestCount p - 1)) p in
            pieceListResortPiece (set_pieces (<[pos := p']> (pieces t)) t) (Some pos)
          else t
      | None => t
      end
  | None => t
  end.

(** *** Replication count of one piece *)

Definition invalidatePieceSorting (t : Torrent) : Torrent :=
  set_pieceSortState PIECES_UNSORTED t.

Definition tr_incrReplicationOfPiece (t : Torrent) (ix : Z) : Torrent :=
  let rep := pieceReplication t in
  let t1 := set_pieceReplication
              (fun j => if j =? ix then u16 (rep_of rep ix + 1) else rep_of rep j) t in
  if sort_state_eqb (pieceSortState t1) PIECES_SORTED_BY_WEIGHT
  then pieceListResortPiece t1 (pieceListLookup t1 ix)
  else t1.

(** pieceListRebuild.  [rand k] is the value returned by the k-th call of
    tr_cryptoWeakRandInt (4096). *)
Fixpoint merge_old_pieces (fuel : nat) (o n : list weighted_piece) : list weighted_piece :=
  match fuel with
  | O => n
  | S fuel' =>
      match o, n with
      | oh :: ot, nh :: nt =>
          if index oh <? index nh then merge_old_pieces fuel' ot n
          else if index nh <? index oh then nh :: merge_old_pieces fuel' o nt
          else oh :: merge_old_pieces fuel' ot nt
      | _, _ => n
      end
  end.

Definition pieceListRebuild (rand : nat -> Z) (t : Torrent) : Torrent :=
  if isSeed (tor t) then t
  else
    let pool :=
      filter (fun i => pieceDnd (tor t) i = false
                       /\ tr_cpPieceIsComplete (tor t) i = false)
             (seqZ 0 (pieceCount (tor t))) in
    let fresh := imap (fun k i => mk_piece i (i16 (rand k)) 0) pool in
    let merged :=
      match pieces t with
      | [] => fresh
      | _ =>
          let old := pieces (pieceListSort t PIECES_SORTED_BY_INDEX) in
          merge_old_pieces (length old + length fresh) old fresh
      end in
    pieceListSort (set_pieces merged t) PIECES_SORTED_BY_WEIGHT.

(** *** Request selection *)

Definition pending_of (st : peer_store) (pr : peer_ptr) : Z :=
  match st !! pr with
  | Some o => pendingReqsToPeer o.1
  | None => 0
  end.

Definition peer_has (st : peer_store) (pr : peer_ptr) (ix : Z) : bool :=
  match st !! pr with
  | Some o => have o.1 ix
  | None => false
  end.

(** The tests that tr_peerMgrGetNextRequests applies to one candidate
    block before it assigns it (each failed test is a [continue]). *)
Definition block_is_requestable (st : peer_store) (t : Torrent) (pr : peer_ptr)
    (numwant got blk : Z) : bool :=
  if tr_cpBlockIsComplete (tor t) blk then false
  else
    let prs := getBlockRequestPeers t blk in
    if negb (zlen prs =? 0) then
      if endgame t =? 0 then false
      else if 1 <? zlen prs then false
      else if (pr =? hd NULL prs)%N then false
      else if pending_of st pr + numwant - got <? endgame t then false
      else true
    else true.

Record request_acc := mk_acc {
  acc_store : peer_store;
  acc_torrent : Torrent;
  acc_setme : list Z;
  acc_got : Z
}.

Definition last_setme (a : request_acc) : Z := default 0 (last (acc_setme a)).

Definition bump_last (l : list Z) : list Z :=
  match reverse l with
  | [] => []
  | x :: r => reverse (x + 1 :: r)
  end.

Definition assign_block (now : Z) (get_intervals : bool) (pr : peer_ptr)
    (first blk : Z) (pos : nat) (a : request_acc) : request_acc :=
  let '(setme', got') :=
    if negb get_intervals then (acc_setme a ++ [blk], acc_got a + 1)
    else if negb (acc_got a =? 0) && (last_setme a =? u32 (blk - 1))
            && negb (blk =? first)
    then (bump_last (acc_setme a), acc_got a)
    else (acc_setme a ++ [blk; blk], acc_got a + 1) in
  let '(st', t') := requestListAdd now (acc_store a) (acc_torrent a) blk pr in
  let ps := pieces t' in
  let ps' :=
    match ps !! pos with
    | Some p => <[pos := set_piece_requestCount (i16 (requestCount p + 1)) p]> ps
    | None => ps
    end in
  mk_acc st' (set_pieces ps' t') setme' got'.

Fixpoint blocks_loop (fuel : nat) (now : Z) (get_intervals : bool) (pr : peer_ptr)
    (numwant first last : Z) (pos : nat) (b : Z) (a : request_acc) : request_acc :=
  match fuel with
  | O => a
  | S fuel' =>
      if (b <=? last)
         && ((acc_got a <? numwant)
             || (get_intervals && (last_setme a =? u32 (b - 1))))
      then
        let a' :=
          if block_is_requestable (acc_store a) (acc_torrent a) pr numwant (acc_got a) b
          then assign_block now get_intervals pr first b pos a
          else a in
        blocks_loop fuel' now get_intervals pr numwant first last pos (b + 1) a'
      else a
  end.

Fixpoint pieces_loop (fuel : nat) (now : Z) (get_intervals : bool) (pr : peer_ptr)
    (numwant : Z) (i : nat) (a : request_acc) : nat * request_acc :=
  match fuel with
  | O => (i, a)
  | S fuel' =>
      if bool_decide (i < length (pieces (acc_torrent a)))%nat && (acc_got a <? numwant)
      then
        let a' :=
          match pieces (acc_torrent a) !! i with
          | Some p =>
              if peer_has (acc_store a) pr (index p) then
                let '(first, last) := tr_torGetPieceBlockRange (tor (acc_torrent a)) (index p) in
                blocks_loop (Z.to_nat (last - first + 1)) now get_intervals pr
                  numwant first last i first a
              else a
          | None => a
          end in
        pieces_loop fuel' now get_intervals pr numwant (S i) a'
      else (i, a)
  end.

(** One step of the closing insertion sort: the piece at [i] moves behind
    the pieces of the (sorted) tail that are below it. *)
Definition reinsert_piece (cmp : weighted_piece -> weighted_piece -> Z)
    (i : nat) (ps : list weighted_piece) : list weighted_piece :=
  match ps !! i with
  | None => ps
  | Some piece =>
      let tail := drop (S i) ps in
      let '(newpos, _) := tr_lowerBound cmp piece tail in
      match newpos with
      | O => ps
      | _ => take i ps ++ take newpos tail ++ piece :: drop newpos tail
      end
  end.

Fixpoint resort_loop (cmp : weighted_piece -> weighted_piece -> Z)
    (i : nat) (ps : list weighted_piece) : list weighted_piece :=
  match i with
  | O => ps
  | S i' => resort_loop cmp i' (reinsert_piece cmp i' ps)
  end.

Definition tr_peerMgrGetNextRequests (rand : nat -> Z) (now : Z) (st : peer_store)
    (t : Torrent) (pr : peer_ptr) (numwant : Z) (get_intervals : bool)
  : peer_store * Torrent * list Z * Z :=
  let t1 := match pieces t with [] => pieceListRebuild rand t | _ => t end in
  let t2 := if negb (sort_state_eqb (pieceSortState t1) PIECES_SORTED_BY_WEIGHT)
            then pieceListSort t1 PIECES_SORTED_BY_WEIGHT else t1 in
  let t3 := updateEndgame st t2 in
  let '(i, a) :=
    pieces_loop (length (pieces t3)) now get_intervals pr numwant 0%nat
      (mk_acc st t3 [] 0) in
  let t4 := acc_torrent a in
  let t5 :=
    if 0 <? acc_got a then
      let i' := if bool_decide (i = length (pieces t4)) then (i - 1)%nat else i in
      set_pieces
        (resort_loop (comparePieceByWeight (tor t4) (pieceReplication t4)) i' (pieces t4))
        t4
    else t4 in
  (acc_store a, t5, acc_setme a, acc_got a).

Definition tr_peerMgrDidPeerRequest (t : Torrent) (pr : peer_ptr) (blk : Z) : bool :=
  bool_decide (is_Some (requestListLookup t blk pr)).

(** *** Timed cancellation *)

Definition request_is_stale (now : Z) (st : peer_store) (tr : tr_torrent)
    (it : block_request) : bool :=
  let too_old := now - REQUEST_TTL_SECS in
  (sentAt it <=? too_old)
  && match st !! peer it with
     | Some (_, Some m) => negb (Wire.tr_peerMsgsIsReadingBlock tr m (block it))
     | _ => false
     end.

Definition send_cancel (now : Z) (tr : tr_torrent) (st : peer_store)
    (it : block_request) : peer_store :=
  if (peer it =? NULL)%N then st
  else
    match st !! peer it with
    | Some (p, Some m) =>
        let p1 := set_cancelsSentToPeer (tr_historyAdd (cancelsSentToPeer p) now 1) p in
        let m1 := Wire.tr_peerMsgsCancel tr m (block it) in
        decrementPendingReqCount (<[peer it := (p1, Some m1)]> st) it
    | _ => st
    end.

(** The body of refillUpkeep for one torrent. *)
Definition refillUpkeep_torrent (now : Z) (st : peer_store) (t : Torrent)
  : peer_store * Torrent :=
  match requests t with
  | [] => (st, t)
  | _ =>
      let cancel := filter (fun it => request_is_stale now st (tor t) it = true) (requests t) in
      let keep := filter (fun it => request_is_stale now st (tor t) it <> true) (requests t) in
      let t1 := set_requests keep t in
      let st1 := foldl (send_cancel now (tor t)) st cancel in
      let t2 := foldl (fun t' it => pieceListRemoveRequest t' (block it)) t1 cancel in
      (st1, t2)
  end.

(** refillUpkeep walks every torrent of the session. *)
Fixpoint refillUpkeep (now : Z) (st : peer_store) (ts : list Torrent)
  : peer_store * list Torrent :=
  match ts with
  | [] => (st, [])
  | t :: rest =>
      let '(st1, t1) := refillUpkeep_torrent now st t in
      let '(st2, rest') := refillUpkeep now st1 rest in
      (st2, t1 :: rest')
  end.

(** *** Interest (rechokeDownloads) *)

Inductive tr_rechoke_state :=
  RECHOKE_STATE_GOOD | RECHOKE_STATE_UNTESTED | RECHOKE_STATE_BAD.

Definition rechoke_state_rank (s : tr_rechoke_state) : Z :=
  match s with
  | RECHOKE_STATE_GOOD => 0
  | RECHOKE_STATE_UNTESTED => 1
  | RECHOKE_STATE_BAD => 2
  end.

Record tr_rechoke_info := mk_rechoke {
  ri_peer : peer_ptr;
  ri_salt : Z;
  ri_rechoke_state : tr_rechoke_state
}.

Definition compare_rechoke_info (a b : tr_rechoke_info) : Z :=
  if negb (rechoke_state_rank (ri_rechoke_state a) =? rechoke_state_rank (ri_rechoke_state b))
  then rechoke_state_rank (ri_rechoke_state a) - rechoke_state_rank (ri_rechoke_state b)
  else ri_salt a - ri_salt b.

(** The two expressions of rechokeDownloads that are computed in double
    precision; they only feed the number of peers to be interested in. *)
Record double_ops := mk_double_ops {
  (* (int)(interestedCount * (1 - MIN (cancels / (double)(cancels + blocks), 0.5))) *)
  scaled_interest : Z -> Z -> Z -> Z;
  (* (int)(15 * (MIN (timeSinceCancel, 2 * CANCEL_HISTORY_SEC) / (double)(2 * CANCEL_HISTORY_SEC))) *)
  interest_increase : Z -> Z
}.

Definition piece_is_interesting (tr : tr_torrent) (i : Z) : bool :=
  negb (pieceDnd tr i) && negb (tr_cpPieceIsComplete tr i).

Definition isPeerInteresting (tr : tr_torrent) (p : tr_peer) : bool :=
  if peer_isSeed p then true
  else existsb (fun i => piece_is_interesting tr i && have p i) (seqZ 0 (pieceCount tr)).

Definition classify_peer (blocks cancels : Z) : tr_rechoke_state :=
  if (blocks =? 0) && (cancels =? 0) then RECHOKE_STATE_UNTESTED
  else if cancels =? 0 then RECHOKE_STATE_GOOD
  else if blocks =? 0 then RECHOKE_STATE_BAD
  else if cancels * 10 <? blocks then RECHOKE_STATE_GOOD
  else RECHOKE_STATE_BAD.

Definition store_set_interested (st : peer_store) (pr : peer_ptr) (b : bool) : peer_store :=
  match st !! pr with
  | Some (p, Some m) =>
      let c := Wire.tr_peerMsgsSetInterested (p, m) b in
      <[pr := (c.1, Some c.2)]> st
  | _ => st
  end.

(** The first loop: blocks and cancels of the responsive peers. *)
Definition count_blocks_cancels (now : Z) (st : peer_store) (prs : list peer_ptr) : Z * Z :=
  foldl (fun '(blocks, cancels) pr =>
           match st !! pr with
           | Some (p, _) =>
               let b := tr_historyGet (blocksSentToClient p) now CANCEL_HISTORY_SEC in
               let c := tr_historyGet (cancelsSentToPeer p) now CANCEL_HISTORY_SEC in
               if b =? 0 then (blocks, cancels) else (blocks + b, cancels + c)
           | None => (blocks, cancels)
           end) (0, 0) prs.

(** The second loop: peers without wanted pieces are told NotInterested at
    once, the others are classified and collected.  [rand k] is the k-th
    value of tr_cryptoWeakRandInt (INT_MAX). *)
Definition collect_candidates (rand : nat -> Z) (now : Z) (tr : tr_torrent)
    (st : peer_store) (prs : list peer_ptr) : peer_store * list tr_rechoke_info :=
  foldl (fun '(st', rechoke) pr =>
           match st' !! pr with
           | Some (p, _) =>
               if negb (isPeerInteresting tr p)
               then (store_set_interested st' pr false, rechoke)
               else
                 let blocks := tr_historyGet (blocksSentToClient p) now CANCEL_HISTORY_SEC in
                 let cancels := tr_historyGet (cancelsSentToPeer p) now CANCEL_HISTORY_SEC in
                 (st', rechoke ++ [mk_rechoke pr (rand (length rechoke))
                                      (classify_peer blocks cancels)])
           | None => (st', rechoke)
           end) (st, []) prs.

(** The closing loop: the i-th entry of the sorted array is Interested
    exactly when i is below interestedCount. *)
Definition declare_interest (count : Z) (st : peer_store) (sorted : list tr_rechoke_info)
  : peer_store :=
  foldl (fun st' '(i, r) => store_set_interested st' (ri_peer r) (Z.of_nat i <? count))
        st (imap (fun i r => (i, r)) sorted).

Definition choose_maxPeers (fp : double_ops) (now : Z) (st : peer_store) (t : Torrent)
  : Z * Torrent :=
  let '(blocks, cancels) := count_blocks_cancels now st (peers t) in
  let '(maxPeers0, t1) :=
    if 0 <? cancels
    then (scaled_interest fp (interestedCount t) cancels blocks, set_lastCancel now t)
    else (0, t) in
  let timeSinceCancel := now - lastCancel t1 in
  let maxPeers1 :=
    if negb (timeSinceCancel =? 0)
    then maxPeers t1 + interest_increase fp timeSinceCancel
    else maxPeers0 in
  let maxPeers2 := if maxPeers1 <? MIN_INTERESTING_PEERS then MIN_INTERESTING_PEERS else maxPeers1 in
  let maxPeers3 :=
    if maxConnectedPeers (tor t) <? maxPeers2 then maxConnectedPeers (tor t) else maxPeers2 in
  (maxPeers3, set_maxPeers maxPeers3 t1).

Definition rechoke_candidates (rand : nat -> Z) (now : Z) (st : peer_store) (t : Torrent)
  : peer_store * list tr_rechoke_info :=
  match peers t with
  | [] => (st, [])
  | _ => collect_candidates rand now (tor t) st (peers t)
  end.

Definition rechokeDownloads (fp : double_ops) (rand : nat -> Z) (now : Z)
    (st : peer_store) (t : Torrent) : peer_store * Torrent :=
  if isSeed (tor t) then (st, t)
  else if negb (pieceTransferAllowed (tor t)) then (st, t)
  else
    let '(maxPeers, t1) := choose_maxPeers fp now st t in
    let '(st1, rechoke) := rechoke_candidates rand now st t1 in
    let sorted := qsort compare_rechoke_info rechoke in
    let t2 := set_interestedCount (Z.min maxPeers (zlen sorted)) t1 in
    (declare_interest (interestedCount t2) st1 sorted, t2).

(** *** Compact peer lists *)

Inductive tr_address_type := TR_AF_INET | TR_AF_INET6.

(** tr_address: the type tag and the raw bytes of the address union (the
    IPv4 member occupies the first four). *)
Record tr_address := mk_address {
  addr_type : tr_address_type;
  addr_raw : list Z
}.

Definition addr4 (a : tr_address) : list Z := take 4 (addr_raw a).

Record tr_pex := mk_pex {
  pex_addr : tr_address;
  pex_port : Z;            (* tr_port, kept in network byte order *)
  pex_flags : Z            (* uint8_t *)
}.

(** The object representation of a tr_port in memory, and its inverse
    (little-endian host; the round trip does not depend on the choice). *)
Definition port_bytes (p : Z) : list Z := [p mod 256; p / 256 mod 256].
Definition port_of_bytes (l : list Z) : Z :=
  match l with
  | a :: b :: _ => a + 256 * b
  | _ => 0
  end.

Fixpoint compact_to_pex_loop (n i : nat) (walk : list Z) (added_f : option (list Z))
    (added_f_len : nat) (total : nat) : list tr_pex :=
  match n with
  | O => []
  | S n' =>
      let a := take 4 walk in
      let walk1 := drop 4 walk in
      let port := port_of_bytes (take 2 walk1) in
      let walk2 := drop 2 walk1 in
      let flags :=
        match added_f with
        | Some f => if bool_decide (total = added_f_len) then default 0 (f !! i) else 0
        | None => 0
        end in
      mk_pex (mk_address TR_AF_INET (a ++ replicate 12 0)) port flags
        :: compact_to_pex_loop n' (S i) walk2 added_f added_f_len total
  end.

Definition tr_peerMgrCompactToPex (compact : list Z) (added_f : option (list Z))
    (added_f_len : nat) : list tr_pex :=
  let n := (length compact / 6)%nat in
  compact_to_pex_loop n 0 compact added_f added_f_len n.

End Mgr.

(** ** ut_pex payloads (sendPex and parseUtPex of peer-msgs.c) *)

Module Pex.

Definition ADDED_F_HOLEPUNCH : Z := 8.
Definition MAX_PEX_PEER_COUNT : nat := 50.

(** The raw strings that sendPex stores under "added", "added.f" and
    "dropped" for the IPv4 part of a diff. *)
Definition compact_blob (l : list Mgr.tr_pex) : list Z :=
  flat_map (fun p => Mgr.addr4 (Mgr.pex_addr p) ++ Mgr.port_bytes (Mgr.pex_port p)) l.

Definition flags_blob (l : list Mgr.tr_pex) : list Z :=
  map (fun p => u8 (Z.land (Mgr.pex_flags p) (Z.lnot ADDED_F_HOLEPUNCH))) l.

Definition sendPex_payload (added dropped : list Mgr.tr_pex) : list (string * list Z) :=
  (match added with
   | [] => []
   | _ => [("added"%string, compact_blob added); ("added.f"%string, flags_blob added)]
   end)
  ++ (match dropped with
      | [] => []
      | _ => [("dropped"%string, compact_blob dropped)]
      end).

(** tr_bencDictFindRaw on the decoded dictionary. *)
Definition tr_bencDictFindRaw (d : list (string * list Z)) (key : string) : option (list Z) :=
  (fun r : nat * (string * list Z) => r.2.2) <$> list_find (fun e => e.1 = key) d.

(** The IPv4 entries that parseUtPex hands to the peer manager. *)
Definition parseUtPex_added (d : list (string * list Z)) : list Mgr.tr_pex :=
  match tr_bencDictFindRaw d "added" with
  | Some added =>
      let added_f := tr_bencDictFindRaw d "added.f" in
      let added_f_len := match added_f with Some f => length f | None => 0%nat end in
      take MAX_PEX_PEER_COUNT (Mgr.tr_peerMgrCompactToPex added added_f added_f_len)
  | None => []
  end.

End Pex.

(** ** edit.c: the announce-URL editor (transmission-edit) *)

Module Edit.

(** The bencoded value (tr_benc).  The accessors below stand for the
    functions of the bencode library, whose implementation is not among the
    sources; a dictionary is an association list whose order is not
    observable through them. *)
#[warnings="-register-all"]
Inductive tr_benc :=
  | BInt (z : Z)
  | BStr (s : string)
  | BList (l : list tr_benc)
  | BDict (d : list (string * tr_benc)).

Definition dict_entries (top : tr_benc) : list (string * tr_benc) :=
  match top with BDict d => d | _ => [] end.

Definition tr_bencDictFind (top : tr_benc) (key : string) : option tr_benc :=
  (fun r : nat * (string * tr_benc) => r.2.2)
    <$> list_find (fun e => e.1 = key) (dict_entries top).

Definition tr_bencDictFindStr (top : tr_benc) (key : string) : option string :=
  match tr_bencDictFind top key with Some (BStr s) => Some s | _ => None end.

Definition tr_bencDictFindList (top : tr_benc) (key : string) : option (list tr_benc) :=
  match tr_bencDictFind top key with Some (BList l) => Some l | _ => None end.

Fixpoint assoc_remove (key : string) (d : list (string * tr_benc)) : list (string * tr_benc) :=
  match d with
  | [] => []
  | e :: rest => if bool_decide (e.1 = key) then rest else e :: assoc_remove key rest
  end.

Fixpoint assoc_replace (key : string) (v : tr_benc) (d : list (string * tr_benc))
  : list (string * tr_benc) :=
  match d with
  | [] => []
  | e :: rest =>
      if bool_decide (e.1 = key) then (key, v) :: rest
      else e :: assoc_replace key v rest
  end.

Definition tr_bencDictRemove (top : tr_benc) (key : string) : tr_benc :=
  match top with BDict d => BDict (assoc_remove key d) | _ => top end.

(** tr_bencDictAdd appends a fresh entry. *)
Definition tr_bencDictAdd (top : tr_benc) (key : string) (v : tr_benc) : tr_benc :=
  match top with BDict d => BDict (d ++ [(key, v)]) | _ => top end.

(** Overwrite the value found under [key] (the entry is edited in place
    through the pointer that tr_bencDictFind returned). *)
Definition dict_store (top : tr_benc) (key : string) (v : tr_benc) : tr_benc :=
  match top with BDict d => BDict (assoc_replace key v d) | _ => top end.

(** tr_bencDictAddStr reuses an entry with the same key if there is one. *)
Definition tr_bencDictAddStr (top : tr_benc) (key val : string) : tr_benc :=
  match tr_bencDictFind top key with
  | Some _ => dict_store top key (BStr val)
  | None => tr_bencDictAdd top key (BStr val)
  end.

Definition tr_bencGetStr (node : tr_benc) : option string :=
  match node with BStr s => Some s | _ => None end.

(** tr_bencListChild / tr_bencListSize see no children in a non-list. *)
Definition list_children (v : tr_benc) : list tr_benc :=
  match v with BList l => l | _ => [] end.

Definition node_is_url (url : string) (node : tr_benc) : bool :=
  match tr_bencGetStr node with
  | Some s => bool_decide (s = url)
  | None => false
  end.

(** removeURL, inner loop: drop the nodes of one tier that equal [url]. *)
Definition strip_tier (url : string) (tier : tr_benc) : tr_benc * bool :=
  match tier with
  | BList l => (BList (filter (fun n => node_is_url url n = false) l),
                existsb (node_is_url url) l)
  | _ => (tier, false)
  end.

Definition removeURL (metainfo : tr_benc) (url : string) : bool * tr_benc :=
  let '(changed0, m0) :=
    match tr_bencDictFindStr metainfo "announce" with
    | Some str => if bool_decide (str = url)
                  then (true, tr_bencDictRemove metainfo "announce")
                  else (false, metainfo)
    | None => (false, metainfo)
    end in
  let '(changed1, m1, announce_list) :=
    match tr_bencDictFindList m0 "announce-list" with
    | Some tiers =>
        let stripped := map (strip_tier url) tiers in
        let tiers' := filter (fun t => list_children t <> []) (map fst stripped) in
        let changed := changed0 || existsb snd stripped in
        match tiers' with
        | [] => (changed, tr_bencDictRemove m0 "announce-list", [])
        | _ => (changed, dict_store m0 "announce-list" (BList tiers'), tiers')
        end
    | None => (changed0, m0, [])
    end in
  (* if "announce" is gone and a tracker is left, promote it *)
  let m2 :=
    if changed1 then
      match tr_bencDictFindStr m1 "announce" with
      | Some _ => m1
      | None =>
          match announce_list with
          | tier :: _ =>
              match list_children tier with
              | node :: _ =>
                  match tr_bencGetStr node with
                  | Some str => tr_bencDictAddStr m1 "announce" str
                  | None => m1
                  end
              | [] => m1
              end
          | [] => m1
          end
      end
    else m1 in
  (changed1, m2).

(** strstr: the offset of the first occurrence of [pat] in [str]. *)
Fixpoint strstr (str pat : string) : option nat :=
  if String.prefix pat str then Some 0%nat
  else
    match str with
    | EmptyString => None
    | String _ rest => S <$> strstr rest pat
    end.

Definition string_drop (n : nat) (s : string) : string :=
  String.substring n (String.length s - n) s.

(** replaceSubstr.  With an empty [pat] the C loop never ends (strstr keeps
    matching at the same place); the model then runs out of fuel and
    answers None. *)
Fixpoint replaceSubstr_loop (fuel : nat) (str pat out : string) : option string :=
  match fuel with
  | O => None
  | S fuel' =>
      match strstr str pat with
      | Some k =>
          (fun rest => String.append (String.substring 0 k str) (String.append out rest))
            <$> replaceSubstr_loop fuel' (string_drop (k + String.length pat) str) pat out
      | None => Some str
      end
  end.

Definition replaceSubstr (str pat out : string) : option string :=
  replaceSubstr_loop (S (String.length str)) str pat out.

Definition node_contains (pat : string) (node : tr_benc) : bool :=
  match tr_bencGetStr node with
  | Some s => bool_decide (is_Some (strstr s pat))
  | None => false
  end.

Definition replace_in_node (pat out : string) (node : tr_benc) : option tr_benc :=
  match tr_bencGetStr node with
  | Some s =>
      match strstr s pat with
      | Some _ => BStr <$> replaceSubstr s pat out
      | None => Some node
      end
  | None => Some node
  end.

Definition replace_in_tier (pat out : string) (tier : tr_benc) : option tr_benc :=
  match tier with
  | BList l => BList <$> mapM (replace_in_node pat out) l
  | _ => Some tier
  end.

Definition replaceURL (metainfo : tr_benc) (pat out : string) : option (bool * tr_benc) :=
  '(changed0, m0) ←
    match tr_bencDictFindStr metainfo "announce" with
    | Some str =>
        match strstr str pat with
        | Some _ =>
            (fun newstr => (true, tr_bencDictAddStr metainfo "announce" newstr))
              <$> replaceSubstr str pat out
        | None => Some (false, metainfo)
        end
    | None => Some (false, metainfo)
    end;
  match tr_bencDictFindList m0 "announce-list" with
  | Some tiers =>
      tiers' ← mapM (replace_in_tier pat out) tiers;
      Some (changed0
            || existsb (fun t => existsb (node_contains pat) (list_children t)) tiers,
            dict_store m0 "announce-list" (BList tiers'))
  | None => Some (changed0, m0)
  end.

Definition announce_list_has_url (announce_list : list tr_benc) (url : string) : bool :=
  existsb (fun tier => existsb (node_is_url url) (list_children tier)) announce_list.

Definition addURL (metainfo : tr_benc) (url : string) : bool * tr_benc :=
  let had_announce := tr_bencDictFindStr metainfo "announce" in
  let had_announce_list := tr_bencDictFindList metainfo "announce-list" in
  match had_announce, had_announce_list with
  | None, None =>
      (* this new tracker is the only one, so add it to "announce" *)
      (true, tr_bencDictAddStr metainfo "announce" url)
  | _, _ =>
      let '(changed0, announce_list) :=
        match had_announce_list with
        | Some l => (false, l)
        | None =>
            match had_announce with
            | Some announce => (true, [BList [BStr announce]])
            | None => (false, [])
            end
        end in
      let '(changed1, announce_list') :=
        if negb (announce_list_has_url announce_list url)
        then (true, announce_list ++ [BList [BStr url]])
        else (changed0, announce_list) in
      (changed1,
       match had_announce_list with
       | Some _ => dict_store metainfo "announce-list" (BList announce_list')
       | None => tr_bencDictAdd metainfo "announce-list" (BList announce_list')
       end)
  end.

(** The command line after parseCommandLine. *)
Record edit_options := mk_options {
  add : option string;
  deleteme : option string;
  replace0 : option string;
  replace1 : option string
}.

(** The three steps of main's per-file loop on the pair ([changed], [top]). *)
Definition step_delete (o : edit_options) (s : bool * tr_benc) : bool * tr_benc :=
  match deleteme o with
  | Some url => let '(c, top') := removeURL s.2 url in (s.1 || c, top')
  | None => s
  end.

Definition step_add (o : edit_options) (s : bool * tr_benc) : bool * tr_benc :=
  match add o with
  | Some url => let '(c, top') := addURL s.2 url in (c, top')
  | None => s
  end.

Definition step_replace (o : edit_options) (s : bool * tr_benc) : option (bool * tr_benc) :=
  match replace0 o, replace1 o with
  | Some pat, Some out =>
      '(c, top') ← replaceURL s.2 pat out; Some (s.1 || c, top')
  | _, _ => Some s
  end.

(** One iteration of the loop for a file that loaded: the final [changed]
    flag and the tree; the file is rewritten exactly when the flag is set. *)
Definition edit_file (o : edit_options) (top : tr_benc) : option (bool * tr_benc) :=
  step_replace o (step_add o (step_delete o (false, top))).

(** main's loop over the files; [None] stands for a file that failed to
    load.  The result is changedCount and the new contents of the files
    that were written (None for a file left alone). *)
Fixpoint edit_files (o : edit_options) (files : list (option tr_benc))
  : option (Z * list (option tr_benc)) :=
  match files with
  | [] => Some (0, [])
  | None :: rest =>
      match edit_files o rest with
      | Some (n, out) => Some (n, None :: out)
      | None => None
      end
  | Some top :: rest =>
      match edit_file o top with
      | Some (changed, top') =>
          match edit_files o rest with
          | Some (n, out) =>
              Some (if changed : bool then n + 1 else n,
                    (if changed : bool then Some top' else None) :: out)
          | None => None
          end
      | None => None
      end
  end.

End Edit.

(** * Vocabulary of the properties *)

(** A freshly created wire session (tr_peerMsgsNew on a zeroed tr_peer):
    both sides choked, nobody interested, the reader waiting for a length. *)
Definition fresh_peer : tr_peer :=
  mk_peer true false true false 0 0 false (fun _ => false) false [] 0 [] [] [].

Definition fresh_msgs : Wire.tr_peermsgs :=
  Wire.mk_msgs Wire.AWAITING_BT_LENGTH 0 0 (mk_req 0 0 0) [] [] Wire.LOW_PRIORITY_INTERVAL_SECS
    (replicate 512 (mk_req 0 0 0)) 0 0 0.

Definition fresh_conn : Wire.conn := (fresh_peer, fresh_msgs).

(** The moments at which a sequence of tr_peerMsgsSetChoke calls, given as
    (time of the call, requested state), changes the peer's choke state. *)
Fixpoint choke_changes (c : Wire.conn) (calls : list (Z * bool)) : list Z :=
  match calls with
  | [] => []
  | (now, choke) :: rest =>
      let c' := Wire.tr_peerMsgsSetChoke now c choke in
      (if eqb (peerIsChoked c'.1) (peerIsChoked c.1) then [] else [now])
      ++ choke_changes c' rest
  end.

(** The requests that are live in the peer's queue. *)
Definition queued_requests (c : Wire.conn) : list peer_request :=
  take (Z.to_nat (pendingReqsToClient c.1)) (Wire.peerAskedFor c.2).

(** An IPv4 peer-exchange entry as C can hold it. *)
Definition pex_ipv4_wf (p : Mgr.tr_pex) : Prop :=
  Mgr.addr_type (Mgr.pex_addr p) = Mgr.TR_AF_INET
  /\ (4 <= length (Mgr.addr_raw (Mgr.pex_addr p)))%nat
  /\ is_u16 (Mgr.pex_port p)
  /\ is_u8 (Mgr.pex_flags p).

(** Two entries agree on address, port and every flag but holepunch. *)
Definition pex_same_but_holepunch (o d : Mgr.tr_pex) : Prop :=
  Mgr.addr_type (Mgr.pex_addr d) = Mgr.addr_type (Mgr.pex_addr o)
  /\ Mgr.addr4 (Mgr.pex_addr d) = Mgr.addr4 (Mgr.pex_addr o)
  /\ Mgr.pex_port d = Mgr.pex_port o
  /\ Z.land (Mgr.pex_flags d) (Z.lnot Pex.ADDED_F_HOLEPUNCH)
     = Z.land (Mgr.pex_flags o) (Z.lnot Pex.ADDED_F_HOLEPUNCH).


(** A metainfo with two tiers and the command line [-d a -a b]. *)
Definition two_tier_metainfo : Edit.tr_benc :=
  Edit.BDict [("announce"%string, Edit.BStr "http://a/announce");
         ("announce-list"%string,
          Edit.BList [Edit.BList [Edit.BStr "http://a/announce"]; Edit.BList [Edit.BStr "http://b/announce"]])].

Definition delete_a_add_b : Edit.edit_options :=
  Edit.mk_options (Some "http://b/announce"%string) (Some "http://a/announce"%string) None None.


(** A torrent that is fully downloaded and serves every request, and a
    session whose peer is unchoked and has 511 requests queued. *)
Definition serving_torrent : tr_torrent :=
  mk_torrent true true true 4 16384 4 50 (fun _ => 0) (fun _ => false)
    (fun _ => true) (fun _ => true) (fun _ => true) (fun _ => 0) 0
    (fun i o => i * 4 + o / 16384) (fun b => b / 4) (fun _ => 16384)
    (fun i => (i * 4, i * 4 + 3)) (fun b => mk_req (b / 4) (b mod 4 * 16384) 16384)
    false.

Definition conn_with_511_queued : Wire.conn :=
  (set_pendingReqsToClient 511 (set_peerIsChoked false fresh_peer), fresh_msgs).

(** A reader environment whose collaborators accept everything. *)
Definition idle_env : Wire.wire_env :=
  Wire.mk_wire_env (fun _ _ => None) (fun _ => true) (fun c => c)
    (fun _ _ inbuf c => inl (c, inbuf, [])).

(** A Piece frame announcing 5 bytes, followed by eight more bytes, and the
    first fourteen bytes of a Piece frame announcing 16394 bytes. *)
Definition short_piece_frame : list Z := [0; 0; 0; 5; 7; 0; 0; 0; 0; 0; 0; 0; 0].
Definition long_piece_frame : list Z := [0; 0; 64; 10; 7; 0; 0; 0; 0; 0; 0; 0; 0; 1].

(** The test that peerMadeRequest applies before it queues a request. *)
Definition request_allowed (tor : tr_torrent) (c : Wire.conn) (req : peer_request) : bool :=
  Wire.requestIsValid tor req && tr_cpPieceIsComplete tor (req_index req)
  && negb (peerIsChoked c.1) && (pendingReqsToClient c.1 + 1 <? Wire.REQQ).

(** What the "added" and "added.f" bytes of one entry decode to. *)
Definition decoded_entry (p : Mgr.tr_pex) : Mgr.tr_pex :=
  Mgr.mk_pex (Mgr.mk_address Mgr.TR_AF_INET (Mgr.addr4 (Mgr.pex_addr p) ++ replicate 12 0))
    (Mgr.pex_port p) (u8 (Z.land (Mgr.pex_flags p) (Z.lnot Pex.ADDED_F_HOLEPUNCH))).

(** Two IPv4 entries; the first carries the holepunch flag. *)
Definition sample_pex : list Mgr.tr_pex :=
  [Mgr.mk_pex (Mgr.mk_address Mgr.TR_AF_INET [10; 0; 0; 1; 0; 0; 0; 0; 0; 0; 0; 0; 0; 0; 0; 0])
     51413 11;
   Mgr.mk_pex (Mgr.mk_address Mgr.TR_AF_INET [192; 168; 1; 20; 0; 0; 0; 0; 0; 0; 0; 0; 0; 0; 0; 0])
     6881 18].

(** ** The ordering of weighted pieces *)

(** The compound ordering of two pieces for a given primary key [w]:
    lower [w] first, then higher file priority, then lower replication
    count, then lower salt. *)
Definition compound_order (w : Mgr.weighted_piece -> Z) (tr : tr_torrent) (rep : Z -> Z)
    (a b : Mgr.weighted_piece) : Prop :=
  w a < w b
  \/ (w a = w b
      /\ (piecePriority tr (Mgr.index b) < piecePriority tr (Mgr.index a)
          \/ (piecePriority tr (Mgr.index a) = piecePriority tr (Mgr.index b)
              /\ (Mgr.rep_of rep (Mgr.index a) < Mgr.rep_of rep (Mgr.index b)
                  \/ (Mgr.rep_of rep (Mgr.index a) = Mgr.rep_of rep (Mgr.index b)
                      /\ Mgr.salt a <= Mgr.salt b))))).

(** The primary key as the specification words it: missing minus pending,
    and blocks-per-piece plus pending for a piece with more pending than
    missing. *)
Definition claimed_weight (tr : tr_torrent) (a : Mgr.weighted_piece) : Z :=
  let missing := tr_cpMissingBlocksInPiece tr (Mgr.index a) in
  let pending := Mgr.requestCount a in
  if missing <? pending then blockCountInPiece tr + pending
  else missing - pending.

Definition claimed_order (tr : tr_torrent) (rep : Z -> Z) :=
  compound_order (claimed_weight tr) tr rep.

(** The ordering with the primary key of the code: a piece with at least as
    many pending as missing goes to the back. *)
Definition weight_order (tr : tr_torrent) (rep : Z -> Z) :=
  compound_order (Mgr.piece_weight tr) tr rep.

Definition adjacent_pairs {A} (R : A -> A -> Prop) (l : list A) : Prop :=
  forall i a b, l !! i = Some a -> l !! S i = Some b -> R a b.

(** The invariant of the sorted-by-weight state: the flag is set and the
    array is in the order of comparePieceByWeight. *)
Definition by_weight (t : Mgr.Torrent) : Mgr.weighted_piece -> Mgr.weighted_piece -> Prop :=
  Mgr.cmp_le (Mgr.comparePieceByWeight (Mgr.tor t) (Mgr.pieceReplication t)).

Definition weight_sorted (t : Mgr.Torrent) : Prop :=
  Mgr.pieceSortState t = Mgr.PIECES_SORTED_BY_WEIGHT
  /\ StronglySorted (by_weight t) (Mgr.pieces t).

(** The states of a torrent in which the piece list was sorted by weight
    and has since been changed only by the operations that re-position the
    pieces they touch. *)
Inductive weight_sorted_run : Mgr.Torrent -> Prop :=
  | run_sort (t : Mgr.Torrent) :
      weight_sorted_run (Mgr.pieceListSort t Mgr.PIECES_SORTED_BY_WEIGHT)
  | run_rebuild (rand : nat -> Z) (t : Mgr.Torrent) :
      isSeed (Mgr.tor t) = false ->
      weight_sorted_run (Mgr.pieceListRebuild rand t)
  | run_resort (t : Mgr.Torrent) (pos : nat) (p' : Mgr.weighted_piece) :
      weight_sorted_run t ->
      weight_sorted_run
        (Mgr.pieceListResortPiece (Mgr.set_pieces (<[pos := p']> (Mgr.pieces t)) t) (Some pos))
  | run_remove_request (t : Mgr.Torrent) (blk : Z) :
      weight_sorted_run t ->
      weight_sorted_run (Mgr.pieceListRemoveRequest t blk)
  | run_remove_piece (t : Mgr.Torrent) (piece : Z) :
      weight_sorted_run t ->
      weight_sorted_run (Mgr.pieceListRemovePiece t piece)
  | run_incr_replication (t : Mgr.Torrent) (ix : Z) :
      weight_sorted_run t ->
      NoDup (Mgr.index <$> Mgr.pieces t) ->
      weight_sorted_run (Mgr.tr_incrReplicationOfPiece t ix).

(** A torrent of 4-block pieces: piece 0 has two blocks missing and both
    requested, piece 1 has three blocks missing and none requested. *)
Definition two_piece_torrent : tr_torrent :=
  mk_torrent true false true 2 16384 4 50 (fun _ => 0) (fun _ => false)
    (fun _ => true) (fun _ => false) (fun _ => false)
    (fun i => if i =? 0 then 2 else 3) 81920
    (fun i o => i * 4 + o / 16384) (fun b => b / 4) (fun _ => 16384)
    (fun i => (i * 4, i * 4 + 3)) (fun b => mk_req (b / 4) (b mod 4 * 16384) 16384)
    false.

Definition two_piece_list : Mgr.Torrent :=
  Mgr.mk_Torrent [] [] two_piece_torrent []
    [Mgr.mk_piece 0 7 2; Mgr.mk_piece 1 9 0] Mgr.PIECES_UNSORTED (fun _ => 1) 0 0 0 0.

(** ** Timed cancellation *)

(** The requests that a refill-upkeep tick at [now] cancels. *)
Definition cancelled_requests (now : Z) (st : Mgr.peer_store) (t : Mgr.Torrent)
  : list Mgr.block_request :=
  filter (fun it => Mgr.request_is_stale now st (Mgr.tor t) it = true) (Mgr.requests t).

(** The peer of the request has a wire session that is receiving the
    payload of the very block the request asks for. *)
Definition receiving_that_block (st : Mgr.peer_store) (tr : tr_torrent)
    (it : Mgr.block_request) : Prop :=
  exists p m, st !! Mgr.peer it = Some (p, Some m)
    /\ Wire.state m = Wire.AWAITING_BT_PIECE
    /\ Mgr.block it = _tr_block tr (req_index (Wire.incoming_blockReq m))
                         (req_offset (Wire.incoming_blockReq m)).

(** The peer of the request is in the middle of receiving some Piece. *)
Definition receiving_a_piece (st : Mgr.peer_store) (it : Mgr.block_request) : Prop :=
  exists p m, st !! Mgr.peer it = Some (p, Some m)
    /\ Wire.state m = Wire.AWAITING_BT_PIECE.

(** The bytes of the Cancel message for a block. *)
Definition cancel_message (tr : tr_torrent) (blk : Z) : list Z :=
  Wire.msg_request_like Wire.BT_CANCEL (tr_torrentGetBlockLocation tr blk).

(** One request less pending on the piece [ix], if any is counted. *)
Definition dec_request (ix : Z) (p : Mgr.weighted_piece) : Mgr.weighted_piece :=
  if (Mgr.index p =? ix) && (0 <? Mgr.requestCount p)
  then Mgr.set_piece_requestCount (Mgr.requestCount p - 1) p
  else p.

(** The number of cancelled requests whose block lies in piece [ix]. *)
Definition cancelled_in_piece (tr : tr_torrent) (cancelled : list Mgr.block_request)
    (ix : Z) : Z :=
  zlen (filter (fun it => tr_torBlockPiece tr (Mgr.block it) = ix) cancelled).

(** A peer in the middle of receiving block 5, with old requests for the
    blocks 5 and 6 of piece 1 outstanding. *)
Definition reading_msgs : Wire.tr_peermsgs :=
  Wire.mk_msgs Wire.AWAITING_BT_PIECE Wire.BT_PIECE 16393 (mk_req 1 16384 16384) [] []
    Wire.LOW_PRIORITY_INTERVAL_SECS (replicate 512 (mk_req 0 0 0)) 0 0 0.

Definition reading_store : Mgr.peer_store :=
  {[ 1%N := (set_pendingReqsToPeer 2 fresh_peer, Some reading_msgs) ]}.

Definition reading_torrent : Mgr.Torrent :=
  Mgr.mk_Torrent [1%N] [] two_piece_torrent
    [Mgr.mk_breq 5 1%N 0; Mgr.mk_breq 6 1%N 0]
    [Mgr.mk_piece 1 9 2; Mgr.mk_piece 0 7 0] Mgr.PIECES_SORTED_BY_WEIGHT (fun _ => 1) 0 0 0 0.

(** requestCount is an int16_t that counts requests. *)
Definition is_int16_count (p : Mgr.weighted_piece) : Prop := 0 <= Mgr.requestCount p <= 32767.

(** The last loop of refillUpkeep, over the cancelled requests. *)
Definition remove_requests (t : Mgr.Torrent) (cancel : list Mgr.block_request) : Mgr.Torrent :=
  foldl (fun t' it => Mgr.pieceListRemoveRequest t' (Mgr.block it)) t cancel.

(** ** Interest *)

(** The classification of a candidate as the specification words it. *)
Definition claimed_class (blocks cancels : Z) : Mgr.tr_rechoke_state :=
  if bool_decide (blocks = 0 /\ cancels = 0) then Mgr.RECHOKE_STATE_UNTESTED
  else if bool_decide (cancels = 0 \/ cancels * 10 < blocks) then Mgr.RECHOKE_STATE_GOOD
  else Mgr.RECHOKE_STATE_BAD.

(** Good before untested before bad, then by salt. *)
Definition rechoke_order (a b : Mgr.tr_rechoke_info) : Prop :=
  Mgr.rechoke_state_rank (Mgr.ri_rechoke_state a) < Mgr.rechoke_state_rank (Mgr.ri_rechoke_state b)
  \/ (Mgr.ri_rechoke_state a = Mgr.ri_rechoke_state b /\ Mgr.ri_salt a <= Mgr.ri_salt b).

(** The peer at [pr] has a piece that we want. *)
Definition is_candidate (st : Mgr.peer_store) (tr : tr_torrent) (pr : Mgr.peer_ptr) : Prop :=
  exists p m, st !! pr = Some (p, m) /\ Mgr.isPeerInteresting tr p = true.

Global Instance is_candidate_dec (st : Mgr.peer_store) (tr : tr_torrent) (pr : Mgr.peer_ptr) :
  Decision (is_candidate st tr pr).
Proof.
  unfold is_candidate.
  destruct (st !! pr) as [[p m]|] eqn:Hst.
  - destruct (Mgr.isPeerInteresting tr p) eqn:Hi.
    + left. by exists p, m.
    + right. intros (p' & m' & Heq & Hi'). injection Heq as <- <-. congruence.
  - right. by intros (p' & m' & Heq & _).
Defined.

(** The state in which a candidate is put by its recent history. *)
Definition history_class (now : Z) (st : Mgr.peer_store) (pr : Mgr.peer_ptr)
  : Mgr.tr_rechoke_state :=
  match st !! pr with
  | Some (p, _) =>
      claimed_class (tr_historyGet (blocksSentToClient p) now 60)
                    (tr_historyGet (cancelsSentToPeer p) now 60)
  | None => Mgr.RECHOKE_STATE_UNTESTED
  end.

(** The peers of a torrent are distinct live objects with a wire session,
    and their cancel histories hold counts. *)
Definition peers_wf (st : Mgr.peer_store) (t : Mgr.Torrent) : Prop :=
  NoDup (Mgr.peers t)
  /\ Forall (fun pr => exists p m, st !! pr = Some (p, Some m)
                        /\ Forall (fun e => 0 <= e.2) (cancelsSentToPeer p))
            (Mgr.peers t).

(** What the Interested / NotInterested declaration does to a peer. *)
Definition declared (b : bool) (before after : Mgr.peer_obj) : Prop :=
  exists p m p' m',
    before = (p, Some m) /\ after = (p', Some m')
    /\ clientIsInterested p' = b
    /\ Wire.outMessages m'
       = Wire.outMessages m
         ++ (if eqb b (clientIsInterested p) then [] else Wire.msg_interest b).

(** Three peers that all have the wanted piece 1: the first answered 20
    blocks with one cancel, the second is new, the third was only cancelled. *)
Definition wanting_torrent (allowed : bool) : tr_torrent :=
  mk_torrent true false allowed 2 16384 4 2 (fun _ => 0) (fun _ => false)
    (fun _ => true) (fun i => i =? 0) (fun b => b <? 4)
    (fun i => if i =? 0 then 0 else 4) 65536
    (fun i o => i * 4 + o / 16384) (fun b => b / 4) (fun _ => 16384)
    (fun i => (i * 4, i * 4 + 3)) (fun b => mk_req (b / 4) (b mod 4 * 16384) 16384)
    false.

Definition peer_with_history (blocks cancels : nat) : tr_peer :=
  mk_peer true false false false 0 0 false (fun _ => true) false [] 0
    (replicate blocks (100, 1)) (replicate cancels (100, 1)) [].

Definition three_peer_store : Mgr.peer_store :=
  {[ 1%N := (peer_with_history 0 3, Some fresh_msgs);
     2%N := (peer_with_history 0 0, Some fresh_msgs);
     3%N := (peer_with_history 20 1, Some fresh_msgs) ]}.

Definition three_peer_torrent (allowed : bool) : Mgr.Torrent :=
  Mgr.mk_Torrent [1%N; 2%N; 3%N] [] (wanting_torrent allowed) [] [] Mgr.PIECES_UNSORTED
    (fun _ => 3) 0 2 100 0.

(** Double-precision expressions evaluated by exact integer arithmetic, for
    the examples. *)
Definition exact_double_ops : Mgr.double_ops :=
  Mgr.mk_double_ops
    (fun interested cancels blocks =>
       interested - interested * Z.min (2 * cancels) (cancels + blocks) `quot` (2 * (cancels + blocks)))
    (fun since => 15 * Z.min since 120 `quot` 120).

(** ** Request selection *)

(** The ledger is kept sorted by block, then by peer. *)
Definition ledger_sorted (l : list Mgr.block_request) : Prop :=
  StronglySorted (Mgr.cmp_le Mgr.compareReqByBlock) l.

(** The peers from which a block is currently requested. *)
Definition requesters (l : list Mgr.block_request) (blk : Z) : list Mgr.peer_ptr :=
  Mgr.peer <$> filter (fun r => Mgr.block r = blk) l.

(** The conditions under which a block that is already requested may be
    requested once more, for a peer with [pending] requests outstanding that
    still wants [wanted] blocks. *)
Definition duplicate_allowed (factor pending wanted : Z) (prs : list Mgr.peer_ptr)
    (pr : Mgr.peer_ptr) : Prop :=
  factor <> 0 /\ factor <= pending + wanted /\ (length prs <= 1)%nat /\ pr ∉ prs.

(** The bookkeeping of one call of tr_peerMgrGetNextRequests without
    intervals, relative to the ledger [l0], the endgame factor [factor] and
    the pending count [pending0] at the start of the walk. *)
Definition selection_inv (tr : tr_torrent) (l0 : list Mgr.block_request) (factor pending0 : Z)
    (pr : Mgr.peer_ptr) (numwant : Z) (a : Mgr.request_acc) : Prop :=
  Mgr.tor (Mgr.acc_torrent a) = tr
  /\ Mgr.endgame (Mgr.acc_torrent a) = factor
  /\ ledger_sorted (Mgr.requests (Mgr.acc_torrent a))
  /\ (forall b, b ∉ Mgr.acc_setme a ->
        requesters (Mgr.requests (Mgr.acc_torrent a)) b = requesters l0 b)
  /\ (forall b, b ∈ Mgr.acc_setme a ->
        pr ∈ requesters (Mgr.requests (Mgr.acc_torrent a)) b)
  /\ Mgr.pending_of (Mgr.acc_store a) pr <= pending0 + Mgr.acc_got a
  /\ 0 <= Mgr.acc_got a
  /\ (forall b, b ∈ Mgr.acc_setme a ->
        requesters l0 b <> [] -> duplicate_allowed factor pending0 numwant (requesters l0 b) pr).

(** A one-piece torrent with two blocks, one block's worth of data left;
    block 0 is requested from peer 1, and peer 2, which has the piece and
    nothing pending, asks for one block. *)
Definition last_piece_torrent : tr_torrent :=
  mk_torrent true false true 1 16384 2 50 (fun _ => 0) (fun _ => false)
    (fun _ => true) (fun _ => false) (fun _ => false) (fun _ => 2) 16384
    (fun i o => i * 2 + o / 16384) (fun b => b / 2) (fun _ => 16384)
    (fun i => (i * 2, i * 2 + 1)) (fun b => mk_req (b / 2) (b mod 2 * 16384) 16384)
    false.

Definition last_piece_store : Mgr.peer_store :=
  {[ 1%N := (set_pendingReqsToPeer 1 (peer_with_history 0 0), Some fresh_msgs);
     2%N := (peer_with_history 0 0, Some fresh_msgs) ]}.

Definition last_piece_state : Mgr.Torrent :=
  Mgr.mk_Torrent [1%N; 2%N] [] last_piece_torrent [Mgr.mk_breq 0 1%N 0]
    [Mgr.mk_piece 0 5 1] Mgr.PIECES_SORTED_BY_WEIGHT (fun _ => 2) 0 5 0 0.
(** ** peer-mgr.c: what the manager does on the events of a peer *)

Module Requests.
Import Mgr.

Definition MAX_BAD_PIECES_PER_PEER : Z := 5.

Definition set_blocksSentToClient (h : tr_recentHistory) (p : tr_peer) : tr_peer :=
  mk_peer (peerIsChoked p) (peerIsInterested p) (clientIsChoked p)
    (clientIsInterested p) (pendingReqsToClient p) (pendingReqsToPeer p)
    (io_supportsFEXT p) (have p) (peer_isSeed p) (blame p) (chokeChangedAt p)
    h (cancelsSentToPeer p) (cancelsSentToClient p).

Definition set_tor (tr : tr_torrent) (t : Torrent) : Torrent :=
  mk_Torrent (peers t) (webseeds t) tr (requests t) (pieces t) (pieceSortState t)
    (pieceReplication t) (interestedCount t) (maxPeers t) (lastCancel t) (endgame t).

Definition removeRequestFromTables (st : peer_store) (t : Torrent) (blk : Z) (pr : peer_ptr)
  : peer_store * Torrent :=
  let '(st1, t1) := requestListRemove st t blk pr in
  (st1, pieceListRemoveRequest t1 blk).

(** peerDeclinedAllRequests: the blocks asked of [pr] are collected first
    and then given up one by one. *)
Definition peerDeclinedAllRequests (st : peer_store) (t : Torrent) (pr : peer_ptr)
  : peer_store * Torrent :=
  let blocks := block <$> filter (fun r => peer r = pr) (requests t) in
  foldl (fun s blk => removeRequestFromTables s.1 s.2 blk pr) (st, t) blocks.

(** The strike bookkeeping of a connected peer, kept beside the peer
    objects: peer->strikes, peer->doPurge and the MYFLAG_BANNED bit of its
    atom. *)
Record peer_marks := mk_marks {
  strikes : Z;          (* uint8_t *)
  doPurge : bool;
  banned : bool
}.

Abbreviation marks_store := (gmap N peer_marks).

Definition addStrike (pr : peer_ptr) (mk : marks_store) : marks_store :=
  alter (fun k =>
           let s := u8 (strikes k + 1) in
           if MAX_BAD_PIECES_PER_PEER <=? s then mk_marks s true true
           else mk_marks s (doPurge k) (banned k)) pr mk.

Definition tr_peerMgrSetBlame (st : peer_store) (mk : marks_store) (t : Torrent)
    (pieceIndex : Z) (success : bool) : marks_store :=
  if success then mk
  else
    foldl (fun mk' pr =>
             match st !! pr with
             | Some o => if bool_decide (pieceIndex ∈ blame o.1) then addStrike pr mk' else mk'
             | None => mk'
             end) mk (peers t).

Definition protocolSendHave (ix : Z) (m : Wire.tr_peermsgs) : Wire.tr_peermsgs :=
  Wire.pokeBatchPeriod Wire.LOW_PRIORITY_INTERVAL_SECS
    (Wire.add_out (be32 5 ++ [Wire.BT_HAVE] ++ be32 ix) m).

(** tr_peerMsgsHave; updateInterest has an empty body. *)
Definition tr_peerMsgsHave (ix : Z) (m : Wire.tr_peermsgs) : Wire.tr_peermsgs :=
  protocolSendHave ix m.

(** What peerCallbackFunc needs from the rest of the library: the block
    count of the torrent, the completion update and the checksum test. *)
Record mgr_env := mk_mgr_env {
  blockCount : Z;
  tr_cpBlockAdd : tr_torrent -> Z -> tr_torrent;
  tr_torrentCheckPiece : tr_torrent -> Z -> bool
}.

(** GOT_BLOCK, the loop over the other peers the block was asked of. *)
Definition cancel_duplicate (now blk : Z) (s : peer_store * Torrent) (p : peer_ptr)
  : peer_store * Torrent :=
  let st1 :=
    match s.1 !! p with
    | Some (po, Some m) =>
        <[p := (set_cancelsSentToPeer (tr_historyAdd (cancelsSentToPeer po) now 1) po,
                Some (Wire.tr_peerMsgsCancel (tor s.2) m blk))]> s.1
    | _ => s.1
    end in
  removeRequestFromTables st1 s.2 blk p.

Definition send_have_to_all (ix : Z) (st : peer_store) (prs : list peer_ptr) : peer_store :=
  foldl (fun s q => alter (fun o : peer_obj => (o.1, tr_peerMsgsHave ix <$> o.2)) q s) st prs.

(** peerCallbackFunc on the events that a wire session publishes.  The
    transfer statistics of the torrent, the announcer byte counts, the
    dirty flag, the piece-data time of the atom and the per-file completion
    work are outside the modelled state. *)
Definition peerCallbackFunc (env : mgr_env) (now : Z) (st : peer_store) (mk : marks_store)
    (t : Torrent) (pr : peer_ptr) (e : Wire.tr_peer_event)
  : peer_store * marks_store * Torrent :=
  match e with
  | Wire.TR_PEER_CLIENT_GOT_DATA _ _ => (st, mk, t)
  | Wire.TR_PEER_CLIENT_GOT_REJ req =>
      let b := _tr_block (tor t) (req_index req) (req_offset req) in
      if b <? blockCount env then
        let '(st1, t1) := removeRequestFromTables st t b pr in (st1, mk, t1)
      else (st, mk, t)
  | Wire.TR_PEER_CLIENT_GOT_CHOKE =>
      let '(st1, t1) := peerDeclinedAllRequests st t pr in (st1, mk, t1)
  | Wire.TR_PEER_CLIENT_GOT_BLOCK req =>
      let pieceIndex := req_index req in
      let blk := _tr_block (tor t) pieceIndex (req_offset req) in
      let '(st1, t1) := removeRequestFromTables st t blk pr in
      (* remove additional block requests and send cancel to peers *)
      let '(st2, t2) := foldl (cancel_duplicate now blk) (st1, t1) (getBlockRequestPeers t1 blk) in
      let st3 :=
        alter (on_peer_obj (fun p =>
                 set_blocksSentToClient (tr_historyAdd (blocksSentToClient p) now 1) p))
              pr st2 in
      if tr_cpBlockIsComplete (tor t2) blk then (st3, mk, t2)
      else
        let t3 := set_tor (tr_cpBlockAdd env (tor t2) blk) t2 in
        let t4 := pieceListResortPiece t3 (pieceListLookup t3 pieceIndex) in
        if tr_cpPieceIsComplete (tor t4) pieceIndex then
          let ok := tr_torrentCheckPiece env (tor t4) pieceIndex in
          let mk1 := tr_peerMgrSetBlame st3 mk t4 pieceIndex ok in
          if negb ok then (st3, mk1, t4)
          else (send_have_to_all pieceIndex st3 (peers t4), mk1,
                pieceListRemovePiece t4 pieceIndex)
        else (st3, mk, t4)
  | Wire.TR_PEER_ERROR err =>
      match err with
      | ERANGE | EMSGSIZE | ENOTCONN =>
          (st, alter (fun k => mk_marks (strikes k) true (banned k)) pr mk, t)
      | _ => (st, mk, t)
      end
  end.

End Requests.

(** Vocabulary for the ledger. *)

(** The entries of the ledger that ask block [blk] of peer [pr]. *)
Definition asks (blk : Z) (pr : Mgr.peer_ptr) (r : Mgr.block_request) : Prop :=
  Mgr.block r = blk /\ Mgr.peer r = pr.

Global Instance asks_dec (blk : Z) (pr : Mgr.peer_ptr) (r : Mgr.block_request) :
  Decision (asks blk pr r).
Proof. unfold asks. apply _. Defined.

(** No peer object lives at the NULL address and the pending counters are
    not negative. *)
Definition store_wf (st : Mgr.peer_store) : Prop :=
  st !! Mgr.NULL = None
  /\ forall pr o, st !! pr = Some o -> 0 <= pendingReqsToPeer o.1.

(** A torrent with one piece of two blocks, both asked of peer 1 and the
    first one of peer 2 as well. *)
Definition shared_block_state : Mgr.Torrent :=
  Mgr.mk_Torrent [1%N; 2%N] [] last_piece_torrent
    [Mgr.mk_breq 0 1%N 0; Mgr.mk_breq 0 2%N 3; Mgr.mk_breq 1 1%N 5]
    [Mgr.mk_piece 0 5 3] Mgr.PIECES_SORTED_BY_WEIGHT (fun _ => 2) 0 5 0 1.

Definition shared_block_store : Mgr.peer_store :=
  {[ 1%N := (set_pendingReqsToPeer 2 (peer_with_history 0 0), Some fresh_msgs);
     2%N := (set_pendingReqsToPeer 1 (peer_with_history 0 0), Some fresh_msgs) ]}.

(** The peer [q] has a wire session whose output buffer starts with [out]. *)
Definition has_sent (st : Mgr.peer_store) (q : Mgr.peer_ptr) (out : list Z) : Prop :=
  exists p m, st !! q = Some (p, Some m) /\ out `prefix_of` Wire.outMessages m.

(** A library whose checksum test always succeeds and whose completion
    update is not looked at. *)
Definition plain_env : Requests.mgr_env :=
  Requests.mk_mgr_env 2 (fun tr _ => tr) (fun _ _ => true).

(** What the two loops of tr_peerMgrGetNextRequests keep true of the table
    they fill when no intervals are asked for: [l0] is the ledger and [st0]
    the peer objects at the start of the call. *)
Definition request_table_inv (now : Z) (tr : tr_torrent) (st0 : Mgr.peer_store)
    (l0 : list Mgr.block_request) (pr : Mgr.peer_ptr) (numwant : Z)
    (a : Mgr.request_acc) : Prop :=
  zlen (Mgr.acc_setme a) = Mgr.acc_got a
  /\ Mgr.acc_got a <= Z.max numwant 0
  /\ NoDup (Mgr.acc_setme a)
  /\ Forall (fun b => tr_cpBlockIsComplete tr b = false) (Mgr.acc_setme a)
  /\ Mgr.requests (Mgr.acc_torrent a)
     ≡ₚ ((fun b => Mgr.mk_breq b pr now) <$> Mgr.acc_setme a) ++ l0
  /\ (forall q, q <> pr -> Mgr.acc_store a !! q = st0 !! q)
  /\ (pr <> Mgr.NULL -> forall o, st0 !! pr = Some o ->
        exists o', Mgr.acc_store a !! pr = Some o'
                   /\ pendingReqsToPeer o'.1 = pendingReqsToPeer o.1 + Mgr.acc_got a).

(** What they keep true of the weighted pieces, with or without intervals:
    [ps0] is the array at the start of the loops and [i] the piece the walk
    has come to. *)
Definition piece_walk_inv (t0 : Mgr.Torrent) (i : nat) (a : Mgr.request_acc) : Prop :=
  Mgr.tor (Mgr.acc_torrent a) = Mgr.tor t0
  /\ Mgr.pieceReplication (Mgr.acc_torrent a) = Mgr.pieceReplication t0
  /\ Mgr.pieceSortState (Mgr.acc_torrent a) = Mgr.pieceSortState t0
  /\ length (Mgr.pieces (Mgr.acc_torrent a)) = length (Mgr.pieces t0)
  /\ drop i (Mgr.pieces (Mgr.acc_torrent a)) = drop i (Mgr.pieces t0)
  /\ 0 <= Mgr.acc_got a
  /\ (Mgr.acc_got a = 0 -> Mgr.pieces (Mgr.acc_torrent a) = Mgr.pieces t0).

(** Two pieces of two blocks each, none requested yet; peer 1 has both. *)
Definition fresh_torrent : tr_torrent :=
  mk_torrent true false true 2 16384 2 50 (fun _ => 0) (fun _ => false)
    (fun _ => true) (fun _ => false) (fun _ => false) (fun _ => 2) 65536
    (fun i o => i * 2 + o / 16384) (fun b => b / 2) (fun _ => 16384)
    (fun i => (i * 2, i * 2 + 1)) (fun b => mk_req (b / 2) (b mod 2 * 16384) 16384)
    false.

Definition fresh_state : Mgr.Torrent :=
  Mgr.mk_Torrent [1%N] [] fresh_torrent []
    [Mgr.mk_piece 0 5 0; Mgr.mk_piece 1 7 0] Mgr.PIECES_SORTED_BY_WEIGHT
    (fun _ => 1) 0 5 0 0.

Definition seed_store : Mgr.peer_store :=
  {[ 1%N := (mk_peer false false false true 0 0 false (fun _ => true) true []
               0 [] [] [], Some fresh_msgs) ]}.
(** ** peer-mgr.c: replication counts of whole bitfields *)

Module Replication.
Import Mgr.

(** What the manager reads of a tr_bitfield (bitfield.h, not among the
    sources): one bit, and the two summary tests. *)
Record tr_bitfield := mk_bitfield {
  tr_bitfieldHas : Z -> bool;
  tr_bitfieldHasAll : bool;
  tr_bitfieldHasNone : bool
}.

(** The loops run over the pieces 0 .. n-1. *)
Definition in_loop (n i : Z) : bool := (0 <=? i) && (i <? n).

Definition tr_incrReplicationFromBitfield (t : Torrent) (b : tr_bitfield) : Torrent :=
  let n := pieceCount (tor t) in
  let rep := pieceReplication t in
  let t1 :=
    set_pieceReplication
      (fun i => if in_loop n i && tr_bitfieldHas b i then u16 (rep i + 1) else rep i) t in
  if sort_state_eqb (pieceSortState t1) PIECES_SORTED_BY_WEIGHT
  then invalidatePieceSorting t1
  else t1.

(** tr_incrReplication; pieceReplicationSize is the piece count (the
    function asserts it). *)
Definition tr_incrReplication (t : Torrent) : Torrent :=
  let n := pieceCount (tor t) in
  let rep := pieceReplication t in
  set_pieceReplication (fun i => if in_loop n i then u16 (rep i + 1) else rep i) t.

Definition tr_decrReplicationFromBitfield (t : Torrent) (b : tr_bitfield) : Torrent :=
  let n := pieceCount (tor t) in
  let rep := pieceReplication t in
  if tr_bitfieldHasAll b then
    set_pieceReplication (fun i => if in_loop n i then u16 (rep i - 1) else rep i) t
  else if negb (tr_bitfieldHasNone b) then
    let t1 :=
      set_pieceReplication
        (fun i => if in_loop n i && tr_bitfieldHas b i then u16 (rep i - 1) else rep i) t in
    if sort_state_eqb (pieceSortState t1) PIECES_SORTED_BY_WEIGHT
    then invalidatePieceSorting t1
    else t1
  else t.

End Replication.

(** The summary tests of a bitfield of [n] bits agree with its bits. *)
Definition bitfield_wf (n : Z) (b : Replication.tr_bitfield) : Prop :=
  (Replication.tr_bitfieldHasAll b = true ->
     forall i, 0 <= i < n -> Replication.tr_bitfieldHas b i = true)
  /\ (Replication.tr_bitfieldHasNone b = true ->
        forall i, 0 <= i < n -> Replication.tr_bitfieldHas b i = false).

(** Every piece of the weighted list is a piece of the torrent whose
    replication count is strictly inside the uint16_t range. *)
Definition replication_in_range (t : Mgr.Torrent) : Prop :=
  Forall (fun p => 0 <= Mgr.index p < pieceCount (Mgr.tor t)
                   /\ 0 < Mgr.pieceReplication t (Mgr.index p) < 65535)
         (Mgr.pieces t).

(** The pieces that pieceListRebuild wants in the list: not "do not
    download" and not complete. *)
Definition wanted_pieces (tr : tr_torrent) : list Z :=
  filter (fun i => pieceDnd tr i = false /\ tr_cpPieceIsComplete tr i = false)
         (seqZ 0 (pieceCount tr)).

(** The piece a rebuilt list holds for the [k]-th wanted index [i]: the
    piece of the old list with that index if there is one, else a fresh
    one with no requests. *)
Definition rebuilt_piece (rand : nat -> Z) (old : list Mgr.weighted_piece)
    (k : nat) (i : Z) : Mgr.weighted_piece :=
  match list_find (fun o => Mgr.index o = i) old with
  | Some (_, o) => o
  | None => Mgr.mk_piece i (i16 (rand k)) 0
  end.

(** Three pieces, the second complete; pieces 0 and 2 are in the list with
    requests counted. *)
Definition rebuild_torrent : tr_torrent :=
  mk_torrent true false true 3 16384 2 50 (fun _ => 0) (fun _ => false)
    (fun _ => true) (fun i => i =? 1) (fun _ => false) (fun _ => 2) 65536
    (fun i o => i * 2 + o / 16384) (fun b => b / 2) (fun _ => 16384)
    (fun i => (i * 2, i * 2 + 1)) (fun b => mk_req (b / 2) (b mod 2 * 16384) 16384)
    false.

Definition rebuild_state : Mgr.Torrent :=
  Mgr.mk_Torrent [1%N] [] rebuild_torrent []
    [Mgr.mk_piece 2 9 1; Mgr.mk_piece 1 4 2] Mgr.PIECES_UNSORTED
    (fun _ => 1) 0 5 0 0.

(** The bitfield of a peer that has the first piece only. *)
Definition first_piece_only : Replication.tr_bitfield :=
  Replication.mk_bitfield (fun i => i =? 0) false false.

(** The bitfield of a seed. *)
Definition all_pieces : Replication.tr_bitfield :=
  Replication.mk_bitfield (fun _ => true) true false.

(** Two wanted pieces in weight order, each seen at two peers. *)
Definition two_seen_state : Mgr.Torrent :=
  Mgr.mk_Torrent [1%N] [] fresh_torrent []
    [Mgr.mk_piece 0 5 0; Mgr.mk_piece 1 7 0] Mgr.PIECES_SORTED_BY_WEIGHT
    (fun _ => 2) 0 5 0 0.
(** ** peer-mgr.c: peer atoms and the choice of peers to connect to *)

Module Atoms.

Definition MINIMUM_RECONNECT_INTERVAL_SECS : Z := 5.
Definition MYFLAG_BANNED : Z := 1.
Definition MYFLAG_UNREACHABLE : Z := 2.
Definition ADDED_F_CONNECTABLE : Z := 16.

(** The fields of struct peer_atom that the modelled functions read. *)
Record peer_atom := mk_atom {
  fromBest : Z;                   (* uint8_t *)
  flags : Z;                      (* uint8_t *)
  flags2 : Z;                     (* uint8_t *)
  seedProbability : Z;            (* int8_t *)
  numFails : Z;                   (* uint16_t *)
  time : Z;
  piece_data_time : Z;
  lastConnectionAttemptAt : Z;
  lastConnectionAt : Z
}.

Definition getReconnectIntervalSecs (atom : peer_atom) (now : Z) : Z :=
  let sec :=
    if now - piece_data_time atom <=? MINIMUM_RECONNECT_INTERVAL_SECS * 2
    then MINIMUM_RECONNECT_INTERVAL_SECS
    else if now - time atom <? MINIMUM_RECONNECT_INTERVAL_SECS
    then MINIMUM_RECONNECT_INTERVAL_SECS
    else if numFails atom =? 0 then 0
    else if numFails atom =? 1 then 5
    else if numFails atom =? 2 then 2 * 60
    else if numFails atom =? 3 then 15 * 60
    else if numFails atom =? 4 then 30 * 60
    else if numFails atom =? 5 then 60 * 60
    else 120 * 60 in
  if negb (Z.land (flags2 atom) MYFLAG_UNREACHABLE =? 0) then sec + sec else sec.

(** *** The score of a candidate *)

Inductive tr_priority_t := TR_PRI_LOW | TR_PRI_NORMAL | TR_PRI_HIGH.

(** What getPeerCandidateScore reads of the torrent. *)
Record candidate_torrent := mk_candidate_torrent {
  tr_torrentGetPriority : tr_priority_t;
  torrentWasRecentlyStarted : bool;
  tr_torrentIsSeed : bool
}.

Definition u64 (z : Z) : Z := z mod 18446744073709551616.

Definition addValToKey (value width addme : Z) : Z :=
  Z.lor (u64 (Z.shiftl value width)) addme.

Definition getPeerCandidateScore (tor : candidate_torrent) (atom : peer_atom) (salt : Z) : Z :=
  let failed := lastConnectionAt atom <? lastConnectionAttemptAt atom in
  (* prefer peers we've connected to, or never tried, over peers we failed to connect to *)
  let score := addValToKey 0 1 (if failed then 1 else 0) in
  (* prefer the one we attempted least recently *)
  let score := addValToKey score 32 (u64 (lastConnectionAttemptAt atom)) in
  (* prefer peers belonging to a torrent of a higher priority *)
  let score := addValToKey score 4
                 (match tr_torrentGetPriority tor with
                  | TR_PRI_HIGH => 0
                  | TR_PRI_NORMAL => 1
                  | TR_PRI_LOW => 2
                  end) in
  (* prefer recently-started torrents *)
  let score := addValToKey score 1 (if torrentWasRecentlyStarted tor then 0 else 1) in
  (* prefer torrents we're downloading with *)
  let score := addValToKey score 1 (if tr_torrentIsSeed tor then 1 else 0) in
  (* prefer peers that are known to be connectible *)
  let score := addValToKey score 1
                 (if negb (Z.land (flags atom) ADDED_F_CONNECTABLE =? 0) then 0 else 1) in
  (* lower seed probability is better *)
  let score := addValToKey score 8
                 (if seedProbability atom =? 100 then 101
                  else if seedProbability atom =? -1 then 100
                  else u64 (seedProbability atom)) in
  (* lower fromBest values indicate more trusted sources *)
  let score := addValToKey score 4 (fromBest atom) in
  addValToKey score 8 (u8 salt).

(** *** Selecting the best candidates *)

Record peer_candidate := mk_candidate {
  score : Z;                      (* uint64_t *)
  cand_tor : Z;
  cand_atom : Z
}.

(** Exchange of two array elements through a temporary. *)
Definition swap_at (c : list peer_candidate) (i j : nat) : list peer_candidate :=
  match c !! i, c !! j with
  | Some x, Some y => <[j := x]> (<[i := y]> c)
  | _, _ => c
  end.

Definition partition_step (pivotScore : Z) (s : list peer_candidate * nat) (i : nat)
  : list peer_candidate * nat :=
  match s.1 !! i with
  | Some x => if score x <? pivotScore then (swap_at s.1 s.2 i, S s.2) else s
  | None => s
  end.

(** partitionPeerCandidates; the indices are inside the array (an index
    outside of it is outside the model and leaves the array alone). *)
Definition partitionPeerCandidates (c : list peer_candidate) (left right pivotIndex : nat)
  : list peer_candidate * nat :=
  match c !! pivotIndex with
  | None => (c, left)
  | Some pivotValue =>
      (* move pivot to end *)
      let c1 := swap_at c pivotIndex right in
      let '(c2, storeIndex) :=
        foldl (partition_step (score pivotValue)) (c1, left) (seq left (S right - left)) in
      (* move pivot to its final place *)
      (swap_at c2 right storeIndex, storeIndex)
  end.

(** checkPartition, the sanity check of the partition. *)
Definition checkPartition (c : list peer_candidate) (left right : nat) (pivotScore : Z)
    (storeIndex : nat) : Prop :=
  (left <= storeIndex)%nat
  /\ (storeIndex <= right)%nat
  /\ (exists x, c !! storeIndex = Some x /\ score x = pivotScore)
  /\ (forall i x, (left <= i < storeIndex)%nat -> c !! i = Some x -> score x < pivotScore)
  /\ (forall i x, (storeIndex < i <= right)%nat -> c !! i = Some x -> pivotScore <= score x).

(** selectPeerCandidates; the recursion is on a strictly shorter range, so
    [fuel] above the length of the range is never used up. *)
Fixpoint selectPeerCandidates (fuel : nat) (c : list peer_candidate) (left right k : nat)
  : list peer_candidate :=
  match fuel with
  | O => c
  | S fuel' =>
      if bool_decide (left < right)%nat then
        let pivotIndex := (left + (right - left) / 2)%nat in
        let '(c', pivotNewIndex) := partitionPeerCandidates c left right pivotIndex in
        if bool_decide (left + k < pivotNewIndex)%nat
        then selectPeerCandidates fuel' c' left (pivotNewIndex - 1) k
        else if bool_decide (pivotNewIndex < left + k)%nat
        then selectPeerCandidates fuel' c' (S pivotNewIndex) right
               (k + left - pivotNewIndex - 1)
        else c'
      else c
  end.

(** checkBestScoresComeFirst: no score behind position x = MIN (n, k) - 1
    is below the worst of the scores before it. *)
Definition checkBestScoresComeFirst (c : list peer_candidate) (n k : nat) : bool :=
  let x := (Z.of_nat (n `min` k) - 1)%Z in
  let worstFirstScore :=
    foldl (fun w cand => if w <? score cand then score cand else w) 0
          (take (Z.to_nat x) c) in
  forallb (fun cand => score cand <=? worstFirstScore) (take (Z.to_nat x) c)
  && forallb (fun cand => worstFirstScore <=? score cand)
       (drop (Z.to_nat (x + 1)) (take n c)).

End Atoms.

(** The fields of an atom are inside the ranges that the score packs them
    into. *)
Definition atom_in_range (a : Atoms.peer_atom) : Prop :=
  0 <= Atoms.lastConnectionAttemptAt a < 4294967296
  /\ -1 <= Atoms.seedProbability a <= 100
  /\ 0 <= Atoms.fromBest a < 16.

(** The score as a number in mixed radix, most significant digit first. *)
Definition score_digits (tor : Atoms.candidate_torrent) (a : Atoms.peer_atom) (salt : Z)
  : list (Z * Z) :=
  [ (2, if Atoms.lastConnectionAt a <? Atoms.lastConnectionAttemptAt a then 1 else 0);
    (4294967296, Atoms.lastConnectionAttemptAt a);
    (16, match Atoms.tr_torrentGetPriority tor with
         | Atoms.TR_PRI_HIGH => 0 | Atoms.TR_PRI_NORMAL => 1 | Atoms.TR_PRI_LOW => 2
         end);
    (2, if Atoms.torrentWasRecentlyStarted tor then 0 else 1);
    (2, if Atoms.tr_torrentIsSeed tor then 1 else 0);
    (2, if Z.land (Atoms.flags a) Atoms.ADDED_F_CONNECTABLE =? 0 then 1 else 0);
    (256, if Atoms.seedProbability a =? 100 then 101
          else if Atoms.seedProbability a =? -1 then 100
          else Atoms.seedProbability a);
    (16, Atoms.fromBest a);
    (256, salt mod 256) ].

Definition mixed_radix (ds : list (Z * Z)) : Z :=
  foldl (fun acc d => acc * d.1 + d.2) 0 ds.

(** Sample atoms and candidates. *)
Definition tried_atom : Atoms.peer_atom := Atoms.mk_atom 2 16 0 50 1 100 90 100 40.
Definition untried_atom : Atoms.peer_atom := Atoms.mk_atom 4 0 0 (-1) 0 100 90 0 0.
Definition normal_torrent : Atoms.candidate_torrent :=
  Atoms.mk_candidate_torrent Atoms.TR_PRI_NORMAL false false.

Definition five_candidates : list Atoms.peer_candidate :=
  [Atoms.mk_candidate 50 0 0; Atoms.mk_candidate 20 0 1; Atoms.mk_candidate 40 0 2;
   Atoms.mk_candidate 10 0 3; Atoms.mk_candidate 30 0 4].

(** What the partition and the selection keep of the array: the elements
    of positions left..right stay in these positions, in some order, and
    the other positions are not written. *)
Definition range_keeps (c c' : list Atoms.peer_candidate) (left right : nat) : Prop :=
  forall P : Atoms.peer_candidate -> Prop,
    (forall m x, (left <= m <= right)%nat -> c !! m = Some x -> P x) ->
    forall m x, (left <= m <= right)%nat -> c' !! m = Some x -> P x.

Definition same_outside (c c' : list Atoms.peer_candidate) (left right : nat) : Prop :=
  forall m, (m < left \/ right < m)%nat -> c' !! m = c !! m.

(** The result of the selection around position K: no score at or before
    K is above a score at or behind K. *)
Definition selected_at (c : list Atoms.peer_candidate) (left right K : nat) : Prop :=
  forall i j x y, (left <= i <= K)%nat -> (K <= j <= right)%nat ->
    c !! i = Some x -> c !! j = Some y -> Atoms.score x <= Atoms.score y.
(** ** peer-msgs.c: the queue of the peer's requests and the framing *)

(** The queue is an array of REQQ slots, of which the first
    pendingReqsToClient are live. *)
Definition queue_wf (c : Wire.conn) : Prop :=
  length (Wire.peerAskedFor c.2) = Z.to_nat Wire.REQQ
  /\ 0 <= pendingReqsToClient c.1 < Wire.REQQ.

(** The Reject messages for a list of requests, in their order. *)
Definition reject_messages (q : list peer_request) : list Z :=
  mjoin (Wire.msg_request_like Wire.BT_FEXT_REJECT <$> q).

(** A request as the wire can carry it: three 32-bit fields. *)
Definition request_on_wire (r : peer_request) : Prop :=
  is_u32 (req_index r) /\ is_u32 (req_offset r) /\ is_u32 (req_length r).

(** What the reader has changed of a session after a whole non-Piece
    message of the given length and id. *)
Definition after_message (len id : Z) (c : Wire.conn) : Wire.conn :=
  Wire.on_msgs (fun m => Wire.set_state Wire.AWAITING_BT_LENGTH
                           (Wire.set_incoming_id id (Wire.set_incoming_length len m))) c.

(** A session of an unchoked peer that speaks the Fast Extension and has
    two requests queued. *)
Definition two_queued_conn : Wire.conn :=
  (mk_peer false false true false 2 0 true (fun _ => false) false [] 0 [] [] [],
   Wire.set_peerAskedFor
     (mk_req 1 0 16384 :: mk_req 2 16384 16384 :: replicate 510 (mk_req 0 0 0)) fresh_msgs).
(** ** edit.c: what a metainfo announces *)

(** A metainfo as the editor expects it: a dictionary without repeated
    keys whose "announce", if there is one, is a string and whose
    "announce-list", if there is one, is a list. *)
Definition metainfo_wf (metainfo : Edit.tr_benc) : Prop :=
  (exists d, metainfo = Edit.BDict d)
  /\ NoDup (Edit.dict_entries metainfo).*1
  /\ (forall v, Edit.tr_bencDictFind metainfo "announce" = Some v -> exists s, v = Edit.BStr s)
  /\ (forall v, Edit.tr_bencDictFind metainfo "announce-list" = Some v ->
        exists l, v = Edit.BList l).

(** The URL is the "announce" string or a member of a tier of the
    "announce-list". *)
Definition announced (metainfo : Edit.tr_benc) (url : string) : Prop :=
  Edit.tr_bencDictFindStr metainfo "announce" = Some url
  \/ exists tiers, Edit.tr_bencDictFindList metainfo "announce-list" = Some tiers
                   /\ Edit.announce_list_has_url tiers url = true.
(** * Properties of edit.c *)

Section EditProps.
Import Edit.

Lemma step_add_result (o : edit_options) (s : bool * tr_benc) (url : string) :
  add o = Some url -> step_add o s = addURL s.2 url.
Proof.
  intros Hadd. unfold step_add. rewrite Hadd.
  by destruct (addURL s.2 url).
Qed.

Lemma step_delete_result (o : edit_options) (top : tr_benc) (url : string) :
  deleteme o = Some url -> step_delete o (false, top) = removeURL top url.
Proof.
  intros Hdel. unfold step_delete. rewrite Hdel. simpl.
  by destruct (removeURL top url).
Qed.

(** C9: when both a delete URL and an add URL are given, the add step
    assigns addURL's result to [changed]: after it the flag equals addURL's
    return value alone, whatever removeURL returned, and there is a run in
    which the removal succeeded and yet the file is not written. *)
Theorem edit_add_overwrites_changed (o : edit_options) (top : tr_benc) (del url : string) :
  deleteme o = Some del ->
  add o = Some url ->
  let removed := removeURL top del in
  (step_add o (step_delete o (false, top))).1 = (addURL removed.2 url).1
  /\ (forall changed, (step_add o (changed, removed.2)).1 = (addURL removed.2 url).1)
  /\ exists o' top',
       (step_delete o' (false, top')).1 = true
       /\ (step_delete o' (false, top')).2 <> top'
       /\ edit_file o' top' = Some (false, (step_delete o' (false, top')).2)
       /\ edit_files o' [Some top'] = Some (0, [None]).
Proof.
  intros Hdel Hadd removed.
  split; [|split].
  - rewrite (step_delete_result o top del Hdel).
    by rewrite (step_add_result o _ url Hadd).
  - intros changed. by rewrite (step_add_result o _ url Hadd).
  - exists delete_a_add_b, two_tier_metainfo.
    repeat split; try reflexivity.
    vm_compute. discriminate.
Qed.

Lemma edit_add_overwrites_changed_witness :
  (step_add delete_a_add_b (step_delete delete_a_add_b (false, two_tier_metainfo))).1 = false
  /\ (removeURL two_tier_metainfo "http://a/announce").1 = true.
Proof.
  split; [|reflexivity].
  destruct (edit_add_overwrites_changed delete_a_add_b two_tier_metainfo
              "http://a/announce" "http://b/announce" eq_refl eq_refl) as [H _].
  rewrite H. reflexivity.
Defined.

End EditProps.

(** * Properties of the wire session *)

Section WireProps.
Import Wire.

(** ** Choke changes *)

Lemma popNextRequest_choke (c : conn) :
  peerIsChoked (popNextRequest c).2.1 = peerIsChoked c.1
  /\ chokeChangedAt (popNextRequest c).2.1 = chokeChangedAt c.1.
Proof.
  unfold popNextRequest. by destruct (pendingReqsToClient c.1 =? 0).
Qed.

Lemma cancelAll_loop_choke (fuel : nat) (b : bool) (c : conn) :
  peerIsChoked (cancelAllRequestsToClient_loop fuel b c).1 = peerIsChoked c.1
  /\ chokeChangedAt (cancelAllRequestsToClient_loop fuel b c).1 = chokeChangedAt c.1.
Proof.
  revert c. induction fuel as [|fuel IH]; intros c; simpl; [done|].
  pose proof (popNextRequest_choke c) as [Hp Ht].
  destruct (popNextRequest c) as [[req|] c']; simpl in *; [|done].
  destruct (IH (if b then on_msgs (protocolSendReject req) c' else c')) as [H1 H2].
  rewrite H1, H2. by destruct b.
Qed.

Lemma cancelAll_choke (c : conn) :
  peerIsChoked (cancelAllRequestsToClient c).1 = peerIsChoked c.1
  /\ chokeChangedAt (cancelAllRequestsToClient c).1 = chokeChangedAt c.1.
Proof. apply cancelAll_loop_choke. Qed.

(** A call inside the fibrillation period returns the session as it was. *)
Lemma setChoke_too_early (now : Z) (c : conn) (choke : bool) :
  now - chokeChangedAt c.1 < MIN_CHOKE_PERIOD_SEC ->
  tr_peerMsgsSetChoke now c choke = c.
Proof.
  intros H. unfold tr_peerMsgsSetChoke.
  destruct (Z.ltb_spec (now - MIN_CHOKE_PERIOD_SEC) (chokeChangedAt c.1)); [done|lia].
Qed.

(** Either the call changes nothing about the choke state, or it flips it,
    stamps the time of the call, and the previous change is at least
    MIN_CHOKE_PERIOD_SEC seconds old. *)
Lemma setChoke_cases (now : Z) (c : conn) (choke : bool) :
  let c' := tr_peerMsgsSetChoke now c choke in
  (peerIsChoked c'.1 = peerIsChoked c.1 /\ chokeChangedAt c'.1 = chokeChangedAt c.1)
  \/ (peerIsChoked c'.1 <> peerIsChoked c.1
      /\ chokeChangedAt c'.1 = now
      /\ chokeChangedAt c.1 + MIN_CHOKE_PERIOD_SEC <= now).
Proof.
  unfold tr_peerMsgsSetChoke.
  destruct (Z.ltb_spec (now - MIN_CHOKE_PERIOD_SEC) (chokeChangedAt c.1)) as [Hlt|Hge];
    [by left|].
  destruct (eqb (peerIsChoked c.1) choke) eqn:Heq; simpl; [by left|].
  right. apply eqb_false_iff in Heq.
  destruct choke; simpl.
  - pose proof (cancelAll_choke (on_peer (set_peerIsChoked true) c)) as [H1 _].
    rewrite H1. simpl. split; [congruence|]. split; [done|lia].
  - split; [congruence|]. split; [done|lia].
Qed.

Lemma choke_changes_lower_bound (calls : list (Z * bool)) :
  forall (c : conn) (t : Z),
    t ∈ choke_changes c calls -> chokeChangedAt c.1 + MIN_CHOKE_PERIOD_SEC <= t.
Proof.
  induction calls as [|[now choke] rest IH]; intros c t Hin; simpl in Hin.
  - by apply elem_of_nil in Hin.
  - apply elem_of_app in Hin.
    destruct (setChoke_cases now c choke) as [[Hs Ht]|(Hs & Ht & Hgap)].
    + destruct Hin as [Hin|Hin].
      * rewrite Hs, eqb_reflx in Hin. by apply elem_of_nil in Hin.
      * apply IH in Hin. lia.
    + destruct Hin as [Hin|Hin].
      * destruct (eqb _ _) in Hin; [by apply elem_of_nil in Hin|].
        apply list_elem_of_singleton in Hin. lia.
      * apply IH in Hin. unfold MIN_CHOKE_PERIOD_SEC in *. lia.
Qed.

Lemma choke_changes_spaced (calls : list (Z * bool)) :
  forall (c : conn) (i j : nat) (t1 t2 : Z),
    (i < j)%nat ->
    choke_changes c calls !! i = Some t1 ->
    choke_changes c calls !! j = Some t2 ->
    t1 + MIN_CHOKE_PERIOD_SEC <= t2.
Proof.
  induction calls as [|[now choke] rest IH]; intros c i j t1 t2 Hij Hi Hj; simpl in *.
  - by rewrite lookup_nil in Hi.
  - destruct (setChoke_cases now c choke) as [[Hs Ht]|(Hs & Ht & Hgap)].
    + rewrite Hs, eqb_reflx in Hi, Hj. simpl in *. eauto.
    + destruct (eqb _ _) eqn:He in Hi, Hj.
      { apply eqb_prop in He. done. }
      simpl in *. destruct i as [|i], j as [|j]; try lia; simpl in *.
      * injection Hi as <-.
        apply list_elem_of_lookup_2 in Hj.
        apply choke_changes_lower_bound in Hj. lia.
      * eapply (IH _ i j); eauto. lia.
Qed.

(** C10: a call of the choke-setting operation made fewer than 10 seconds
    after the last change of the peer's choke state leaves the session
    exactly as it was (same choke state, nothing appended to the outgoing
    buffer, nothing remembered for later), and in any sequence of calls two
    changes of the choke state are at least 10 seconds apart. *)
Theorem setChoke_no_fibrillation (c : conn) (now : Z) (choke : bool) :
  now - chokeChangedAt c.1 < 10 ->
  tr_peerMsgsSetChoke now c choke = c
  /\ outMessages (tr_peerMsgsSetChoke now c choke).2 = outMessages c.2
  /\ peerIsChoked (tr_peerMsgsSetChoke now c choke).1 = peerIsChoked c.1
  /\ forall (c0 : conn) (calls : list (Z * bool)) (i j : nat) (t1 t2 : Z),
       (i < j)%nat ->
       choke_changes c0 calls !! i = Some t1 ->
       choke_changes c0 calls !! j = Some t2 ->
       t1 + 10 <= t2.
Proof.
  intros H.
  rewrite (setChoke_too_early now c choke H).
  repeat split. intros c0 calls. apply choke_changes_spaced.
Qed.

Lemma setChoke_no_fibrillation_witness :
  tr_peerMsgsSetChoke 9 fresh_conn false = fresh_conn
  /\ choke_changes fresh_conn [(9, false); (10, false); (15, true); (20, true)] = [10; 20].
Proof.
  split; [|reflexivity].
  apply (setChoke_no_fibrillation fresh_conn 9 false). vm_compute. reflexivity.
Defined.

(** ** Requests made by the peer *)

Lemma prefetchPieces_peer (tor : tr_torrent) (c : conn) :
  (prefetchPieces tor c).1 = c.1
  /\ peerAskedFor (prefetchPieces tor c).2 = peerAskedFor c.2
  /\ outMessages (prefetchPieces tor c).2 = outMessages c.2.
Proof. unfold prefetchPieces. by destruct (isPrefetchEnabled tor). Qed.

Lemma peerMadeRequest_allowed (tor : tr_torrent) (c : conn) (req : peer_request) :
  request_allowed tor c req = true ->
  pendingReqsToClient (peerMadeRequest tor c req).1 = pendingReqsToClient c.1 + 1
  /\ peerAskedFor (peerMadeRequest tor c req).2
     = <[Z.to_nat (pendingReqsToClient c.1) := req]> (peerAskedFor c.2)
  /\ outMessages (peerMadeRequest tor c req).2 = outMessages c.2.
Proof.
  unfold request_allowed, peerMadeRequest. intros H.
  apply andb_true_iff in H as [H Hq]. apply andb_true_iff in H as [H Hc].
  apply andb_true_iff in H as [Hv Hp].
  rewrite Hv, Hp. apply negb_true_iff in Hc. rewrite Hc. simpl.
  apply Z.ltb_lt in Hq.
  destruct (Z.leb_spec REQQ (pendingReqsToClient c.1 + 1)); [lia|].
  by destruct (prefetchPieces_peer tor
       (set_pendingReqsToClient (pendingReqsToClient c.1 + 1) c.1,
        set_peerAskedFor (<[Z.to_nat (pendingReqsToClient c.1):=req]> (peerAskedFor c.2)) c.2))
    as (-> & -> & ->).
Qed.

Lemma peerMadeRequest_refused (tor : tr_torrent) (c : conn) (req : peer_request) :
  request_allowed tor c req = false ->
  peerMadeRequest tor c req
  = if io_supportsFEXT c.1 then on_msgs (protocolSendReject req) c else c.
Proof.
  unfold request_allowed, peerMadeRequest. intros H.
  destruct (requestIsValid tor req); simpl in *; [|done].
  destruct (tr_cpPieceIsComplete tor (req_index req)); simpl in *; [|done].
  destruct (peerIsChoked c.1); simpl in *; [done|].
  apply Z.ltb_ge in H.
  by destruct (Z.leb_spec REQQ (pendingReqsToClient c.1 + 1)); [|lia].
Qed.

(** C2 (the code at the boundary of condition (d)): the request is inside
    the torrent, its piece is complete, the peer is unchoked and the queue
    holds 511 < 512 requests, yet peerMadeRequest drops the request; with
    the Fast Extension it answers with a Reject.  The queue therefore never
    holds more than 511 requests. *)
Theorem peerMadeRequest_drops_at_511 (req : peer_request) :
  requestIsValid serving_torrent req = true
  /\ tr_cpPieceIsComplete serving_torrent (req_index req) = true
  /\ peerIsChoked conn_with_511_queued.1 = false
  /\ pendingReqsToClient conn_with_511_queued.1 = 511
  /\ 511 < REQQ
  /\ peerMadeRequest serving_torrent conn_with_511_queued req = conn_with_511_queued
  /\ (forall (tor : tr_torrent) (c : conn) (r : peer_request),
        pendingReqsToClient (peerMadeRequest tor c r).1 = pendingReqsToClient c.1 + 1 ->
        pendingReqsToClient (peerMadeRequest tor c r).1 < REQQ).
Proof.
  repeat split.
  intros tor c r Hgrow.
  destruct (request_allowed tor c r) eqn:Hok.
  - rewrite Hgrow. unfold request_allowed in Hok.
    apply andb_true_iff in Hok as [_ Hq]. by apply Z.ltb_lt in Hq.
  - rewrite (peerMadeRequest_refused tor c r Hok) in Hgrow.
    destruct (io_supportsFEXT c.1); simpl in Hgrow; lia.
Qed.

(** ** Framing of Piece messages *)

Lemma rd32_be32 (z : Z) (rest : list Z) : is_u32 z -> rd32 (be32 z ++ rest) = z.
Proof.
  unfold is_u32, rd32, be32. intros [Hlo Hhi]. simpl.
  assert (E1 : z / 256 / 256 = z / 65536) by (by rewrite Z.div_div by lia).
  assert (E2 : z / 65536 / 256 = z / 16777216) by (by rewrite Z.div_div by lia).
  pose proof (Z.div_mod z 256 ltac:(lia)) as H1.
  pose proof (Z.div_mod (z / 256) 256 ltac:(lia)) as H2.
  pose proof (Z.div_mod (z / 65536) 256 ltac:(lia)) as H3.
  rewrite E1 in H2. rewrite E2 in H3.
  assert (z / 16777216 < 256) by (apply Z.div_lt_upper_bound; lia).
  assert (0 <= z / 16777216) by (apply Z.div_pos; lia).
  rewrite (Z.mod_small (z / 16777216) 256) by lia. lia.
Qed.

(** However long a Piece message claims to be, the reader passes its
    length and id and starts waiting for the block header: the length is
    not looked at, and no error event is published. *)
Lemma piece_frame_skips_length_check (env : wire_env) (tor : tr_torrent) (now : Z)
    (c : conn) (len : Z) (rest : list Z) :
  state c.2 = AWAITING_BT_LENGTH ->
  0 < len < 4294967296 ->
  exists c' evs,
    canRead_steps env tor now 2 c (be32 len ++ BT_PIECE :: rest)
    = ([READ_NOW; READ_NOW], c', rest, evs)
    /\ state c'.2 = AWAITING_BT_PIECE
    /\ incoming_length c'.2 = len
    /\ Forall (fun e => forall err, e <> TR_PEER_ERROR err) evs.
Proof.
  intros Hst Hlen.
  assert (Hrd : rd32 (be32 len ++ BT_PIECE :: rest) = len)
    by (apply rd32_be32; unfold is_u32; lia).
  assert (Hn : zlen (be32 len ++ BT_PIECE :: rest) = 5 + zlen rest).
  { unfold zlen. rewrite length_app. simpl. lia. }
  assert (Hr : 0 <= zlen rest) by (unfold zlen; lia).
  cbn [canRead_steps]. unfold canRead at 1. rewrite Hst, Hn.
  destruct (Z.eqb_spec (5 + zlen rest) 0) as [|_]; [lia|].
  unfold readBtLength.
  destruct (Z.ltb_spec (5 + zlen rest) 4) as [|_]; [lia|].
  unfold tr_peerIoReadUint32. rewrite Hrd.
  destruct (Z.eqb_spec len 0) as [|_]; [lia|].
  replace (drop 4 (be32 len ++ BT_PIECE :: rest)) with (BT_PIECE :: rest) by done.
  assert (Hn1 : zlen (BT_PIECE :: rest) = 1 + zlen rest).
  { unfold zlen. simpl. lia. }
  rewrite Hn1.
  destruct (Z.eqb_spec (1 + zlen rest) (5 + zlen rest)) as [|_]; [lia|].
  unfold canRead at 1. cbn [on_msgs fst snd state set_state set_incoming_length].
  rewrite Hn1.
  destruct (Z.eqb_spec (1 + zlen rest) 0) as [|_]; [lia|].
  unfold readBtId.
  destruct (Z.ltb_spec (1 + zlen rest) 1) as [|_]; [lia|].
  cbn. rewrite drop_0.
  destruct (Z.eqb_spec (zlen rest) (1 + zlen rest)) as [|_]; [lia|].
  eexists _, _. split; [reflexivity|].
  cbn. repeat split.
  repeat constructor; discriminate.
Qed.

(** C1 (the code on Piece frames whose length violates the bound): a Piece
    frame announcing 5 bytes is not validated.  messageLengthIsCorrect
    would refuse the length, but readBtId hands every Piece frame to the
    block reader first, which takes the length minus nine, modulo 2^32, as
    the size of the payload and publishes no error; a frame announcing
    16394 bytes is likewise taken up with a payload of 16385 bytes. *)
Theorem piece_length_not_validated (env : wire_env) (tor : tr_torrent) (now : Z) :
  messageLengthIsCorrect tor fresh_msgs BT_PIECE 5 = false
  /\ messageLengthIsCorrect tor fresh_msgs BT_PIECE 16394 = false
  /\ (let r := canRead_steps env tor now 3 fresh_conn short_piece_frame in
      r.1.1.1 = [READ_NOW; READ_NOW; READ_NOW]
      /\ state r.1.1.2.2 = AWAITING_BT_PIECE
      /\ req_length (incoming_blockReq r.1.1.2.2) = 4294967292
      /\ Forall (fun e => forall err, e <> TR_PEER_ERROR err) r.2)
  /\ (let r := canRead_steps env tor now 3 fresh_conn long_piece_frame in
      r.1.1.1 = [READ_NOW; READ_NOW; READ_NOW]
      /\ state r.1.1.2.2 = AWAITING_BT_PIECE
      /\ req_length (incoming_blockReq r.1.1.2.2) = 16385
      /\ Forall (fun e => forall err, e <> TR_PEER_ERROR err) r.2).
Proof.
  split; [reflexivity|]. split; [reflexivity|].
  split; cbn; repeat split; repeat constructor; discriminate.
Qed.

End WireProps.

(** * Properties of the peer-exchange encoding *)

Section PexProps.
Import Mgr Pex.

Lemma port_of_port_bytes (p : Z) (rest : list Z) :
  is_u16 p -> port_of_bytes (take 2 (port_bytes p ++ rest)) = p.
Proof.
  unfold is_u16, port_bytes. intros [Hlo Hhi]. simpl.
  pose proof (Z.div_mod p 256 ltac:(lia)) as H1.
  assert (0 <= p / 256 < 256).
  { split; [apply Z.div_pos; lia | apply Z.div_lt_upper_bound; lia]. }
  rewrite (Z.mod_small (p / 256) 256) by lia. lia.
Qed.

Lemma addr4_length (p : tr_pex) : pex_ipv4_wf p -> length (addr4 (pex_addr p)) = 4%nat.
Proof.
  intros (_ & Hlen & _). unfold addr4. rewrite length_take. lia.
Qed.

Lemma compact_blob_length (l : list tr_pex) :
  Forall pex_ipv4_wf l -> length (compact_blob l) = (6 * length l)%nat.
Proof.
  induction 1 as [|p l Hp _ IH]; [done|].
  unfold compact_blob in *. simpl. rewrite !length_app, IH.
  rewrite (addr4_length p Hp). simpl. lia.
Qed.

Lemma compact_to_pex_loop_blob (l : list tr_pex) :
  forall (f : list Z) (i total : nat),
    Forall pex_ipv4_wf l ->
    (forall k p, l !! k = Some p ->
       f !! (i + k)%nat = Some (u8 (Z.land (pex_flags p) (Z.lnot ADDED_F_HOLEPUNCH)))) ->
    compact_to_pex_loop (length l) i (compact_blob l) (Some f) total total
    = map decoded_entry l.
Proof.
  induction l as [|p l IH]; intros f i total Hwf Hf; [done|].
  apply Forall_cons in Hwf as [Hp Hwf].
  pose proof (addr4_length p Hp) as Hlen.
  destruct Hp as (_ & _ & Hport & _).
  cbn [length compact_to_pex_loop map].
  unfold compact_blob. cbn [flat_map]. fold (compact_blob l).
  rewrite <- !app_assoc.
  rewrite (take_app_length' (addr4 (pex_addr p))) by done.
  rewrite (drop_app_length' (addr4 (pex_addr p))) by done.
  rewrite port_of_port_bytes by done.
  replace (drop 2 (port_bytes (pex_port p) ++ compact_blob l)) with (compact_blob l) by done.
  rewrite bool_decide_true by done.
  f_equal.
  - unfold decoded_entry. f_equal.
    specialize (Hf 0%nat p eq_refl). rewrite Nat.add_0_r in Hf. by rewrite Hf.
  - apply IH; [done|]. intros k q Hk.
    specialize (Hf (S k) q Hk). by rewrite Nat.add_succ_r in Hf.
Qed.

Lemma compact_to_pex_blob (l : list tr_pex) :
  Forall pex_ipv4_wf l ->
  tr_peerMgrCompactToPex (compact_blob l) (Some (flags_blob l)) (length (flags_blob l))
  = map decoded_entry l.
Proof.
  intros Hwf. unfold tr_peerMgrCompactToPex.
  rewrite (compact_blob_length l Hwf).
  replace (6 * length l / 6)%nat with (length l)
    by (symmetry; rewrite Nat.mul_comm; apply Nat.div_mul; lia).
  assert (Hf : length (flags_blob l) = length l) by apply length_map.
  rewrite Hf.
  apply compact_to_pex_loop_blob; [done|].
  intros k p Hk. unfold flags_blob. cbn [Nat.add].
  change (map ?g l) with (g <$> l). by rewrite list_lookup_fmap, Hk.
Qed.

(** Clearing the holepunch bit of a byte keeps it a byte and changes no
    other bit. *)
Lemma strip_holepunch_byte (f : Z) :
  is_u8 f ->
  Z.land (u8 (Z.land f (Z.lnot ADDED_F_HOLEPUNCH))) (Z.lnot ADDED_F_HOLEPUNCH)
  = Z.land f (Z.lnot ADDED_F_HOLEPUNCH)
  /\ Z.land (u8 (Z.land f (Z.lnot ADDED_F_HOLEPUNCH))) ADDED_F_HOLEPUNCH = 0.
Proof.
  intros Hf.
  assert (Hall : forallb (fun f =>
            (Z.land (u8 (Z.land f (Z.lnot ADDED_F_HOLEPUNCH))) (Z.lnot ADDED_F_HOLEPUNCH)
             =? Z.land f (Z.lnot ADDED_F_HOLEPUNCH))
            && (Z.land (u8 (Z.land f (Z.lnot ADDED_F_HOLEPUNCH))) ADDED_F_HOLEPUNCH =? 0))
          (seqZ 0 256) = true) by (vm_compute; reflexivity).
  rewrite forallb_forall in Hall.
  specialize (Hall f). rewrite <- list_elem_of_In, elem_of_seqZ in Hall.
  unfold is_u8 in Hf. specialize (Hall ltac:(lia)).
  apply andb_true_iff in Hall as [H1 H2]. split; lia.
Qed.

Lemma decoded_entry_same (p : tr_pex) :
  pex_ipv4_wf p ->
  pex_same_but_holepunch p (decoded_entry p)
  /\ Z.land (pex_flags (decoded_entry p)) ADDED_F_HOLEPUNCH = 0.
Proof.
  intros Hp. pose proof (addr4_length p Hp) as Hlen.
  destruct Hp as (Hty & _ & _ & Hf).
  destruct (strip_holepunch_byte _ Hf) as [H1 H2].
  unfold pex_same_but_holepunch, decoded_entry, addr4 in *. simpl.
  repeat split; try done.
  by rewrite take_app_length'.
Qed.

(** C8: the "added" and "added.f" strings built from a list of IPv4
    entries decode, through the compact-to-pex function, to entries with
    the same addresses, the same ports and the same flag bits apart from
    holepunch, which is cleared; the same holds for the entries that the
    receiving side extracts from the payload. *)
Theorem pex_added_roundtrip (added dropped : list tr_pex) :
  Forall pex_ipv4_wf added ->
  let decoded :=
    tr_peerMgrCompactToPex (compact_blob added) (Some (flags_blob added))
      (length (flags_blob added)) in
  Forall2 pex_same_but_holepunch added decoded
  /\ Forall (fun d => Z.land (pex_flags d) ADDED_F_HOLEPUNCH = 0) decoded
  /\ ((length added <= MAX_PEX_PEER_COUNT)%nat ->
      parseUtPex_added (sendPex_payload added dropped) = decoded).
Proof.
  intros Hwf decoded. subst decoded.
  rewrite (compact_to_pex_blob added Hwf).
  split; [|split].
  - induction Hwf as [|p l Hp _ IH]; simpl; constructor; [|done].
    by apply decoded_entry_same.
  - induction Hwf as [|p l Hp _ IH]; simpl; constructor; [|done].
    by apply decoded_entry_same.
  - intros Hlen. destruct added as [|p l]; [by destruct dropped|].
    unfold sendPex_payload, parseUtPex_added.
    set (a := compact_blob (p :: l)). set (f := flags_blob (p :: l)).
    assert (Ha : forall rest, tr_bencDictFindRaw
               ([("added"%string, a); ("added.f"%string, f)] ++ rest) "added" = Some a)
      by reflexivity.
    assert (Hf : forall rest, tr_bencDictFindRaw
               ([("added"%string, a); ("added.f"%string, f)] ++ rest) "added.f" = Some f)
      by reflexivity.
    rewrite Ha, Hf. subst a f.
    rewrite (compact_to_pex_blob (p :: l) Hwf).
    apply take_ge. rewrite length_map. done.
Qed.

Lemma pex_added_roundtrip_witness :
  Forall2 pex_same_but_holepunch sample_pex
    (tr_peerMgrCompactToPex (compact_blob sample_pex) (Some (flags_blob sample_pex)) 2)
  /\ map pex_flags (parseUtPex_added (sendPex_payload sample_pex [])) = [3; 18].
Proof.
  split; [|reflexivity].
  apply (pex_added_roundtrip sample_pex []).
  repeat constructor; cbn; lia.
Defined.

End PexProps.

(** * Properties of the peer manager *)

Section EndgameProps.
Import Mgr.



End EndgameProps.

(** * Sorted arrays and comparators *)

Section Comparator.
Context {A : Type} (compar : A -> A -> Z).
Hypothesis compar_anti : forall a b, 0 < compar a b -> compar b a <= 0.
Hypothesis compar_trans :
  forall a b c, compar a b <= 0 -> compar b c <= 0 -> compar a c <= 0.

Local Abbreviation R := (Mgr.cmp_le compar).

Lemma cmp_le_total : Total R.
Proof.
  intros a b. unfold Mgr.cmp_le.
  destruct (Z_le_gt_dec (compar a b) 0); [by left|].
  right. apply compar_anti. lia.
Qed.

Lemma cmp_le_transitive : Transitive R.
Proof. intros a b c. apply compar_trans. Qed.

Lemma qsort_sorted (l : list A) : StronglySorted R (Mgr.qsort compar l).
Proof.
  unfold Mgr.qsort.
  apply (@StronglySorted_merge_sort _ R _ cmp_le_transitive cmp_le_total).
Qed.

Lemma qsort_perm (l : list A) : Mgr.qsort compar l ≡ₚ l.
Proof. apply merge_sort_Permutation. Qed.

(** The lower bound splits a sorted array in the elements below the key
    and the elements not below it. *)
Lemma lowerBound_le_length (key : A) (l : list A) :
  ((Mgr.tr_lowerBound compar key l).1 <= length l)%nat.
Proof.
  induction l as [|x l IH]; simpl; [done|].
  destruct (0 <? compar key x); [|simpl; lia].
  destruct (Mgr.tr_lowerBound compar key l). simpl in *. lia.
Qed.

Lemma lowerBound_below (key : A) (l : list A) :
  Forall (fun x => R x key) (take (Mgr.tr_lowerBound compar key l).1 l).
Proof.
  induction l as [|x l IH]; simpl; [done|].
  destruct (Z.ltb_spec 0 (compar key x)) as [Hlt|Hge]; [|by constructor].
  destruct (Mgr.tr_lowerBound compar key l) as [pos e]. simpl in *.
  constructor; [by apply compar_anti|done].
Qed.

Lemma lowerBound_above (key : A) (l : list A) :
  StronglySorted R l ->
  Forall (fun x => R key x) (drop (Mgr.tr_lowerBound compar key l).1 l).
Proof.
  induction 1 as [|x l Hs IH Hx]; simpl; [done|].
  destruct (Z.ltb_spec 0 (compar key x)) as [Hlt|Hge].
  - destruct (Mgr.tr_lowerBound compar key l) as [pos e]. simpl in *. done.
  - simpl. constructor; [done|].
    eapply Forall_impl; [exact Hx|]. intros y Hy. by eapply compar_trans.
Qed.

Lemma array_insert_sorted (key : A) (l : list A) :
  StronglySorted R l ->
  StronglySorted R (Mgr.array_insert l (Mgr.tr_lowerBound compar key l).1 key).
Proof.
  intros Hs. unfold Mgr.array_insert.
  pose proof (lowerBound_below key l) as Hb.
  pose proof (lowerBound_above key l Hs) as Ha.
  set (pos := (Mgr.tr_lowerBound compar key l).1) in *.
  rewrite <- (take_drop pos l) in Hs.
  apply StronglySorted_app in Hs as (Hcross & Hl & Hr).
  apply StronglySorted_app_2; [|done|].
  - intros x1 x2 H1 H2. apply elem_of_cons in H2 as [->|H2].
    + by apply (proj1 (Forall_forall _ _) Hb).
    + by apply Hcross.
  - apply StronglySorted_cons. done.
Qed.

Lemma array_remove_sorted (pos : nat) (l : list A) :
  StronglySorted R l -> StronglySorted R (Mgr.array_remove l pos).
Proof.
  intros Hs. unfold Mgr.array_remove.
  rewrite <- (take_drop pos l) in Hs.
  apply StronglySorted_app in Hs as (Hcross & Hl & Hr).
  apply StronglySorted_app_2; [|done|].
  - intros x1 x2 H1 H2. apply Hcross; [done|].
    apply list_elem_of_lookup in H2 as [i Hi]. rewrite lookup_drop in Hi.
    apply list_elem_of_lookup. exists (S i). rewrite lookup_drop.
    by replace (pos + S i)%nat with (S pos + i)%nat by lia.
  - destruct (drop pos l) as [|y r] eqn:Hd.
    + replace (drop (S pos) l) with (drop 1 (drop pos l)) by (by rewrite drop_drop, Nat.add_1_r).
      rewrite Hd. constructor.
    + replace (drop (S pos) l) with (drop 1 (drop pos l)) by (by rewrite drop_drop, Nat.add_1_r).
      rewrite Hd. simpl. rewrite drop_0. by apply StronglySorted_cons in Hr as [_ Hr].
Qed.

Lemma array_remove_insert_perm (pos newpos : nat) (x : A) (l : list A) :
  l !! pos = Some x ->
  Mgr.array_insert (Mgr.array_remove l pos) newpos x ≡ₚ l.
Proof.
  intros Hx. unfold Mgr.array_insert, Mgr.array_remove.
  rewrite <- Permutation_middle.
  rewrite (take_drop newpos (take pos l ++ drop (S pos) l)).
  rewrite Permutation_middle.
  by rewrite (take_drop_middle l pos x).
Qed.

(** A piece whose neighbours are in order with it sits at the right place
    of an array whose other elements are in order. *)
Lemma in_place_sorted (pos : nat) (x : A) (l : list A) :
  l !! pos = Some x ->
  StronglySorted R (Mgr.array_remove l pos) ->
  (forall y, (pos > 0)%nat -> l !! (pos - 1)%nat = Some y -> R y x) ->
  (forall y, l !! S pos = Some y -> R x y) ->
  StronglySorted R l.
Proof.
  intros Hx Hs Hleft Hright.
  rewrite <- (take_drop_middle l pos x Hx).
  unfold Mgr.array_remove in Hs.
  apply StronglySorted_app in Hs as (Hcross & Hl & Hr).
  apply StronglySorted_app_2; [|done|].
  - intros x1 x2 H1 H2. apply elem_of_cons in H2 as [->|H2]; [|by apply Hcross].
    (* x1 is at or before the left neighbour *)
    destruct pos as [|pos']; [by rewrite take_0 in H1; apply elem_of_nil in H1|].
    assert (Hlen : (S pos' < length l)%nat) by (by eapply lookup_lt_Some).
    destruct (l !! pos') as [y|] eqn:Hy;
      [|apply lookup_ge_None in Hy; lia].
    assert (Ryx : R y x).
    { apply Hleft; [lia|]. by replace (S pos' - 1)%nat with pos' by lia. }
    rewrite (take_S_r l pos' y Hy) in H1, Hl.
    apply elem_of_app in H1 as [H1|H1].
    + eapply compar_trans; [|exact Ryx].
      by eapply (StronglySorted_app_1_elem_of _ _ _ x1 y Hl); [|apply list_elem_of_singleton].
    + apply list_elem_of_singleton in H1. by subst.
  - apply StronglySorted_cons. split; [|done].
    destruct (drop (S pos) l) as [|y r] eqn:Hd; [done|].
    assert (Hy : l !! S pos = Some y).
    { rewrite <- (Nat.add_0_r (S pos)), <- lookup_drop, Hd. done. }
    specialize (Hright y Hy).
    apply StronglySorted_cons in Hr as [Hall _].
    constructor; [done|].
    eapply Forall_impl; [exact Hall|]. intros z Hz. by eapply compar_trans.
Qed.

Lemma sorted_adjacent_pairs (l : list A) :
  StronglySorted R l -> adjacent_pairs R l.
Proof.
  induction 1 as [|x l Hs IH Hx]; intros i a b Ha Hb; [by rewrite lookup_nil in Ha|].
  destruct i as [|i]; simpl in *.
  - injection Ha as <-. apply list_elem_of_lookup_2 in Hb.
    by apply (proj1 (Forall_forall _ _) Hx).
  - by eapply IH.
Qed.

End Comparator.

(** * The weighted-piece list *)

Section PieceOrder.
Import Mgr.

Lemma comparePieceByWeight_le (tr : tr_torrent) (rep : Z -> Z) (a b : weighted_piece) :
  comparePieceByWeight tr rep a b <= 0 <-> weight_order tr rep a b.
Proof.
  unfold comparePieceByWeight, weight_order, compound_order.
  repeat match goal with
         | |- context [?x <? ?y] => destruct (Z.ltb_spec x y)
         end; lia.
Qed.

Lemma comparePieceByWeight_anti (tr : tr_torrent) (rep : Z -> Z) (a b : weighted_piece) :
  0 < comparePieceByWeight tr rep a b -> comparePieceByWeight tr rep b a <= 0.
Proof.
  intros H. apply comparePieceByWeight_le.
  assert (Hn : ~ weight_order tr rep a b) by (rewrite <- comparePieceByWeight_le; lia).
  unfold weight_order, compound_order in *. lia.
Qed.

Lemma comparePieceByWeight_trans (tr : tr_torrent) (rep : Z -> Z) (a b c : weighted_piece) :
  comparePieceByWeight tr rep a b <= 0 ->
  comparePieceByWeight tr rep b c <= 0 ->
  comparePieceByWeight tr rep a c <= 0.
Proof.
  rewrite !comparePieceByWeight_le. unfold weight_order, compound_order. lia.
Qed.

Lemma pieceListSort_weight_sorted (t : Torrent) :
  weight_sorted (pieceListSort t PIECES_SORTED_BY_WEIGHT).
Proof.
  split; [done|]. unfold by_weight. simpl.
  apply qsort_sorted; [apply comparePieceByWeight_anti | apply comparePieceByWeight_trans].
Qed.

Lemma pieceListSort_perm (t : Torrent) (s : piece_sort_state) :
  pieces (pieceListSort t s) ≡ₚ pieces t.
Proof. destruct s; simpl; apply qsort_perm. Qed.

Lemma pieceListRebuild_weight_sorted (rand : nat -> Z) (t : Torrent) :
  isSeed (tor t) = false -> weight_sorted (pieceListRebuild rand t).
Proof.
  intros Hs. unfold pieceListRebuild. rewrite Hs.
  apply pieceListSort_weight_sorted.
Qed.

(** Re-positioning the one piece that may be out of order restores the
    order of the whole list. *)
Lemma pieceListResortPiece_weight_sorted (t : Torrent) (pos : nat) :
  (pieceSortState t = PIECES_SORTED_BY_WEIGHT ->
   StronglySorted (by_weight t) (array_remove (pieces t) pos)) ->
  (pos < length (pieces t))%nat ->
  weight_sorted (pieceListResortPiece t (Some pos)).
Proof.
  intros Hrest Hpos. unfold pieceListResortPiece.
  destruct (sort_state_eqb (pieceSortState t) PIECES_SORTED_BY_WEIGHT) eqn:Hst; simpl;
    [|apply pieceListSort_weight_sorted].
  assert (Hstate : pieceSortState t = PIECES_SORTED_BY_WEIGHT)
    by (by destruct (pieceSortState t)).
  specialize (Hrest Hstate).
  destruct (pieces t !! pos) as [x|] eqn:Hx; [|apply lookup_ge_None in Hx; lia].
  set (cmp := comparePieceByWeight (tor t) (pieceReplication t)) in *.
  match goal with
  | |- context [negb (?l || ?r)] => destruct l eqn:Hleft; [|destruct r eqn:Hright]
  end; simpl.
  - (* out of order with the left neighbour *)
    destruct (tr_lowerBound cmp x (array_remove (pieces t) pos)) as [newpos e] eqn:Hlb.
    split; [done|]. unfold by_weight. simpl.
    replace newpos with (tr_lowerBound cmp x (array_remove (pieces t) pos)).1
      by (by rewrite Hlb).
    apply array_insert_sorted;
      [apply comparePieceByWeight_anti | apply comparePieceByWeight_trans | done].
  - destruct (tr_lowerBound cmp x (array_remove (pieces t) pos)) as [newpos e] eqn:Hlb.
    split; [done|]. unfold by_weight. simpl.
    replace newpos with (tr_lowerBound cmp x (array_remove (pieces t) pos)).1
      by (by rewrite Hlb).
    apply array_insert_sorted;
      [apply comparePieceByWeight_anti | apply comparePieceByWeight_trans | done].
  - split; [done|].
    apply (in_place_sorted cmp (comparePieceByWeight_trans _ _) pos x);
      [done | done | |].
    + intros y Hgt Hy. destruct pos as [|pos']; [lia|].
      replace (S pos' - 1)%nat with pos' in Hy by lia.
      rewrite Hy in Hleft. unfold cmp_le.
      by destruct (Z.ltb_spec 0 (cmp y x)); [|lia].
    + intros y Hy. rewrite Hy in Hright. unfold cmp_le.
      by destruct (Z.ltb_spec 0 (cmp x y)); [|lia].
Qed.

Lemma array_remove_insert_same {B} (l : list B) (pos : nat) (x : B) :
  array_remove (<[pos := x]> l) pos = array_remove l pos.
Proof.
  unfold array_remove.
  rewrite take_insert_ge by lia. rewrite drop_insert_lt by lia. done.
Qed.

Lemma pieceListResortPiece_after_change (t : Torrent) (pos : nat) (p' : weighted_piece) :
  weight_sorted t ->
  (pos < length (pieces t))%nat ->
  weight_sorted (pieceListResortPiece (set_pieces (<[pos := p']> (pieces t)) t) (Some pos)).
Proof.
  intros [Hst Hs] Hpos.
  apply pieceListResortPiece_weight_sorted; simpl.
  - intros _. rewrite array_remove_insert_same.
    by apply array_remove_sorted.
  - by rewrite length_insert.
Qed.

Lemma pieceListLookup_Some (t : Torrent) (ix : Z) (pos : nat) :
  pieceListLookup t ix = Some pos ->
  exists p, pieces t !! pos = Some p /\ index p = ix
            /\ forall j q, pieces t !! j = Some q -> (j < pos)%nat -> index q <> ix.
Proof.
  unfold pieceListLookup. intros H.
  destruct (list_find _ (pieces t)) as [[i p]|] eqn:Hf; [|done].
  simpl in H. injection H as ->.
  apply list_find_Some in Hf as (Hp & Hix & Hbefore).
  exists p. repeat split; [done|done|]. intros j q Hq Hj. by eapply Hbefore.
Qed.

Lemma pieceListRemoveRequest_weight_sorted (t : Torrent) (blk : Z) :
  weight_sorted t -> weight_sorted (pieceListRemoveRequest t blk).
Proof.
  intros Hinv. unfold pieceListRemoveRequest.
  destruct (pieceListLookup t (tr_torBlockPiece (tor t) blk)) as [pos|] eqn:Hl; [|done].
  apply pieceListLookup_Some in Hl as (p & Hp & _).
  rewrite Hp. destruct (0 <? requestCount p); [|done].
  apply pieceListResortPiece_after_change; [done|]. by eapply lookup_lt_Some.
Qed.

Lemma pieceListRemovePiece_weight_sorted (t : Torrent) (piece : Z) :
  weight_sorted t -> weight_sorted (pieceListRemovePiece t piece).
Proof.
  intros [Hst Hs]. unfold pieceListRemovePiece.
  destruct (pieceListLookup t piece) as [pos|]; [|done].
  split; [done|]. unfold by_weight. simpl.
  by apply array_remove_sorted.
Qed.

Lemma StronglySorted_agree {B} (R R' : B -> B -> Prop) (l : list B) :
  (forall x y, x ∈ l -> y ∈ l -> R x y -> R' x y) ->
  StronglySorted R l -> StronglySorted R' l.
Proof.
  intros Hagree Hs. induction Hs as [|x l Hs IH Hx]; [constructor|].
  constructor.
  - apply IH. intros a b Ha Hb. apply Hagree; by apply elem_of_cons; right.
  - apply Forall_forall. intros y Hy.
    apply Hagree; [by apply elem_of_cons; left | by apply elem_of_cons; right |].
    by apply (proj1 (Forall_forall _ _) Hx).
Qed.

Lemma comparePieceByWeight_rep_agree (tr : tr_torrent) (rep rep' : Z -> Z)
    (a b : weighted_piece) :
  rep' (index a) = rep (index a) ->
  rep' (index b) = rep (index b) ->
  comparePieceByWeight tr rep' a b = comparePieceByWeight tr rep a b.
Proof.
  intros Ha Hb. unfold comparePieceByWeight, rep_of. by rewrite Ha, Hb.
Qed.

Lemma tr_incrReplicationOfPiece_weight_sorted (t : Torrent) (ix : Z) :
  weight_sorted t ->
  NoDup (index <$> pieces t) ->
  weight_sorted (tr_incrReplicationOfPiece t ix).
Proof.
  intros [Hst Hs] Hnd. unfold tr_incrReplicationOfPiece.
  set (rep' := fun j => if j =? ix then u16 (rep_of (pieceReplication t) ix + 1)
                        else rep_of (pieceReplication t) j).
  set (t1 := set_pieceReplication rep' t).
  assert (Hst1 : pieceSortState t1 = PIECES_SORTED_BY_WEIGHT) by done.
  rewrite Hst1. simpl.
  assert (Hagree : forall l : list weighted_piece,
            (forall x, x ∈ l -> index x <> ix) ->
            StronglySorted (by_weight t) l -> StronglySorted (by_weight t1) l).
  { intros l Hne. apply StronglySorted_agree. intros x y Hx Hy.
    unfold by_weight, cmp_le. simpl.
    rewrite (comparePieceByWeight_rep_agree (tor t) (pieceReplication t) rep'); [done| |].
    - unfold rep'. destruct (Z.eqb_spec (index x) ix); [by apply Hne in Hx|done].
    - unfold rep'. destruct (Z.eqb_spec (index y) ix); [by apply Hne in Hy|done]. }
  destruct (pieceListLookup t1 ix) as [pos|] eqn:Hl.
  - apply pieceListLookup_Some in Hl as (p & Hp & Hix & _). simpl in Hp.
    apply pieceListResortPiece_weight_sorted; [|by eapply lookup_lt_Some].
    intros _. simpl. apply Hagree; [|by apply array_remove_sorted].
    intros x Hx Heq. unfold array_remove in Hx.
    apply list_elem_of_lookup in Hx as [j Hj].
    assert (Hpos : (pos < length (pieces t))%nat) by (by eapply lookup_lt_Some).
    assert (Hj' : exists k, k <> pos /\ pieces t !! k = Some x).
    { destruct (decide (j < pos)%nat) as [Hlt|Hge].
      - exists j. split; [lia|].
        rewrite lookup_app_l in Hj by (rewrite length_take; lia).
        by rewrite lookup_take_lt in Hj.
      - exists (S j). split; [lia|].
        rewrite lookup_app_r in Hj by (rewrite length_take; lia).
        rewrite length_take, lookup_drop in Hj.
        by replace (S pos + (j - pos `min` length (pieces t)))%nat with (S j) in Hj by lia. }
    destruct Hj' as (k & Hk & Hx').
    apply Hk. eapply (NoDup_lookup _ k pos (index x) Hnd).
    + by rewrite list_lookup_fmap, Hx'.
    + rewrite list_lookup_fmap, Hp. simpl. congruence.
  - split; [done|]. apply Hagree; [|done].
    intros x Hx Heq. unfold pieceListLookup in Hl. simpl in Hl.
    destruct (list_find (fun p => index p = ix) (pieces t)) as [r|] eqn:Hf; [done|].
    apply list_find_None in Hf.
    by apply (proj1 (Forall_forall _ _) Hf x Hx).
Qed.

Lemma weight_sorted_run_invariant (t : Torrent) :
  weight_sorted_run t -> weight_sorted t.
Proof.
  induction 1 as [t|rand t Hseed|t pos p' _ IH|t blk _ IH|t piece _ IH|t ix _ IH Hnd].
  - apply pieceListSort_weight_sorted.
  - by apply pieceListRebuild_weight_sorted.
  - destruct (decide (pos < length (pieces t))%nat) as [Hlt|Hge].
    + by apply pieceListResortPiece_after_change.
    + rewrite list_insert_ge by lia.
      destruct IH as [Hst Hs].
      unfold pieceListResortPiece. simpl. rewrite Hst. simpl.
      replace (pieces t !! S pos) with (@None weighted_piece)
        by (symmetry; apply lookup_ge_None; lia).
      replace (pieces t !! pos) with (@None weighted_piece)
        by (symmetry; apply lookup_ge_None; lia).
      destruct pos as [|pos']; simpl.
      * split; [done|]. by destruct t.
      * destruct (pieces t !! pos'); simpl; split; try done; by destruct t.
  - by apply pieceListRemoveRequest_weight_sorted.
  - by apply pieceListRemovePiece_weight_sorted.
  - by apply tr_incrReplicationOfPiece_weight_sorted.
Qed.

(** C6, as amended: while the weighted-piece list is in the sorted-by-weight
    state (put there by pieceListSort or pieceListRebuild and then changed
    only by the re-positioning operations), every adjacent pair of pieces
    is in the compound order whose first key is missing minus pending for a
    piece with more missing than pending and blocks-per-piece plus pending
    for every other piece, followed by higher priority, lower replication
    and lower salt. *)
Theorem sorted_by_weight_pairs (t : Torrent) :
  weight_sorted_run t ->
  pieceSortState t = PIECES_SORTED_BY_WEIGHT
  /\ adjacent_pairs (weight_order (tor t) (pieceReplication t)) (pieces t).
Proof.
  intros Hrun. destruct (weight_sorted_run_invariant t Hrun) as [Hst Hs].
  split; [done|].
  intros i a b Ha Hb. apply comparePieceByWeight_le.
  by apply (sorted_adjacent_pairs _ _ Hs i a b).
Qed.

Lemma sorted_by_weight_pairs_witness :
  adjacent_pairs (weight_order two_piece_torrent (fun _ => 1))
    [mk_piece 0 7 1; mk_piece 1 9 0].
Proof.
  apply (sorted_by_weight_pairs
           (pieceListRemoveRequest (pieceListSort two_piece_list PIECES_SORTED_BY_WEIGHT) 0)).
  apply run_remove_request, run_sort.
Defined.

(** C6, the claim as worded fails right after a sort: the piece whose two
    missing blocks are both requested is placed behind the piece with three
    missing blocks, although its missing-minus-pending is zero. *)
Lemma claimed_order_fails_after_sort :
  let t := pieceListSort two_piece_list PIECES_SORTED_BY_WEIGHT in
  pieceSortState t = PIECES_SORTED_BY_WEIGHT
  /\ pieces t = [mk_piece 1 9 0; mk_piece 0 7 2]
  /\ ~ adjacent_pairs (claimed_order (tor t) (pieceReplication t)) (pieces t).
Proof.
  split; [reflexivity|]. split; [reflexivity|].
  intros H. specialize (H 0%nat (mk_piece 1 9 0) (mk_piece 0 7 2) eq_refl eq_refl).
  unfold claimed_order, compound_order, claimed_weight in H. simpl in H. lia.
Qed.

End PieceOrder.

(** * Timed cancellation (refillUpkeep) *)

Section RefillProps.
Import Mgr.

Local Arguments pieceListResortPiece : simpl never.
Local Arguments pieceListRemoveRequest : simpl never.

(** ** The weighted pieces *)

Lemma pieceListSort_fields (t : Torrent) (s : piece_sort_state) :
  tor (pieceListSort t s) = tor t
  /\ requests (pieceListSort t s) = requests t
  /\ pieceReplication (pieceListSort t s) = pieceReplication t.
Proof. by destruct s. Qed.

Lemma pieceListResortPiece_fields (t : Torrent) (p : option nat) :
  tor (pieceListResortPiece t p) = tor t
  /\ requests (pieceListResortPiece t p) = requests t
  /\ pieceReplication (pieceListResortPiece t p) = pieceReplication t.
Proof.
  destruct p as [pos|]; [|done]. unfold pieceListResortPiece.
  destruct (negb (sort_state_eqb _ _)); [done|].
  destruct (negb _); [done|].
  destruct (pieces t !! pos); [|done].
  by destruct (tr_lowerBound _ _ _).
Qed.

Lemma pieceListResortPiece_perm (t : Torrent) (p : option nat) :
  pieces (pieceListResortPiece t p) ≡ₚ pieces t.
Proof.
  destruct p as [pos|]; [|done]. unfold pieceListResortPiece.
  destruct (negb (sort_state_eqb _ _)); [apply pieceListSort_perm|].
  destruct (negb _); [done|].
  destruct (pieces t !! pos) as [tmp|] eqn:Hp; [|done].
  destruct (tr_lowerBound _ _ _) as [newpos e]. simpl.
  by apply array_remove_insert_perm.
Qed.

Lemma pieceListRemoveRequest_fields (t : Torrent) (blk : Z) :
  tor (pieceListRemoveRequest t blk) = tor t
  /\ requests (pieceListRemoveRequest t blk) = requests t
  /\ pieceReplication (pieceListRemoveRequest t blk) = pieceReplication t.
Proof.
  unfold pieceListRemoveRequest.
  destruct (pieceListLookup _ _) as [pos|]; [|done].
  destruct (pieces t !! pos) as [p|]; [|done].
  destruct (0 <? requestCount p); [|done].
  by destruct (pieceListResortPiece_fields
       (set_pieces (<[pos:=set_piece_requestCount (i16 (requestCount p - 1)) p]> (pieces t)) t)
       (Some pos)) as (-> & -> & ->).
Qed.

Lemma i16_small (z : Z) : -32768 <= z <= 32767 -> i16 z = z.
Proof. intros H. unfold i16. rewrite Z.mod_small; lia. Qed.

Lemma map_dec_request_at (l : list weighted_piece) (pos : nat) (p : weighted_piece) :
  NoDup (index <$> l) ->
  l !! pos = Some p ->
  dec_request (index p) <$> l = <[pos := dec_request (index p) p]> l.
Proof.
  intros Hnd Hp. apply list_eq. intros i.
  rewrite list_lookup_fmap.
  destruct (decide (i = pos)) as [->|Hne].
  - rewrite list_lookup_insert_eq by (by eapply lookup_lt_Some). by rewrite Hp.
  - rewrite list_lookup_insert_ne by done.
    destruct (l !! i) as [q|] eqn:Hq; [|done]. simpl. f_equal.
    unfold dec_request.
    destruct (Z.eqb_spec (index q) (index p)) as [Heq|]; [|done].
    exfalso. apply Hne.
    eapply (NoDup_lookup _ i pos (index p) Hnd);
      rewrite list_lookup_fmap; [by rewrite Hq; simpl; f_equal | by rewrite Hp].
Qed.

Lemma map_dec_request_absent (l : list weighted_piece) (ix : Z) :
  Forall (fun p => index p <> ix) l -> dec_request ix <$> l = l.
Proof.
  induction 1 as [|p l Hp _ IH]; [done|]. csimpl. rewrite IH. f_equal.
  unfold dec_request. by destruct (Z.eqb_spec (index p) ix).
Qed.

(** Removing a request decrements the count of the block's piece, when the
    piece is listed with a positive count, and only permutes the list. *)
Lemma pieceListRemoveRequest_perm (t : Torrent) (blk : Z) :
  NoDup (index <$> pieces t) ->
  Forall is_int16_count (pieces t) ->
  pieces (pieceListRemoveRequest t blk)
  ≡ₚ dec_request (tr_torBlockPiece (tor t) blk) <$> pieces t.
Proof.
  intros Hnd Hrange. unfold pieceListRemoveRequest.
  set (ix := tr_torBlockPiece (tor t) blk).
  destruct (pieceListLookup t ix) as [pos|] eqn:Hl.
  - apply pieceListLookup_Some in Hl as (p & Hp & Hix & _). rewrite Hp.
    rewrite <- Hix. rewrite (map_dec_request_at _ pos p Hnd Hp).
    unfold dec_request. rewrite Z.eqb_refl. simpl.
    destruct (Z.ltb_spec 0 (requestCount p)) as [Hpos|Hz].
    + rewrite pieceListResortPiece_perm. simpl.
      rewrite i16_small; [done|].
      apply list_elem_of_lookup_2 in Hp.
      apply (proj1 (Forall_forall _ _) Hrange) in Hp. unfold is_int16_count in Hp. lia.
    + by rewrite list_insert_id.
  - rewrite map_dec_request_absent; [done|].
    unfold pieceListLookup in Hl.
    destruct (list_find (fun p => index p = ix) (pieces t)) eqn:Hf; [done|].
    by apply list_find_None in Hf.
Qed.

Lemma dec_request_index (ix : Z) (p : weighted_piece) : index (dec_request ix p) = index p.
Proof. unfold dec_request. by destruct (_ && _). Qed.

Lemma dec_request_range (ix : Z) (p : weighted_piece) :
  is_int16_count p -> is_int16_count (dec_request ix p).
Proof.
  unfold dec_request, is_int16_count.
  destruct (Z.eqb_spec (index p) ix); simpl; [|done].
  destruct (Z.ltb_spec 0 (requestCount p)); simpl; lia.
Qed.

Lemma remove_requests_fields (cancel : list block_request) (t : Torrent) :
  tor (remove_requests t cancel) = tor t
  /\ requests (remove_requests t cancel) = requests t
  /\ pieceReplication (remove_requests t cancel) = pieceReplication t.
Proof.
  revert t. induction cancel as [|it rest IH]; intros t; [done|].
  unfold remove_requests in *. simpl.
  destruct (IH (pieceListRemoveRequest t (block it))) as (-> & -> & ->).
  apply pieceListRemoveRequest_fields.
Qed.

Lemma remove_requests_weight_sorted (cancel : list block_request) (t : Torrent) :
  weight_sorted t -> weight_sorted (remove_requests t cancel).
Proof.
  revert t. induction cancel as [|it rest IH]; intros t Hs; [done|].
  unfold remove_requests in *. simpl.
  by apply IH, pieceListRemoveRequest_weight_sorted.
Qed.

Lemma remove_requests_perm (cancel : list block_request) :
  forall (t : Torrent) (l : list weighted_piece),
    pieces t ≡ₚ l ->
    NoDup (index <$> l) ->
    Forall is_int16_count l ->
    pieces (remove_requests t cancel)
    ≡ₚ foldl (fun l' it => dec_request (tr_torBlockPiece (tor t) (block it)) <$> l') l cancel.
Proof.
  induction cancel as [|it rest IH]; intros t l Hperm Hnd Hrange; [done|].
  unfold remove_requests in *. simpl.
  destruct (pieceListRemoveRequest_fields t (block it)) as (Htor & _ & _).
  rewrite <- Htor. apply IH.
  - rewrite pieceListRemoveRequest_perm.
    + by rewrite Htor, Hperm.
    + by rewrite Hperm.
    + by rewrite Hperm.
  - rewrite <- list_fmap_compose.
    erewrite list_fmap_ext; [exact Hnd|]. intros i p _. simpl. apply dec_request_index.
  - apply Forall_fmap. eapply Forall_impl; [exact Hrange|].
    intros p. apply dec_request_range.
Qed.

Lemma foldl_dec_request_count (tr : tr_torrent) (cancel : list block_request) :
  forall p : weighted_piece,
    is_int16_count p ->
    foldl (fun q it => dec_request (tr_torBlockPiece tr (block it)) q) p cancel
    = set_piece_requestCount
        (Z.max 0 (requestCount p - cancelled_in_piece tr cancel (index p))) p.
Proof.
  induction cancel as [|it rest IH]; intros p Hp.
  - unfold cancelled_in_piece, zlen, is_int16_count in *. simpl.
    destruct p as [i s c]. simpl in *. unfold set_piece_requestCount. simpl.
    f_equal. lia.
  - simpl. rewrite IH by (by apply dec_request_range).
    rewrite dec_request_index.
    unfold cancelled_in_piece, zlen. rewrite filter_cons.
    unfold dec_request, is_int16_count in *.
    destruct (decide (tr_torBlockPiece tr (block it) = index p)) as [Heq|Hne].
    + rewrite Heq, Z.eqb_refl. simpl.
      destruct (Z.ltb_spec 0 (requestCount p)); unfold set_piece_requestCount; simpl;
        f_equal; lia.
    + destruct (Z.eqb_spec (index p) (tr_torBlockPiece tr (block it))); [congruence|].
      done.
Qed.

Lemma foldl_fmap_pointwise {B C} (f : C -> B -> B) (cancel : list C) :
  forall l : list B,
    foldl (fun l' it => f it <$> l') l cancel
    = (fun q => foldl (fun q' it => f it q') q cancel) <$> l.
Proof.
  induction cancel as [|it rest IH]; intros l; simpl.
  - by rewrite list_fmap_id.
  - rewrite IH. by rewrite <- list_fmap_compose.
Qed.

(** ** The peers *)

Lemma request_is_stale_spec (now : Z) (st : peer_store) (tr : tr_torrent) (it : block_request) :
  request_is_stale now st tr it = true
  <-> REQUEST_TTL_SECS <= now - sentAt it
      /\ (exists p m, st !! peer it = Some (p, Some m))
      /\ ~ receiving_that_block st tr it.
Proof.
  unfold request_is_stale, receiving_that_block, Wire.tr_peerMsgsIsReadingBlock.
  rewrite andb_true_iff, Z.leb_le.
  destruct (st !! peer it) as [[p [m|]]|] eqn:Hst.
  - rewrite negb_true_iff. split.
    + intros [Hage Hrd]. split; [lia|]. split; [by eauto|].
      intros (p' & m' & Heq & Hs & Hb). injection Heq as <- <-.
      rewrite Hs in Hrd. apply Z.eqb_neq in Hrd. done.
    + intros (Hage & _ & Hrd). split; [lia|].
      destruct (Wire.state m) eqn:Hs; try done.
      apply Z.eqb_neq. intros Hb. apply Hrd. by exists p, m.
  - split; [by intros [_ ?]|]. by intros (_ & (p' & m' & ?) & _).
  - split; [by intros [_ ?]|]. by intros (_ & (p' & m' & ?) & _).
Qed.

Lemma tr_peerMsgsCancel_out (tr : tr_torrent) (m : Wire.tr_peermsgs) (blk : Z) :
  Wire.outMessages (Wire.tr_peerMsgsCancel tr m blk)
  = Wire.outMessages m ++ cancel_message tr blk.
Proof.
  unfold Wire.tr_peerMsgsCancel, Wire.protocolSendCancel, Wire.pokeBatchPeriod.
  by destruct (_ <? _).
Qed.

(** What the cancel loop has done to one peer after a list of requests:
    one history entry and one Cancel message per request of that peer. *)
Lemma send_cancels_peer (now : Z) (tr : tr_torrent) (cancel : list block_request) :
  forall (st : peer_store) (pr : peer_ptr) (p : tr_peer) (m : Wire.tr_peermsgs),
    st !! NULL = None ->
    Forall (fun it => exists p m, st !! peer it = Some (p, Some m)) cancel ->
    st !! pr = Some (p, Some m) ->
    exists p' m',
      foldl (send_cancel now tr) st cancel !! pr = Some (p', Some m')
      /\ cancelsSentToPeer p'
         = cancelsSentToPeer p
           ++ replicate (length (filter (fun it => peer it = pr) cancel)) (now, 1)
      /\ Wire.outMessages m'
         = Wire.outMessages m
           ++ concat ((fun it => cancel_message tr (block it))
                        <$> filter (fun it => peer it = pr) cancel).
Proof.
  induction cancel as [|it rest IH]; intros st pr p m Hnull Hall Hpr.
  - exists p, m. simpl. by rewrite !app_nil_r.
  - apply Forall_cons in Hall as [(q & mq & Hq) Hall]. simpl.
    assert (Hne : peer it <> NULL) by (intros Heq; rewrite Heq, Hnull in Hq; done).
    assert (Hstep : send_cancel now tr st it
              = alter (on_peer_obj (fun p0 =>
                         if 0 <? pendingReqsToPeer p0
                         then set_pendingReqsToPeer (pendingReqsToPeer p0 - 1) p0 else p0))
                  (peer it)
                  (<[peer it :=
                       (set_cancelsSentToPeer (tr_historyAdd (cancelsSentToPeer q) now 1) q,
                        Some (Wire.tr_peerMsgsCancel tr mq (block it)))]> st)).
    { unfold send_cancel, decrementPendingReqCount.
      destruct (N.eqb_spec (peer it) NULL); [done|]. by rewrite Hq. }
    set (st1 := send_cancel now tr st it) in *.
    assert (Hnull1 : st1 !! NULL = None).
    { rewrite Hstep, lookup_alter_ne, lookup_insert_ne by done. done. }
    assert (Hsess : forall r pr0 mr, st !! r = Some (pr0, Some mr) ->
              exists pr1 mr1, st1 !! r = Some (pr1, Some mr1)).
    { intros r pr0 mr Hr. rewrite Hstep.
      destruct (decide (r = peer it)) as [->|Hrne].
      - rewrite lookup_alter_eq, lookup_insert_eq. simpl. eauto.
      - rewrite lookup_alter_ne, lookup_insert_ne by done. eauto. }
    assert (Hall1 : Forall (fun it0 => exists p0 m0, st1 !! peer it0 = Some (p0, Some m0)) rest).
    { eapply Forall_impl; [exact Hall|]. intros it0 (p0 & m0 & H0). by eapply Hsess. }
    rewrite filter_cons.
    destruct (decide (peer it = pr)) as [Heq|Hneq].
    + subst pr. rewrite Hq in Hpr. injection Hpr as <- <-.
      assert (H1 : exists p1,
                st1 !! peer it = Some (p1, Some (Wire.tr_peerMsgsCancel tr mq (block it)))
                /\ cancelsSentToPeer p1 = cancelsSentToPeer q ++ [(now, 1)]).
      { rewrite Hstep, lookup_alter_eq, lookup_insert_eq. simpl.
        eexists. split; [reflexivity|]. by destruct (0 <? _). }
      destruct H1 as (p1 & Hp1 & Hc1).
      destruct (IH st1 (peer it) p1 _ Hnull1 Hall1 Hp1) as (p' & m' & Hl & Hc & Ho).
      exists p', m'. split; [done|]. split.
      * rewrite Hc, Hc1. simpl. by rewrite <- app_assoc.
      * rewrite Ho, tr_peerMsgsCancel_out. csimpl. by rewrite <- app_assoc.
    + assert (H1 : st1 !! pr = Some (p, Some m)).
      { rewrite Hstep, lookup_alter_ne, lookup_insert_ne by done. done. }
      by apply (IH st1 pr p m Hnull1 Hall1 H1).
Qed.

(** ** The tick *)

Lemma filter_iff_in {B} (P1 P2 : B -> Prop)
    `{!forall x, Decision (P1 x), !forall x, Decision (P2 x)} (l : list B) :
  (forall x, x ∈ l -> P1 x <-> P2 x) -> filter P1 l = filter P2 l.
Proof.
  induction l as [|a l IH]; intros Hiff; [done|].
  assert (Ha : P1 a <-> P2 a) by (apply Hiff; by left).
  assert (Hl : filter P1 l = filter P2 l) by (apply IH; intros x Hx; apply Hiff; by right).
  destruct (decide (P1 a)).
  - rewrite !filter_cons_True by tauto. by rewrite Hl.
  - rewrite !filter_cons_False by tauto. done.
Qed.

Lemma refillUpkeep_torrent_eq (now : Z) (st : peer_store) (t : Torrent) :
  refillUpkeep_torrent now st t
  = (foldl (send_cancel now (tor t)) st (cancelled_requests now st t),
     remove_requests
       (set_requests
          (filter (fun it => request_is_stale now st (tor t) it <> true) (requests t)) t)
       (cancelled_requests now st t)).
Proof.
  unfold refillUpkeep_torrent, cancelled_requests, remove_requests.
  destruct (requests t) as [|it rest] eqn:Hr; [|done].
  simpl. f_equal. destruct t. simpl in *. by subst.
Qed.

(** C3, as amended: a refill-upkeep tick cancels exactly the requests that
    are at least 120 seconds old and whose peer has a wire session that is
    not receiving the Piece payload of the very block requested.  Those
    requests leave the ledger, every other request stays, in order and
    unchanged; each peer gets one entry in its cancels-sent history and one
    Cancel message per cancelled request of its own; the request count of
    every listed piece goes down by the number of cancelled requests in
    that piece (not below zero), the list is otherwise only permuted, and it
    is in weight order afterwards if it was before. *)
Theorem refillUpkeep_cancels (now : Z) (st : peer_store) (t : Torrent) :
  st !! NULL = None ->
  NoDup (index <$> pieces t) ->
  Forall is_int16_count (pieces t) ->
  let cancelled := cancelled_requests now st t in
  let st' := (refillUpkeep_torrent now st t).1 in
  let t' := (refillUpkeep_torrent now st t).2 in
  (forall it, it ∈ cancelled <->
     it ∈ requests t
     /\ 120 <= now - sentAt it
     /\ (exists p m, st !! peer it = Some (p, Some m))
     /\ ~ receiving_that_block st (tor t) it)
  /\ requests t' = filter (fun it => it ∉ cancelled) (requests t)
  /\ (forall pr p m, st !! pr = Some (p, Some m) ->
      exists p' m',
        st' !! pr = Some (p', Some m')
        /\ cancelsSentToPeer p'
           = cancelsSentToPeer p
             ++ replicate (length (filter (fun it => peer it = pr) cancelled)) (now, 1)
        /\ Wire.outMessages m'
           = Wire.outMessages m
             ++ concat ((fun it => cancel_message (tor t) (block it))
                          <$> filter (fun it => peer it = pr) cancelled))
  /\ pieces t'
     ≡ₚ (fun p => set_piece_requestCount
                   (Z.max 0 (requestCount p - cancelled_in_piece (tor t) cancelled (index p)))
                   p) <$> pieces t
  /\ (weight_sorted t -> weight_sorted t').
Proof.
  intros Hnull Hnd Hrange cancelled st' t'.
  subst st' t'. rewrite refillUpkeep_torrent_eq. fold cancelled. cbn [fst snd].
  assert (Hin : forall it, it ∈ cancelled <->
            it ∈ requests t /\ request_is_stale now st (tor t) it = true).
  { intros it. unfold cancelled, cancelled_requests.
    rewrite list_elem_of_filter. tauto. }
  split; [|split; [|split; [|split]]].
  - intros it. rewrite Hin, request_is_stale_spec. unfold REQUEST_TTL_SECS. tauto.
  - destruct (remove_requests_fields cancelled
                (set_requests
                   (filter (fun it => request_is_stale now st (tor t) it <> true) (requests t)) t))
      as (_ & -> & _).
    simpl. apply filter_iff_in. intros it Hit.
    rewrite Hin. tauto.
  - intros pr p m Hpr.
    apply send_cancels_peer; [done| |done].
    apply Forall_forall. intros it Hit.
    apply Hin in Hit as [_ Hit]. apply request_is_stale_spec in Hit. tauto.
  - set (t1 := set_requests _ t).
    rewrite (remove_requests_perm cancelled t1 (pieces t)); [|done|done|done].
    rewrite foldl_fmap_pointwise.
    replace (tor t1) with (tor t) by done.
    assert (Heq : forall A B (f g : A -> B) (l : list A),
              Forall (fun x => f x = g x) l -> f <$> l = g <$> l)
      by (intros A B f g l; apply Forall_fmap_ext_1).
    erewrite Heq; [done|].
    eapply Forall_impl; [exact Hrange|]. intros p Hp. simpl.
    by apply (foldl_dec_request_count (tor t) cancelled p).
  - intros [Hst Hs]. apply remove_requests_weight_sorted. by split.
Qed.

Lemma refillUpkeep_cancels_witness :
  requests (refillUpkeep_torrent 200 reading_store reading_torrent).2 = [mk_breq 5 1%N 0]
  /\ pieces (refillUpkeep_torrent 200 reading_store reading_torrent).2
     ≡ₚ [mk_piece 1 9 1; mk_piece 0 7 0].
Proof.
  destruct (refillUpkeep_cancels 200 reading_store reading_torrent) as (_ & H1 & _ & H2 & _).
  - reflexivity.
  - apply (bool_decide_unpack (NoDup (index <$> pieces reading_torrent))). vm_compute. exact I.
  - repeat constructor; cbn; lia.
  - split; [reflexivity|]. exact H2.
Defined.

(** C3, the claim as worded fails: a peer that is receiving the payload of
    block 5 has an old request for block 6 outstanding; the peer is in the
    middle of a Piece, and yet the request for block 6 is cancelled. *)
Lemma refillUpkeep_cancels_while_receiving :
  let it := mk_breq 6 1%N 0 in
  receiving_a_piece reading_store it
  /\ 120 <= 200 - sentAt it
  /\ it ∈ requests reading_torrent
  /\ it ∉ requests (refillUpkeep_torrent 200 reading_store reading_torrent).2.
Proof.
  split; [by exists (set_pendingReqsToPeer 2 fresh_peer), reading_msgs|].
  split; [cbn; lia|].
  split; [set_solver|].
  intros H. vm_compute in H. apply list_elem_of_singleton in H. discriminate.
Qed.

End RefillProps.

(** * Interest (rechokeDownloads) *)

Section InterestProps.
Import Mgr.

Lemma compare_rechoke_info_le (a b : tr_rechoke_info) :
  compare_rechoke_info a b <= 0 <-> rechoke_order a b.
Proof.
  destruct a as [pa sa [| |]], b as [pb sb [| |]];
    unfold compare_rechoke_info, rechoke_order; simpl;
    intuition (try lia; try discriminate).
Qed.

Lemma compare_rechoke_info_anti (a b : tr_rechoke_info) :
  0 < compare_rechoke_info a b -> compare_rechoke_info b a <= 0.
Proof.
  destruct a as [pa sa [| |]], b as [pb sb [| |]];
    unfold compare_rechoke_info; simpl; lia.
Qed.

Lemma compare_rechoke_info_trans (a b c : tr_rechoke_info) :
  compare_rechoke_info a b <= 0 -> compare_rechoke_info b c <= 0 ->
  compare_rechoke_info a c <= 0.
Proof.
  destruct a as [pa sa [| |]], b as [pb sb [| |]], c as [pc sc [| |]];
    unfold compare_rechoke_info; simpl; lia.
Qed.

Lemma tr_historyGet_nonneg (h : tr_recentHistory) (now sec : Z) :
  Forall (fun e => 0 <= e.2) h -> 0 <= tr_historyGet h now sec.
Proof.
  unfold tr_historyGet. induction 1 as [|e h He _ IH]; simpl; [done|].
  case_bool_decide; lia.
Qed.

Lemma classify_peer_claimed (blocks cancels : Z) :
  0 <= cancels -> classify_peer blocks cancels = claimed_class blocks cancels.
Proof.
  intros Hc. unfold classify_peer, claimed_class.
  destruct (Z.eqb_spec blocks 0), (Z.eqb_spec cancels 0); simpl;
    repeat case_bool_decide; try done; try lia;
    destruct (Z.ltb_spec (cancels * 10) blocks); try done; lia.
Qed.

Lemma setInterested_declared (p : tr_peer) (m : Wire.tr_peermsgs) (b : bool) :
  declared b (p, Some m)
    ((Wire.tr_peerMsgsSetInterested (p, m) b).1,
     Some (Wire.tr_peerMsgsSetInterested (p, m) b).2).
Proof.
  exists p, m, (Wire.tr_peerMsgsSetInterested (p, m) b).1,
    (Wire.tr_peerMsgsSetInterested (p, m) b).2.
  split; [done|]. split; [done|].
  unfold Wire.tr_peerMsgsSetInterested, Wire.sendInterest, Wire.pokeBatchPeriod. simpl.
  destruct (eqb b (clientIsInterested p)) eqn:Hb; simpl.
  - apply eqb_prop in Hb. by rewrite app_nil_r.
  - by destruct (_ <? _).
Qed.

Lemma store_set_interested_other (st : peer_store) (pr pr' : peer_ptr) (b : bool) :
  pr' <> pr -> store_set_interested st pr b !! pr' = st !! pr'.
Proof.
  intros Hne. unfold store_set_interested.
  destruct (st !! pr) as [[p [m|]]|]; [|done|done].
  by rewrite lookup_insert_ne.
Qed.

Lemma store_set_interested_declared (st : peer_store) (pr : peer_ptr) (b : bool)
    (p : tr_peer) (m : Wire.tr_peermsgs) :
  st !! pr = Some (p, Some m) ->
  exists after, store_set_interested st pr b !! pr = Some after
                /\ declared b (p, Some m) after.
Proof.
  intros Hst. unfold store_set_interested. rewrite Hst, lookup_insert_eq.
  eexists. split; [done|]. apply setInterested_declared.
Qed.

Lemma declared_session (b : bool) (before after : peer_obj) :
  declared b before after -> exists p' m', after = (p', Some m').
Proof. intros (p & m & p' & m' & _ & -> & _). eauto. Qed.

(** The loop that tells the peers without wanted pieces NotInterested and
    collects the others. *)
Lemma collect_candidates_spec (rand : nat -> Z) (now : Z) (tr : tr_torrent)
    (st : peer_store) (prs : list peer_ptr) :
  NoDup prs ->
  Forall (fun pr => exists p m, st !! pr = Some (p, Some m)
                      /\ Forall (fun e => 0 <= e.2) (cancelsSentToPeer p)) prs ->
  let st1 := (collect_candidates rand now tr st prs).1 in
  let rechoke := (collect_candidates rand now tr st prs).2 in
  ri_peer <$> rechoke = filter (is_candidate st tr) prs
  /\ (forall k r, rechoke !! k = Some r ->
        ri_salt r = rand k /\ ri_rechoke_state r = history_class now st (ri_peer r))
  /\ (forall pr, pr ∉ prs \/ is_candidate st tr pr -> st1 !! pr = st !! pr)
  /\ (forall pr, pr ∈ prs -> ~ is_candidate st tr pr ->
        exists before after,
          st !! pr = Some before /\ st1 !! pr = Some after /\ declared false before after).
Proof.
  induction prs as [|x l IH] using rev_ind; intros Hnd Hwf.
  - simpl. split; [done|]. split; [|split].
    + intros k r Hk. by rewrite lookup_nil in Hk.
    + done.
    + intros pr Hin. by apply elem_of_nil in Hin.
  - apply NoDup_app in Hnd as (Hndl & Hdisj & _).
    apply Forall_app in Hwf as [Hwfl Hx].
    apply Forall_singleton in Hx as (p & m & Hp & Hhist).
    assert (Hxl : x ∉ l) by (intros Hin; apply (Hdisj x Hin); by left).
    specialize (IH Hndl Hwfl). cbn zeta in IH.
    destruct IH as (Hpeers & Hinfo & Hsame & Hdecl).
    unfold collect_candidates in *. rewrite foldl_app. cbn [foldl].
    destruct (foldl _ (st, []) l) as [st_l rechoke_l] eqn:Hfold. cbn [fst snd] in *.
    assert (Hx_l : st_l !! x = Some (p, Some m)) by (rewrite Hsame; [done|by left]).
    rewrite Hx_l.
    assert (Hcand : is_candidate st tr x <-> isPeerInteresting tr p = true).
    { unfold is_candidate. rewrite Hp. split.
      - by intros (p' & m' & [= <- <-] & Hi).
      - intros Hi. by exists p, (Some m). }
    rewrite filter_app, filter_cons, filter_nil.
    destruct (isPeerInteresting tr p) eqn:Hint; cbn [negb fst snd].
    + (* a candidate *)
      rewrite decide_True by (by apply Hcand).
      split; [|split; [|split]].
      * by rewrite fmap_app, Hpeers.
      * intros k r H. destruct (decide (k = length rechoke_l)) as [->|Hk].
        -- rewrite lookup_app_r, Nat.sub_diag in H by lia. injection H as <-. simpl.
           split; [done|].
           unfold history_class. rewrite Hp.
           apply classify_peer_claimed.
           by apply tr_historyGet_nonneg.
        -- apply lookup_app_Some in H as [H|[Hge H]]; [by apply Hinfo in H|].
           destruct (k - length rechoke_l)%nat eqn:Hd; [lia|done].
      * intros pr [Hpr|Hpr]; apply Hsame; [left|by right].
        intros Hin. apply Hpr. apply elem_of_app. by left.
      * intros pr Hpr Hnc. apply elem_of_app in Hpr as [Hpr|Hpr]; [by apply Hdecl|].
        apply list_elem_of_singleton in Hpr as ->. exfalso. by apply Hnc, Hcand.
    + (* no wanted piece *)
      rewrite decide_False by (rewrite Hcand; congruence).
      rewrite app_nil_r.
      split; [done|]. split; [done|]. split.
      * intros pr Hpr.
        assert (Hne : pr <> x).
        { intros ->. destruct Hpr as [Hpr|Hpr].
          - apply Hpr. apply elem_of_app. right. by left.
          - apply Hcand in Hpr. congruence. }
        rewrite store_set_interested_other by done. apply Hsame.
        destruct Hpr as [Hpr|Hpr]; [left|by right].
        intros Hin. apply Hpr. apply elem_of_app. by left.
      * intros pr Hpr Hnc. apply elem_of_app in Hpr as [Hpr|Hpr].
        -- assert (Hne : pr <> x) by (by intros ->).
           rewrite store_set_interested_other by done. by apply Hdecl.
        -- apply list_elem_of_singleton in Hpr as ->.
           destruct (store_set_interested_declared st_l x false p m Hx_l) as (after & Ha & Hd).
           by exists (p, Some m), after.
Qed.

(** The closing loop, for any numbering [g] of the entries. *)
Lemma declare_loop_spec (count : Z) (l : list tr_rechoke_info) :
  forall (g : nat -> nat) (st : peer_store),
    NoDup (ri_peer <$> l) ->
    Forall (fun r => exists p m, st !! ri_peer r = Some (p, Some m)) l ->
    let st' := foldl (fun st' '(i, r) =>
                        store_set_interested st' (ri_peer r) (Z.of_nat i <? count))
                 st (imap (fun i r => (g i, r)) l) in
    (forall i r, l !! i = Some r ->
       exists before after,
         st !! ri_peer r = Some before /\ st' !! ri_peer r = Some after
         /\ declared (Z.of_nat (g i) <? count) before after)
    /\ (forall pr, pr ∉ ri_peer <$> l -> st' !! pr = st !! pr).
Proof.
  induction l as [|r0 l IH]; intros g st Hnd Hsess; cbn zeta.
  - split; [|done]. intros i r Hi. by rewrite lookup_nil in Hi.
  - rewrite fmap_cons in Hnd. apply NoDup_cons in Hnd as [Hr0 Hnd].
    apply Forall_cons in Hsess as [(p0 & m0 & Hp0) Hsess].
    rewrite imap_cons. cbn [foldl].
    change (imap ((fun i r => (g i, r)) ∘ S) l) with (imap (fun i r => ((g ∘ S) i, r)) l).
    set (st1 := store_set_interested st (ri_peer r0) (Z.of_nat (g 0%nat) <? count)).
    assert (Hsess1 : Forall (fun r => exists p m, st1 !! ri_peer r = Some (p, Some m)) l).
    { apply Forall_forall. intros r Hr.
      assert (ri_peer r <> ri_peer r0).
      { intros Heq. apply Hr0. rewrite <- Heq. by apply list_elem_of_fmap_2. }
      unfold st1. rewrite store_set_interested_other by done.
      by apply (proj1 (Forall_forall _ _) Hsess). }
    destruct (IH (g ∘ S) st1 Hnd Hsess1) as [Hin Hout].
    split.
    + intros [|i] r Hi; simpl in Hi.
      * injection Hi as <-.
        destruct (store_set_interested_declared st (ri_peer r0)
                    (Z.of_nat (g 0%nat) <? count) p0 m0 Hp0) as (after & Ha & Hd).
        exists (p0, Some m0), after. split; [done|]. split; [|done].
        by rewrite (Hout (ri_peer r0) Hr0).
      * destruct (Hin i r Hi) as (before & after & Hb & Ha & Hd).
        exists before, after. split; [|done].
        rewrite <- Hb. symmetry. apply store_set_interested_other.
        intros Heq. apply Hr0. rewrite <- Heq.
        apply list_elem_of_fmap_2. by eapply list_elem_of_lookup_2.
    + intros pr Hpr. rewrite fmap_cons in Hpr.
      rewrite Hout by (intros Hin'; apply Hpr; by right).
      apply store_set_interested_other. intros ->. apply Hpr. by left.
Qed.

Lemma StronglySorted_lookup {B} (R : B -> B -> Prop) (l : list B) :
  StronglySorted R l ->
  forall i j a b, (i < j)%nat -> l !! i = Some a -> l !! j = Some b -> R a b.
Proof.
  induction 1 as [|x l Hs IH Hx]; intros i j a b Hij Ha Hb;
    [by rewrite lookup_nil in Ha|].
  destruct j as [|j]; [lia|]. simpl in Hb.
  destruct i as [|i]; simpl in Ha.
  - injection Ha as <-. apply list_elem_of_lookup_2 in Hb.
    by apply (proj1 (Forall_forall _ _) Hx).
  - apply (IH i j); [lia|done|done].
Qed.

Lemma choose_maxPeers_fields (fp : double_ops) (now : Z) (st : peer_store) (t : Torrent) :
  peers (choose_maxPeers fp now st t).2 = peers t
  /\ tor (choose_maxPeers fp now st t).2 = tor t
  /\ maxPeers (choose_maxPeers fp now st t).2 = (choose_maxPeers fp now st t).1.
Proof.
  unfold choose_maxPeers.
  destruct (count_blocks_cancels now st (peers t)) as [blocks cancels].
  by destruct (0 <? cancels).
Qed.

Lemma rechoke_candidates_eq (rand : nat -> Z) (now : Z) (st : peer_store) (t : Torrent) :
  rechoke_candidates rand now st t = collect_candidates rand now (tor t) st (peers t).
Proof. unfold rechoke_candidates. by destruct (peers t). Qed.

(** C7, as amended: for a torrent that is not a seed and may receive piece
    data, a pass of rechokeDownloads takes as candidates the peers that have
    a wanted piece, puts each in the state given by its blocks and cancels
    of the last 60 seconds (untested: neither; good: no cancels, or ten
    times the cancels below the blocks; bad otherwise), orders them good
    before untested before bad and by their random salt within a state,
    declares the first max_peers of them Interested and the others
    NotInterested; the peers without a wanted piece are told NotInterested. *)
Theorem rechokeDownloads_interest (fp : double_ops) (rand : nat -> Z) (now : Z)
    (st : peer_store) (t : Torrent) :
  isSeed (tor t) = false ->
  pieceTransferAllowed (tor t) = true ->
  peers_wf st t ->
  let st' := (rechokeDownloads fp rand now st t).1 in
  let t' := (rechokeDownloads fp rand now st t).2 in
  exists sorted : list tr_rechoke_info,
    ri_peer <$> sorted ≡ₚ filter (is_candidate st (tor t)) (peers t)
    /\ (forall r, r ∈ sorted ->
          ri_rechoke_state r = history_class now st (ri_peer r)
          /\ exists k, ri_salt r = rand k)
    /\ (forall i j a b, (i < j)%nat ->
          sorted !! i = Some a -> sorted !! j = Some b -> rechoke_order a b)
    /\ (forall i r, sorted !! i = Some r ->
          exists before after,
            st !! ri_peer r = Some before /\ st' !! ri_peer r = Some after
            /\ declared (bool_decide (Z.of_nat i < maxPeers t')) before after)
    /\ (forall pr, pr ∈ peers t -> ~ is_candidate st (tor t) pr ->
          exists before after,
            st !! pr = Some before /\ st' !! pr = Some after
            /\ declared false before after).
Proof.
  intros Hseed Hallowed [Hnd Hwf] st' t'. subst st' t'.
  unfold rechokeDownloads. rewrite Hseed, Hallowed. cbn [negb].
  destruct (choose_maxPeers_fields fp now st t) as (Hpeers & Htor & Hmax).
  destruct (choose_maxPeers fp now st t) as [mp t1]. cbn [fst snd] in *.
  rewrite rechoke_candidates_eq, Hpeers, Htor.
  destruct (collect_candidates_spec rand now (tor t) st (peers t) Hnd Hwf)
    as (Hcand & Hinfo & Hsame & Hdecl).
  destruct (collect_candidates rand now (tor t) st (peers t)) as [st1 rechoke].
  cbn [fst snd] in *.
  set (sorted := qsort compare_rechoke_info rechoke).
  assert (Hperm : sorted ≡ₚ rechoke) by apply qsort_perm.
  assert (Hsorted : StronglySorted (cmp_le compare_rechoke_info) sorted).
  { apply qsort_sorted; [apply compare_rechoke_info_anti | apply compare_rechoke_info_trans]. }
  assert (Hpeers_sorted : ri_peer <$> sorted ≡ₚ filter (is_candidate st (tor t)) (peers t))
    by (by rewrite Hperm, Hcand).
  assert (Hnd_sorted : NoDup (ri_peer <$> sorted)).
  { rewrite Hpeers_sorted. by apply NoDup_filter. }
  assert (Hcand_in : forall r, r ∈ sorted ->
            ri_peer r ∈ peers t /\ is_candidate st (tor t) (ri_peer r)).
  { intros r Hr.
    assert (Hin : ri_peer r ∈ ri_peer <$> sorted) by (by apply list_elem_of_fmap_2).
    rewrite Hpeers_sorted in Hin. apply list_elem_of_filter in Hin. tauto. }
  assert (Hsess : Forall (fun r => exists p m, st1 !! ri_peer r = Some (p, Some m)) sorted).
  { apply Forall_forall. intros r Hr. destruct (Hcand_in r Hr) as [Hin Hc].
    rewrite Hsame by (by right).
    destruct (proj1 (Forall_forall _ _) Hwf _ Hin) as (p & m & Hp & _). eauto. }
  destruct (declare_loop_spec (Z.min mp (zlen sorted)) sorted (fun i => i) st1
              Hnd_sorted Hsess) as [Hin Hout].
  exists sorted. cbn [fst snd interestedCount set_interestedCount maxPeers].
  unfold declare_interest. rewrite Hmax.
  split; [done|]. split; [|split; [|split]].
  - intros r Hr. rewrite Hperm in Hr.
    apply list_elem_of_lookup in Hr as [k Hk].
    destruct (Hinfo k r Hk) as [Hs Hc]. split; [done|]. by exists k.
  - intros i j a b Hij Ha Hb. apply compare_rechoke_info_le.
    by apply (StronglySorted_lookup _ _ Hsorted i j).
  - intros i r Hi.
    destruct (Hin i r Hi) as (before & after & Hb & Ha & Hd).
    exists before, after.
    assert (Hr : r ∈ sorted) by (by eapply list_elem_of_lookup_2).
    destruct (Hcand_in r Hr) as [_ Hc].
    rewrite <- (Hsame (ri_peer r)) by (by right).
    split; [done|]. split; [done|].
    assert (Hlt : Z.of_nat i < zlen sorted).
    { apply lookup_lt_Some in Hi. unfold zlen. lia. }
    replace (bool_decide (Z.of_nat i < mp)) with (Z.of_nat i <? Z.min mp (zlen sorted)); [done|].
    destruct (Z.ltb_spec (Z.of_nat i) (Z.min mp (zlen sorted)));
      [rewrite bool_decide_true by lia | rewrite bool_decide_false by lia]; done.
  - intros pr Hpr Hnc.
    destruct (Hdecl pr Hpr Hnc) as (before & after & Hb & Ha & Hd).
    exists before, after. split; [done|]. split; [|done].
    rewrite Hout; [done|].
    intros Hin'. rewrite Hpeers_sorted in Hin'.
    apply list_elem_of_filter in Hin'. tauto.
Qed.

Lemma three_peers_wf : peers_wf three_peer_store (three_peer_torrent true).
Proof.
  split.
  - apply (bool_decide_unpack (NoDup (peers (three_peer_torrent true)))).
    vm_compute. exact I.
  - repeat constructor.
    + exists (peer_with_history 0 3), fresh_msgs. split; [reflexivity|].
      repeat constructor; cbn; lia.
    + exists (peer_with_history 0 0), fresh_msgs. split; [reflexivity|]. constructor.
    + exists (peer_with_history 20 1), fresh_msgs. split; [reflexivity|].
      repeat constructor; cbn; lia.
Defined.

Lemma rechokeDownloads_interest_witness :
  exists sorted : list tr_rechoke_info,
    ri_peer <$> sorted
    ≡ₚ filter (is_candidate three_peer_store (wanting_torrent true)) [1%N; 2%N; 3%N]
    /\ forall i j a b, (i < j)%nat ->
         sorted !! i = Some a -> sorted !! j = Some b -> rechoke_order a b.
Proof.
  destruct (rechokeDownloads_interest exact_double_ops (fun k => Z.of_nat k) 110
              three_peer_store (three_peer_torrent true) eq_refl eq_refl three_peers_wf)
    as (sorted & H1 & _ & H3 & _).
  exists sorted. split; [exact H1 | exact H3].
Defined.

(** C7, the claim as worded fails for a torrent that may not receive piece
    data: the pass returns at once.  Peer 3 has a wanted piece, its history
    makes it good, max_peers is 2, and yet it is left not interested and
    nothing is sent to it. *)
Lemma rechokeDownloads_skips_without_download :
  let t := three_peer_torrent false in
  let r := rechokeDownloads exact_double_ops (fun k => Z.of_nat k) 110 three_peer_store t in
  isSeed (tor t) = false
  /\ is_candidate three_peer_store (tor t) 3%N
  /\ history_class 110 three_peer_store 3%N = RECHOKE_STATE_GOOD
  /\ maxPeers r.2 = 2
  /\ r.1 = three_peer_store
  /\ (fun o : peer_obj => clientIsInterested o.1) <$> r.1 !! 3%N = Some false.
Proof.
  split; [reflexivity|]. split.
  - exists (peer_with_history 20 1), (Some fresh_msgs). split; reflexivity.
  - repeat split; reflexivity.
Qed.

End InterestProps.

(** * Request selection (tr_peerMgrGetNextRequests) *)

Section SelectionProps.
Import Mgr.

Local Arguments block_is_requestable : simpl never.
Local Arguments getBlockRequestPeers : simpl never.
Local Arguments requestListAdd : simpl never.

(** ** The ledger *)

Lemma compareReqByBlock_le (a b : block_request) :
  compareReqByBlock a b <= 0
  <-> block a < block b \/ (block a = block b /\ (peer a <= peer b)%N).
Proof.
  unfold compareReqByBlock.
  destruct (Z.ltb_spec (block a) (block b)), (Z.ltb_spec (block b) (block a)),
    (N.ltb_spec (peer a) (peer b)), (N.ltb_spec (peer b) (peer a)); lia.
Qed.

Lemma compareReqByBlock_anti (a b : block_request) :
  0 < compareReqByBlock a b -> compareReqByBlock b a <= 0.
Proof.
  intros H. apply compareReqByBlock_le.
  assert (Hn : ~ (block a < block b \/ (block a = block b /\ (peer a <= peer b)%N)))
    by (rewrite <- compareReqByBlock_le; lia).
  lia.
Qed.

Lemma compareReqByBlock_trans (a b c : block_request) :
  compareReqByBlock a b <= 0 -> compareReqByBlock b c <= 0 -> compareReqByBlock a c <= 0.
Proof. rewrite !compareReqByBlock_le. lia. Qed.

Lemma filter_none {B} (P : B -> Prop) `{!forall x, Decision (P x)} (l : list B) :
  Forall (fun x => ~ P x) l -> filter P l = [].
Proof.
  induction 1 as [|x l Hx _ IH]; [done|]. by rewrite filter_cons_False.
Qed.

Lemma block_run_filter (blk : Z) (l : list block_request) :
  ledger_sorted l ->
  Forall (fun r => blk <= block r) l ->
  block_run blk l = requesters l blk.
Proof.
  unfold requesters.
  induction 1 as [|x l Hs IH Hx]; intros Hall; [done|].
  apply Forall_cons in Hall as [Hxb Hall]. simpl. rewrite filter_cons.
  destruct (Z.eqb_spec (block x) blk) as [Heq|Hne].
  - rewrite decide_True by done. csimpl. by rewrite IH.
  - rewrite decide_False by done.
    assert (Hnone : filter (fun r => block r = blk) l = []).
    { apply filter_none. apply Forall_forall. intros y Hy Heq.
      apply (proj1 (Forall_forall _ _) Hx) in Hy.
      apply compareReqByBlock_le in Hy. lia. }
    by rewrite Hnone.
Qed.

(** On a sorted ledger the run found by getBlockRequestPeers holds all the
    peers the block is requested from. *)
Lemma getBlockRequestPeers_requesters (t : Torrent) (blk : Z) :
  ledger_sorted (requests t) ->
  getBlockRequestPeers t blk = requesters (requests t) blk.
Proof.
  unfold getBlockRequestPeers, requesters. generalize (requests t). clear t.
  induction 1 as [|x l Hs IH Hx]; [done|].
  cbn [tr_lowerBound]. rewrite filter_cons.
  assert (Hcmp : 0 < compareReqByBlock (mk_breq blk NULL 0) x <-> block x < blk).
  { assert (H := compareReqByBlock_le (mk_breq blk NULL 0) x).
    unfold NULL in *. simpl in H. lia. }
  destruct (Z.ltb_spec 0 (compareReqByBlock (mk_breq blk NULL 0) x)) as [Hlt|Hge].
  - apply Hcmp in Hlt.
    destruct (tr_lowerBound compareReqByBlock (mk_breq blk NULL 0) l) as [pos e].
    rewrite decide_False by lia. simpl in *. done.
  - assert (Hxb : blk <= block x) by lia.
    cbn [drop].
    rewrite (block_run_filter blk (x :: l)).
    + unfold requesters. by rewrite filter_cons.
    + by constructor.
    + constructor; [done|]. apply Forall_forall. intros y Hy.
      apply (proj1 (Forall_forall _ _) Hx) in Hy.
      apply compareReqByBlock_le in Hy. lia.
Qed.

Lemma requestListAdd_fields (now : Z) (st : peer_store) (t : Torrent) (blk : Z) (pr : peer_ptr) :
  let r := requestListAdd now st t blk pr in
  tor r.2 = tor t /\ endgame r.2 = endgame t /\ pieces r.2 = pieces t
  /\ requests r.2
     = array_insert (requests t)
         (tr_lowerBound compareReqByBlock (mk_breq blk pr now) (requests t)).1
         (mk_breq blk pr now)
  /\ pending_of r.1 pr <= pending_of st pr + 1
  /\ (forall q ix, peer_has r.1 q ix = peer_has st q ix).
Proof.
  unfold requestListAdd.
  destruct (tr_lowerBound compareReqByBlock (mk_breq blk pr now) (requests t)) as [pos e].
  cbn. repeat split; try done.
  - unfold pending_of. destruct (N.eqb_spec pr NULL); [lia|].
    rewrite lookup_alter_eq. destruct (st !! pr) as [o|]; simpl; lia.
  - intros q ix. unfold peer_has. destruct (N.eqb_spec pr NULL); [done|].
    destruct (decide (q = pr)) as [->|Hne].
    + rewrite lookup_alter_eq. by destruct (st !! pr).
    + by rewrite lookup_alter_ne.
Qed.

Lemma requesters_insert_other (l : list block_request) (pos : nat) (key : block_request) (b : Z) :
  block key <> b -> requesters (array_insert l pos key) b = requesters l b.
Proof.
  intros Hne. unfold requesters, array_insert.
  rewrite filter_app, filter_cons_False by done.
  by rewrite <- filter_app, take_drop.
Qed.

Lemma requesters_insert_same (l : list block_request) (pos : nat) (key : block_request) :
  peer key ∈ requesters (array_insert l pos key) (block key).
Proof.
  unfold requesters, array_insert. apply list_elem_of_fmap_2.
  apply list_elem_of_filter. split; [done|].
  apply elem_of_app. right. by left.
Qed.

(** ** One candidate block *)

Lemma block_is_requestable_true (st : peer_store) (t : Torrent) (pr : peer_ptr)
    (numwant got b : Z) :
  block_is_requestable st t pr numwant got b = true ->
  tr_cpBlockIsComplete (tor t) b = false
  /\ (getBlockRequestPeers t b = []
      \/ (endgame t <> 0
          /\ (length (getBlockRequestPeers t b) <= 1)%nat
          /\ pr <> hd NULL (getBlockRequestPeers t b)
          /\ endgame t <= pending_of st pr + numwant - got)).
Proof.
  unfold block_is_requestable.
  destruct (tr_cpBlockIsComplete (tor t) b); [done|]. intros H. split; [done|].
  destruct (getBlockRequestPeers t b) as [|q prs] eqn:Hprs; [by left|]. right.
  unfold zlen in H. cbn [length negb] in H.
  destruct (Z.eqb_spec (Z.of_nat (S (length prs))) 0); [lia|]. cbn [negb] in H.
  destruct (Z.eqb_spec (endgame t) 0); [done|].
  destruct (Z.ltb_spec 1 (Z.of_nat (S (length prs)))); [done|].
  destruct (N.eqb_spec pr (hd NULL (q :: prs))); [done|].
  destruct (Z.ltb_spec (pending_of st pr + numwant - got) (endgame t)); [done|].
  repeat split; try done; simpl in *; lia.
Qed.

(** A block that is already requested is skipped unless the endgame
    conditions hold. *)
Lemma block_is_requestable_duplicate (st : peer_store) (t : Torrent) (pr : peer_ptr)
    (numwant got b : Z) :
  ledger_sorted (requests t) ->
  requesters (requests t) b <> [] ->
  block_is_requestable st t pr numwant got b = true ->
  duplicate_allowed (endgame t) (pending_of st pr) (numwant - got)
    (requesters (requests t) b) pr.
Proof.
  intros Hs Hne Hreq.
  apply block_is_requestable_true in Hreq as [_ Hreq].
  rewrite getBlockRequestPeers_requesters in Hreq by done.
  destruct Hreq as [Hnil|(He & Hlen & Hhd & Hpend)]; [done|].
  unfold duplicate_allowed. repeat split; try done; [lia|].
  destruct (requesters (requests t) b) as [|q [|q' prs]]; simpl in *; [done| |lia].
  intros Hin. apply list_elem_of_singleton in Hin. done.
Qed.

Lemma assign_block_inv (tr : tr_torrent) (l0 : list block_request) (factor pending0 : Z)
    (pr : peer_ptr) (numwant now first b : Z) (pos : nat) (a : request_acc) :
  selection_inv tr l0 factor pending0 pr numwant a ->
  block_is_requestable (acc_store a) (acc_torrent a) pr numwant (acc_got a) b = true ->
  selection_inv tr l0 factor pending0 pr numwant (assign_block now false pr first b pos a).
Proof.
  intros (Htor & Hfac & Hs & Hout & Hin & Hpend & Hgot & Hgood) Hreq.
  assert (Hb : (b ∉ acc_setme a)
               /\ (requesters l0 b <> [] ->
                   duplicate_allowed factor pending0 numwant (requesters l0 b) pr)).
  { destruct (decide (requesters (requests (acc_torrent a)) b = [])) as [Hnil|Hne].
    - assert (Hnot : b ∉ acc_setme a).
      { intros Hb. apply Hin in Hb. rewrite Hnil in Hb. by apply elem_of_nil in Hb. }
      split; [done|]. rewrite <- (Hout b Hnot). done.
    - destruct (block_is_requestable_duplicate _ _ _ _ _ _ Hs Hne Hreq)
        as (Hf & Hp & Hlen & Hnotin).
      assert (Hnot : b ∉ acc_setme a) by (intros Hb; by apply Hin in Hb).
      split; [done|]. intros _. rewrite <- (Hout b Hnot).
      unfold duplicate_allowed. rewrite <- Hfac. repeat split; try done. lia. }
  destruct Hb as [Hnot Hdup].
  unfold assign_block. cbn [negb].
  pose proof (requestListAdd_fields now (acc_store a) (acc_torrent a) b pr) as Hadd.
  cbn zeta in Hadd.
  destruct (requestListAdd now (acc_store a) (acc_torrent a) b pr) as [st' t'].
  cbn [fst snd] in Hadd. destruct Hadd as (Htor' & Hfac' & Hpieces' & Hreqs' & Hpend' & _).
  assert (Hfields : forall ps, tor (set_pieces ps t') = tor t'
                               /\ endgame (set_pieces ps t') = endgame t'
                               /\ requests (set_pieces ps t') = requests t') by done.
  set (ps' := match pieces t' !! pos with
              | Some p => <[pos:=set_piece_requestCount (i16 (requestCount p + 1)) p]> (pieces t')
              | None => pieces t'
              end).
  destruct (Hfields ps') as (Ht1 & Hf1 & Hr1).
  unfold selection_inv. cbn [acc_torrent acc_store acc_setme acc_got].
  rewrite Ht1, Hf1, Hr1, Htor', Hfac', Hreqs'.
  split; [done|]. split; [done|]. split; [|split; [|split; [|split; [|split]]]].
  - apply array_insert_sorted;
      [apply compareReqByBlock_anti | apply compareReqByBlock_trans | done].
  - intros b' Hb'. rewrite requesters_insert_other; [apply Hout|].
    + intros Hin'. apply Hb'. apply elem_of_app. by left.
    + simpl. intros ->. apply Hb'. apply elem_of_app. right. by left.
  - intros b' Hb'. destruct (decide (b' = b)) as [->|Hne].
    + apply (requesters_insert_same _ _ (mk_breq b pr now)).
    + rewrite requesters_insert_other by (simpl; congruence).
      apply Hin. apply elem_of_app in Hb' as [Hb'|Hb']; [done|].
      by apply list_elem_of_singleton in Hb'.
  - lia.
  - lia.
  - intros b' Hb'. apply elem_of_app in Hb' as [Hb'|Hb']; [by apply Hgood|].
    apply list_elem_of_singleton in Hb' as ->. done.
Qed.

(** ** The two loops *)

Lemma blocks_loop_inv (tr : tr_torrent) (l0 : list block_request) (factor pending0 : Z)
    (pr : peer_ptr) (numwant now first last : Z) (pos : nat) (fuel : nat) :
  forall (b : Z) (a : request_acc),
    selection_inv tr l0 factor pending0 pr numwant a ->
    selection_inv tr l0 factor pending0 pr numwant
      (blocks_loop fuel now false pr numwant first last pos b a).
Proof.
  induction fuel as [|fuel IH]; intros b a Hinv; [done|].
  cbn [blocks_loop].
  destruct ((b <=? last) && _); [|done].
  apply IH.
  destruct (block_is_requestable _ _ _ _ _ _) eqn:Hreq; [|done].
  by apply assign_block_inv.
Qed.

Lemma pieces_loop_inv (tr : tr_torrent) (l0 : list block_request) (factor pending0 : Z)
    (pr : peer_ptr) (numwant now : Z) (fuel : nat) :
  forall (i : nat) (a : request_acc),
    selection_inv tr l0 factor pending0 pr numwant a ->
    selection_inv tr l0 factor pending0 pr numwant
      (pieces_loop fuel now false pr numwant i a).2.
Proof.
  induction fuel as [|fuel IH]; intros i a Hinv; [done|].
  cbn [pieces_loop].
  destruct (bool_decide _ && _); [|done].
  apply IH.
  destruct (pieces (acc_torrent a) !! i) as [p|]; [|done].
  destruct (peer_has _ _ _); [|done].
  destruct (tr_torGetPieceBlockRange _ _) as [first last].
  by apply blocks_loop_inv.
Qed.

(** ** The call *)

Lemma pieceListRebuild_fields (rand : nat -> Z) (t : Torrent) :
  tor (pieceListRebuild rand t) = tor t
  /\ requests (pieceListRebuild rand t) = requests t.
Proof. unfold pieceListRebuild. by destruct (isSeed (tor t)). Qed.

Lemma updateEndgame_fields (st : peer_store) (t : Torrent) :
  tor (updateEndgame st t) = tor t
  /\ requests (updateEndgame st t) = requests t
  /\ pieces (updateEndgame st t) = pieces t.
Proof.
  unfold updateEndgame. destruct (negb (testForEndgame t)); [done|].
  by destruct (endgame t =? 0).
Qed.

(** C5: in a call of tr_peerMgrGetNextRequests for a peer that asks for
    numwant blocks, a block that is already requested from someone is
    skipped unless the torrent is in endgame (the factor is not zero), the
    peer's pending requests plus the blocks still wanted reach the endgame
    factor, and the block has at most one requester (which is not the peer
    itself): this holds for each single decision, and for every block that
    the call returns; and there is a call that does return a block that
    was already requested from another peer. *)
Theorem next_requests_duplicates (rand : nat -> Z) (now : Z) (st : peer_store)
    (t : Torrent) (pr : peer_ptr) (numwant : Z) :
  ledger_sorted (requests t) ->
  let r := tr_peerMgrGetNextRequests rand now st t pr numwant false in
  (forall b, b ∈ r.1.2 ->
     requesters (requests t) b <> [] ->
     duplicate_allowed (endgame r.1.1.2) (pending_of st pr) numwant
       (requesters (requests t) b) pr)
  /\ (forall (st1 : peer_store) (t1 : Torrent) (got b : Z),
        ledger_sorted (requests t1) ->
        requesters (requests t1) b <> [] ->
        ~ duplicate_allowed (endgame t1) (pending_of st1 pr) (numwant - got)
            (requesters (requests t1) b) pr ->
        block_is_requestable st1 t1 pr numwant got b = false)
  /\ (let r0 := tr_peerMgrGetNextRequests (fun _ => 0) 50 last_piece_store
                  last_piece_state 2%N 1 false in
      requesters (requests last_piece_state) 0 = [1%N]
      /\ r0.1.2 = [0]
      /\ requesters (requests r0.1.1.2) 0 = [1%N; 2%N]).
Proof.
  intros Hsorted r. split; [|split].
  - subst r. unfold tr_peerMgrGetNextRequests.
    set (t1 := match pieces t with [] => pieceListRebuild rand t | _ => t end).
    set (t2 := if negb (sort_state_eqb (pieceSortState t1) PIECES_SORTED_BY_WEIGHT)
               then pieceListSort t1 PIECES_SORTED_BY_WEIGHT else t1).
    set (t3 := updateEndgame st t2).
    assert (H1 : tor t1 = tor t /\ requests t1 = requests t).
    { unfold t1. destruct (pieces t); [apply pieceListRebuild_fields|done]. }
    assert (H2 : tor t2 = tor t /\ requests t2 = requests t).
    { unfold t2. by destruct (negb _). }
    assert (H3 : tor t3 = tor t /\ requests t3 = requests t).
    { unfold t3. destruct (updateEndgame_fields st t2) as (-> & -> & _). done. }
    destruct H3 as [Htor3 Hreq3].
    assert (Hinv0 : selection_inv (tor t) (requests t) (endgame t3) (pending_of st pr)
                      pr numwant (mk_acc st t3 [] 0)).
    { unfold selection_inv. cbn. rewrite Hreq3.
      split; [done|]. split; [done|]. split; [done|]. split; [done|].
      split; [intros b Hb; by apply elem_of_nil in Hb|].
      split; [lia|]. split; [lia|].
      intros b Hb. by apply elem_of_nil in Hb. }
    pose proof (pieces_loop_inv (tor t) (requests t) (endgame t3) (pending_of st pr)
                  pr numwant now (length (pieces t3)) 0%nat _ Hinv0) as Hinv.
    destruct (pieces_loop (length (pieces t3)) now false pr numwant 0%nat
                (mk_acc st t3 [] 0)) as [i a].
    cbn [fst snd] in *.
    destruct Hinv as (_ & Hfac & _ & _ & _ & _ & _ & Hgood).
    assert (Hfinal : endgame
              (if 0 <? acc_got a
               then set_pieces
                      (resort_loop
                         (comparePieceByWeight (tor (acc_torrent a))
                            (pieceReplication (acc_torrent a)))
                         (if bool_decide (i = length (pieces (acc_torrent a)))
                          then (i - 1)%nat else i)
                         (pieces (acc_torrent a)))
                      (acc_torrent a)
               else acc_torrent a) = endgame t3).
    { by destruct (0 <? acc_got a). }
    rewrite Hfinal. exact Hgood.
  - intros st1 t1 got b Hs Hne Hnot.
    destruct (block_is_requestable st1 t1 pr numwant got b) eqn:Hreq; [|done].
    exfalso. apply Hnot. by apply block_is_requestable_duplicate.
  - repeat split; reflexivity.
Qed.

Lemma next_requests_duplicates_witness :
  duplicate_allowed 1 0 1 [1%N] 2%N.
Proof.
  assert (Hs : ledger_sorted (requests last_piece_state)).
  { apply (bool_decide_unpack (ledger_sorted (requests last_piece_state))).
    vm_compute. exact I. }
  destruct (next_requests_duplicates (fun _ => 0) 50 last_piece_store last_piece_state
              2%N 1 Hs) as [H _].
  apply (H 0).
  - apply list_elem_of_singleton. reflexivity.
  - discriminate.
Defined.

End SelectionProps.
(** * The request ledger and the events of a peer *)

Section LedgerProps.
Import Mgr Requests.

Local Arguments pieceListRemoveRequest : simpl never.
Local Arguments tr_lowerBound : simpl never.

Lemma compareReqByBlock_zero (blk : Z) (pr : peer_ptr) (s : Z) (x : block_request) :
  compareReqByBlock (mk_breq blk pr s) x = 0 <-> asks blk pr x.
Proof.
  unfold compareReqByBlock, asks. cbn [block peer].
  destruct (Z.ltb_spec blk (block x)), (Z.ltb_spec (block x) blk),
    (N.ltb_spec pr (peer x)), (N.ltb_spec (peer x) pr); lia.
Qed.

Lemma requestListLookup_spec (t : Torrent) (blk : Z) (pr : peer_ptr) :
  match requestListLookup t blk pr with
  | Some i =>
      exists r, requests t !! i = Some r /\ asks blk pr r
                /\ forall j y, requests t !! j = Some y -> (j < i)%nat -> ~ asks blk pr y
  | None => Forall (fun r => ~ asks blk pr r) (requests t)
  end.
Proof.
  unfold requestListLookup, bsearch.
  destruct (list_find _ (requests t)) as [[i r]|] eqn:Hf; simpl.
  - apply list_find_Some in Hf as (Hr & Hz & Hbefore).
    exists r. split; [done|]. split; [by apply compareReqByBlock_zero in Hz|].
    intros j y Hy Hj Hasks. eapply Hbefore; [done|done|].
    by apply compareReqByBlock_zero.
  - apply list_find_None in Hf. eapply Forall_impl; [exact Hf|].
    intros x Hx Hasks. apply Hx. by apply compareReqByBlock_zero.
Qed.

Lemma requesters_elem (l : list block_request) (blk : Z) (pr : peer_ptr) :
  pr ∈ requesters l blk <-> exists r, r ∈ l /\ asks blk pr r.
Proof.
  unfold requesters, asks. rewrite list_elem_of_fmap. split.
  - intros (r & -> & Hr). apply list_elem_of_filter in Hr as [Hb Hr]. by exists r.
  - intros (r & Hr & Hb & Hp). exists r. split; [done|]. by apply list_elem_of_filter.
Qed.

Lemma no_asks_requesters (l : list block_request) (blk : Z) (pr : peer_ptr) :
  pr ∉ requesters l blk <-> Forall (fun r => ~ asks blk pr r) l.
Proof.
  rewrite requesters_elem, Forall_forall. split.
  - intros Hn r Hr Ha. apply Hn. by exists r.
  - intros Hall (r & Hr & Ha). by apply (Hall r).
Qed.

Lemma array_insert_lookup {B} (l : list B) (pos : nat) (x : B) :
  (pos <= length l)%nat -> array_insert l pos x !! pos = Some x.
Proof.
  intros Hpos. unfold array_insert.
  rewrite lookup_app_r by (rewrite length_take; lia).
  rewrite length_take. by replace (pos - pos `min` length l)%nat with 0%nat by lia.
Qed.

Lemma array_insert_before {B} (l : list B) (pos j : nat) (x : B) :
  (j < pos)%nat -> (pos <= length l)%nat -> array_insert l pos x !! j = l !! j.
Proof.
  intros Hj Hpos. unfold array_insert.
  rewrite lookup_app_l by (rewrite length_take; lia). by rewrite lookup_take_lt.
Qed.

Lemma array_remove_insert_at {B} (l : list B) (pos : nat) (x : B) :
  (pos <= length l)%nat -> array_remove (array_insert l pos x) pos = l.
Proof.
  intros Hpos. unfold array_remove, array_insert.
  rewrite take_app_length' by (rewrite length_take; lia).
  replace (S pos) with (length (take pos l) + 1)%nat by (rewrite length_take; lia).
  rewrite <- drop_drop, drop_app_length. simpl. rewrite drop_0. apply take_drop.
Qed.

Lemma array_insert_perm {B} (l : list B) (pos : nat) (x : B) :
  array_insert l pos x ≡ₚ x :: l.
Proof.
  unfold array_insert. rewrite <- Permutation_middle. by rewrite take_drop.
Qed.

(** The position at which requestListLookup finds a request that was just
    added is the position where requestListAdd put it. *)
Lemma lookup_after_add (now : Z) (st : peer_store) (t : Torrent) (blk : Z) (pr : peer_ptr) :
  pr ∉ requesters (requests t) blk ->
  requestListLookup (requestListAdd now st t blk pr).2 blk pr
  = Some (tr_lowerBound compareReqByBlock (mk_breq blk pr now) (requests t)).1.
Proof.
  intros Hnew. apply no_asks_requesters in Hnew.
  pose proof (requestListLookup_spec (requestListAdd now st t blk pr).2 blk pr) as Hspec.
  destruct (requestListAdd_fields now st t blk pr) as (_ & _ & _ & Hreq & _).
  rewrite Hreq in Hspec.
  pose proof (lowerBound_le_length compareReqByBlock (mk_breq blk pr now) (requests t)) as Hle.
  set (pos := (tr_lowerBound compareReqByBlock (mk_breq blk pr now) (requests t)).1) in *.
  destruct (requestListLookup _ blk pr) as [i|].
  - destruct Hspec as (r & Hr & Ha & Hbefore). f_equal.
    destruct (Nat.lt_trichotomy i pos) as [Hlt|[->|Hgt]]; [|done|].
    + rewrite array_insert_before in Hr by done.
      apply list_elem_of_lookup_2 in Hr.
      by apply (proj1 (Forall_forall _ _) Hnew) in Hr.
    + exfalso. apply (Hbefore pos (mk_breq blk pr now)); [|done|done].
      by apply array_insert_lookup.
  - exfalso. apply (proj1 (Forall_forall _ _) Hspec (mk_breq blk pr now)); [|done].
    eapply list_elem_of_lookup_2. by apply array_insert_lookup.
Qed.

Lemma decrement_after_increment (st : peer_store) (pr : peer_ptr) (key : block_request) :
  peer key = pr ->
  (forall o, st !! pr = Some o -> 0 <= pendingReqsToPeer o.1) ->
  decrementPendingReqCount
    (if (pr =? NULL)%N then st
     else alter (on_peer_obj (fun p => set_pendingReqsToPeer (pendingReqsToPeer p + 1) p)) pr st)
    key = st.
Proof.
  intros Hkey Hpos. unfold decrementPendingReqCount. rewrite Hkey.
  destruct (N.eqb_spec pr NULL) as [|Hnn]; [done|].
  apply map_eq. intros i. destruct (decide (i = pr)) as [->|Hne].
  - rewrite !lookup_alter_eq. destruct (st !! pr) as [[p m]|] eqn:Hst; [|done].
    specialize (Hpos _ eq_refl). simpl in *. unfold on_peer_obj. simpl.
    destruct (Z.ltb_spec 0 (pendingReqsToPeer p + 1)); [|lia].
    destruct p. unfold set_pendingReqsToPeer. simpl. do 3 f_equal. lia.
  - by rewrite !lookup_alter_ne.
Qed.

(** X1: requestListAdd puts a request that is not yet in a sorted ledger at
    its place: the ledger stays sorted and holds the old requests and the
    new one, requestListLookup and tr_peerMgrDidPeerRequest find the new
    request, and the pending counter of a live peer goes up by one. *)
Theorem requestListAdd_is_found (now : Z) (st : peer_store) (t : Torrent)
    (blk : Z) (pr : peer_ptr) :
  ledger_sorted (requests t) ->
  pr ∉ requesters (requests t) blk ->
  let r := requestListAdd now st t blk pr in
  ledger_sorted (requests r.2)
  /\ requests r.2 ≡ₚ mk_breq blk pr now :: requests t
  /\ (exists pos, requestListLookup r.2 blk pr = Some pos
                  /\ requests r.2 !! pos = Some (mk_breq blk pr now))
  /\ tr_peerMgrDidPeerRequest r.2 pr blk = true
  /\ (forall o, pr <> NULL -> st !! pr = Some o ->
        pending_of r.1 pr = pendingReqsToPeer o.1 + 1).
Proof.
  intros Hs Hnew r.
  pose proof (lookup_after_add now st t blk pr Hnew) as Hlook.
  destruct (requestListAdd_fields now st t blk pr) as (_ & _ & _ & Hreq & _).
  pose proof (lowerBound_le_length compareReqByBlock (mk_breq blk pr now) (requests t)) as Hle.
  fold r in Hlook, Hreq.
  split; [|split; [|split; [|split]]].
  - rewrite Hreq.
    apply array_insert_sorted;
      [exact compareReqByBlock_anti|exact compareReqByBlock_trans|exact Hs].
  - rewrite Hreq. apply array_insert_perm.
  - eexists. split; [exact Hlook|]. rewrite Hreq. by apply array_insert_lookup.
  - unfold tr_peerMgrDidPeerRequest. rewrite Hlook. done.
  - intros o Hnn Ho. subst r. unfold requestListAdd, pending_of.
    destruct (tr_lowerBound _ _ _) as [pos e]. cbn [fst snd].
    destruct (N.eqb_spec pr NULL); [done|].
    rewrite lookup_alter_eq, Ho. done.
Qed.

Lemma requestListAdd_is_found_witness :
  tr_peerMgrDidPeerRequest
    (requestListAdd 7 last_piece_store last_piece_state 1 2%N).2 2%N 1 = true.
Proof.
  assert (Hs : ledger_sorted (requests last_piece_state)).
  { apply (bool_decide_unpack (ledger_sorted (requests last_piece_state))).
    vm_compute. exact I. }
  assert (Hnew : 2%N ∉ requesters (requests last_piece_state) 1).
  { apply (bool_decide_unpack (2%N ∉ requesters (requests last_piece_state) 1)).
    vm_compute. exact I. }
  destruct (requestListAdd_is_found 7 last_piece_store last_piece_state 1 2%N Hs Hnew)
    as (_ & _ & _ & H & _).
  exact H.
Defined.

(** X2: adding a request to a sorted ledger that does not hold it and
    removing it again gives back the ledger and the peer objects as they
    were (the pending counter goes up and down again). *)
Theorem requestListAdd_then_remove (now : Z) (st : peer_store) (t : Torrent)
    (blk : Z) (pr : peer_ptr) :
  ledger_sorted (requests t) ->
  pr ∉ requesters (requests t) blk ->
  (forall o, st !! pr = Some o -> 0 <= pendingReqsToPeer o.1) ->
  let r := requestListAdd now st t blk pr in
  requestListRemove r.1 r.2 blk pr = (st, t).
Proof.
  intros Hs Hnew Hpos r.
  pose proof (lookup_after_add now st t blk pr Hnew) as Hlook.
  destruct (requestListAdd_fields now st t blk pr) as (_ & _ & _ & Hreq & _).
  pose proof (lowerBound_le_length compareReqByBlock (mk_breq blk pr now) (requests t)) as Hle.
  fold r in Hlook, Hreq.
  unfold requestListRemove. rewrite Hlook, Hreq, array_insert_lookup by done.
  rewrite array_remove_insert_at by done.
  subst r. unfold requestListAdd.
  destruct (tr_lowerBound _ _ _) as [pos e]. cbn [fst snd].
  f_equal.
  - by apply decrement_after_increment.
  - by destruct t.
Qed.

Lemma requestListAdd_then_remove_witness :
  let r := requestListAdd 7 last_piece_store last_piece_state 1 2%N in
  requestListRemove r.1 r.2 1 2%N = (last_piece_store, last_piece_state).
Proof.
  apply requestListAdd_then_remove.
  - apply (bool_decide_unpack (ledger_sorted (requests last_piece_state))).
    vm_compute. exact I.
  - apply (bool_decide_unpack (2%N ∉ requesters (requests last_piece_state) 1)).
    vm_compute. exact I.
  - intros o Ho.
    change (last_piece_store !! 2%N) with
      (Some (peer_with_history 0 0, Some fresh_msgs)) in Ho.
    injection Ho as <-. simpl. lia.
Defined.

(** X3: on a sorted ledger getBlockRequestPeers returns the peers of
    exactly the entries for the block, one per entry and in the order of
    the ledger; a peer is in the result if and only if the ledger holds a
    request of the block from it. *)
Theorem getBlockRequestPeers_complete (t : Torrent) (blk : Z) :
  ledger_sorted (requests t) ->
  getBlockRequestPeers t blk = peer <$> filter (fun r => block r = blk) (requests t)
  /\ forall q, q ∈ getBlockRequestPeers t blk
               <-> exists r, r ∈ requests t /\ block r = blk /\ peer r = q.
Proof.
  intros Hs. pose proof (getBlockRequestPeers_requesters t blk Hs) as Heq.
  split; [exact Heq|]. intros q. rewrite Heq. apply requesters_elem.
Qed.

Lemma getBlockRequestPeers_complete_witness :
  getBlockRequestPeers shared_block_state 0 = [1%N; 2%N].
Proof.
  assert (Hs : ledger_sorted (requests shared_block_state)).
  { apply (bool_decide_unpack (ledger_sorted (requests shared_block_state))).
    vm_compute. exact I. }
  destruct (getBlockRequestPeers_complete shared_block_state 0 Hs) as [H _].
  rewrite H. reflexivity.
Defined.

(** ** Giving requests up *)

Lemma requestListRemove_spec (st : peer_store) (t : Torrent) (blk : Z) (pr : peer_ptr) :
  match requestListLookup t blk pr with
  | Some i =>
      exists b, requests t !! i = Some b /\ asks blk pr b
                /\ (forall j y, requests t !! j = Some y -> (j < i)%nat -> ~ asks blk pr y)
                /\ requestListRemove st t blk pr
                   = (decrementPendingReqCount st b,
                      set_requests (array_remove (requests t) i) t)
  | None =>
      Forall (fun r => ~ asks blk pr r) (requests t)
      /\ requestListRemove st t blk pr = (st, t)
  end.
Proof.
  pose proof (requestListLookup_spec t blk pr) as Hspec.
  unfold requestListRemove.
  destruct (requestListLookup t blk pr) as [i|]; [|done].
  destruct Hspec as (b & Hb & Ha & Hbefore). exists b.
  rewrite Hb. done.
Qed.

Lemma removeRequestFromTables_fields (st : peer_store) (t : Torrent) (blk : Z) (pr : peer_ptr) :
  (removeRequestFromTables st t blk pr).1 = (requestListRemove st t blk pr).1
  /\ requests (removeRequestFromTables st t blk pr).2
     = requests (requestListRemove st t blk pr).2
  /\ tor (removeRequestFromTables st t blk pr).2 = tor t
  /\ (weight_sorted t -> weight_sorted (removeRequestFromTables st t blk pr).2).
Proof.
  unfold removeRequestFromTables.
  pose proof (requestListRemove_spec st t blk pr) as H.
  destruct (requestListLookup t blk pr) as [i|].
  - destruct H as (b & _ & _ & _ & ->).
    set (t1 := set_requests (array_remove (requests t) i) t).
    destruct (pieceListRemoveRequest_fields t1 blk) as (Htor & Hreq & _).
    cbn [fst snd]. rewrite Htor, Hreq.
    split; [done|]. split; [done|]. split; [done|].
    intros Hw. apply pieceListRemoveRequest_weight_sorted. exact Hw.
  - destruct H as [_ ->].
    destruct (pieceListRemoveRequest_fields t blk) as (Htor & Hreq & _).
    cbn [fst snd]. rewrite Htor, Hreq.
    split; [done|]. split; [done|]. split; [done|].
    intros Hw. by apply pieceListRemoveRequest_weight_sorted.
Qed.

(** The first element that a filter keeps: deleting it from the list drops
    it from the filter and leaves the complementary filter alone. *)
Lemma filter_head_delete {B} (P : B -> Prop) `{!forall x, Decision (P x)}
    (l : list B) (r0 : B) (rs : list B) :
  filter P l = r0 :: rs ->
  exists i, l !! i = Some r0
            /\ (forall j y, l !! j = Some y -> (j < i)%nat -> ~ P y)
            /\ filter P (array_remove l i) = rs
            /\ filter (fun x => ~ P x) (array_remove l i) = filter (fun x => ~ P x) l.
Proof.
  induction l as [|x l IH]; [done|]. rewrite filter_cons.
  destruct (decide (P x)) as [Hx|Hx].
  - intros [= -> <-]. exists 0%nat. unfold array_remove. simpl. rewrite drop_0.
    split; [done|]. split; [intros j y _ Hj; lia|]. split; [done|].
    rewrite (filter_cons (fun x => ~ P x)). by destruct (decide (~ P r0)).
  - intros Hf. destruct (IH Hf) as (i & Hi & Hbefore & Hrs & Hcompl).
    exists (S i). unfold array_remove in *. simpl.
    rewrite (filter_cons P), !(filter_cons (fun x => ~ P x)).
    destruct (decide (P x)); [done|]. destruct (decide (~ P x)); [|done].
    rewrite Hcompl. split; [done|]. split; [|done].
    intros [|j] y Hy Hj; simpl in Hy.
    + by injection Hy as <-.
    + eapply Hbefore; [done|lia].
Qed.

(** Giving up the request that a filter of the ledger puts first, when the
    filter keeps every request of the same block and peer. *)
Lemma remove_head_step (P : block_request -> Prop) `{!forall x, Decision (P x)}
    (st : peer_store) (t : Torrent) (r0 : block_request) (rs : list block_request) :
  (forall r, asks (block r0) (peer r0) r -> P r) ->
  filter P (requests t) = r0 :: rs ->
  let s := removeRequestFromTables st t (block r0) (peer r0) in
  filter P (requests s.2) = rs
  /\ filter (fun r => ~ P r) (requests s.2) = filter (fun r => ~ P r) (requests t)
  /\ s.1 = decrementPendingReqCount st r0.
Proof.
  intros HP Hf s.
  destruct (filter_head_delete _ _ _ _ Hf) as (i & Hi & Hbefore & Hrs & Hcompl).
  destruct (removeRequestFromTables_fields st t (block r0) (peer r0)) as (Hst & Hreq & _).
  fold s in Hst, Hreq. rewrite Hst, Hreq.
  pose proof (requestListRemove_spec st t (block r0) (peer r0)) as Hspec.
  destruct (requestListLookup t (block r0) (peer r0)) as [i'|].
  - destruct Hspec as (b & Hb & Ha & Hfirst & ->). cbn [fst snd requests set_requests].
    assert (i' = i) as ->.
    { destruct (Nat.lt_trichotomy i' i) as [Hlt|[->|Hgt]]; [|done|].
      - exfalso. apply (Hbefore i' b); [done|done|]. by apply HP.
      - exfalso. by apply (Hfirst i r0). }
    assert (b = r0) as -> by congruence. done.
  - destruct Hspec as [Hnone _]. exfalso.
    apply (proj1 (Forall_forall _ _) Hnone r0); [|done].
    by eapply list_elem_of_lookup_2.
Qed.

(** One step of peerDeclinedAllRequests on the first request of [pr]. *)
Lemma declined_step (st : peer_store) (t : Torrent) (pr : peer_ptr)
    (r0 : block_request) (rs : list block_request) :
  filter (fun r => peer r = pr) (requests t) = r0 :: rs ->
  let s := removeRequestFromTables st t (block r0) pr in
  filter (fun r => peer r = pr) (requests s.2) = rs
  /\ filter (fun r => peer r <> pr) (requests s.2)
     = filter (fun r => peer r <> pr) (requests t)
  /\ s.1 = decrementPendingReqCount st r0.
Proof.
  intros Hf.
  assert (Hr0 : peer r0 = pr).
  { assert (Hin : r0 ∈ filter (fun r => peer r = pr) (requests t)) by (rewrite Hf; left).
    by apply list_elem_of_filter in Hin as [? _]. }
  pose proof (remove_head_step (fun r => peer r = pr) st t r0 rs) as H.
  rewrite Hr0 in H. apply H; [|done].
  intros r [_ Hr]. congruence.
Qed.

Lemma sorted_filter {B} (R : relation B) (P : B -> Prop) `{!forall x, Decision (P x)}
    (l : list B) :
  StronglySorted R l -> StronglySorted R (filter P l).
Proof.
  induction 1 as [|x l Hs IH Hx]; [constructor|]. rewrite filter_cons.
  destruct (decide (P x)); [|done]. constructor; [done|].
  apply Forall_forall. intros y Hy. apply list_elem_of_filter in Hy as [_ Hy].
  by apply (proj1 (Forall_forall _ _) Hx).
Qed.

Lemma filter_all {B} (P : B -> Prop) `{!forall x, Decision (P x)} (l : list B) :
  filter (fun x => ~ P x) l = [] -> filter P l = l.
Proof.
  induction l as [|x l IH]; [done|]. rewrite !filter_cons.
  destruct (decide (P x)); [|by destruct (decide (~ P x))].
  destruct (decide (~ P x)); [done|]. intros Hf. by rewrite IH.
Qed.

Lemma declined_loop (pr : peer_ptr) (rs : list block_request) :
  forall (st : peer_store) (t : Torrent),
    filter (fun r => peer r = pr) (requests t) = rs ->
    let s := foldl (fun s blk => removeRequestFromTables s.1 s.2 blk pr) (st, t) (block <$> rs) in
    filter (fun r => peer r = pr) (requests s.2) = []
    /\ filter (fun r => peer r <> pr) (requests s.2)
       = filter (fun r => peer r <> pr) (requests t)
    /\ s.1 = foldl decrementPendingReqCount st rs
    /\ tor s.2 = tor t
    /\ (weight_sorted t -> weight_sorted s.2).
Proof.
  induction rs as [|r0 rs IH]; intros st t Hf; [done|].
  destruct (declined_step st t pr r0 rs Hf) as (Hrs & Hcompl & Hst).
  destruct (removeRequestFromTables_fields st t (block r0) pr) as (_ & _ & Htor & Hw).
  cbn [fmap list_fmap foldl fst snd].
  set (s1 := removeRequestFromTables st t (block r0) pr) in *.
  destruct (IH s1.1 s1.2 Hrs) as (H1 & H2 & H3 & H4 & H5).
  rewrite <- (surjective_pairing s1) in H1, H2, H3, H4, H5.
  rewrite H2, H3, H4, Hcompl, Hst, Htor.
  split; [done|]. split; [done|]. split; [done|]. split; [done|].
  intros Hsorted. by apply H5, Hw.
Qed.

Lemma foldl_decrement_other (rs : list block_request) (pr q : peer_ptr) :
  Forall (fun r => peer r = pr) rs -> q <> pr ->
  forall st, foldl decrementPendingReqCount st rs !! q = st !! q.
Proof.
  induction 1 as [|r rs Hr _ IH]; intros Hq st; [done|].
  simpl. rewrite IH by done. unfold decrementPendingReqCount.
  destruct (peer r =? NULL)%N; [done|]. rewrite lookup_alter_ne; [done|congruence].
Qed.

Lemma foldl_decrement_pending (rs : list block_request) (pr : peer_ptr) :
  Forall (fun r => peer r = pr) rs -> pr <> NULL ->
  forall st, 0 <= pending_of st pr ->
    pending_of (foldl decrementPendingReqCount st rs) pr
    = Z.max 0 (pending_of st pr - zlen rs).
Proof.
  induction 1 as [|r rs Hr _ IH]; intros Hnn st Hpos.
  - unfold zlen. simpl. lia.
  - simpl.
    assert (Hstep : pending_of (decrementPendingReqCount st r) pr
                    = Z.max 0 (pending_of st pr - 1)).
    { unfold decrementPendingReqCount, pending_of in *. rewrite Hr.
      destruct (N.eqb_spec pr NULL); [done|].
      rewrite lookup_alter_eq. destruct (st !! pr) as [[p m]|]; simpl in *; [|lia].
      destruct (Z.ltb_spec 0 (pendingReqsToPeer p)); simpl; lia. }
    rewrite IH by (done || lia). rewrite Hstep. unfold zlen. simpl length. lia.
Qed.

(** X4: when a peer declines all requests (it choked us or went away),
    peerDeclinedAllRequests leaves in a sorted ledger exactly the requests
    made to the other peers, in their order; the other peer objects are not
    touched, the pending counter of the peer drops by the number of its
    requests (not below zero), and a piece list that was sorted by weight
    still is. *)
Theorem peerDeclinedAllRequests_clears (st : peer_store) (t : Torrent) (pr : peer_ptr) :
  ledger_sorted (requests t) ->
  let s := peerDeclinedAllRequests st t pr in
  requests s.2 = filter (fun r => peer r <> pr) (requests t)
  /\ ledger_sorted (requests s.2)
  /\ (forall q, q <> pr -> s.1 !! q = st !! q)
  /\ (pr <> NULL -> 0 <= pending_of st pr ->
      pending_of s.1 pr
      = Z.max 0 (pending_of st pr - zlen (filter (fun r => peer r = pr) (requests t))))
  /\ (weight_sorted t -> weight_sorted s.2).
Proof.
  intros Hs s.
  destruct (declined_loop pr _ st t eq_refl) as (Hnone & Hcompl & Hst & _ & Hw).
  fold (peerDeclinedAllRequests st t pr) in Hnone, Hcompl, Hst, Hw. fold s in Hnone, Hcompl, Hst, Hw.
  assert (Hall : Forall (fun r => peer r = pr) (filter (fun r => peer r = pr) (requests t))).
  { apply Forall_forall. intros r Hr. by apply list_elem_of_filter in Hr as [? _]. }
  assert (Hreq : requests s.2 = filter (fun r => peer r <> pr) (requests t)).
  { rewrite <- Hcompl. symmetry. apply filter_all.
    rewrite <- Hnone. apply list_filter_iff. intros r. split; [|congruence].
    intros Hnn. destruct (decide (peer r = pr)); [done|]. by exfalso. }
  split; [exact Hreq|]. split; [|split; [|split]].
  - rewrite Hreq. by apply sorted_filter.
  - intros q Hq. rewrite Hst. by apply (foldl_decrement_other _ pr).
  - intros Hnn Hpos. rewrite Hst. by apply foldl_decrement_pending.
  - exact Hw.
Qed.

Lemma peerDeclinedAllRequests_clears_witness :
  requests (peerDeclinedAllRequests shared_block_store shared_block_state 1%N).2
  = [mk_breq 0 2%N 3].
Proof.
  assert (Hs : ledger_sorted (requests shared_block_state)).
  { apply (bool_decide_unpack (ledger_sorted (requests shared_block_state))).
    vm_compute. exact I. }
  destruct (peerDeclinedAllRequests_clears shared_block_store shared_block_state 1%N Hs)
    as (H & _).
  rewrite H. reflexivity.
Defined.

(** ** A block arrives *)

Lemma filter_remove_outside {B} (Q : B -> Prop) `{!forall x, Decision (Q x)}
    (l : list B) (i : nat) (b : B) :
  l !! i = Some b -> ~ Q b -> filter Q (array_remove l i) = filter Q l.
Proof.
  intros Hb Hq. unfold array_remove.
  rewrite <- (take_drop_middle l i b Hb) at 3.
  rewrite !filter_app, (filter_cons Q). by destruct (decide (Q b)).
Qed.

Lemma removeRequestFromTables_other (st : peer_store) (t : Torrent) (blk : Z) (pr : peer_ptr) :
  filter (fun r => block r <> blk) (requests (removeRequestFromTables st t blk pr).2)
  = filter (fun r => block r <> blk) (requests t).
Proof.
  destruct (removeRequestFromTables_fields st t blk pr) as (_ & -> & _).
  pose proof (requestListRemove_spec st t blk pr) as Hspec.
  destruct (requestListLookup t blk pr) as [i|].
  - destruct Hspec as (b & Hb & [Ha _] & _ & ->). cbn [snd requests set_requests].
    apply (filter_remove_outside _ _ _ b); [done|]. intros Hn. by apply Hn.
  - by destruct Hspec as [_ ->].
Qed.

Lemma has_sent_grow (st : peer_store) (q : peer_ptr) (out out' : list Z) :
  has_sent st q out' -> out `prefix_of` out' -> has_sent st q out.
Proof.
  intros (p & m & Hq & Hpre) Hout. exists p, m. split; [done|]. by etrans.
Qed.

Lemma has_sent_decrement (st : peer_store) (b : block_request) (q : peer_ptr) (out : list Z) :
  has_sent st q out -> has_sent (decrementPendingReqCount st b) q out.
Proof.
  intros (p & m & Hq & Hpre). unfold decrementPendingReqCount, has_sent.
  destruct (peer b =? NULL)%N; [by exists p, m|].
  destruct (decide (peer b = q)) as [->|Hne].
  - rewrite lookup_alter_eq, Hq. simpl. eauto.
  - rewrite lookup_alter_ne by done. eauto.
Qed.

Lemma has_sent_remove (st : peer_store) (t : Torrent) (blk : Z) (pr q : peer_ptr)
    (out : list Z) :
  has_sent st q out -> has_sent (removeRequestFromTables st t blk pr).1 q out.
Proof.
  intros Hq. destruct (removeRequestFromTables_fields st t blk pr) as (-> & _).
  pose proof (requestListRemove_spec st t blk pr) as Hspec.
  destruct (requestListLookup t blk pr) as [i|].
  - destruct Hspec as (b & _ & _ & _ & ->). by apply has_sent_decrement.
  - by destruct Hspec as [_ ->].
Qed.

Lemma removeRequestFromTables_store_other (st : peer_store) (t : Torrent) (blk : Z)
    (pr q : peer_ptr) :
  q <> pr -> (removeRequestFromTables st t blk pr).1 !! q = st !! q.
Proof.
  intros Hne. destruct (removeRequestFromTables_fields st t blk pr) as (-> & _).
  pose proof (requestListRemove_spec st t blk pr) as Hspec.
  destruct (requestListLookup t blk pr) as [i|].
  - destruct Hspec as (b & _ & [_ Hp] & _ & ->). cbn [fst].
    unfold decrementPendingReqCount. destruct (peer b =? NULL)%N; [done|].
    rewrite lookup_alter_ne; [done|congruence].
  - by destruct Hspec as [_ ->].
Qed.

(** One round of the cancel loop: every buffer keeps what it holds, the
    peer the round is about is told, and the other peers are left alone. *)
Lemma cancel_duplicate_keeps (now blk : Z) (s : peer_store * Torrent) (p q : peer_ptr)
    (out : list Z) :
  has_sent s.1 q out -> has_sent (cancel_duplicate now blk s p).1 q out.
Proof.
  intros (po & m & Hq & Hpre). unfold cancel_duplicate. apply has_sent_remove.
  destruct (decide (p = q)) as [->|Hne].
  - rewrite Hq. eexists _, _. rewrite lookup_insert_eq. split; [done|].
    rewrite tr_peerMsgsCancel_out. by apply prefix_app_r.
  - destruct (s.1 !! p) as [[po' [m'|]]|]; try by exists po, m.
    exists po, m. by rewrite lookup_insert_ne.
Qed.

Lemma cancel_duplicate_tells (now blk : Z) (s : peer_store * Torrent) (q : peer_ptr)
    (po : tr_peer) (m : Wire.tr_peermsgs) :
  s.1 !! q = Some (po, Some m) ->
  has_sent (cancel_duplicate now blk s q).1 q
    (Wire.outMessages m ++ cancel_message (tor s.2) blk).
Proof.
  intros Hq. unfold cancel_duplicate. apply has_sent_remove. rewrite Hq.
  eexists _, _. rewrite lookup_insert_eq. split; [done|].
  by rewrite tr_peerMsgsCancel_out.
Qed.

Lemma cancel_duplicate_other (now blk : Z) (s : peer_store * Torrent) (p q : peer_ptr) :
  q <> p -> (cancel_duplicate now blk s p).1 !! q = s.1 !! q.
Proof.
  intros Hne. unfold cancel_duplicate.
  rewrite removeRequestFromTables_store_other by done.
  destruct (s.1 !! p) as [[po' [m'|]]|]; try done. by rewrite lookup_insert_ne.
Qed.

Lemma cancel_duplicate_tor (now blk : Z) (s : peer_store * Torrent) (p : peer_ptr) :
  tor (cancel_duplicate now blk s p).2 = tor s.2.
Proof.
  unfold cancel_duplicate.
  by destruct (removeRequestFromTables_fields
                 (match s.1 !! p with
                  | Some (po, Some m) =>
                      <[p := (set_cancelsSentToPeer
                                (tr_historyAdd (cancelsSentToPeer po) now 1) po,
                              Some (Wire.tr_peerMsgsCancel (tor s.2) m blk))]> s.1
                  | _ => s.1
                  end) s.2 blk p) as (_ & _ & -> & _).
Qed.

(** The cancel loop over the peers of the requests for the block. *)
Lemma cancel_loop_ledger (now blk : Z) (rs : list block_request) :
  forall (s : peer_store * Torrent),
    filter (fun r => block r = blk) (requests s.2) = rs ->
    let s' := foldl (cancel_duplicate now blk) s (peer <$> rs) in
    filter (fun r => block r = blk) (requests s'.2) = []
    /\ filter (fun r => block r <> blk) (requests s'.2)
       = filter (fun r => block r <> blk) (requests s.2)
    /\ tor s'.2 = tor s.2.
Proof.
  induction rs as [|r0 rs IH]; intros s Hf; [done|].
  assert (Hr0 : block r0 = blk).
  { assert (Hin : r0 ∈ filter (fun r => block r = blk) (requests s.2)) by (rewrite Hf; left).
    by apply list_elem_of_filter in Hin as [? _]. }
  cbn [fmap list_fmap foldl].
  assert (Hstep : filter (fun r => block r = blk)
                    (requests (cancel_duplicate now blk s (peer r0)).2) = rs
                  /\ filter (fun r => block r <> blk)
                       (requests (cancel_duplicate now blk s (peer r0)).2)
                     = filter (fun r => block r <> blk) (requests s.2)).
  { unfold cancel_duplicate.
    set (st1 := match s.1 !! peer r0 with
                | Some (po, Some m) =>
                    <[peer r0 := (set_cancelsSentToPeer
                                    (tr_historyAdd (cancelsSentToPeer po) now 1) po,
                                  Some (Wire.tr_peerMsgsCancel (tor s.2) m blk))]> s.1
                | _ => s.1
                end).
    pose proof (remove_head_step (fun r => block r = blk) st1 s.2 r0 rs) as H.
    rewrite Hr0 in H. destruct H as (H1 & H2 & _); [|exact Hf|done].
    intros r [Hb _]. congruence. }
  destruct Hstep as [H1 H2].
  destruct (IH _ H1) as (H3 & H4 & H5).
  rewrite H4, H5, H2, cancel_duplicate_tor. done.
Qed.

Lemma cancel_loop_sent (now blk : Z) (tr : tr_torrent) (q : peer_ptr) (prs : list peer_ptr) :
  forall (s : peer_store * Torrent) (po : tr_peer) (m : Wire.tr_peermsgs),
    tor s.2 = tr ->
    q ∈ prs ->
    s.1 !! q = Some (po, Some m) ->
    has_sent (foldl (cancel_duplicate now blk) s prs).1 q
      (Wire.outMessages m ++ cancel_message tr blk).
Proof.
  assert (Hkeep : forall prs s out, has_sent s.1 q out ->
            has_sent (foldl (cancel_duplicate now blk) s prs).1 q out).
  { clear prs. induction prs as [|p prs IH]; intros s out Hs; [done|].
    simpl. by apply IH, cancel_duplicate_keeps. }
  induction prs as [|p prs IH]; intros s po m Htor Hin Hq; [by apply elem_of_nil in Hin|].
  simpl. destruct (decide (p = q)) as [->|Hne].
  - apply Hkeep. rewrite <- Htor. by apply (cancel_duplicate_tells _ _ _ _ po).
  - apply elem_of_cons in Hin as [->|Hin]; [done|].
    apply (IH _ po m); [by rewrite cancel_duplicate_tor|done|].
    by rewrite cancel_duplicate_other.
Qed.

Lemma send_have_to_all_keeps (ix : Z) (q : peer_ptr) (out : list Z) (prs : list peer_ptr) :
  forall st, has_sent st q out -> has_sent (send_have_to_all ix st prs) q out.
Proof.
  unfold send_have_to_all.
  induction prs as [|p prs IH]; intros st Hs; [done|].
  simpl. apply IH. destruct Hs as (po & m & Hq & Hpre). unfold has_sent.
  destruct (decide (p = q)) as [->|Hne].
  - rewrite lookup_alter_eq, Hq. simpl. eexists _, _. split; [done|].
    unfold tr_peerMsgsHave, protocolSendHave, Wire.pokeBatchPeriod.
    destruct (_ <? _); simpl; by apply prefix_app_r.
  - exists po, m. by rewrite lookup_alter_ne.
Qed.

Lemma elem_of_array_remove {B} (l : list B) (i : nat) (b r : B) :
  l !! i = Some b -> r ∈ l -> r <> b -> r ∈ array_remove l i.
Proof.
  intros Hb Hr Hne. unfold array_remove.
  rewrite <- (take_drop_middle l i b Hb) in Hr.
  apply elem_of_app in Hr as [Hr|Hr]; [apply elem_of_app; by left|].
  apply elem_of_cons in Hr as [->|Hr]; [done|]. apply elem_of_app. by right.
Qed.

Lemma removeRequestFromTables_sorted (st : peer_store) (t : Torrent) (blk : Z) (pr : peer_ptr) :
  ledger_sorted (requests t) ->
  ledger_sorted (requests (removeRequestFromTables st t blk pr).2).
Proof.
  intros Hs. destruct (removeRequestFromTables_fields st t blk pr) as (_ & -> & _).
  pose proof (requestListRemove_spec st t blk pr) as Hspec.
  destruct (requestListLookup t blk pr) as [i|].
  - destruct Hspec as (b & _ & _ & _ & ->). cbn [snd requests set_requests].
    by apply array_remove_sorted.
  - by destruct Hspec as [_ ->].
Qed.

Lemma removeRequestFromTables_keeps_requester (st : peer_store) (t : Torrent) (blk : Z)
    (pr q : peer_ptr) :
  q <> pr ->
  q ∈ requesters (requests t) blk ->
  q ∈ requesters (requests (removeRequestFromTables st t blk pr).2) blk.
Proof.
  intros Hne Hq. destruct (removeRequestFromTables_fields st t blk pr) as (_ & -> & _).
  pose proof (requestListRemove_spec st t blk pr) as Hspec.
  destruct (requestListLookup t blk pr) as [i|].
  - destruct Hspec as (b & Hb & [_ Hp] & _ & ->). cbn [snd requests set_requests].
    apply requesters_elem in Hq as (r & Hr & Ha). apply requesters_elem.
    exists r. split; [|done]. apply (elem_of_array_remove _ _ b); [done|done|].
    intros ->. destruct Ha as [_ Ha]. congruence.
  - by destruct Hspec as [_ ->].
Qed.

(** The shape of the GOT_BLOCK case: after the cancel loop the ledger is
    not touched any more, and the output buffers only grow. *)
Lemma got_block_shape (env : mgr_env) (now : Z) (st : peer_store)
    (mk : marks_store) (t : Torrent) (pr : peer_ptr) (req : peer_request)
    (st1 st2 : peer_store) (t1 t2 : Torrent) :
  let blk := _tr_block (tor t) (req_index req) (req_offset req) in
  removeRequestFromTables st t blk pr = (st1, t1) ->
  foldl (cancel_duplicate now blk) (st1, t1) (getBlockRequestPeers t1 blk) = (st2, t2) ->
  exists st' mk' t',
    peerCallbackFunc env now st mk t pr (Wire.TR_PEER_CLIENT_GOT_BLOCK req) = (st', mk', t')
    /\ requests t' = requests t2
    /\ forall q out, q <> pr -> has_sent st2 q out -> has_sent st' q out.
Proof.
  intros blk H1 H2. unfold peerCallbackFunc. fold blk. rewrite H1, H2.
  set (st3 := alter (on_peer_obj (fun p =>
                 set_blocksSentToClient (tr_historyAdd (blocksSentToClient p) now 1) p))
              pr st2).
  assert (H3 : forall q out, q <> pr -> has_sent st2 q out -> has_sent st3 q out).
  { intros q out Hne (po & m & Hq & Hpre). exists po, m. split; [|done].
    unfold st3. by rewrite lookup_alter_ne. }
  set (t3 := set_tor (tr_cpBlockAdd env (tor t2) blk) t2).
  destruct (pieceListResortPiece_fields t3 (pieceListLookup t3 (req_index req)))
    as (_ & Hreq4 & _).
  set (t4 := pieceListResortPiece t3 (pieceListLookup t3 (req_index req))) in *.
  destruct (tr_cpBlockIsComplete (tor t2) blk); [by eexists _, _, _|].
  destruct (tr_cpPieceIsComplete _ _); [|by eexists _, _, _].
  destruct (negb _); [by eexists _, _, _|].
  eexists _, _, _. split; [done|]. split.
  - unfold pieceListRemovePiece.
    destruct (pieceListLookup t4 _); exact Hreq4.
  - intros q out Hne Hq. apply send_have_to_all_keeps. by apply H3.
Qed.

(** X5: when a block arrives from a peer (GOT_BLOCK), peerCallbackFunc
    leaves no request for that block in a sorted ledger, from whichever
    peer, and keeps the requests for the other blocks in their order; every
    other peer the block was asked of that has a wire session gets a
    Cancel message for the block appended to its output buffer. *)
Theorem got_block_releases_requests (env : mgr_env) (now : Z) (st : peer_store)
    (mk : marks_store) (t : Torrent) (pr : peer_ptr) (req : peer_request) :
  ledger_sorted (requests t) ->
  let blk := _tr_block (tor t) (req_index req) (req_offset req) in
  let r := peerCallbackFunc env now st mk t pr (Wire.TR_PEER_CLIENT_GOT_BLOCK req) in
  requests r.2 = filter (fun x => block x <> blk) (requests t)
  /\ ledger_sorted (requests r.2)
  /\ forall q po m,
       q <> pr -> q ∈ requesters (requests t) blk -> st !! q = Some (po, Some m) ->
       has_sent r.1.1 q (Wire.outMessages m ++ cancel_message (tor t) blk).
Proof.
  intros Hs blk r.
  pose proof (removeRequestFromTables_sorted st t blk pr Hs) as Hs1.
  pose proof (removeRequestFromTables_other st t blk pr) as Hother1.
  destruct (removeRequestFromTables_fields st t blk pr) as (_ & _ & Htor1 & _).
  pose proof (removeRequestFromTables_store_other st t blk pr) as Hstore1.
  pose proof (removeRequestFromTables_keeps_requester st t blk pr) as Hkeep1.
  destruct (removeRequestFromTables st t blk pr) as [st1 t1] eqn:E1. cbn [fst snd] in *.
  destruct (cancel_loop_ledger now blk _ (st1, t1) eq_refl) as (Hnone & Hother2 & Htor2).
  pose proof (fun q => cancel_loop_sent now blk (tor t) q
                         (requesters (requests t1) blk) (st1, t1)) as Hsent.
  cbn [fst snd] in Hnone, Hother2, Htor2, Hsent.
  change (peer <$> filter (fun r => block r = blk) (requests t1))
    with (requesters (requests t1) blk) in Hnone, Hother2, Htor2.
  rewrite <- (getBlockRequestPeers_requesters t1 blk Hs1) in Hnone, Hother2, Htor2, Hsent.
  destruct (foldl (cancel_duplicate now blk) (st1, t1) (getBlockRequestPeers t1 blk))
    as [st2 t2] eqn:E2.
  cbn [fst snd] in *.
  destruct (got_block_shape env now st mk t pr req st1 st2 t1 t2 E1 E2)
    as (st' & mk' & t' & Hr & Hreq' & Hst').
  fold r in Hr. rewrite Hr. cbn [fst snd]. clear r Hr.
  assert (Hreq2 : requests t2 = filter (fun x => block x <> blk) (requests t)).
  { rewrite <- Hother1, <- Hother2. symmetry. apply filter_all.
    rewrite <- Hnone. apply list_filter_iff. intros x. split; [|tauto].
    intros Hnn. destruct (decide (block x = blk)); [done|]. by exfalso. }
  rewrite Hreq', Hreq2. split; [done|]. split; [by apply sorted_filter|].
  intros q po m Hne Hq Hst. apply Hst'; [done|].
  apply (Hsent q po m); [done| |by rewrite Hstore1].
  rewrite (getBlockRequestPeers_requesters t1 blk Hs1). by apply Hkeep1.
Qed.

Lemma got_block_releases_requests_witness :
  requests (peerCallbackFunc plain_env 9 shared_block_store ∅ shared_block_state 1%N
              (Wire.TR_PEER_CLIENT_GOT_BLOCK (mk_req 0 0 16384))).2
  = [mk_breq 1 1%N 5].
Proof.
  assert (Hs : ledger_sorted (requests shared_block_state)).
  { apply (bool_decide_unpack (ledger_sorted (requests shared_block_state))).
    vm_compute. exact I. }
  destruct (got_block_releases_requests plain_env 9 shared_block_store ∅
              shared_block_state 1%N (mk_req 0 0 16384) Hs) as (H & _).
  rewrite H. reflexivity.
Defined.

(* LEDGER-END *)
End LedgerProps.
(** * What a call of tr_peerMgrGetNextRequests leaves behind *)

Section NextRequestsProps.
Import Mgr.

Local Arguments block_is_requestable : simpl never.
Local Arguments getBlockRequestPeers : simpl never.
Local Arguments requestListAdd : simpl never.
Local Arguments tr_lowerBound : simpl never.

Lemma requestListAdd_store (now : Z) (st : peer_store) (t : Torrent) (blk : Z) (pr : peer_ptr) :
  let r := requestListAdd now st t blk pr in
  pieceReplication r.2 = pieceReplication t
  /\ pieceSortState r.2 = pieceSortState t
  /\ (forall q, q <> pr -> r.1 !! q = st !! q)
  /\ (pr <> NULL -> forall o, st !! pr = Some o ->
        exists o', r.1 !! pr = Some o'
                   /\ pendingReqsToPeer o'.1 = pendingReqsToPeer o.1 + 1).
Proof.
  unfold requestListAdd. destruct (tr_lowerBound _ _ _) as [pos e]. cbn [fst snd].
  split; [done|]. split; [done|]. split.
  - intros q Hq. destruct (pr =? NULL)%N; [done|]. by rewrite lookup_alter_ne.
  - intros Hnn o Ho. destruct (N.eqb_spec pr NULL); [done|].
    rewrite lookup_alter_eq, Ho. simpl. eexists. split; [done|]. done.
Qed.

(** ** The table of blocks *)

Lemma assign_block_table (now : Z) (tr : tr_torrent) (st0 : peer_store)
    (l0 : list block_request) (factor pending0 : Z) (pr : peer_ptr)
    (numwant first b : Z) (pos : nat) (a : request_acc) :
  selection_inv tr l0 factor pending0 pr numwant a ->
  request_table_inv now tr st0 l0 pr numwant a ->
  acc_got a < numwant ->
  block_is_requestable (acc_store a) (acc_torrent a) pr numwant (acc_got a) b = true ->
  request_table_inv now tr st0 l0 pr numwant (assign_block now false pr first b pos a).
Proof.
  intros (Htor & Hfac & Hs & Hout & Hin & _) (Hlen & Hmax & Hnd & Hinc & Hperm & Hoth & Hpend)
    Hlt Hreq.
  assert (Hnot : b ∉ acc_setme a).
  { intros Hb. apply Hin in Hb.
    assert (Hne : requesters (requests (acc_torrent a)) b <> []).
    { intros Hnil. rewrite Hnil in Hb. by apply elem_of_nil in Hb. }
    by destruct (block_is_requestable_duplicate _ _ _ _ _ _ Hs Hne Hreq) as (_ & _ & _ & Hn). }
  destruct (block_is_requestable_true _ _ _ _ _ _ Hreq) as [Hcomplete _].
  rewrite Htor in Hcomplete.
  unfold assign_block. cbn [negb].
  pose proof (requestListAdd_fields now (acc_store a) (acc_torrent a) b pr) as Hadd.
  pose proof (requestListAdd_store now (acc_store a) (acc_torrent a) b pr) as Hadd2.
  cbn zeta in Hadd, Hadd2.
  destruct (requestListAdd now (acc_store a) (acc_torrent a) b pr) as [st' t'].
  cbn [fst snd] in Hadd, Hadd2.
  destruct Hadd as (_ & _ & _ & Hreqs' & _).
  destruct Hadd2 as (_ & _ & Hoth' & Hpend').
  unfold request_table_inv. cbn [acc_torrent acc_store acc_setme acc_got].
  change (requests (set_pieces ?ps t')) with (requests t').
  split; [|split; [|split; [|split; [|split; [|split]]]]].
  - unfold zlen in *. rewrite length_app. simpl. lia.
  - lia.
  - apply NoDup_app. split; [done|]. split; [|apply NoDup_singleton].
    intros x Hx Hx'. apply list_elem_of_singleton in Hx' as ->. done.
  - apply Forall_app. split; [done|]. by constructor.
  - rewrite Hreqs', array_insert_perm, Hperm, fmap_app. simpl.
    rewrite <- app_assoc. simpl. apply Permutation_middle.
  - intros q Hq. rewrite Hoth' by done. by apply Hoth.
  - intros Hnn o Ho. destruct (Hpend Hnn o Ho) as (o1 & Ho1 & Hp1).
    destruct (Hpend' Hnn o1 Ho1) as (o2 & Ho2 & Hp2).
    exists o2. split; [done|]. lia.
Qed.

Lemma blocks_loop_table (now : Z) (tr : tr_torrent) (st0 : peer_store)
    (l0 : list block_request) (factor pending0 : Z) (pr : peer_ptr)
    (numwant first last : Z) (pos : nat) (fuel : nat) :
  forall (b : Z) (a : request_acc),
    selection_inv tr l0 factor pending0 pr numwant a ->
    request_table_inv now tr st0 l0 pr numwant a ->
    request_table_inv now tr st0 l0 pr numwant
      (blocks_loop fuel now false pr numwant first last pos b a).
Proof.
  induction fuel as [|fuel IH]; intros b a Hsel Hinv; [done|].
  cbn [blocks_loop]. rewrite andb_false_l, orb_false_r.
  destruct (b <=? last); [|done]. cbn [andb].
  destruct (Z.ltb_spec (acc_got a) numwant) as [Hlt|]; [|done].
  destruct (block_is_requestable _ _ _ _ _ _) eqn:Hreq; [|by apply IH].
  apply IH; [by apply assign_block_inv|by eapply assign_block_table].
Qed.

Lemma pieces_loop_table (now : Z) (tr : tr_torrent) (st0 : peer_store)
    (l0 : list block_request) (factor pending0 : Z) (pr : peer_ptr)
    (numwant : Z) (fuel : nat) :
  forall (i : nat) (a : request_acc),
    selection_inv tr l0 factor pending0 pr numwant a ->
    request_table_inv now tr st0 l0 pr numwant a ->
    request_table_inv now tr st0 l0 pr numwant
      (pieces_loop fuel now false pr numwant i a).2.
Proof.
  induction fuel as [|fuel IH]; intros i a Hsel Hinv; [done|].
  cbn [pieces_loop].
  destruct (bool_decide _ && _); [|done].
  destruct (pieces (acc_torrent a) !! i) as [p|]; [|by apply IH].
  destruct (peer_has _ _ _); [|by apply IH].
  destruct (tr_torGetPieceBlockRange _ _) as [first last].
  apply IH; [by apply blocks_loop_inv|by eapply blocks_loop_table].
Qed.

Lemma requester_is_found (t : Torrent) (pr : peer_ptr) (b : Z) :
  pr ∈ requesters (requests t) b -> tr_peerMgrDidPeerRequest t pr b = true.
Proof.
  intros Hin. unfold tr_peerMgrDidPeerRequest.
  pose proof (requestListLookup_spec t b pr) as Hspec.
  destruct (requestListLookup t b pr) as [i|]; [done|].
  exfalso. by apply no_asks_requesters in Hspec.
Qed.

(** The state in which the two loops start, and what is left of the result
    after them. *)
Lemma next_requests_shape (rand : nat -> Z) (now : Z) (st : peer_store) (t : Torrent)
    (pr : peer_ptr) (numwant : Z) (get_intervals : bool) :
  exists (t3 : Torrent) (i : nat) (a : request_acc) (ps : list weighted_piece),
    tor t3 = tor t /\ requests t3 = requests t
    /\ pieceReplication t3 = pieceReplication t
    /\ pieces_loop (length (pieces t3)) now get_intervals pr numwant 0%nat
         (mk_acc st t3 [] 0) = (i, a)
    /\ tr_peerMgrGetNextRequests rand now st t pr numwant get_intervals
       = (acc_store a, set_pieces ps (acc_torrent a), acc_setme a, acc_got a)
    /\ ps = (if 0 <? acc_got a
             then resort_loop
                    (comparePieceByWeight (tor (acc_torrent a))
                       (pieceReplication (acc_torrent a)))
                    (if bool_decide (i = length (pieces (acc_torrent a)))
                     then (i - 1)%nat else i)
                    (pieces (acc_torrent a))
             else pieces (acc_torrent a))
    /\ ((pieceSortState t = PIECES_SORTED_BY_WEIGHT ->
         StronglySorted (by_weight t) (pieces t)) -> weight_sorted t3).
Proof.
  unfold tr_peerMgrGetNextRequests.
  set (t1 := match pieces t with [] => pieceListRebuild rand t | _ => t end).
  set (t2 := if negb (sort_state_eqb (pieceSortState t1) PIECES_SORTED_BY_WEIGHT)
             then pieceListSort t1 PIECES_SORTED_BY_WEIGHT else t1).
  set (t3 := updateEndgame st t2).
  assert (H1 : tor t1 = tor t /\ requests t1 = requests t
               /\ pieceReplication t1 = pieceReplication t).
  { unfold t1. destruct (pieces t); [|done]. unfold pieceListRebuild.
    by destruct (isSeed (tor t)). }
  assert (H2 : tor t2 = tor t /\ requests t2 = requests t
               /\ pieceReplication t2 = pieceReplication t).
  { unfold t2. by destruct (negb _). }
  assert (H3 : tor t3 = tor t /\ requests t3 = requests t
               /\ pieceReplication t3 = pieceReplication t).
  { unfold t3, updateEndgame. destruct (negb (testForEndgame t2)); [done|].
    by destruct (endgame t2 =? 0). }
  destruct H3 as (Htor3 & Hreq3 & Hrep3).
  assert (Hw : (pieceSortState t = PIECES_SORTED_BY_WEIGHT ->
                StronglySorted (by_weight t) (pieces t)) -> weight_sorted t3).
  { intros Hgiven.
    assert (Hw1 : pieceSortState t1 = PIECES_SORTED_BY_WEIGHT -> weight_sorted t1).
    { unfold t1. destruct (pieces t) eqn:Hp;
        [|intros Hst; split; [done|rewrite Hp; by apply Hgiven]].
      unfold pieceListRebuild. destruct (isSeed (tor t)).
      - intros Hst. split; [done|]. rewrite Hp. by apply Hgiven.
      - intros _. apply pieceListSort_weight_sorted. }
    assert (Hw2 : weight_sorted t2).
    { unfold t2. destruct (pieceSortState t1) eqn:Hst; cbn [sort_state_eqb negb];
        try apply pieceListSort_weight_sorted. by apply Hw1. }
    unfold t3, updateEndgame. destruct (negb (testForEndgame t2)); [exact Hw2|].
    destruct (endgame t2 =? 0); exact Hw2. }
  destruct (pieces_loop (length (pieces t3)) now get_intervals pr numwant 0%nat
              (mk_acc st t3 [] 0)) as [i a] eqn:Hloop.
  exists t3, i, a.
  destruct (0 <? acc_got a).
  - eexists. split; [done|]. split; [done|]. split; [done|]. split; [done|].
    split; [reflexivity|]. split; [reflexivity|exact Hw].
  - exists (pieces (acc_torrent a)).
    split; [done|]. split; [done|]. split; [done|]. split; [done|].
    split; [by destruct (acc_torrent a)|]. split; [reflexivity|exact Hw].
Qed.

(** X6: a call of tr_peerMgrGetNextRequests without intervals on a sorted
    ledger returns at most numwant blocks, each of them once and none of
    them complete; the ledger afterwards is sorted and holds the old
    requests and one new request of the peer, stamped with the current
    time, for each returned block, so that tr_peerMgrDidPeerRequest finds
    every one of them; the pending counter of the peer has grown by the
    number of blocks and the other peers are not touched. *)
Theorem next_requests_recorded (rand : nat -> Z) (now : Z) (st : peer_store)
    (t : Torrent) (pr : peer_ptr) (numwant : Z) :
  ledger_sorted (requests t) ->
  let r := tr_peerMgrGetNextRequests rand now st t pr numwant false in
  let st' := r.1.1.1 in
  let t' := r.1.1.2 in
  let setme := r.1.2 in
  let got := r.2 in
  zlen setme = got
  /\ got <= Z.max numwant 0
  /\ NoDup setme
  /\ Forall (fun b => tr_cpBlockIsComplete (tor t) b = false) setme
  /\ requests t' ≡ₚ ((fun b => mk_breq b pr now) <$> setme) ++ requests t
  /\ ledger_sorted (requests t')
  /\ (forall b, b ∈ setme -> tr_peerMgrDidPeerRequest t' pr b = true)
  /\ (forall q, q <> pr -> st' !! q = st !! q)
  /\ (pr <> NULL -> forall o, st !! pr = Some o ->
        pending_of st' pr = pendingReqsToPeer o.1 + got).
Proof.
  intros Hsorted r st' t' setme got.
  destruct (next_requests_shape rand now st t pr numwant false)
    as (t3 & i & a & ps & Htor3 & Hreq3 & _ & Hloop & Hr & _).
  subst st' t' setme got r. rewrite Hr. cbn [fst snd]. clear Hr.
  change (requests (set_pieces ps (acc_torrent a))) with (requests (acc_torrent a)).
  assert (Hsel0 : selection_inv (tor t) (requests t) (endgame t3) (pending_of st pr)
                    pr numwant (mk_acc st t3 [] 0)).
  { unfold selection_inv. cbn. rewrite Hreq3.
    split; [done|]. split; [done|]. split; [done|]. split; [done|].
    split; [intros b Hb; by apply elem_of_nil in Hb|].
    split; [lia|]. split; [lia|].
    intros b Hb. by apply elem_of_nil in Hb. }
  assert (Htab0 : request_table_inv now (tor t) st (requests t) pr numwant (mk_acc st t3 [] 0)).
  { unfold request_table_inv. cbn. rewrite Hreq3.
    split; [done|]. split; [lia|]. split; [constructor|]. split; [constructor|].
    split; [done|]. split; [done|].
    intros _ o Ho. exists o. split; [done|]. lia. }
  pose proof (pieces_loop_inv (tor t) (requests t) (endgame t3) (pending_of st pr)
                pr numwant now (length (pieces t3)) 0%nat _ Hsel0) as Hsel.
  pose proof (pieces_loop_table now (tor t) st (requests t) (endgame t3) (pending_of st pr)
                pr numwant (length (pieces t3)) 0%nat _ Hsel0 Htab0) as Htab.
  rewrite Hloop in Hsel, Htab. cbn [snd] in Hsel, Htab.
  destruct Hsel as (_ & _ & Hs & _ & Hin & _).
  destruct Htab as (Hlen & Hmax & Hnd & Hinc & Hperm & Hoth & Hpend).
  split; [done|]. split; [done|]. split; [done|]. split; [done|].
  split; [done|]. split; [done|]. split; [|split; [done|]].
  - intros b Hb. apply requester_is_found. by apply Hin.
  - intros Hnn o Ho. destruct (Hpend Hnn o Ho) as (o' & Ho' & Hp).
    unfold pending_of. by rewrite Ho'.
Qed.

Lemma next_requests_recorded_witness :
  let r := tr_peerMgrGetNextRequests (fun _ => 0) 50 seed_store fresh_state 1%N 3 false in
  requests r.1.1.2 ≡ₚ ((fun b => mk_breq b 1%N 50) <$> r.1.2) ++ [].
Proof.
  assert (Hs : ledger_sorted (requests fresh_state)) by constructor.
  destruct (next_requests_recorded (fun _ => 0) 50 seed_store fresh_state 1%N 3 Hs)
    as (_ & _ & _ & _ & H & _).
  exact H.
Defined.

(** ** The weighted pieces *)

Lemma piece_walk_weaken (t0 : Torrent) (i : nat) (a : request_acc) :
  piece_walk_inv t0 i a -> piece_walk_inv t0 (S i) a.
Proof.
  intros (H1 & H2 & H3 & H4 & H5 & H6 & H7).
  split; [done|]. split; [done|]. split; [done|]. split; [done|].
  split; [|done].
  replace (S i) with (i + 1)%nat by lia. by rewrite <- !drop_drop, H5.
Qed.

Lemma assign_block_walk (t0 : Torrent) (now : Z) (get_intervals : bool) (pr : peer_ptr)
    (first b : Z) (pos : nat) (a : request_acc) :
  piece_walk_inv t0 (S pos) a ->
  piece_walk_inv t0 (S pos) (assign_block now get_intervals pr first b pos a).
Proof.
  intros (H1 & H2 & H3 & H4 & H5 & H6 & H7). unfold assign_block.
  pose proof (requestListAdd_fields now (acc_store a) (acc_torrent a) b pr) as Hadd.
  pose proof (requestListAdd_store now (acc_store a) (acc_torrent a) b pr) as Hadd2.
  cbn zeta in Hadd, Hadd2.
  destruct (requestListAdd now (acc_store a) (acc_torrent a) b pr) as [st' t'].
  cbn [fst snd] in Hadd, Hadd2.
  destruct Hadd as (Htor' & _ & Hpieces' & _).
  destruct Hadd2 as (Hrep' & Hstate' & _).
  set (ps' := match pieces t' !! pos with
              | Some p => <[pos:=set_piece_requestCount (i16 (requestCount p + 1)) p]> (pieces t')
              | None => pieces t'
              end).
  assert (Hps : length ps' = length (pieces t0) /\ drop (S pos) ps' = drop (S pos) (pieces t0)).
  { unfold ps'. rewrite Hpieces'. destruct (pieces (acc_torrent a) !! pos); [|done].
    rewrite length_insert, drop_insert_lt by lia. done. }
  destruct Hps as [Hlen Hdrop].
  assert (Hgot : forall setme' got', 0 < got' ->
            piece_walk_inv t0 (S pos) (mk_acc st' (set_pieces ps' t') setme' got')).
  { intros setme' got' Hpos. unfold piece_walk_inv.
    cbn [acc_torrent acc_got].
    change (tor (set_pieces ps' t')) with (tor t').
    change (pieceReplication (set_pieces ps' t')) with (pieceReplication t').
    change (pieceSortState (set_pieces ps' t')) with (pieceSortState t').
    change (pieces (set_pieces ps' t')) with ps'.
    rewrite Htor', Hrep', Hstate'.
    split; [done|]. split; [done|]. split; [done|]. split; [done|].
    split; [done|]. split; lia. }
  destruct (negb get_intervals); [apply Hgot; lia|].
  destruct (Z.eqb_spec (acc_got a) 0) as [Hz|Hnz]; cbn [negb andb]; [apply Hgot; lia|].
  destruct (_ && _); apply Hgot; lia.
Qed.

Lemma blocks_loop_walk (t0 : Torrent) (now : Z) (get_intervals : bool) (pr : peer_ptr)
    (numwant first last : Z) (pos : nat) (fuel : nat) :
  forall (b : Z) (a : request_acc),
    piece_walk_inv t0 (S pos) a ->
    piece_walk_inv t0 (S pos)
      (blocks_loop fuel now get_intervals pr numwant first last pos b a).
Proof.
  induction fuel as [|fuel IH]; intros b a Hinv; [done|].
  cbn [blocks_loop].
  destruct ((b <=? last) && _); [|done].
  apply IH. destruct (block_is_requestable _ _ _ _ _ _); [|done].
  by apply assign_block_walk.
Qed.

Lemma pieces_loop_walk (t0 : Torrent) (now : Z) (get_intervals : bool) (pr : peer_ptr)
    (numwant : Z) (fuel : nat) :
  forall (i : nat) (a : request_acc),
    (i <= length (pieces t0))%nat ->
    piece_walk_inv t0 i a ->
    let r := pieces_loop fuel now get_intervals pr numwant i a in
    piece_walk_inv t0 r.1 r.2 /\ (r.1 <= length (pieces t0))%nat.
Proof.
  induction fuel as [|fuel IH]; intros i a Hi Hinv; [done|].
  cbn [pieces_loop].
  destruct (bool_decide_reflect (i < length (pieces (acc_torrent a)))%nat) as [Hlt|];
    cbn [andb]; [|done].
  destruct (acc_got a <? numwant); [|done].
  assert (Hlen : length (pieces (acc_torrent a)) = length (pieces t0)) by apply Hinv.
  apply piece_walk_weaken in Hinv.
  apply IH; [lia|].
  destruct (pieces (acc_torrent a) !! i) as [p|]; [|done].
  destruct (peer_has _ _ _); [|done].
  destruct (tr_torGetPieceBlockRange _ _) as [first last].
  by apply blocks_loop_walk.
Qed.

(** The closing insertion sort. *)
Lemma reinsert_piece_drop (cmp : weighted_piece -> weighted_piece -> Z) (i : nat)
    (ps : list weighted_piece) :
  drop i (reinsert_piece cmp i ps)
  = match ps !! i with
    | Some piece =>
        array_insert (drop (S i) ps) (tr_lowerBound cmp piece (drop (S i) ps)).1 piece
    | None => []
    end.
Proof.
  unfold reinsert_piece. destruct (ps !! i) as [piece|] eqn:Hp.
  - destruct (tr_lowerBound cmp piece (drop (S i) ps)) as [newpos e]. cbn [fst].
    destruct newpos as [|k].
    + unfold array_insert. rewrite take_0, drop_0. simpl. by apply drop_S.
    + rewrite drop_app_length'; [done|].
      rewrite length_take. apply lookup_lt_Some in Hp. lia.
  - apply drop_ge. by apply lookup_ge_None.
Qed.

Lemma resort_loop_sorted (tr : tr_torrent) (rep : Z -> Z) (i : nat) :
  forall ps,
    StronglySorted (cmp_le (comparePieceByWeight tr rep)) (drop i ps) ->
    StronglySorted (cmp_le (comparePieceByWeight tr rep))
      (resort_loop (comparePieceByWeight tr rep) i ps).
Proof.
  induction i as [|i IH]; intros ps Hs; [by rewrite drop_0 in Hs|].
  cbn [resort_loop]. apply IH. rewrite reinsert_piece_drop.
  destruct (ps !! i); [|constructor].
  apply array_insert_sorted;
    [apply comparePieceByWeight_anti|apply comparePieceByWeight_trans|done].
Qed.

Lemma sorted_drop {B} (R : relation B) (n : nat) (l : list B) :
  StronglySorted R l -> StronglySorted R (drop n l).
Proof.
  intros Hs. rewrite <- (take_drop n l) in Hs.
  by apply StronglySorted_app in Hs as (_ & _ & Hs).
Qed.

Lemma sorted_short {B} (R : relation B) (l : list B) :
  (length l <= 1)%nat -> StronglySorted R l.
Proof.
  destruct l as [|x [|y l]]; simpl; intros Hlen; [constructor| |lia].
  constructor; [constructor|done].
Qed.

(** X7: tr_peerMgrGetNextRequests, with or without intervals, leaves the
    weighted pieces sorted by weight: if the array is in order whenever its
    state says so, then after the call (which raises the request counts of
    the pieces it took blocks from and ends with an insertion sort) the
    state is sorted-by-weight and the array is in the order of
    comparePieceByWeight. *)
Theorem next_requests_keeps_order (rand : nat -> Z) (now : Z) (st : peer_store)
    (t : Torrent) (pr : peer_ptr) (numwant : Z) (get_intervals : bool) :
  (pieceSortState t = PIECES_SORTED_BY_WEIGHT -> StronglySorted (by_weight t) (pieces t)) ->
  weight_sorted (tr_peerMgrGetNextRequests rand now st t pr numwant get_intervals).1.1.2.
Proof.
  intros Hgiven.
  destruct (next_requests_shape rand now st t pr numwant get_intervals)
    as (t3 & i & a & ps & _ & _ & _ & Hloop & Hr & Hps & Hw).
  rewrite Hr. cbn [fst snd]. clear Hr.
  destruct (Hw Hgiven) as [Hstate3 Hsorted3]. clear Hw.
  assert (Hinv0 : piece_walk_inv t3 0 (mk_acc st t3 [] 0)).
  { unfold piece_walk_inv. cbn. repeat split; done. }
  destruct (pieces_loop_walk t3 now get_intervals pr numwant (length (pieces t3)) 0%nat
              (mk_acc st t3 [] 0) ltac:(lia) Hinv0) as [Hinv Hi].
  rewrite Hloop in Hinv, Hi. cbn [fst snd] in Hinv, Hi.
  destruct Hinv as (Htor & Hrep & Hstate & Hlen & Hdrop & Hgot & Hzero).
  split; [cbn; congruence|].
  unfold by_weight in *.
  change (tor (set_pieces ps (acc_torrent a))) with (tor (acc_torrent a)).
  change (pieceReplication (set_pieces ps (acc_torrent a)))
    with (pieceReplication (acc_torrent a)).
  change (pieces (set_pieces ps (acc_torrent a))) with ps.
  rewrite Hps. clear Hps.
  destruct (Z.ltb_spec 0 (acc_got a)) as [Hpos|Hnpos].
  - apply resort_loop_sorted. rewrite Htor, Hrep.
    destruct (bool_decide_reflect (i = length (pieces (acc_torrent a)))) as [->|Hne].
    + apply sorted_short. rewrite length_drop. lia.
    + rewrite Hdrop. by apply sorted_drop.
  - rewrite Htor, Hrep, Hzero by lia. done.
Qed.

Lemma next_requests_keeps_order_witness :
  weight_sorted (tr_peerMgrGetNextRequests (fun _ => 0) 50 seed_store fresh_state
                   1%N 3 true).1.1.2.
Proof.
  apply next_requests_keeps_order. intros _.
  apply (bool_decide_unpack
           (StronglySorted (cmp_le (comparePieceByWeight (tor fresh_state)
                                      (pieceReplication fresh_state)))
              (pieces fresh_state))).
  vm_compute. exact I.
Defined.

(* NEXT-END *)
End NextRequestsProps.
(** * The weighted piece list: rebuilding it, and the replication counts *)

Section RebuildProps.
Import Mgr Replication.

Lemma comparePieceByIndex_le (a b : weighted_piece) :
  comparePieceByIndex a b <= 0 <-> index a <= index b.
Proof.
  unfold comparePieceByIndex.
  destruct (Z.ltb_spec (index a) (index b)), (Z.ltb_spec (index b) (index a)); lia.
Qed.

Lemma comparePieceByIndex_anti (a b : weighted_piece) :
  0 < comparePieceByIndex a b -> comparePieceByIndex b a <= 0.
Proof.
  intros H. apply comparePieceByIndex_le.
  assert (~ index a <= index b) by (rewrite <- comparePieceByIndex_le; lia). lia.
Qed.

Lemma comparePieceByIndex_trans (a b c : weighted_piece) :
  comparePieceByIndex a b <= 0 -> comparePieceByIndex b c <= 0 ->
  comparePieceByIndex a c <= 0.
Proof. rewrite !comparePieceByIndex_le. lia. Qed.

(** The value that a search by index finds, or a default. *)
Lemma find_index_skip (i : Z) (d oh : weighted_piece) (ot : list weighted_piece) :
  index oh <> i ->
  match list_find (fun o => index o = i) (oh :: ot) with Some (_, y) => y | None => d end
  = match list_find (fun o => index o = i) ot with Some (_, y) => y | None => d end.
Proof.
  intros Hne. cbn [list_find]. rewrite decide_False by done.
  by destruct (list_find _ ot) as [[k y]|].
Qed.

Lemma find_index_none (i : Z) (d : weighted_piece) (o : list weighted_piece) :
  Forall (fun x => index x <> i) o ->
  match list_find (fun o => index o = i) o with Some (_, y) => y | None => d end = d.
Proof.
  intros Hall. destruct (list_find _ o) as [[k y]|] eqn:Hf; [|done].
  apply list_find_Some in Hf as (Hy & Hi & _). apply list_elem_of_lookup_2 in Hy.
  by apply (proj1 (Forall_forall _ _) Hall) in Hy.
Qed.

(** Merging the old list, sorted by index, into the new one keeps each new
    entry unless the old list has a piece with the same index. *)
Lemma merge_old_pieces_spec (fuel : nat) :
  forall (o n : list weighted_piece),
    (length o + length n <= fuel)%nat ->
    StronglySorted Z.le (index <$> o) ->
    StronglySorted Z.lt (index <$> n) ->
    merge_old_pieces fuel o n
    = (fun x => match list_find (fun y => index y = index x) o with
                | Some (_, y) => y
                | None => x
                end) <$> n.
Proof.
  induction fuel as [|fuel IH]; intros o n Hfuel Ho Hn.
  - destruct o, n; simpl in Hfuel; try lia. done.
  - destruct o as [|oh ot]; [|destruct n as [|nh nt]]; cbn [merge_old_pieces].
    + rewrite <- (list_fmap_id n) at 1. apply Forall_fmap_ext_1, Forall_true. done.
    + done.
    + simpl in Hfuel. pose proof Ho as Ho'. pose proof Hn as Hn'.
      rewrite !fmap_cons in Ho, Hn.
      apply StronglySorted_cons in Ho as [Hoh Ho].
      apply StronglySorted_cons in Hn as [Hnh Hn].
      rewrite Forall_fmap in Hoh, Hnh.
      destruct (Z.ltb_spec (index oh) (index nh)) as [Hlt|Hge].
      * rewrite IH; [|simpl; lia|done|done].
        apply Forall_fmap_ext_1. constructor.
        -- symmetry. apply find_index_skip. lia.
        -- eapply Forall_impl; [exact Hnh|]. intros x Hx. simpl in Hx.
           symmetry. apply find_index_skip. lia.
      * destruct (Z.ltb_spec (index nh) (index oh)) as [Hlt'|Hge'].
        -- rewrite IH; [|simpl; lia|done|done].
           rewrite !fmap_cons. f_equal. symmetry. apply (find_index_none (index nh) nh).
           constructor; [lia|]. eapply Forall_impl; [exact Hoh|].
           intros x Hx. simpl in Hx. lia.
        -- rewrite IH; [|simpl; lia|done|done].
           rewrite !fmap_cons. cbn [list_find]. rewrite decide_True by lia. f_equal.
           apply Forall_fmap_ext_1.
           eapply Forall_impl; [exact Hnh|]. intros x Hx. simpl in Hx.
           symmetry. apply (find_index_skip (index x) x). lia.
Qed.

Lemma seqZ_sorted (m n : Z) : StronglySorted Z.lt (seqZ m n).
Proof.
  remember (Z.to_nat n) as k eqn:Hk. revert m n Hk.
  induction k as [|k IH]; intros m n Hk.
  - rewrite seqZ_nil by lia. constructor.
  - rewrite seqZ_cons by lia. constructor; [apply IH; lia|].
    apply Forall_seqZ. intros. lia.
Qed.

Lemma index_injective (l : list weighted_piece) (x y : weighted_piece) :
  NoDup (index <$> l) -> x ∈ l -> y ∈ l -> index x = index y -> x = y.
Proof.
  intros Hnd Hx Hy Heq.
  apply list_elem_of_lookup in Hx as [i Hi]. apply list_elem_of_lookup in Hy as [j Hj].
  assert (i = j) as ->.
  { eapply (NoDup_lookup _ i j (index x) Hnd); rewrite list_lookup_fmap.
    - by rewrite Hi.
    - rewrite Hj. simpl. by rewrite Heq. }
  congruence.
Qed.

Lemma find_index_perm (i : Z) (d : weighted_piece) (l l' : list weighted_piece) :
  NoDup (index <$> l) -> l ≡ₚ l' ->
  match list_find (fun o => index o = i) l' with Some (_, y) => y | None => d end
  = match list_find (fun o => index o = i) l with Some (_, y) => y | None => d end.
Proof.
  intros Hnd Hperm.
  destruct (list_find _ l) as [[k y]|] eqn:Hf.
  - apply list_find_Some in Hf as (Hy & Hi & _). apply list_elem_of_lookup_2 in Hy.
    destruct (list_find _ l') as [[k' y']|] eqn:Hf'.
    + apply list_find_Some in Hf' as (Hy' & Hi' & _). apply list_elem_of_lookup_2 in Hy'.
      rewrite <- Hperm in Hy'. apply (index_injective l); [done|done|done|congruence].
    + apply list_find_None in Hf'. rewrite Hperm in Hy.
      by apply (proj1 (Forall_forall _ _) Hf') in Hy.
  - apply list_find_None in Hf. apply find_index_none. by rewrite <- Hperm.
Qed.

Lemma imap_second {B} (l : list B) : imap (fun _ x => x) l = l.
Proof. induction l as [|x l IH]; [done|]. rewrite imap_cons. f_equal. exact IH. Qed.

Lemma wanted_pieces_sorted (tr : tr_torrent) : StronglySorted Z.lt (wanted_pieces tr).
Proof. unfold wanted_pieces. apply sorted_filter, seqZ_sorted. Qed.

Lemma rebuilt_piece_index (rand : nat -> Z) (old : list weighted_piece) (k : nat) (i : Z) :
  index (rebuilt_piece rand old k i) = i.
Proof.
  unfold rebuilt_piece. destruct (list_find _ old) as [[j o]|] eqn:Hf; [|done].
  by apply list_find_Some in Hf as (_ & Hi & _).
Qed.

(** The array that pieceListRebuild sorts by weight at its end. *)
Lemma pieceListRebuild_merged (rand : nat -> Z) (t : Torrent) :
  isSeed (tor t) = false ->
  NoDup (index <$> pieces t) ->
  pieces (pieceListRebuild rand t)
  ≡ₚ imap (rebuilt_piece rand (pieces t)) (wanted_pieces (tor t)).
Proof.
  intros Hseed Hnd. unfold pieceListRebuild. rewrite Hseed.
  fold (wanted_pieces (tor t)).
  set (fresh := imap (fun k i => mk_piece i (i16 (rand k)) 0) (wanted_pieces (tor t))).
  rewrite pieceListSort_perm. cbn [pieces set_pieces].
  destruct (pieces t) as [|p0 ps] eqn:Hp.
  - unfold fresh. erewrite imap_ext; [reflexivity|]. done.
  - rewrite <- Hp in *. clear p0 ps Hp.
    set (old := pieces (pieceListSort t PIECES_SORTED_BY_INDEX)).
    assert (Hold : old ≡ₚ pieces t) by apply pieceListSort_perm.
    rewrite merge_old_pieces_spec; [|lia| |].
    + unfold fresh. rewrite fmap_imap.
      erewrite imap_ext; [reflexivity|]. intros k i _. cbn [compose index].
      unfold rebuilt_piece.
      apply (find_index_perm i (mk_piece i (i16 (rand k)) 0)); [done|by symmetry].
    + unfold old. cbn [pieces pieceListSort set_pieces set_pieceSortState].
      eapply StronglySorted_fmap;
        [|apply (qsort_sorted comparePieceByIndex);
          [apply comparePieceByIndex_anti|apply comparePieceByIndex_trans]].
      intros x y Hxy. by apply comparePieceByIndex_le.
    + unfold fresh. rewrite fmap_imap.
      erewrite imap_ext; [rewrite imap_second; apply wanted_pieces_sorted|]. done.
Qed.

(** X8: pieceListRebuild on a torrent that is not a seed, whose old list
    has no index twice, builds the list of exactly the wanted pieces (not
    "do not download", not complete), each once: a wanted piece that was in
    the old list is kept as it was, with its request count and salt, and
    every other wanted piece enters with no requests; the result is sorted
    by weight. *)
Theorem pieceListRebuild_keeps_counts (rand : nat -> Z) (t : Torrent) :
  isSeed (tor t) = false ->
  NoDup (index <$> pieces t) ->
  let t' := pieceListRebuild rand t in
  pieces t' ≡ₚ imap (rebuilt_piece rand (pieces t)) (wanted_pieces (tor t))
  /\ index <$> pieces t' ≡ₚ wanted_pieces (tor t)
  /\ (forall p, p ∈ pieces t -> index p ∈ wanted_pieces (tor t) -> p ∈ pieces t')
  /\ (forall p, p ∈ pieces t' -> p ∉ pieces t -> requestCount p = 0)
  /\ weight_sorted t'.
Proof.
  intros Hseed Hnd t'.
  pose proof (pieceListRebuild_merged rand t Hseed Hnd) as Hperm. fold t' in Hperm.
  split; [exact Hperm|]. split; [|split; [|split]].
  - rewrite Hperm, fmap_imap.
    erewrite imap_ext; [by rewrite imap_second|].
    intros k i _. apply rebuilt_piece_index.
  - intros p Hp Hw. rewrite Hperm.
    apply list_elem_of_lookup in Hw as [k Hk].
    assert (Hreb : rebuilt_piece rand (pieces t) k (index p) = p).
    { unfold rebuilt_piece.
      destruct (list_find _ (pieces t)) as [[j o]|] eqn:Hf.
      - apply list_find_Some in Hf as (Ho & Hi & _). apply list_elem_of_lookup_2 in Ho.
        by apply (index_injective (pieces t)).
      - apply list_find_None in Hf. by apply (proj1 (Forall_forall _ _) Hf) in Hp. }
    rewrite <- Hreb. by apply elem_of_lookup_imap_2.
  - intros p Hp Hnot. rewrite Hperm in Hp.
    apply elem_of_lookup_imap_1 in Hp as (k & i & -> & _).
    unfold rebuilt_piece in *.
    destruct (list_find _ (pieces t)) as [[j o]|] eqn:Hf; [|done].
    apply list_find_Some in Hf as (Ho & _). apply list_elem_of_lookup_2 in Ho. done.
  - by apply pieceListRebuild_weight_sorted.
Qed.

Lemma pieceListRebuild_keeps_counts_witness :
  index <$> pieces (pieceListRebuild (fun _ => 3) rebuild_state) ≡ₚ [0; 2].
Proof.
  assert (Hnd : NoDup (index <$> pieces rebuild_state)).
  { apply (bool_decide_unpack (NoDup (index <$> pieces rebuild_state))).
    vm_compute. exact I. }
  destruct (pieceListRebuild_keeps_counts (fun _ => 3) rebuild_state eq_refl Hnd)
    as (_ & H & _).
  exact H.
Defined.

(** ** Replication counts *)

Lemma u16_up_down (z : Z) : 0 <= z < 65536 -> u16 (u16 (z + 1) - 1) = z.
Proof.
  intros H. unfold u16.
  destruct (Z.eq_dec z 65535) as [->|Hne]; [reflexivity|].
  rewrite (Z.mod_small (z + 1)) by lia. replace (z + 1 - 1) with z by lia.
  rewrite Z.mod_small; lia.
Qed.

(** X9: the replication counts that tr_incrReplicationFromBitfield adds for
    the bitfield of a peer are taken back by
    tr_decrReplicationFromBitfield with the same bitfield, whichever of
    its three branches runs: every count (a uint16_t) is as it was, also
    when the increment wrapped around. *)
Theorem replication_bitfield_round_trip (t : Torrent) (b : tr_bitfield) :
  bitfield_wf (pieceCount (tor t)) b ->
  (forall i, 0 <= i < pieceCount (tor t) -> 0 <= pieceReplication t i < 65536) ->
  forall i,
    pieceReplication
      (tr_decrReplicationFromBitfield (tr_incrReplicationFromBitfield t b) b) i
    = pieceReplication t i.
Proof.
  intros [Hall Hnone] Hrange i.
  set (t1 := tr_incrReplicationFromBitfield t b).
  assert (Htor : tor t1 = tor t).
  { unfold t1, tr_incrReplicationFromBitfield. by destruct (sort_state_eqb _ _). }
  assert (Hrep : pieceReplication t1 i
                 = if in_loop (pieceCount (tor t)) i && tr_bitfieldHas b i
                   then u16 (pieceReplication t i + 1) else pieceReplication t i).
  { unfold t1, tr_incrReplicationFromBitfield. by destruct (sort_state_eqb _ _). }
  assert (Hloop : in_loop (pieceCount (tor t)) i = true -> 0 <= i < pieceCount (tor t)).
  { unfold in_loop. intros H. apply andb_prop in H as [H1 H2]. lia. }
  unfold tr_decrReplicationFromBitfield. rewrite Htor.
  destruct (tr_bitfieldHasAll b) eqn:Ha.
  - cbn [pieceReplication set_pieceReplication]. rewrite Hrep.
    destruct (in_loop (pieceCount (tor t)) i) eqn:Hin; [|done].
    rewrite (Hall eq_refl i) by auto. cbn [andb]. apply u16_up_down. auto.
  - destruct (tr_bitfieldHasNone b) eqn:Hn; cbn [negb].
    + rewrite Hrep. destruct (in_loop (pieceCount (tor t)) i) eqn:Hin; [|done].
      by rewrite (Hnone eq_refl i) by auto.
    + assert (Hd : forall t2 : Torrent,
                pieceReplication (if sort_state_eqb (pieceSortState t2) PIECES_SORTED_BY_WEIGHT
                                  then invalidatePieceSorting t2 else t2)
                = pieceReplication t2) by (intros t2; by destruct (sort_state_eqb _ _)).
      rewrite Hd. cbn [pieceReplication set_pieceReplication]. rewrite Hrep.
      destruct (in_loop (pieceCount (tor t)) i && tr_bitfieldHas b i) eqn:Hc; [|done].
      apply u16_up_down. apply andb_prop in Hc as [Hin _]. auto.
Qed.

Lemma replication_bitfield_round_trip_witness :
  pieceReplication
    (tr_decrReplicationFromBitfield
       (tr_incrReplicationFromBitfield rebuild_state first_piece_only)
       first_piece_only) 0
  = 1.
Proof.
  apply (replication_bitfield_round_trip rebuild_state first_piece_only).
  - split; intros H; discriminate H.
  - intros i Hi. simpl. lia.
Defined.

Lemma ltb_shift (x y c : Z) : (x + c <? y + c) = (x <? y).
Proof. destruct (Z.ltb_spec (x + c) (y + c)), (Z.ltb_spec x y); lia. Qed.

Lemma comparePieceByWeight_shift (tr : tr_torrent) (rep rep' : Z -> Z) (c : Z)
    (a b : weighted_piece) :
  rep' (index a) = rep (index a) + c ->
  rep' (index b) = rep (index b) + c ->
  comparePieceByWeight tr rep' a b = comparePieceByWeight tr rep a b.
Proof.
  intros Ha Hb. unfold comparePieceByWeight, rep_of. by rewrite Ha, Hb, !ltb_shift.
Qed.

(** The same change of all the counts of the listed pieces keeps the order. *)
Lemma uniform_shift_sorted (t : Torrent) (rep' : Z -> Z) (c : Z) :
  weight_sorted t ->
  Forall (fun p => rep' (index p) = pieceReplication t (index p) + c) (pieces t) ->
  weight_sorted (set_pieceReplication rep' t).
Proof.
  intros [Hst Hs] Hall. split; [done|]. cbn [pieces set_pieceReplication].
  eapply StronglySorted_agree; [|exact Hs].
  intros x y Hx Hy. unfold by_weight, cmp_le.
  cbn [tor pieceReplication set_pieceReplication].
  rewrite (comparePieceByWeight_shift (tor t) (pieceReplication t) rep' c); [done| |].
  - by apply (proj1 (Forall_forall _ _) Hall).
  - by apply (proj1 (Forall_forall _ _) Hall).
Qed.

(** X10: tr_incrReplication (a peer turns out to have every piece) and the
    has-all branch of tr_decrReplicationFromBitfield change every count by
    one and do not mark the piece list unsorted; the list is indeed still
    sorted by weight, as long as the counts of the listed pieces stay
    inside the uint16_t range. *)
Theorem uniform_replication_keeps_order (t : Torrent) (b : tr_bitfield) :
  weight_sorted t ->
  replication_in_range t ->
  tr_bitfieldHasAll b = true ->
  weight_sorted (tr_incrReplication t)
  /\ weight_sorted (tr_decrReplicationFromBitfield t b).
Proof.
  intros Hw Hrange Hb. split.
  - unfold tr_incrReplication. apply (uniform_shift_sorted t _ 1); [done|].
    eapply Forall_impl; [exact Hrange|]. intros p [Hix Hrep]. cbn beta.
    unfold in_loop. destruct (Z.leb_spec 0 (index p)); [|lia].
    destruct (Z.ltb_spec (index p) (pieceCount (tor t))); [|lia]. cbn [andb].
    unfold u16. rewrite Z.mod_small; lia.
  - unfold tr_decrReplicationFromBitfield. rewrite Hb.
    apply (uniform_shift_sorted t _ (-1)); [done|].
    eapply Forall_impl; [exact Hrange|]. intros p [Hix Hrep]. cbn beta.
    unfold in_loop. destruct (Z.leb_spec 0 (index p)); [|lia].
    destruct (Z.ltb_spec (index p) (pieceCount (tor t))); [|lia]. cbn [andb].
    unfold u16. rewrite Z.mod_small; lia.
Qed.

Lemma uniform_replication_keeps_order_witness :
  weight_sorted (tr_incrReplication two_seen_state).
Proof.
  assert (Hw : weight_sorted two_seen_state).
  { split; [reflexivity|].
    apply (bool_decide_unpack
             (StronglySorted (cmp_le (comparePieceByWeight (tor two_seen_state)
                                        (pieceReplication two_seen_state)))
                (pieces two_seen_state))).
    vm_compute. exact I. }
  assert (Hr : replication_in_range two_seen_state).
  { unfold replication_in_range, two_seen_state. cbn [pieces tor pieceReplication index].
    constructor; [cbn; lia|]. constructor; [cbn; lia|]. constructor. }
  destruct (uniform_replication_keeps_order two_seen_state all_pieces Hw Hr eq_refl)
    as [H _].
  exact H.
Defined.

(* PIECES-END *)
End RebuildProps.
(** * Peer atoms: reconnect intervals, candidate scores, selection *)

Section AtomProps.
Import Atoms.

(** X11: the time getReconnectIntervalSecs makes us wait before a peer is
    tried again is between 0 and four hours; it is 5 seconds (10 for a peer
    marked unreachable) while piece data was exchanged in the last ten
    seconds, whatever the number of failures; and of two atoms that differ
    only in the number of failed attempts, the one with more failures never
    waits less. *)
Theorem getReconnectIntervalSecs_grows (a b : peer_atom) (now : Z) :
  time a = time b ->
  piece_data_time a = piece_data_time b ->
  flags2 a = flags2 b ->
  0 <= numFails a <= numFails b ->
  0 <= getReconnectIntervalSecs a now <= getReconnectIntervalSecs b now
  /\ getReconnectIntervalSecs b now <= 4 * 60 * 60
  /\ (now - piece_data_time a <= 10 ->
      getReconnectIntervalSecs a now
      = if Z.land (flags2 a) MYFLAG_UNREACHABLE =? 0 then 5 else 10).
Proof.
  intros Ht Hp Hf Hn. unfold getReconnectIntervalSecs, MINIMUM_RECONNECT_INTERVAL_SECS.
  rewrite Ht, Hp, Hf.
  destruct (Z.leb_spec (now - piece_data_time b) (5 * 2)) as [Hrecent|Hold].
  - destruct (Z.land (flags2 b) MYFLAG_UNREACHABLE =? 0); cbn [negb]; lia.
  - destruct (now - time b <? 5).
    + destruct (Z.land (flags2 b) MYFLAG_UNREACHABLE =? 0); cbn [negb]; lia.
    + destruct (Z.eqb_spec (numFails a) 0), (Z.eqb_spec (numFails a) 1),
        (Z.eqb_spec (numFails a) 2), (Z.eqb_spec (numFails a) 3),
        (Z.eqb_spec (numFails a) 4), (Z.eqb_spec (numFails a) 5),
        (Z.eqb_spec (numFails b) 0), (Z.eqb_spec (numFails b) 1),
        (Z.eqb_spec (numFails b) 2), (Z.eqb_spec (numFails b) 3),
        (Z.eqb_spec (numFails b) 4), (Z.eqb_spec (numFails b) 5);
        destruct (Z.land (flags2 b) MYFLAG_UNREACHABLE =? 0); cbn [negb]; lia.
Qed.

Lemma getReconnectIntervalSecs_grows_witness :
  getReconnectIntervalSecs untried_atom 200 <= getReconnectIntervalSecs tried_atom 200.
Proof.
  apply (getReconnectIntervalSecs_grows untried_atom tried_atom 200);
    [reflexivity|reflexivity|reflexivity|simpl; lia].
Defined.

(** ** The score *)

Lemma lor_add_disjoint (v w a : Z) :
  0 <= w -> 0 <= a < 2 ^ w -> Z.lor (v * 2 ^ w) a = v * 2 ^ w + a.
Proof.
  intros Hw Ha.
  assert (Hland : Z.land (v * 2 ^ w) a = 0).
  { apply Z.bits_inj'. intros n Hn. rewrite Z.land_spec, Z.bits_0.
    destruct (Z.lt_ge_cases n w) as [Hlt|Hge].
    - by rewrite Z.mul_pow2_bits_low.
    - destruct (Z.eq_dec a 0) as [->|Hne]; [by rewrite Z.bits_0, andb_false_r|].
      rewrite (Z.bits_above_log2 a n), andb_false_r; [done|lia|].
      apply Z.log2_lt_pow2; [lia|].
      apply Z.lt_le_trans with (2 ^ w); [lia|]. apply Z.pow_le_mono_r; lia. }
  rewrite <- Z.lxor_lor by done. by rewrite Z.add_nocarry_lxor.
Qed.

Lemma addValToKey_add (value width addme : Z) :
  0 <= width ->
  0 <= value ->
  value * 2 ^ width < 18446744073709551616 ->
  0 <= addme < 2 ^ width ->
  addValToKey value width addme = value * 2 ^ width + addme.
Proof.
  intros Hw Hv Hfit Ha. unfold addValToKey, u64.
  rewrite Z.shiftl_mul_pow2 by done.
  rewrite Z.mod_small by (split; [apply Z.mul_nonneg_nonneg; lia|done]).
  by apply lor_add_disjoint.
Qed.

(** The score is the number whose digits, most significant first, are the
    nine criteria. *)
Lemma getPeerCandidateScore_digits (tor : candidate_torrent) (a : peer_atom) (salt : Z) :
  atom_in_range a ->
  getPeerCandidateScore tor a salt = mixed_radix (score_digits tor a salt).
Proof.
  intros (Hattempt & Hseed & Hfrom).
  unfold getPeerCandidateScore, score_digits, mixed_radix. cbn [foldl fst snd].
  set (d1 := if lastConnectionAt a <? lastConnectionAttemptAt a then 1 else 0).
  assert (H1 : 0 <= d1 < 2) by (unfold d1; destruct (_ <? _); lia).
  assert (H2 : u64 (lastConnectionAttemptAt a) = lastConnectionAttemptAt a)
    by (unfold u64; rewrite Z.mod_small; lia).
  rewrite H2.
  set (d2 := lastConnectionAttemptAt a) in *.
  set (d3 := match tr_torrentGetPriority tor with
             | TR_PRI_LOW => 2 | TR_PRI_NORMAL => 1 | TR_PRI_HIGH => 0 end).
  assert (H3 : 0 <= d3 < 16) by (unfold d3; destruct (tr_torrentGetPriority tor); lia).
  set (d4 := if torrentWasRecentlyStarted tor then 0 else 1).
  assert (H4 : 0 <= d4 < 2) by (unfold d4; destruct (torrentWasRecentlyStarted tor); lia).
  set (d5 := if tr_torrentIsSeed tor then 1 else 0).
  assert (H5 : 0 <= d5 < 2) by (unfold d5; destruct (tr_torrentIsSeed tor); lia).
  assert (H6e : (if negb (Z.land (flags a) ADDED_F_CONNECTABLE =? 0) then 0 else 1)
                = (if Z.land (flags a) ADDED_F_CONNECTABLE =? 0 then 1 else 0))
    by (by destruct (_ =? 0)).
  rewrite H6e.
  set (d6 := if Z.land (flags a) ADDED_F_CONNECTABLE =? 0 then 1 else 0).
  assert (H6 : 0 <= d6 < 2) by (unfold d6; destruct (_ =? 0); lia).
  assert (H7e : (if seedProbability a =? 100 then 101
                 else if seedProbability a =? -1 then 100
                 else u64 (seedProbability a))
                = (if seedProbability a =? 100 then 101
                   else if seedProbability a =? -1 then 100
                   else seedProbability a)).
  { destruct (Z.eqb_spec (seedProbability a) 100); [done|].
    destruct (Z.eqb_spec (seedProbability a) (-1)); [done|].
    unfold u64. rewrite Z.mod_small; lia. }
  rewrite H7e.
  set (d7 := if seedProbability a =? 100 then 101
             else if seedProbability a =? -1 then 100 else seedProbability a).
  assert (H7 : 0 <= d7 < 256).
  { unfold d7. destruct (Z.eqb_spec (seedProbability a) 100); [lia|].
    destruct (Z.eqb_spec (seedProbability a) (-1)); lia. }
  set (d8 := fromBest a) in *.
  unfold u8. set (d9 := salt mod 256).
  assert (H9 : 0 <= d9 < 256) by (apply Z.mod_pos_bound; lia).
  rewrite (addValToKey_add 0 1 d1) by (cbn; lia).
  rewrite (addValToKey_add _ 32 d2) by (cbn; lia).
  rewrite (addValToKey_add _ 4 d3) by (cbn; lia).
  rewrite (addValToKey_add _ 1 d4) by (cbn; lia).
  rewrite (addValToKey_add _ 1 d5) by (cbn; lia).
  rewrite (addValToKey_add _ 1 d6) by (cbn; lia).
  rewrite (addValToKey_add _ 8 d7) by (cbn; lia).
  rewrite (addValToKey_add _ 4 d8) by (cbn; lia).
  rewrite (addValToKey_add _ 8 d9) by (cbn; lia).
  cbn. lia.
Qed.

Lemma score_digits_value (tor : candidate_torrent) (a : peer_atom) (salt : Z) :
  atom_in_range a ->
  exists low,
    0 <= low < 134217728
    /\ mixed_radix (score_digits tor a salt)
       = ((if lastConnectionAt a <? lastConnectionAttemptAt a then 1 else 0) * 4294967296
          + lastConnectionAttemptAt a) * 134217728 + low.
Proof.
  intros (Hattempt & Hseed & Hfrom).
  unfold score_digits, mixed_radix. cbn [foldl fst snd].
  set (d3 := match tr_torrentGetPriority tor with
             | TR_PRI_LOW => 2 | TR_PRI_NORMAL => 1 | TR_PRI_HIGH => 0 end).
  assert (H3 : 0 <= d3 <= 2) by (unfold d3; destruct (tr_torrentGetPriority tor); lia).
  set (d4 := if torrentWasRecentlyStarted tor then 0 else 1).
  assert (H4 : 0 <= d4 < 2) by (unfold d4; destruct (torrentWasRecentlyStarted tor); lia).
  set (d5 := if tr_torrentIsSeed tor then 1 else 0).
  assert (H5 : 0 <= d5 < 2) by (unfold d5; destruct (tr_torrentIsSeed tor); lia).
  set (d6 := if Z.land (flags a) ADDED_F_CONNECTABLE =? 0 then 1 else 0).
  assert (H6 : 0 <= d6 < 2) by (unfold d6; destruct (_ =? 0); lia).
  set (d7 := if seedProbability a =? 100 then 101
             else if seedProbability a =? -1 then 100 else seedProbability a).
  assert (H7 : 0 <= d7 < 256).
  { unfold d7. destruct (Z.eqb_spec (seedProbability a) 100); [lia|].
    destruct (Z.eqb_spec (seedProbability a) (-1)); lia. }
  set (d9 := salt mod 256).
  assert (H9 : 0 <= d9 < 256) by (apply Z.mod_pos_bound; lia).
  exists (((((d3 * 2 + d4) * 2 + d5) * 2 + d6) * 256 + d7) * 16 * 256 + fromBest a * 256 + d9).
  split; lia.
Qed.

(** X12: for atoms whose fields are in range, getPeerCandidateScore packs
    its nine criteria into one number without overlap, the first criterion
    in the most significant place: the score is below 2^60; a peer that we
    did not fail to connect to scores below every peer that we failed to
    connect to; and of two peers with the same failure status the one
    whose last attempt is older scores lower, whatever the torrents, the
    other fields and the salts are. *)
Theorem getPeerCandidateScore_order (tor1 tor2 : candidate_torrent) (a1 a2 : peer_atom)
    (salt1 salt2 : Z) :
  atom_in_range a1 ->
  atom_in_range a2 ->
  let failed a := lastConnectionAt a <? lastConnectionAttemptAt a in
  let s1 := getPeerCandidateScore tor1 a1 salt1 in
  let s2 := getPeerCandidateScore tor2 a2 salt2 in
  s1 = mixed_radix (score_digits tor1 a1 salt1)
  /\ 0 <= s1 < 2 ^ 60
  /\ (failed a1 = false -> failed a2 = true -> s1 < s2)
  /\ (failed a1 = failed a2 ->
      lastConnectionAttemptAt a1 < lastConnectionAttemptAt a2 -> s1 < s2).
Proof.
  intros Hr1 Hr2 failed s1 s2.
  pose proof (getPeerCandidateScore_digits tor1 a1 salt1 Hr1) as E1.
  pose proof (getPeerCandidateScore_digits tor2 a2 salt2 Hr2) as E2.
  destruct (score_digits_value tor1 a1 salt1 Hr1) as (low1 & Hl1 & V1).
  destruct (score_digits_value tor2 a2 salt2 Hr2) as (low2 & Hl2 & V2).
  fold s1 in E1. fold s2 in E2.
  split; [exact E1|].
  rewrite E1, E2, V1, V2. clear E1 E2 V1 V2 s1 s2.
  destruct Hr1 as (Ha1 & _). destruct Hr2 as (Ha2 & _).
  unfold failed. change (2 ^ 60) with 1152921504606846976.
  split; [|split].
  - destruct (_ <? _); lia.
  - intros -> ->. lia.
  - intros -> Hlt. destruct (_ <? _); lia.
Qed.

Lemma getPeerCandidateScore_order_witness :
  getPeerCandidateScore normal_torrent untried_atom 200
  < getPeerCandidateScore normal_torrent tried_atom 3.
Proof.
  assert (H1 : atom_in_range untried_atom) by (unfold atom_in_range; simpl; lia).
  assert (H2 : atom_in_range tried_atom) by (unfold atom_in_range; simpl; lia).
  destruct (getPeerCandidateScore_order normal_torrent normal_torrent untried_atom tried_atom
              200 3 H1 H2) as (_ & _ & H & _).
  apply H; reflexivity.
Defined.

Lemma swap_at_length (c : list peer_candidate) (i j : nat) :
  length (swap_at c i j) = length c.
Proof. unfold swap_at. destruct (c !! i), (c !! j); by rewrite ?length_insert. Qed.

Lemma swap_at_lookup (c : list peer_candidate) (i j m : nat) :
  (i < length c)%nat -> (j < length c)%nat ->
  swap_at c i j !! m
  = if decide (m = j) then c !! i else if decide (m = i) then c !! j else c !! m.
Proof.
  intros Hi Hj. unfold swap_at.
  destruct (lookup_lt_is_Some_2 c i Hi) as [x Hx].
  destruct (lookup_lt_is_Some_2 c j Hj) as [y Hy].
  rewrite Hx, Hy.
  destruct (decide (m = j)) as [->|Hmj].
  - rewrite list_lookup_insert_eq; [done|]. by rewrite length_insert.
  - rewrite list_lookup_insert_ne by done. destruct (decide (m = i)) as [->|Hmi].
    + by rewrite list_lookup_insert_eq.
    + by rewrite list_lookup_insert_ne.
Qed.

Lemma swap_at_perm (c : list peer_candidate) (i j : nat) : swap_at c i j ≡ₚ c.
Proof.
  unfold swap_at. destruct (c !! i) eqn:Hi; [|done]. destruct (c !! j) eqn:Hj; [|done].
  by apply Permutation_insert_swap.
Qed.

Lemma swap_at_range (c : list peer_candidate) (left right i j : nat) :
  (right < length c)%nat -> (left <= i <= right)%nat -> (left <= j <= right)%nat ->
  range_keeps c (swap_at c i j) left right /\ same_outside c (swap_at c i j) left right.
Proof.
  intros Hr Hi Hj. split.
  - intros P HP m x Hm. rewrite swap_at_lookup by lia.
    destruct (decide (m = j)); [by apply HP|].
    destruct (decide (m = i)); [by apply HP|]. by apply HP.
  - intros m Hm. rewrite swap_at_lookup by lia.
    destruct (decide (m = j)); [lia|]. destruct (decide (m = i)); [lia|]. done.
Qed.

Lemma range_keeps_trans (c1 c2 c3 : list peer_candidate) (left right : nat) :
  range_keeps c1 c2 left right -> range_keeps c2 c3 left right ->
  range_keeps c1 c3 left right.
Proof. intros H1 H2 P HP. apply H2. by apply H1. Qed.

Lemma same_outside_trans (c1 c2 c3 : list peer_candidate) (left right : nat) :
  same_outside c1 c2 left right -> same_outside c2 c3 left right ->
  same_outside c1 c3 left right.
Proof. intros H1 H2 m Hm. rewrite H2, H1; done. Qed.

(** The loop of the partition, started at position i with the invariant. *)
Lemma partition_loop (pv : peer_candidate) (left right : nat) (cnt : nat) :
  forall (i : nat) (c : list peer_candidate) (store : nat),
    (i + cnt = S right)%nat ->
    (right < length c)%nat ->
    (left <= store)%nat -> (store <= i)%nat -> (store <= right)%nat ->
    c !! right = Some pv ->
    (forall m x, (left <= m < store)%nat -> c !! m = Some x -> score x < score pv) ->
    (forall m x, (store <= m < i)%nat -> c !! m = Some x -> score pv <= score x) ->
    let r := foldl (partition_step (score pv)) (c, store) (seq i cnt) in
    length r.1 = length c
    /\ r.1 ≡ₚ c
    /\ range_keeps c r.1 left right
    /\ same_outside c r.1 left right
    /\ (left <= r.2 <= right)%nat
    /\ r.1 !! right = Some pv
    /\ (forall m x, (left <= m < r.2)%nat -> r.1 !! m = Some x -> score x < score pv)
    /\ (forall m x, (r.2 <= m <= right)%nat -> r.1 !! m = Some x -> score pv <= score x).
Proof.
  induction cnt as [|cnt IH]; intros i c store Hcnt Hlen Hls Hsi Hsr Hpv Hlow Hhigh.
  - cbn [seq foldl fst snd].
    split; [done|]. split; [done|].
    split; [intros P HP; exact HP|]. split; [intros m _; done|].
    split; [lia|]. split; [done|]. split; [done|].
    intros m x Hm. apply Hhigh. lia.
  - assert (Hi : (i <= right)%nat) by lia.
    destruct (lookup_lt_is_Some_2 c i) as [xi Hxi]; [lia|].
    assert (Hstep : partition_step (score pv) (c, store) i
                    = if score xi <? score pv then (swap_at c store i, S store)
                      else (c, store)).
    { unfold partition_step. cbn [fst snd]. by rewrite Hxi. }
    cbn [seq foldl]. rewrite Hstep. clear Hstep.
    destruct (Z.ltb_spec (score xi) (score pv)) as [Hlt|Hge].
    + cbn [fst snd]. cbv zeta.
      assert (Hir : i <> right).
      { intros ->. rewrite Hpv in Hxi. inversion Hxi; subst. lia. }
      destruct (swap_at_range c left right store i) as (Hk & Ho); [lia..|].
      specialize (IH (S i) (swap_at c store i) (S store)). cbv zeta in IH.
      destruct IH as (L & Pm & Rk & So & Hb & Hp & Hl & Hh).
      * lia.
      * rewrite swap_at_length. lia.
      * lia.
      * lia.
      * lia.
      * rewrite swap_at_lookup by lia.
        destruct (decide (right = i)); [lia|].
        destruct (decide (right = store)); [lia|]. done.
      * intros m x Hm. rewrite swap_at_lookup by lia.
        destruct (decide (m = i)) as [->|].
        { destruct (decide (store = i)) as [->|]; [|lia]. rewrite Hxi. by intros [= <-]. }
        destruct (decide (m = store)) as [->|]; [rewrite Hxi; by intros [= <-]|].
        apply Hlow. lia.
      * intros m x Hm. rewrite swap_at_lookup by lia.
        destruct (decide (m = i)) as [->|].
        { apply Hhigh. lia. }
        destruct (decide (m = store)) as [->|]; [lia|].
        apply Hhigh. lia.
      * rewrite swap_at_length in L.
        split; [done|]. split; [by rewrite Pm, swap_at_perm|].
        split; [by eapply range_keeps_trans|]. split; [by eapply same_outside_trans|].
        done.
    + cbn [fst snd]. apply (IH (S i) c store); try done; try lia.
      intros m x Hm Hx. destruct (decide (m = i)) as [->|].
      * rewrite Hxi in Hx. inversion Hx; subst. lia.
      * apply (Hhigh m); [lia|done].
Qed.
Lemma partitionPeerCandidates_spec (c : list peer_candidate) (left right pivotIndex : nat)
    (pv : peer_candidate) :
  (left <= pivotIndex <= right)%nat -> (right < length c)%nat ->
  c !! pivotIndex = Some pv ->
  let r := partitionPeerCandidates c left right pivotIndex in
  length r.1 = length c
  /\ r.1 ≡ₚ c
  /\ range_keeps c r.1 left right
  /\ same_outside c r.1 left right
  /\ checkPartition r.1 left right (score pv) r.2.
Proof.
  intros Hp Hlen Hpv. unfold partitionPeerCandidates. rewrite Hpv.
  set (c1 := swap_at c pivotIndex right).
  destruct (swap_at_range c left right pivotIndex right) as (Hk1 & Ho1); [lia..|].
  fold c1 in Hk1, Ho1.
  assert (Hl1 : length c1 = length c) by apply swap_at_length.
  assert (Hr1 : c1 !! right = Some pv).
  { unfold c1. rewrite swap_at_lookup by lia. by rewrite decide_True. }
  pose proof (partition_loop pv left right (S right - left) left c1 left) as Hloop.
  cbv zeta in Hloop.
  destruct Hloop as (L & Pm & Rk & So & Hb & Hpr & Hlo & Hhi);
    [lia | lia | lia | lia | lia | done | intros; lia | intros; lia |].
  destruct (foldl _ _ _) as [c2 s]. cbn [fst snd] in *.
  assert (Hs2 : (s < length c2)%nat) by lia.
  destruct (swap_at_range c2 left right right s) as (Hk3 & Ho3); [lia..|].
  split; [rewrite swap_at_length; lia|].
  split; [by rewrite swap_at_perm, Pm; apply swap_at_perm|].
  split; [eapply range_keeps_trans; [exact Hk1|]; by eapply range_keeps_trans|].
  split; [eapply same_outside_trans; [exact Ho1|]; by eapply same_outside_trans|].
  split; [lia|]. split; [lia|]. split; [|split].
  - exists pv. split; [|done]. rewrite swap_at_lookup by lia. by rewrite decide_True.
  - intros m x Hm. rewrite swap_at_lookup by lia.
    rewrite decide_False by lia. rewrite decide_False by lia. by apply Hlo.
  - intros m x Hm. rewrite swap_at_lookup by lia.
    rewrite decide_False by lia. destruct (decide (m = right)).
    + apply Hhi. lia.
    + apply Hhi. lia.
Qed.

Lemma range_keeps_widen (c c' : list peer_candidate) (l r left right : nat) :
  (left <= l)%nat -> (r <= right)%nat ->
  range_keeps c c' l r -> same_outside c c' l r ->
  range_keeps c c' left right /\ same_outside c c' left right.
Proof.
  intros Hl Hr Hk Ho. split.
  - intros P HP m x Hm Hx.
    destruct (decide (l <= m <= r)%nat) as [Hin|Hout].
    + apply (Hk P) with m; [|done|done]. intros m' x' Hm'. apply HP. lia.
    + rewrite Ho in Hx by lia. by apply (HP m).
  - intros m Hm. apply Ho. lia.
Qed.

Lemma selectPeerCandidates_spec (fuel : nat) :
  forall (c : list peer_candidate) (left right k : nat),
    (right - left <= fuel)%nat -> (right < length c)%nat ->
    let c' := selectPeerCandidates fuel c left right k in
    length c' = length c
    /\ c' ≡ₚ c
    /\ range_keeps c c' left right
    /\ same_outside c c' left right
    /\ selected_at c' left right (left + k).
Proof.
  assert (Hnone : forall (c : list peer_candidate) (left right k : nat),
            (right <= left)%nat ->
            length c = length c /\ c ≡ₚ c /\ range_keeps c c left right
            /\ same_outside c c left right /\ selected_at c left right (left + k)).
  { intros c left right k Hle.
    split; [done|]. split; [done|]. split; [intros P HP; exact HP|].
    split; [intros m _; done|].
    intros i j x y Hi Hj Hx Hy. assert (i = j) as -> by lia.
    rewrite Hx in Hy. inversion Hy. lia. }
  induction fuel as [|fuel IH]; intros c left right k Hfuel Hlen.
  - cbn [selectPeerCandidates]. apply Hnone. lia.
  - cbn [selectPeerCandidates].
    destruct (bool_decide_reflect (left < right)%nat) as [Hlr|Hlr]; [|apply Hnone; lia].
    set (pivotIndex := (left + (right - left) / 2)%nat).
    assert (Hpi : (left <= pivotIndex <= right)%nat).
    { unfold pivotIndex. split; [lia|].
      pose proof (Nat.Div0.div_le_upper_bound (right - left) 2 (right - left)). lia. }
    destruct (lookup_lt_is_Some_2 c pivotIndex) as [pv Hpv]; [lia|].
    pose proof (partitionPeerCandidates_spec c left right pivotIndex pv Hpi Hlen Hpv) as Hpart.
    cbv zeta in Hpart.
    destruct (partitionPeerCandidates c left right pivotIndex) as [c1 p].
    cbn [fst snd] in Hpart.
    destruct Hpart as (L1 & P1 & K1 & O1 & Hp1 & Hp2 & (xp & Hxp & Hsp) & Hlo & Hhi).
    destruct (bool_decide_reflect (left + k < p)%nat) as [Hgt|Hngt].
    + specialize (IH c1 left (p - 1)%nat k). cbv zeta in IH.
      destruct IH as (L2 & P2 & K2 & O2 & S2); [lia | lia |].
      set (c2 := selectPeerCandidates fuel c1 left (p - 1) k) in *.
      destruct (range_keeps_widen c1 c2 left (p - 1) left right) as (K2' & O2');
        [lia | lia | done | done |].
      split; [lia|]. split; [by rewrite P2|].
      split; [by eapply range_keeps_trans|]. split; [by eapply same_outside_trans|].
      intros i j x y Hi Hj Hx Hy.
      destruct (decide (j <= p - 1)%nat) as [Hjp|Hjp].
      * apply (S2 i j); [lia | lia | done | done].
      * rewrite O2 in Hy by lia.
        assert (Hy' : score pv <= score y).
        { destruct (decide (j = p)) as [->|]; [|apply (Hhi j); [lia|done]].
          rewrite Hxp in Hy. inversion Hy; subst. lia. }
        assert (Hx' : score x < score pv).
        { apply (K2 (fun z => score z < score pv)) with i; [|lia|done].
          intros m z Hm. apply Hlo. lia. }
        lia.
    + destruct (bool_decide_reflect (p < left + k)%nat) as [Hlt|Hnlt].
      * specialize (IH c1 (S p) right (k + left - p - 1)%nat). cbv zeta in IH.
        destruct IH as (L2 & P2 & K2 & O2 & S2); [lia | lia |].
        set (c2 := selectPeerCandidates fuel c1 (S p) right (k + left - p - 1)) in *.
        replace (S p + (k + left - p - 1))%nat with (left + k)%nat in S2 by lia.
        destruct (range_keeps_widen c1 c2 (S p) right left right) as (K2' & O2');
          [lia | lia | done | done |].
        split; [lia|]. split; [by rewrite P2|].
        split; [by eapply range_keeps_trans|]. split; [by eapply same_outside_trans|].
        intros i j x y Hi Hj Hx Hy.
        destruct (decide (S p <= i)%nat) as [Hip|Hip].
        -- apply (S2 i j); [lia | lia | done | done].
        -- rewrite O2 in Hx by lia.
           assert (Hx' : score x <= score pv).
           { destruct (decide (i = p)) as [->|].
             - rewrite Hxp in Hx. inversion Hx; subst. lia.
             - apply Z.lt_le_incl. apply (Hlo i); [lia|done]. }
           assert (Hy' : score pv <= score y).
           { apply (K2 (fun z => score pv <= score z)) with j; [|lia|done].
             intros m z Hm. apply Hhi. lia. }
           lia.
      * assert (p = (left + k)%nat) as Hpk by lia.
        split; [done|]. split; [done|]. split; [done|]. split; [done|].
        intros i j x y Hi Hj Hx Hy. rewrite <- Hpk in Hi, Hj.
        assert (Hx' : score x <= score pv).
        { destruct (decide (i = p)) as [->|].
          - rewrite Hxp in Hx. inversion Hx; subst. lia.
          - apply Z.lt_le_incl. apply (Hlo i); [lia|done]. }
        assert (Hy' : score pv <= score y).
        { destruct (decide (j = p)) as [->|]; [|apply (Hhi j); [lia|done]].
          rewrite Hxp in Hy. inversion Hy; subst. lia. }
        lia.
Qed.
Lemma worst_score_spec (l : list peer_candidate) :
  forall w0 : Z,
    let w := foldl (fun w cand => if w <? score cand then score cand else w) w0 l in
    w0 <= w
    /\ Forall (fun x => score x <= w) l
    /\ (w = w0 \/ exists x, x ∈ l /\ w = score x).
Proof.
  induction l as [|a l IH]; intros w0; cbn [foldl].
  - split; [lia|]. split; [constructor|]. by left.
  - specialize (IH (if w0 <? score a then score a else w0)). cbv zeta in IH.
    destruct IH as (Hle & Hall & Hor).
    set (w := foldl _ _ l) in *.
    assert (Hw : w0 <= w /\ score a <= w) by (destruct (Z.ltb_spec w0 (score a)); lia).
    split; [lia|]. split; [constructor; [lia|done]|].
    destruct Hor as [Hw0|(x & Hx & Hwx)].
    + destruct (Z.ltb_spec w0 (score a)).
      * right. exists a. split; [left|done].
      * by left.
    + right. exists x. split; [by right|done].
Qed.

(** X13: the partition around a pivot inside left..right does what
    checkPartition asserts: the returned position is inside left..right
    and holds the pivot's score, the scores before it are lower and the
    scores behind it are not; the array is a permutation of the old one
    and the positions outside left..right are not written. *)
Theorem partitionPeerCandidates_checked (c : list peer_candidate)
    (left right pivotIndex : nat) :
  (left <= pivotIndex <= right)%nat ->
  (right < length c)%nat ->
  exists pivotValue,
    c !! pivotIndex = Some pivotValue
    /\ checkPartition (partitionPeerCandidates c left right pivotIndex).1 left right
         (score pivotValue) (partitionPeerCandidates c left right pivotIndex).2
    /\ (partitionPeerCandidates c left right pivotIndex).1 ≡ₚ c
    /\ forall m, (m < left \/ right < m)%nat ->
         (partitionPeerCandidates c left right pivotIndex).1 !! m = c !! m.
Proof.
  intros Hp Hlen.
  destruct (lookup_lt_is_Some_2 c pivotIndex) as [pv Hpv]; [lia|].
  exists pv. split; [done|].
  destruct (partitionPeerCandidates_spec c left right pivotIndex pv Hp Hlen Hpv)
    as (_ & Pm & _ & So & Hc).
  split; [done|]. split; [done|]. exact So.
Qed.

Lemma partitionPeerCandidates_checked_witness :
  exists pivotValue,
    five_candidates !! 2%nat = Some pivotValue
    /\ checkPartition (partitionPeerCandidates five_candidates 0 4 2).1 0 4
         (score pivotValue) (partitionPeerCandidates five_candidates 0 4 2).2
    /\ (partitionPeerCandidates five_candidates 0 4 2).1 ≡ₚ five_candidates
    /\ forall m, (m < 0 \/ 4 < m)%nat ->
         (partitionPeerCandidates five_candidates 0 4 2).1 !! m = five_candidates !! m.
Proof.
  apply (partitionPeerCandidates_checked five_candidates 0 4 2); simpl; lia.
Defined.

(** X14: selectPeerCandidates, called as getPeerCandidates calls it on a
    non-empty array of n candidates with scores that are not negative,
    returns (the recursion ends within n - 1 levels) a permutation of the
    array in which no candidate before position max has a higher score
    than a candidate at or behind it, so that the first max candidates
    are max candidates of the lowest score, and checkBestScoresComeFirst,
    which getPeerCandidates asserts afterwards, holds. *)
Theorem selectPeerCandidates_best_first (c : list peer_candidate) (max fuel : nat) :
  c <> [] ->
  Forall (fun x => 0 <= score x) c ->
  (length c - 1 <= fuel)%nat ->
  let c' := selectPeerCandidates fuel c 0 (length c - 1) max in
  c' ≡ₚ c
  /\ (forall i j x y, (i < max)%nat -> (max <= j)%nat ->
        c' !! i = Some x -> c' !! j = Some y -> score x <= score y)
  /\ checkBestScoresComeFirst c' (length c) max = true.
Proof.
  intros Hne Hpos Hfuel c'.
  assert (Hlen : (0 < length c)%nat) by (destruct c; [done|simpl; lia]).
  destruct (selectPeerCandidates_spec fuel c 0 (length c - 1) max) as (L & Pm & _ & _ & Sel);
    [lia | lia |].
  fold c' in L, Pm, Sel. cbn [Nat.add] in Sel.
  assert (Hsel : forall i j x y, (i < max)%nat -> (max <= j)%nat ->
            c' !! i = Some x -> c' !! j = Some y -> score x <= score y).
  { intros i j x y Hi Hj Hx Hy. apply (Sel i j); [lia| |done|done].
    apply lookup_lt_Some in Hy. lia. }
  split; [done|]. split; [exact Hsel|].
  assert (Hpos' : Forall (fun x => 0 <= score x) c') by (by rewrite Pm).
  unfold checkBestScoresComeFirst.
  set (x := Z.of_nat (length c `min` max) - 1).
  pose proof (worst_score_spec (take (Z.to_nat x) c') 0) as Hw. cbv zeta in Hw.
  set (w := foldl _ 0 (take (Z.to_nat x) c')) in *.
  destruct Hw as (Hw0 & Hall & Hor).
  apply andb_true_iff. split.
  - apply forallb_forall. intros y Hy. apply Z.leb_le.
    apply list_elem_of_In in Hy. rewrite Forall_forall in Hall. by apply Hall.
  - apply forallb_forall. intros y Hy. apply Z.leb_le.
    apply list_elem_of_In, list_elem_of_lookup in Hy. destruct Hy as (i0 & Hy).
    rewrite lookup_drop in Hy. apply lookup_take_Some in Hy. destruct Hy as (Hy & Hlt).
    destruct Hor as [->|(z & Hz & ->)].
    + rewrite Forall_forall in Hpos'. apply Hpos'. by eapply list_elem_of_lookup_2.
    + apply list_elem_of_lookup in Hz. destruct Hz as (i & Hz).
      apply lookup_take_Some in Hz. destruct Hz as (Hz & Hi).
      apply (Hsel i (Z.to_nat (x + 1) + i0)%nat); [lia | lia | done | done].
Qed.

Lemma selectPeerCandidates_best_first_witness :
  let c' := selectPeerCandidates 4 five_candidates 0 4 2 in
  c' ≡ₚ five_candidates
  /\ (forall i j x y, (i < 2)%nat -> (2 <= j)%nat ->
        c' !! i = Some x -> c' !! j = Some y -> score x <= score y)
  /\ checkBestScoresComeFirst c' 5 2 = true.
Proof.
  apply (selectPeerCandidates_best_first five_candidates 2 4).
  - discriminate.
  - unfold five_candidates. repeat constructor; simpl; lia.
  - simpl. lia.
Defined.

(* ATOMS-END *)
End AtomProps.
(** * The queue of the peer's requests, and the framing of messages *)

Section QueueProps.
Import Wire.

Lemma tr_removeElementFromArray_live {A} (arr : list A) (pos nmemb : nat) :
  (pos < nmemb <= length arr)%nat ->
  length (tr_removeElementFromArray arr pos nmemb) = length arr
  /\ take (nmemb - 1) (tr_removeElementFromArray arr pos nmemb) = delete pos (take nmemb arr).
Proof.
  intros Hp. unfold tr_removeElementFromArray. split.
  - rewrite !length_app, !length_take, !length_drop. lia.
  - rewrite app_assoc. rewrite take_app_length'.
    2:{ rewrite length_app, !length_take, length_drop. lia. }
    rewrite delete_take_drop, take_take, take_drop_commute.
    replace (S pos + (nmemb - 1 - pos))%nat with nmemb by lia.
    by replace (pos `min` nmemb)%nat with pos by lia.
Qed.

Lemma queued_requests_length (c : conn) :
  queue_wf c -> length (queued_requests c) = Z.to_nat (pendingReqsToClient c.1).
Proof.
  intros [Hl Hn]. unfold queued_requests, REQQ in *. rewrite length_take. lia.
Qed.

Lemma popNextRequest_queue (c : conn) :
  queue_wf c ->
  queue_wf (popNextRequest c).2
  /\ (popNextRequest c).1 = head (queued_requests c)
  /\ queued_requests (popNextRequest c).2 = tail (queued_requests c)
  /\ outMessages (popNextRequest c).2.2 = outMessages c.2
  /\ io_supportsFEXT (popNextRequest c).2.1 = io_supportsFEXT c.1.
Proof.
  intros [Hl Hn]. unfold popNextRequest, queued_requests, queue_wf, REQQ in *.
  destruct (Z.eqb_spec (pendingReqsToClient c.1) 0) as [H0|H0]; cbn [fst snd].
  - rewrite H0. cbn. rewrite take_0. split; [split; [done|lia]|]. done.
  - destruct (tr_removeElementFromArray_live (peerAskedFor c.2) 0
                (Z.to_nat (pendingReqsToClient c.1))) as (Hlen & Htake); [lia|].
    cbn [pendingReqsToClient set_pendingReqsToClient peerAskedFor set_peerAskedFor
         outMessages io_supportsFEXT].
    split; [split; [by rewrite Hlen|lia]|].
    split.
    + destruct (peerAskedFor c.2) as [|x l]; [simpl in Hl; lia|].
      destruct (Z.to_nat (pendingReqsToClient c.1)) eqn:E; [lia|]. done.
    + replace (Z.to_nat (pendingReqsToClient c.1 - 1))
        with (Z.to_nat (pendingReqsToClient c.1) - 1)%nat by lia.
      rewrite Htake. split; [|done].
      by destruct (take (Z.to_nat (pendingReqsToClient c.1)) (peerAskedFor c.2)).
Qed.

Lemma peerMadeRequest_queue (tor : tr_torrent) (c : conn) (req : peer_request) :
  queue_wf c ->
  queue_wf (peerMadeRequest tor c req)
  /\ queued_requests (peerMadeRequest tor c req)
     = queued_requests c ++ (if request_allowed tor c req then [req] else []).
Proof.
  intros [Hl Hn]. destruct (request_allowed tor c req) eqn:Hok.
  - destruct (peerMadeRequest_allowed tor c req Hok) as (Hp & Hq & _).
    unfold request_allowed in Hok. apply andb_true_iff in Hok as [_ Hlt].
    apply Z.ltb_lt in Hlt.
    unfold queue_wf, queued_requests, REQQ in *. rewrite Hp, Hq, length_insert.
    split; [split; [done|lia]|].
    replace (Z.to_nat (pendingReqsToClient c.1 + 1))
      with (S (Z.to_nat (pendingReqsToClient c.1))) by lia.
    set (n := Z.to_nat (pendingReqsToClient c.1)).
    assert (Hn' : (n < length (peerAskedFor c.2))%nat) by (unfold n; lia).
    rewrite (take_S_r _ n req) by (by apply list_lookup_insert_eq).
    by rewrite take_insert_ge by lia.
  - rewrite (peerMadeRequest_refused tor c req Hok). rewrite app_nil_r.
    by destruct (io_supportsFEXT c.1).
Qed.

Lemma reject_keeps_queue (b : bool) (req : peer_request) (c : conn) :
  let c' := if b then on_msgs (protocolSendReject req) c else c in
  c'.1 = c.1
  /\ peerAskedFor c'.2 = peerAskedFor c.2
  /\ outMessages c'.2
     = outMessages c.2 ++ (if b then msg_request_like BT_FEXT_REJECT req else []).
Proof. destruct b; cbn; [done|]. by rewrite app_nil_r. Qed.

Lemma cancelAll_loop_queue (fuel : nat) (b : bool) :
  forall c : conn,
    queue_wf c ->
    (Z.to_nat (pendingReqsToClient c.1) <= fuel)%nat ->
    let c' := cancelAllRequestsToClient_loop fuel b c in
    queue_wf c'
    /\ pendingReqsToClient c'.1 = 0
    /\ io_supportsFEXT c'.1 = io_supportsFEXT c.1
    /\ outMessages c'.2
       = outMessages c.2 ++ (if b then reject_messages (queued_requests c) else []).
Proof.
  assert (Hzero : forall c : conn, queue_wf c -> pendingReqsToClient c.1 = 0 ->
            queue_wf c /\ pendingReqsToClient c.1 = 0
            /\ io_supportsFEXT c.1 = io_supportsFEXT c.1
            /\ outMessages c.2
               = outMessages c.2 ++ (if b then reject_messages (queued_requests c) else [])).
  { intros c Hwf H0. split; [done|]. split; [done|]. split; [done|].
    unfold queued_requests. rewrite H0. cbn. destruct b; by rewrite app_nil_r. }
  induction fuel as [|fuel IH]; intros c Hwf Hfuel; cbn [cancelAllRequestsToClient_loop].
  - apply Hzero; [done|]. destruct Hwf as [_ Hn]. lia.
  - pose proof (popNextRequest_queue c Hwf) as (Hwf1 & Hhd & Htl & Hout & Hfx).
    pose proof (queued_requests_length c Hwf) as Hlen.
    destruct (Z.eqb_spec (pendingReqsToClient c.1) 0) as [H0|H0].
    + unfold popNextRequest. rewrite H0. cbn. by apply Hzero.
    + destruct (popNextRequest c) as [[req|] c1]; cbn [fst snd] in *.
      2:{ destruct (queued_requests c); [simpl in Hlen; destruct Hwf; lia|done]. }
      pose proof (queued_requests_length c1 Hwf1) as Hlen1.
      destruct (reject_keeps_queue b req c1) as (Hp & Hq & Ho).
      set (c2 := if b then on_msgs (protocolSendReject req) c1 else c1) in *.
      assert (Hwf2 : queue_wf c2) by (unfold queue_wf; by rewrite Hp, Hq).
      assert (Hq2 : queued_requests c2 = queued_requests c1)
        by (unfold queued_requests; by rewrite Hp, Hq).
      destruct (queued_requests c) as [|x q] eqn:Eq; [done|].
      injection Hhd as ->. cbn [tail] in Htl.
      specialize (IH c2 Hwf2). cbv zeta in IH.
      destruct IH as (W & P0 & Fx & Out).
      { rewrite Hp, <- Hlen1, Htl. simpl in Hlen. lia. }
      split; [done|]. split; [done|]. split; [by rewrite Fx, Hp|].
      rewrite Out, Ho, Hout, Hq2, Htl, <- app_assoc. f_equal.
      destruct b; [|done]. unfold reject_messages. by rewrite fmap_cons.
Qed.



Lemma pokeBatchPeriod_out (i : Z) (m : tr_peermsgs) :
  outMessages (pokeBatchPeriod i m) = outMessages m
  /\ peerAskedFor (pokeBatchPeriod i m) = peerAskedFor m
  /\ state (pokeBatchPeriod i m) = state m.
Proof. unfold pokeBatchPeriod. by destruct (_ <? _). Qed.

(** ** The reader, step by step *)

Lemma zlen_app {A} (l k : list A) : zlen (l ++ k) = zlen l + zlen k.
Proof. unfold zlen. rewrite length_app. lia. Qed.

Lemma zlen_cons {A} (x : A) (l : list A) : zlen (x :: l) = 1 + zlen l.
Proof. unfold zlen. cbn [length]. lia. Qed.

Lemma zlen_nonneg {A} (l : list A) : 0 <= zlen l.
Proof. unfold zlen. lia. Qed.

Lemma zlen_be32 (z : Z) : zlen (be32 z) = 4.
Proof. done. Qed.

Lemma tr_peerIoReadUint32_be32 (z : Z) (rest : list Z) :
  is_u32 z -> tr_peerIoReadUint32 (be32 z ++ rest) = (z, rest).
Proof. intros Hz. unfold tr_peerIoReadUint32. by rewrite rd32_be32. Qed.

Lemma read_request_encoded (r : peer_request) (rest : list Z) :
  request_on_wire r ->
  read_request (be32 (req_index r) ++ be32 (req_offset r) ++ be32 (req_length r) ++ rest)
  = (r, rest).
Proof.
  intros (Hi & Ho & Hl). unfold read_request.
  rewrite !tr_peerIoReadUint32_be32 by done. by destruct r.
Qed.

Lemma canRead_length (env : wire_env) (tor : tr_torrent) (now : Z) (c : conn)
    (len : Z) (rest : list Z) :
  state c.2 = AWAITING_BT_LENGTH ->
  0 < len < 4294967296 ->
  canRead env tor now c (be32 len ++ rest)
  = (READ_NOW,
     on_msgs (fun m => set_state AWAITING_BT_ID (set_incoming_length len m)) c,
     rest, [TR_PEER_CLIENT_GOT_DATA 4 false]).
Proof.
  intros Hst Hlen. unfold canRead. rewrite Hst, zlen_app, zlen_be32.
  pose proof (zlen_nonneg rest) as Hr.
  destruct (Z.eqb_spec (4 + zlen rest) 0) as [|_]; [lia|].
  unfold readBtLength.
  destruct (Z.ltb_spec (4 + zlen rest) 4) as [|_]; [lia|].
  rewrite tr_peerIoReadUint32_be32 by (unfold is_u32; lia).
  destruct (Z.eqb_spec len 0) as [|_]; [lia|].
  destruct (Z.eqb_spec (zlen rest) (4 + zlen rest)) as [|_]; [lia|].
  cbn [app]. do 3 f_equal. lia.
Qed.

Lemma canRead_id (env : wire_env) (tor : tr_torrent) (now : Z) (c : conn)
    (id : Z) (rest : list Z) :
  state c.2 = AWAITING_BT_ID ->
  id <> BT_PIECE ->
  incoming_length c.2 <> 1 ->
  canRead env tor now c (id :: rest)
  = (READ_NOW,
     on_msgs (fun m => set_state AWAITING_BT_MESSAGE (set_incoming_id id m)) c,
     rest, [TR_PEER_CLIENT_GOT_DATA 1 false]).
Proof.
  intros Hst Hid Hlen. unfold canRead. rewrite Hst, zlen_cons.
  pose proof (zlen_nonneg rest) as Hr.
  destruct (Z.eqb_spec (1 + zlen rest) 0) as [|_]; [lia|].
  unfold readBtId.
  destruct (Z.ltb_spec (1 + zlen rest) 1) as [|_]; [lia|].
  unfold tr_peerIoReadUint8. cbn [hd drop].
  destruct (Z.eqb_spec id BT_PIECE) as [|_]; [done|].
  cbn [on_msgs fst snd incoming_length set_incoming_id].
  destruct (Z.eqb_spec (incoming_length c.2) 1) as [|_]; [done|].
  cbn [negb]. rewrite drop_0.
  destruct (Z.eqb_spec (zlen rest) (1 + zlen rest)) as [|_]; [lia|].
  cbn [app]. f_equal. do 2 f_equal. lia.
Qed.

Lemma messageLengthIsCorrect_hint (tor : tr_torrent) (m m' : tr_peermsgs) (id len : Z) :
  metadata_size_hint m = metadata_size_hint m' ->
  messageLengthIsCorrect tor m id len = messageLengthIsCorrect tor m' id len.
Proof. intros H. unfold messageLengthIsCorrect. by rewrite H. Qed.

Lemma readBtMessage_wrong_length (env : wire_env) (tor : tr_torrent) (now : Z) (c : conn)
    (inbuf : list Z) (inlen : Z) :
  u32 (incoming_length c.2 - 1) <= inlen ->
  messageLengthIsCorrect tor c.2 (incoming_id c.2)
    (u32 (u32 (incoming_length c.2 - 1) + 1)) = false ->
  readBtMessage env tor now c inbuf inlen = (READ_ERR, c, inbuf, [TR_PEER_ERROR EMSGSIZE]).
Proof.
  intros Hlen Hbad. unfold readBtMessage.
  destruct (Z.ltb_spec inlen (u32 (incoming_length c.2 - 1))) as [|_]; [lia|].
  by rewrite Hbad.
Qed.

Lemma peerMadeRequest_framing (tor : tr_torrent) (c : conn) (r : peer_request)
    (len id : Z) :
  on_msgs (set_state AWAITING_BT_LENGTH)
    (peerMadeRequest tor
       (on_msgs (fun m => set_state AWAITING_BT_MESSAGE (set_incoming_id id m))
          (on_msgs (fun m => set_state AWAITING_BT_ID (set_incoming_length len m)) c)) r)
  = after_message len id (peerMadeRequest tor c r).
Proof.
  destruct c as [p m]. destruct m. unfold after_message, peerMadeRequest, prefetchPieces.
  cbn [on_msgs fst snd].
  destruct (requestIsValid tor r); cbn [negb andb];
    [|by destruct (io_supportsFEXT p)].
  destruct (tr_cpPieceIsComplete tor (req_index r)); cbn [negb];
    [|by destruct (io_supportsFEXT p)].
  destruct (peerIsChoked p); [by destruct (io_supportsFEXT p)|].
  destruct (REQQ <=? pendingReqsToClient p + 1); [by destruct (io_supportsFEXT p)|].
  by destruct (isPrefetchEnabled tor).
Qed.

Lemma peerCancelledRequest_framing (now : Z) (c : conn) (r : peer_request) (len id : Z) :
  on_msgs (set_state AWAITING_BT_LENGTH)
    (peerCancelledRequest now
       (on_msgs (fun m => set_state AWAITING_BT_MESSAGE (set_incoming_id id m))
          (on_msgs (fun m => set_state AWAITING_BT_ID (set_incoming_length len m)) c)) r)
  = after_message len id (peerCancelledRequest now c r).
Proof.
  destruct c as [p m]. destruct m. unfold after_message, peerCancelledRequest.
  cbn [on_msgs on_peer fst snd peerAskedFor set_state set_incoming_id set_incoming_length].
  by destruct (list_find _ _) as [[i x]|].
Qed.

Lemma canRead_request_like (env : wire_env) (tor : tr_torrent) (now : Z) (c : conn)
    (id : Z) (r : peer_request) (rest : list Z) :
  state c.2 = AWAITING_BT_LENGTH ->
  request_on_wire r ->
  id = BT_REQUEST \/ id = BT_CANCEL ->
  canRead_steps env tor now 3 c (msg_request_like id r ++ rest)
  = ([READ_NOW; READ_NOW; READ_NOW],
     after_message 13 id
       (if id =? BT_REQUEST then peerMadeRequest tor c r else peerCancelledRequest now c r),
     rest,
     [TR_PEER_CLIENT_GOT_DATA 4 false; TR_PEER_CLIENT_GOT_DATA 1 false;
      TR_PEER_CLIENT_GOT_DATA 12 false]).
Proof.
  intros Hst Hr Hid.
  set (body := be32 (req_index r) ++ be32 (req_offset r) ++ be32 (req_length r) ++ rest).
  assert (E : msg_request_like id r ++ rest = be32 13 ++ id :: body).
  { unfold msg_request_like, body. by rewrite <- !app_assoc. }
  assert (Hbody : zlen body = 12 + zlen rest).
  { unfold body. rewrite !zlen_app, !zlen_be32. lia. }
  pose proof (zlen_nonneg rest) as Hrest.
  rewrite E. cbn [canRead_steps].
  rewrite canRead_length by (done || lia).
  rewrite canRead_id; [|done|destruct Hid as [-> | ->]; done|done].
  set (c2 := on_msgs (fun m => set_state AWAITING_BT_MESSAGE (set_incoming_id id m)) _).
  assert (Hc2 : state c2.2 = AWAITING_BT_MESSAGE
                /\ incoming_length c2.2 = 13 /\ incoming_id c2.2 = id
                /\ io_supportsFEXT c2.1 = io_supportsFEXT c.1) by done.
  destruct Hc2 as (Hs2 & Hl2 & Hi2 & Hf2).
  unfold canRead. rewrite Hs2, Hbody.
  destruct (Z.eqb_spec (12 + zlen rest) 0) as [|_]; [lia|].
  unfold readBtMessage. rewrite Hl2, Hi2.
  change (u32 (13 - 1)) with 12.
  destruct (Z.ltb_spec (12 + zlen rest) 12) as [|_]; [lia|].
  assert (Hok : messageLengthIsCorrect tor c2.2 id (u32 (12 + 1)) = true)
    by (destruct Hid as [-> | ->]; done).
  rewrite Hok. cbn [negb].
  unfold body. rewrite (read_request_encoded r rest Hr).
  destruct Hid as [-> | ->]; cbn -[peerMadeRequest peerCancelledRequest after_message Z.add Z.sub];
    (destruct (Z.eqb_spec (zlen rest) (12 + zlen rest)) as [|_]; [lia|]);
    replace (12 + zlen rest - zlen rest) with 12 by lia.
  - unfold c2. by rewrite peerMadeRequest_framing.
  - unfold c2. by rewrite peerCancelledRequest_framing.
Qed.

(** ** The queue of the peer's requests *)

(** X15: the array peerAskedFor with the counter pendingReqsToClient is a
    first-in first-out queue that stays inside its 512 slots: a request
    that peerMadeRequest accepts goes to the end of the live requests (a
    refused one leaves them as they are), and popNextRequest hands out the
    oldest live request and keeps the others in order (nothing when there
    is none). *)
Theorem peer_request_queue_fifo (tor : tr_torrent) (c : conn) (req : peer_request) :
  queue_wf c ->
  (queue_wf (peerMadeRequest tor c req)
   /\ queued_requests (peerMadeRequest tor c req)
      = queued_requests c ++ (if request_allowed tor c req then [req] else []))
  /\ (queue_wf (popNextRequest c).2
      /\ (popNextRequest c).1 = head (queued_requests c)
      /\ queued_requests (popNextRequest c).2 = tail (queued_requests c)).
Proof.
  intros Hwf. split; [by apply peerMadeRequest_queue|].
  by destruct (popNextRequest_queue c Hwf) as (H1 & H2 & H3 & _).
Qed.

Lemma peer_request_queue_fifo_witness :
  queued_requests (peerMadeRequest serving_torrent two_queued_conn (mk_req 3 0 16384))
  = [mk_req 1 0 16384; mk_req 2 16384 16384; mk_req 3 0 16384]
  /\ (popNextRequest two_queued_conn).1 = Some (mk_req 1 0 16384).
Proof.
  assert (Hwf : queue_wf two_queued_conn) by (split; [reflexivity|done]).
  destruct (peer_request_queue_fifo serving_torrent two_queued_conn (mk_req 3 0 16384) Hwf)
    as ((_ & Hq) & (_ & Hp & _)).
  split; [exact Hq|exact Hp].
Defined.



(** X17: choking an unchoked peer (outside the fibrillation period)
    empties the queue of its requests: afterwards no request is live, the
    output buffer has grown by one Reject per request that was queued, in
    queue order, if the peer speaks the Fast Extension (by nothing
    otherwise), followed by the Choke message; and a request that the peer
    makes afterwards is not queued. *)
Theorem setChoke_rejects_queue (now : Z) (c : conn) :
  queue_wf c ->
  chokeChangedAt c.1 + MIN_CHOKE_PERIOD_SEC <= now ->
  peerIsChoked c.1 = false ->
  let c' := tr_peerMsgsSetChoke now c true in
  peerIsChoked c'.1 = true
  /\ chokeChangedAt c'.1 = now
  /\ queue_wf c'
  /\ queued_requests c' = []
  /\ outMessages c'.2
     = outMessages c.2
       ++ (if io_supportsFEXT c.1 then reject_messages (queued_requests c) else [])
       ++ msg_choke true
  /\ forall tor req, queued_requests (peerMadeRequest tor c' req) = [].
Proof.
  intros Hwf Hlate Hunchoked.
  set (c1 := on_peer (set_peerIsChoked true) c).
  assert (E : tr_peerMsgsSetChoke now c true
              = on_peer (set_chokeChangedAt now)
                  (on_msgs (protocolSendChoke true) (cancelAllRequestsToClient c1))).
  { unfold tr_peerMsgsSetChoke.
    destruct (Z.ltb_spec (now - MIN_CHOKE_PERIOD_SEC) (chokeChangedAt c.1)) as [|_]; [lia|].
    by rewrite Hunchoked. }
  rewrite E. clear E. intros c'.
  assert (Hwf1 : queue_wf c1) by done.
  assert (Hq1 : queued_requests c1 = queued_requests c) by done.
  pose proof (cancelAll_loop_queue (Z.to_nat (pendingReqsToClient c1.1))
                (io_supportsFEXT c1.1) c1 Hwf1 (Nat.le_refl _)) as Hloop.
  cbv zeta in Hloop. fold (cancelAllRequestsToClient c1) in Hloop.
  destruct Hloop as ((Hl2 & Hn2) & Hp2 & Hf2 & Ho2).
  destruct (cancelAll_choke c1) as (Hc2 & _).
  set (c2 := cancelAllRequestsToClient c1) in *.
  assert (Hc' : c'.1 = set_chokeChangedAt now c2.1
                /\ peerAskedFor c'.2 = peerAskedFor c2.2
                /\ outMessages c'.2 = outMessages c2.2 ++ msg_choke true).
  { unfold c', protocolSendChoke. cbn [on_peer on_msgs fst snd].
    destruct (pokeBatchPeriod_out IMMEDIATE_PRIORITY_INTERVAL_SECS
                (add_out (msg_choke true) c2.2)) as (-> & -> & _). done. }
  destruct Hc' as (Hp' & Hq' & Ho').
  assert (Hempty : queued_requests c' = []).
  { unfold queued_requests. rewrite Hp'. cbn [pendingReqsToClient set_chokeChangedAt].
    by rewrite Hp2. }
  assert (Hwf' : queue_wf c').
  { unfold queue_wf. rewrite Hp', Hq'. cbn [pendingReqsToClient set_chokeChangedAt].
    split; [done|]. rewrite Hp2. done. }
  assert (Hchoked : peerIsChoked c'.1 = true) by (by rewrite Hp'; cbn; rewrite Hc2).
  split; [done|]. split; [by rewrite Hp'|]. split; [done|]. split; [done|].
  split.
  - rewrite Ho', Ho2, Hq1, <- app_assoc. done.
  - intros tor req. destruct (peerMadeRequest_queue tor c' req Hwf') as (_ & ->).
    rewrite Hempty. unfold request_allowed. rewrite Hchoked.
    by rewrite andb_false_r.
Qed.

Lemma setChoke_rejects_queue_witness :
  outMessages (tr_peerMsgsSetChoke 20 two_queued_conn true).2
  = outMessages two_queued_conn.2
    ++ (if io_supportsFEXT two_queued_conn.1
        then reject_messages (queued_requests two_queued_conn) else [])
    ++ msg_choke true.
Proof.
  assert (Hwf : queue_wf two_queued_conn) by (split; [reflexivity|done]).
  destruct (setChoke_rejects_queue 20 two_queued_conn Hwf) as (_ & _ & _ & _ & H & _);
    [vm_compute; discriminate | reflexivity | exact H].
Defined.

(** ** Framing *)

(** X18: the Request and Cancel messages are read back as they were
    written: what protocolSendRequest (protocolSendCancel) appends to an
    output buffer, read by a session that awaits a message length, takes
    the reader through its three states and back, consumes exactly the 17
    bytes of the message, and hands the same request to peerMadeRequest
    (to the Cancel handling), provided the three fields fit 32 bits. *)
Theorem request_message_round_trip (env : wire_env) (tor : tr_torrent) (now : Z)
    (sender : tr_peermsgs) (c : conn) (r : peer_request) (rest : list Z) :
  state c.2 = AWAITING_BT_LENGTH ->
  request_on_wire r ->
  outMessages (protocolSendRequest r sender)
  = outMessages sender ++ msg_request_like BT_REQUEST r
  /\ outMessages (protocolSendCancel r sender)
     = outMessages sender ++ msg_request_like BT_CANCEL r
  /\ canRead_steps env tor now 3 c (msg_request_like BT_REQUEST r ++ rest)
     = ([READ_NOW; READ_NOW; READ_NOW],
        after_message 13 BT_REQUEST (peerMadeRequest tor c r), rest,
        [TR_PEER_CLIENT_GOT_DATA 4 false; TR_PEER_CLIENT_GOT_DATA 1 false;
         TR_PEER_CLIENT_GOT_DATA 12 false])
  /\ canRead_steps env tor now 3 c (msg_request_like BT_CANCEL r ++ rest)
     = ([READ_NOW; READ_NOW; READ_NOW],
        after_message 13 BT_CANCEL (peerCancelledRequest now c r), rest,
        [TR_PEER_CLIENT_GOT_DATA 4 false; TR_PEER_CLIENT_GOT_DATA 1 false;
         TR_PEER_CLIENT_GOT_DATA 12 false]).
Proof.
  intros Hst Hr.
  split; [unfold protocolSendRequest;
          by destruct (pokeBatchPeriod_out IMMEDIATE_PRIORITY_INTERVAL_SECS
                         (add_out (msg_request_like BT_REQUEST r) sender)) as (-> & _)|].
  split; [unfold protocolSendCancel;
          by destruct (pokeBatchPeriod_out IMMEDIATE_PRIORITY_INTERVAL_SECS
                         (add_out (msg_request_like BT_CANCEL r) sender)) as (-> & _)|].
  split.
  - by rewrite (canRead_request_like env tor now c BT_REQUEST r rest Hst Hr (or_introl eq_refl)).
  - by rewrite (canRead_request_like env tor now c BT_CANCEL r rest Hst Hr (or_intror eq_refl)).
Qed.

Lemma request_message_round_trip_witness :
  canRead_steps idle_env serving_torrent 7 3 fresh_conn
    (msg_request_like BT_REQUEST (mk_req 1 0 16384) ++ [])
  = ([READ_NOW; READ_NOW; READ_NOW],
     after_message 13 BT_REQUEST (peerMadeRequest serving_torrent fresh_conn (mk_req 1 0 16384)),
     [],
     [TR_PEER_CLIENT_GOT_DATA 4 false; TR_PEER_CLIENT_GOT_DATA 1 false;
      TR_PEER_CLIENT_GOT_DATA 12 false]).
Proof.
  destruct (request_message_round_trip idle_env serving_torrent 7 fresh_msgs fresh_conn
              (mk_req 1 0 16384) []) as (_ & _ & H & _);
    [reflexivity | unfold request_on_wire, is_u32; simpl; lia | exact H].
Defined.

(** X19: a message other than Piece whose announced length does not fit
    its id (messageLengthIsCorrect) ends the reading with an error: once
    the announced payload is buffered the reader answers READ_ERR and
    publishes the error EMSGSIZE; it consumes nothing of the payload and
    leaves the peer, the queue of its requests and the output buffer as
    they were. *)
Theorem wrong_length_is_error (env : wire_env) (tor : tr_torrent) (now : Z) (c : conn)
    (len id : Z) (payload : list Z) :
  state c.2 = AWAITING_BT_LENGTH ->
  0 < len < 4294967296 ->
  id <> BT_PIECE ->
  messageLengthIsCorrect tor c.2 id len = false ->
  len - 1 <= zlen payload ->
  let r := canRead_steps env tor now 3 c (be32 len ++ id :: payload) in
  last r.1.1.1 = Some READ_ERR
  /\ last r.2 = Some (TR_PEER_ERROR EMSGSIZE)
  /\ r.1.2 = payload
  /\ r.1.1.2.1 = c.1
  /\ peerAskedFor r.1.1.2.2 = peerAskedFor c.2
  /\ outMessages r.1.1.2.2 = outMessages c.2.
Proof.
  intros Hst Hlen Hid Hbad Hpay. cbn [canRead_steps].
  rewrite canRead_length by done.
  set (c1 := on_msgs (fun m => set_state AWAITING_BT_ID (set_incoming_length len m)) c).
  pose proof (zlen_nonneg payload) as Hp0.
  destruct (Z.eq_dec len 1) as [->|Hne].
  - unfold canRead. cbn [c1 on_msgs fst snd state set_state]. rewrite zlen_cons.
    destruct (Z.eqb_spec (1 + zlen payload) 0) as [|_]; [lia|].
    unfold readBtId.
    destruct (Z.ltb_spec (1 + zlen payload) 1) as [|_]; [lia|].
    unfold tr_peerIoReadUint8. cbn [hd drop].
    destruct (Z.eqb_spec id BT_PIECE) as [|_]; [done|].
    cbn [on_msgs fst snd incoming_length set_incoming_id set_state set_incoming_length].
    cbn [Z.eqb Pos.eqb negb]. rewrite drop_0.
    rewrite readBtMessage_wrong_length.
    + done.
    + cbn [snd fst on_msgs incoming_length set_incoming_id set_state set_incoming_length].
      change (incoming_length c1.2) with 1. change (u32 (1 - 1)) with 0. lia.
    + cbn [snd fst on_msgs incoming_length incoming_id set_incoming_id set_state
           set_incoming_length].
      change (incoming_length c1.2) with 1. change (u32 (u32 (1 - 1) + 1)) with 1.
      rewrite <- Hbad. by apply messageLengthIsCorrect_hint.
  - rewrite canRead_id; [|done|done|done].
    set (c2 := on_msgs (fun m => set_state AWAITING_BT_MESSAGE (set_incoming_id id m)) c1).
    assert (Hu : u32 (len - 1) = len - 1) by (unfold u32; apply Z.mod_small; lia).
    unfold canRead.
    destruct (Z.eqb_spec (zlen payload) 0) as [|_]; [lia|].
    change (state c2.2) with AWAITING_BT_MESSAGE. cbv iota.
    rewrite readBtMessage_wrong_length.
    + done.
    + change (incoming_length c2.2) with len. lia.
    + change (incoming_length c2.2) with len. change (incoming_id c2.2) with id.
      rewrite Hu. replace (len - 1 + 1) with len by lia.
      unfold u32 at 1. rewrite (Z.mod_small len) by lia.
      rewrite <- Hbad. by apply messageLengthIsCorrect_hint.
Qed.

Lemma wrong_length_is_error_witness :
  last (canRead_steps idle_env serving_torrent 7 3 fresh_conn
          (be32 2 ++ BT_CHOKE :: [0])).1.1.1 = Some READ_ERR.
Proof.
  destruct (wrong_length_is_error idle_env serving_torrent 7 fresh_conn 2 BT_CHOKE [0])
    as (H & _); [reflexivity | lia | discriminate | reflexivity | vm_compute; discriminate
                 | exact H].
Defined.

(* QUEUE-END *)
End QueueProps.
(** * The announce-URL editor: what removal, addition and replacement do *)

Section EditorProps.
Import Edit.

(** ** The dictionary *)

Lemma find_cons (e : string * tr_benc) (d : list (string * tr_benc)) (k : string) :
  tr_bencDictFind (BDict (e :: d)) k
  = if decide (e.1 = k) then Some e.2 else tr_bencDictFind (BDict d) k.
Proof.
  unfold tr_bencDictFind. cbn [dict_entries list_find].
  destruct (decide (e.1 = k)); [done|].
  by destruct (list_find _ d) as [[i x]|].
Qed.

Lemma find_nil (k : string) : tr_bencDictFind (BDict []) k = None.
Proof. done. Qed.

Lemma find_none_key (d : list (string * tr_benc)) (k : string) :
  k ∉ d.*1 -> tr_bencDictFind (BDict d) k = None.
Proof.
  induction d as [|e d IH]; intros Hk; [done|].
  rewrite find_cons. rewrite fmap_cons, not_elem_of_cons in Hk. destruct Hk as [Hne Hk].
  destruct (decide (e.1 = k)); [done|]. by apply IH.
Qed.

Lemma find_some_key (d : list (string * tr_benc)) (k : string) (v : tr_benc) :
  tr_bencDictFind (BDict d) k = Some v -> k ∈ d.*1.
Proof.
  induction d as [|e d IH]; [done|]. rewrite find_cons, fmap_cons.
  destruct (decide (e.1 = k)) as [<-|]; [intros _; left|intros H; right; by apply IH].
Qed.

Lemma assoc_remove_keys (k : string) (d : list (string * tr_benc)) :
  forall x, x ∈ (assoc_remove k d).*1 -> x ∈ d.*1.
Proof.
  induction d as [|e d IH]; intros x; [done|]. cbn [assoc_remove].
  destruct (bool_decide (e.1 = k)); rewrite ?fmap_cons.
  - intros H. by right.
  - rewrite !elem_of_cons. intros [->|H]; [by left|right; by apply IH].
Qed.

Lemma assoc_remove_NoDup (k : string) (d : list (string * tr_benc)) :
  NoDup d.*1 -> NoDup (assoc_remove k d).*1.
Proof.
  induction d as [|e d IH]; [done|]. rewrite fmap_cons, NoDup_cons. intros [Hn Hd].
  cbn [assoc_remove]. destruct (bool_decide (e.1 = k)); [done|].
  rewrite fmap_cons, NoDup_cons. split; [|by apply IH].
  intros H. apply Hn. by eapply assoc_remove_keys.
Qed.

Lemma find_remove (k k' : string) (d : list (string * tr_benc)) :
  NoDup d.*1 ->
  tr_bencDictFind (BDict (assoc_remove k d)) k'
  = if decide (k' = k) then None else tr_bencDictFind (BDict d) k'.
Proof.
  induction d as [|e d IH]; [intros _; by destruct (decide (k' = k))|].
  rewrite fmap_cons, NoDup_cons. intros [Hn Hd]. cbn [assoc_remove].
  destruct (bool_decide_reflect (e.1 = k)) as [He|He].
  - rewrite find_cons. destruct (decide (k' = k)) as [->|Hk].
    + apply find_none_key. by rewrite <- He.
    + rewrite decide_False by congruence. done.
  - rewrite !find_cons, IH by done.
    destruct (decide (e.1 = k')) as [Hek|]; [|done].
    rewrite decide_False by congruence. done.
Qed.

Lemma assoc_replace_keys (k : string) (v : tr_benc) (d : list (string * tr_benc)) :
  (assoc_replace k v d).*1 = d.*1.
Proof.
  induction d as [|e d IH]; [done|]. cbn [assoc_replace].
  destruct (bool_decide_reflect (e.1 = k)) as [He|He]; rewrite !fmap_cons.
  - by rewrite He.
  - by rewrite IH.
Qed.

Lemma find_replace (k k' : string) (v : tr_benc) (d : list (string * tr_benc)) :
  tr_bencDictFind (BDict (assoc_replace k v d)) k'
  = if decide (k' = k) then (fun _ => v) <$> tr_bencDictFind (BDict d) k
    else tr_bencDictFind (BDict d) k'.
Proof.
  induction d as [|e d IH]; [by destruct (decide (k' = k))|]. cbn [assoc_replace].
  destruct (bool_decide_reflect (e.1 = k)) as [He|He].
  - rewrite !find_cons. cbn [fst snd]. rewrite (decide_True _ _ He).
    destruct (decide (k' = k)) as [->|Hk].
    + by rewrite decide_True.
    + rewrite !decide_False by congruence. done.
  - rewrite !find_cons, IH. rewrite (decide_False _ _ He).
    destruct (decide (k' = k)) as [->|Hk].
    + by rewrite decide_False.
    + done.
Qed.

Lemma find_add (k k' : string) (v : tr_benc) (d : list (string * tr_benc)) :
  tr_bencDictFind (BDict (d ++ [(k, v)])) k'
  = match tr_bencDictFind (BDict d) k' with
    | Some x => Some x
    | None => if decide (k = k') then Some v else None
    end.
Proof.
  induction d as [|e d IH].
  - cbn [app]. rewrite find_cons, !find_nil. done.
  - rewrite <- app_comm_cons, !find_cons, IH. by destruct (decide (e.1 = k')).
Qed.

(** ** Removal *)

Lemma has_url_false (tiers : list tr_benc) (url : string) :
  announce_list_has_url tiers url = false
  <-> Forall (fun t => Forall (fun n => node_is_url url n = false) (list_children t)) tiers.
Proof.
  unfold announce_list_has_url. induction tiers as [|t tiers IH]; cbn [existsb].
  - split; [constructor|done].
  - rewrite orb_false_iff, Forall_cons, IH.
    assert (E : existsb (node_is_url url) (list_children t) = false
                <-> Forall (fun n => node_is_url url n = false) (list_children t)).
    { induction (list_children t) as [|n l IHl]; cbn [existsb].
      - split; [constructor|done].
      - by rewrite orb_false_iff, Forall_cons, IHl. }
    by rewrite E.
Qed.

Lemma strip_tier_found (url : string) (tiers : list tr_benc) :
  existsb snd (map (strip_tier url) tiers) = announce_list_has_url tiers url.
Proof.
  unfold announce_list_has_url. induction tiers as [|t tiers IH]; [done|].
  cbn [map existsb]. rewrite IH. f_equal. by destruct t.
Qed.

Lemma strip_tier_clean (url : string) (tiers : list tr_benc) :
  let tiers' := filter (fun t => list_children t <> [])
                  (map fst (map (strip_tier url) tiers)) in
  announce_list_has_url tiers' url = false
  /\ Forall (fun t => list_children t <> []) tiers'.
Proof.
  intros tiers'. split.
  - apply has_url_false. apply Forall_forall. intros t' Ht'.
    apply list_elem_of_filter in Ht' as [_ Ht'].
    apply list_elem_of_In, in_map_iff in Ht' as (s & <- & Hs).
    apply in_map_iff in Hs as (t & <- & _).
    destruct t; try constructor. cbn [strip_tier fst list_children].
    apply Forall_forall. intros n Hn. by apply list_elem_of_filter in Hn as [Hn _].
  - apply Forall_forall. intros t' Ht'. by apply list_elem_of_filter in Ht' as [Ht' _].
Qed.

Lemma findStr_of_find (m : tr_benc) (k : string) :
  tr_bencDictFindStr m k
  = match tr_bencDictFind m k with Some (BStr s) => Some s | _ => None end.
Proof. done. Qed.

Lemma findList_of_find (m : tr_benc) (k : string) :
  tr_bencDictFindList m k
  = match tr_bencDictFind m k with Some (BList l) => Some l | _ => None end.
Proof. done. Qed.

Lemma addStr_find (d : list (string * tr_benc)) (k val : string) :
  exists d', tr_bencDictAddStr (BDict d) k val = BDict d'
    /\ (k ∈ d.*1 -> d'.*1 = d.*1)
    /\ (k ∉ d.*1 -> d'.*1 = d.*1 ++ [k])
    /\ forall k', tr_bencDictFind (BDict d') k'
         = if decide (k' = k) then Some (BStr val) else tr_bencDictFind (BDict d) k'.
Proof.
  unfold tr_bencDictAddStr.
  destruct (tr_bencDictFind (BDict d) k) as [v|] eqn:Hf.
  - exists (assoc_replace k (BStr val) d). cbn [dict_store].
    split; [done|]. split; [intros _; apply assoc_replace_keys|].
    split; [intros Hk; by rewrite (find_none_key d k Hk) in Hf|].
    intros k'. rewrite find_replace, Hf. done.
  - exists (d ++ [(k, BStr val)]). cbn [tr_bencDictAdd].
    split; [done|].
    split; [intros Hk; exfalso|].
    { clear -Hf Hk. induction d as [|e d IH]; [by apply elem_of_nil in Hk|].
      rewrite find_cons in Hf. destruct (decide (e.1 = k)); [done|].
      rewrite fmap_cons, elem_of_cons in Hk. destruct Hk as [->|Hk]; [done|]. by apply IH. }
    split; [intros _; by rewrite fmap_app|].
    intros k'. rewrite find_add. destruct (decide (k' = k)) as [->|Hk].
    + rewrite Hf. by rewrite decide_True.
    + destruct (tr_bencDictFind (BDict d) k'); [done|]. by rewrite decide_False.
Qed.

(** X20: removeURL leaves no occurrence of the URL in a metainfo without
    repeated keys: afterwards the "announce" string is not the URL (when it
    was, it is replaced by the first tracker that is left, or removed), an
    "announce-list" that is left holds the URL in no tier and has no empty
    tier, and the function reports a change exactly when the URL was the
    "announce" string or a member of a tier. *)
Theorem removeURL_removes_all (metainfo : tr_benc) (url : string) :
  NoDup (dict_entries metainfo).*1 ->
  tr_bencDictFindStr (removeURL metainfo url).2 "announce" <> Some url
  /\ (forall tiers,
        tr_bencDictFindList (removeURL metainfo url).2 "announce-list" = Some tiers ->
        announce_list_has_url tiers url = false
        /\ Forall (fun t => list_children t <> []) tiers)
  /\ ((removeURL metainfo url).1 = true <-> announced metainfo url).
Proof.
  intros Hnd. unfold removeURL.
  set (s0 := match tr_bencDictFindStr metainfo "announce" with
             | Some str => if bool_decide (str = url)
                           then (true, tr_bencDictRemove metainfo "announce")
                           else (false, metainfo)
             | None => (false, metainfo)
             end).
  assert (H0 : NoDup (dict_entries s0.2).*1
               /\ tr_bencDictFindStr s0.2 "announce" <> Some url
               /\ tr_bencDictFind s0.2 "announce-list"
                  = tr_bencDictFind metainfo "announce-list"
               /\ (s0.1 = true <-> tr_bencDictFindStr metainfo "announce" = Some url)).
  { unfold s0. destruct (tr_bencDictFindStr metainfo "announce") as [str|] eqn:Ha.
    - destruct (bool_decide_reflect (str = url)) as [->|Hne]; cbn [fst snd].
      + destruct metainfo as [| | |d]; try done. cbn [tr_bencDictRemove dict_entries] in *.
        split; [by apply assoc_remove_NoDup|].
        split; [by rewrite findStr_of_find, find_remove|].
        split; [by rewrite find_remove|]. done.
      + split; [done|]. split; [congruence|]. split; [done|].
        split; [done|congruence].
    - cbn [fst snd]. split; [done|]. split; [congruence|]. split; [done|].
      split; [done|congruence]. }
  destruct s0 as [changed0 m0]. cbn [fst snd] in H0.
  destruct H0 as (Hnd0 & Hann0 & Hlist0 & Hch0).
  set (s1 := match tr_bencDictFindList m0 "announce-list" with
             | Some tiers =>
                 match filter (fun t => list_children t <> [])
                         (map fst (map (strip_tier url) tiers)) with
                 | [] => (changed0 || existsb snd (map (strip_tier url) tiers),
                          tr_bencDictRemove m0 "announce-list", [])
                 | _ :: _ =>
                     (changed0 || existsb snd (map (strip_tier url) tiers),
                      dict_store m0 "announce-list"
                        (BList (filter (fun t => list_children t <> [])
                                  (map fst (map (strip_tier url) tiers)))),
                      filter (fun t => list_children t <> [])
                        (map fst (map (strip_tier url) tiers)))
                 end
             | None => (changed0, m0, [])
             end).
  assert (H1 : NoDup (dict_entries s1.1.2).*1
               /\ tr_bencDictFind s1.1.2 "announce" = tr_bencDictFind m0 "announce"
               /\ (forall tiers, tr_bencDictFindList s1.1.2 "announce-list" = Some tiers ->
                     tiers = s1.2 /\ tiers <> [])
               /\ announce_list_has_url s1.2 url = false
               /\ Forall (fun t => list_children t <> []) s1.2
               /\ (s1.1.1 = true <-> announced metainfo url)).
  { unfold s1. rewrite findList_of_find.
    assert (Hannounced : forall tiers,
              tr_bencDictFind metainfo "announce-list" = Some (BList tiers) ->
              (changed0 || existsb snd (map (strip_tier url) tiers) = true
               <-> announced metainfo url)).
    { intros tiers Hf. rewrite orb_true_iff, strip_tier_found, Hch0. unfold announced.
      rewrite findList_of_find, Hf. split; (intros [H|H]; [by left|right]).
      - by exists tiers.
      - destruct H as (? & [= <-] & H). done. }
    rewrite Hlist0.
    destruct (tr_bencDictFind metainfo "announce-list") as [[| |tiers|]|] eqn:Hf;
      cbn [fst snd];
      try (split; [done|]; split; [done|];
           split; [intros tiers'; rewrite findList_of_find, Hlist0; congruence|];
           split; [done|]; split; [constructor|];
           rewrite Hch0; unfold announced; rewrite findList_of_find, Hf;
           split; [by left|]; intros [H|(? & ? & _)]; done).
    destruct (strip_tier_clean url tiers) as (Hclean & Hfull). cbv zeta in Hclean, Hfull.
    destruct m0 as [| | |d0]; try done. cbn [dict_entries] in Hnd0.
    destruct (filter _ _) as [|t l]; cbn [fst snd tr_bencDictRemove dict_store dict_entries].
    - split; [by apply assoc_remove_NoDup|].
      split; [by rewrite find_remove|].
      split; [intros tiers'; by rewrite findList_of_find, find_remove|].
      split; [done|]. split; [constructor|]. by apply Hannounced.
    - split; [by rewrite assoc_replace_keys|].
      split; [by rewrite find_replace|].
      split; [intros tiers'; rewrite findList_of_find, find_replace, decide_True by done;
              rewrite Hlist0; cbn; by intros [= <-]|].
      split; [done|]. split; [done|]. by apply Hannounced. }
  destruct s1 as [[changed1 m1] announce_list]. cbn [fst snd] in H1 |- *.
  destruct H1 as (Hnd1 & Hann1 & Hlist1 & Hclean & Hfull & Hch1).
  assert (Hstr1 : tr_bencDictFindStr m1 "announce" <> Some url).
  { rewrite findStr_of_find, Hann1. by rewrite <- findStr_of_find. }
  match goal with
  | |- context [if changed1 then ?promoted else m1] =>
      set (m2 := if changed1 then promoted else m1)
  end.
  assert (H2 : tr_bencDictFindStr m2 "announce" <> Some url
               /\ tr_bencDictFind m2 "announce-list" = tr_bencDictFind m1 "announce-list").
  { unfold m2. destruct changed1; [|done].
    destruct (tr_bencDictFindStr m1 "announce") eqn:Hs; [split; [congruence|done]|].
    destruct announce_list as [|tier rest]; [split; [congruence|done]|].
    destruct (list_children tier) as [|node nodes] eqn:Hc; [split; [congruence|done]|].
    destruct (tr_bencGetStr node) as [str|] eqn:Hg; [|split; [congruence|done]].
    assert (Hne : str <> url).
    { apply has_url_false in Hclean. rewrite Forall_cons in Hclean.
      destruct Hclean as [Hclean _]. rewrite Hc, Forall_cons in Hclean.
      destruct Hclean as [Hn _]. unfold node_is_url in Hn. rewrite Hg in Hn.
      by apply bool_decide_eq_false in Hn. }
    destruct m1 as [| | |d1]; try done.
    destruct (addStr_find d1 "announce" str) as (d' & -> & _ & _ & Hfa).
    split.
    - rewrite findStr_of_find, Hfa. rewrite decide_True by done. congruence.
    - rewrite Hfa. by rewrite decide_False. }
  destruct H2 as (Hstr2 & Hlist2).
  split; [done|]. split; [|done].
  intros tiers Ht. rewrite findList_of_find, Hlist2, <- findList_of_find in Ht.
  destruct (Hlist1 tiers Ht) as [-> _]. done.
Qed.

Lemma removeURL_removes_all_witness :
  (removeURL two_tier_metainfo "http://a/announce").1 = true
  <-> announced two_tier_metainfo "http://a/announce".
Proof.
  apply (removeURL_removes_all two_tier_metainfo "http://a/announce").
  apply (bool_decide_unpack (NoDup (dict_entries two_tier_metainfo).*1)).
  vm_compute. exact I.
Defined.

(** ** Addition *)

Lemma find_none_not_key (d : list (string * tr_benc)) (k : string) :
  tr_bencDictFind (BDict d) k = None -> k ∉ d.*1.
Proof.
  induction d as [|e d IH]; [intros _; apply not_elem_of_nil|].
  rewrite find_cons, fmap_cons, not_elem_of_cons.
  destruct (decide (e.1 = k)); [done|]. intros H. split; [congruence|by apply IH].
Qed.

Lemma assoc_replace_same (d : list (string * tr_benc)) (k : string) (v : tr_benc) :
  tr_bencDictFind (BDict d) k = Some v -> assoc_replace k v d = d.
Proof.
  induction d as [|e d IH]; [done|]. rewrite find_cons. cbn [assoc_replace].
  destruct (decide (e.1 = k)) as [He|He].
  - intros [= <-]. rewrite bool_decide_eq_true_2 by done. rewrite <- He. by destruct e.
  - intros H. rewrite bool_decide_eq_false_2 by done. by rewrite IH.
Qed.

Lemma has_url_app (l1 l2 : list tr_benc) (url : string) :
  announce_list_has_url (l1 ++ l2) url
  = announce_list_has_url l1 url || announce_list_has_url l2 url.
Proof. unfold announce_list_has_url. apply existsb_app. Qed.

Lemma has_url_single (url : string) :
  announce_list_has_url [BList [BStr url]] url = true.
Proof.
  unfold announce_list_has_url, node_is_url. cbn.
  by rewrite bool_decide_eq_true_2.
Qed.

Ltac decide_keys :=
  repeat match goal with
         | |- context [decide (?a = ?b)] =>
             destruct (decide (a = b)) as [?|?]; [try discriminate|try done]
         end.

(** X21: on a well-formed metainfo addURL makes the URL announced and
    drops nothing: afterwards the URL is the "announce" string or a member
    of the "announce-list", every URL that was announced before still is,
    and the metainfo is well-formed again; the function reports no change
    only if it left the metainfo as it was, which is the case whenever the
    "announce-list" already holds the URL. *)
Theorem addURL_announces (metainfo : tr_benc) (url : string) :
  metainfo_wf metainfo ->
  announced (addURL metainfo url).2 url
  /\ (forall u, announced metainfo u -> announced (addURL metainfo url).2 u)
  /\ metainfo_wf (addURL metainfo url).2
  /\ ((addURL metainfo url).1 = false -> (addURL metainfo url).2 = metainfo)
  /\ (forall tiers, tr_bencDictFindList metainfo "announce-list" = Some tiers ->
        announce_list_has_url tiers url = true ->
        addURL metainfo url = (false, metainfo)).
Proof.
  intros ((d & ->) & Hnd & Hstr & Hlist). cbn [dict_entries] in Hnd.
  destruct (tr_bencDictFind (BDict d) "announce-list") as [vl|] eqn:Hl.
  - destruct (Hlist vl eq_refl) as (tiers & ->).
    assert (HlL : tr_bencDictFindList (BDict d) "announce-list" = Some tiers)
      by (by rewrite findList_of_find, Hl).
    set (tiers' := if negb (announce_list_has_url tiers url)
                   then tiers ++ [BList [BStr url]] else tiers).
    assert (Hhas : announce_list_has_url tiers' url = true).
    { unfold tiers'. destruct (announce_list_has_url tiers url) eqn:H; cbn [negb]; [done|].
      by rewrite has_url_app, has_url_single, orb_true_r. }
    assert (Hkeep : forall u, announce_list_has_url tiers u = true ->
                              announce_list_has_url tiers' u = true).
    { intros u Hu. unfold tiers'. destruct (negb _); [|done].
      by rewrite has_url_app, Hu. }
    assert (E : addURL (BDict d) url
                = (negb (announce_list_has_url tiers url),
                   BDict (assoc_replace "announce-list" (BList tiers') d))).
    { unfold addURL. rewrite HlL. unfold tiers'.
      destruct (tr_bencDictFindStr (BDict d) "announce");
        by destruct (announce_list_has_url tiers url). }
    rewrite E. cbn [fst snd]. unfold announced.
    rewrite !findStr_of_find, !findList_of_find, !find_replace, Hl.
    decide_keys. cbn [fmap option_fmap option_map].
    split; [right; by exists tiers'|].
    split; [intros u [Hu|(t0 & [= <-] & Hu)]; [by left|right; exists tiers'; auto]|].
    split.
    { split; [by eexists|]. cbn [dict_entries]. rewrite assoc_replace_keys.
      split; [done|]. split.
      - intros v. rewrite find_replace. decide_keys. apply Hstr.
      - intros v. rewrite find_replace. decide_keys. rewrite Hl.
        cbn [fmap option_fmap option_map]. intros [= <-]. by eexists. }
    split.
    + intros Hno. apply negb_false_iff in Hno. unfold tiers'. rewrite Hno. cbn [negb].
      by rewrite assoc_replace_same.
    + intros t0 [= <-] Hu. unfold tiers'. rewrite Hu. cbn [negb].
      by rewrite assoc_replace_same.
  - assert (Hkl : "announce-list" ∉ d.*1) by (by apply find_none_not_key).
    assert (HlL : tr_bencDictFindList (BDict d) "announce-list" = None)
      by (by rewrite findList_of_find, Hl).
    destruct (tr_bencDictFind (BDict d) "announce") as [va|] eqn:Ha.
    + destruct (Hstr va eq_refl) as (a & ->).
      assert (HaS : tr_bencDictFindStr (BDict d) "announce" = Some a)
        by (by rewrite findStr_of_find, Ha).
      set (tiers' := if negb (announce_list_has_url [BList [BStr a]] url)
                     then [BList [BStr a]] ++ [BList [BStr url]] else [BList [BStr a]]).
      assert (Hhas : announce_list_has_url tiers' url = true).
      { unfold tiers'. destruct (announce_list_has_url [BList [BStr a]] url) eqn:H;
          cbn [negb]; [done|]. by rewrite has_url_app, has_url_single, orb_true_r. }
      assert (E : addURL (BDict d) url
                  = (true, BDict (d ++ [("announce-list", BList tiers')]))).
      { unfold addURL. rewrite HlL, HaS. unfold tiers'.
        by destruct (announce_list_has_url [BList [BStr a]] url). }
      rewrite E. cbn [fst snd]. unfold announced.
      rewrite !findStr_of_find, !findList_of_find, !find_add, Hl, Ha.
      decide_keys.
      split; [right; by exists tiers'|].
      split; [intros u [Hu|(t0 & Hu & _)]; [by left|done]|].
      split; [|split; [done|intros t0 Hu; done]].
      split; [by eexists|]. cbn [dict_entries]. rewrite fmap_app.
      split; [apply NoDup_app; split; [done|]; split;
              [intros x Hx Hx'; apply list_elem_of_singleton in Hx'; by subst
              |apply NoDup_singleton]|].
      split.
      * intros v. rewrite find_add, Ha. intros [= <-]. by eexists.
      * intros v. rewrite find_add, Hl. decide_keys.
        intros [= <-]. by eexists.
    + assert (Hka : "announce" ∉ d.*1) by (by apply find_none_not_key).
      assert (HaS : tr_bencDictFindStr (BDict d) "announce" = None)
        by (by rewrite findStr_of_find, Ha).
      assert (E : addURL (BDict d) url = (true, tr_bencDictAddStr (BDict d) "announce" url)).
      { unfold addURL. by rewrite HlL, HaS. }
      rewrite E. cbn [fst snd]. unfold announced.
      destruct (addStr_find d "announce" url) as (d' & -> & _ & Hkeys & Hf).
      rewrite !findStr_of_find, !findList_of_find, !Hf.
      decide_keys. rewrite ?Hl, ?Ha.
      split; [by left|].
      split; [intros u [Hu|(t0 & Hu & _)]; done|].
      split; [|split; [done|intros t0 Hu; done]].
      split; [by eexists|]. cbn [dict_entries]. rewrite (Hkeys Hka).
      split; [apply NoDup_app; split; [done|]; split;
              [intros x Hx Hx'; apply list_elem_of_singleton in Hx'; by subst
              |apply NoDup_singleton]|].
      split.
      * intros v. rewrite Hf. decide_keys. intros [= <-]. by eexists.
      * intros v. rewrite Hf. decide_keys. rewrite Hl. done.
Qed.

Lemma addURL_announces_witness :
  announced (addURL two_tier_metainfo "http://c/announce").2 "http://c/announce".
Proof.
  assert (Hwf : metainfo_wf two_tier_metainfo).
  { split; [by eexists|]. split.
    - apply (bool_decide_unpack (NoDup (dict_entries two_tier_metainfo).*1)).
      vm_compute. exact I.
    - split; intros v Hv; vm_compute in Hv; injection Hv as <-; by eexists. }
  exact (proj1 (addURL_announces two_tier_metainfo "http://c/announce" Hwf)).
Defined.

(** ** Replacement *)

Lemma append_cons (x : Ascii.ascii) (a b : string) :
  String.append (String x a) b = String x (String.append a b).
Proof. done. Qed.

Lemma string_length_app (a b : string) :
  String.length (String.append a b) = (String.length a + String.length b)%nat.
Proof.
  induction a as [|c a IH]; [done|].
  change (S (String.length (String.append a b)) = S (String.length a + String.length b)).
  by rewrite IH.
Qed.

Lemma string_app_assoc (a b c : string) :
  String.append a (String.append b c) = String.append (String.append a b) c.
Proof. induction a as [|x a IH]; [done|]. by rewrite !append_cons, IH. Qed.

Lemma substring_full (s : string) : String.substring 0 (String.length s) s = s.
Proof. induction s as [|c s IH]; simpl; [done|]. by rewrite IH. Qed.

Lemma substring_app_l (a b : string) :
  String.substring 0 (String.length a) (String.append a b) = a.
Proof.
  induction a as [|c a IH]; [by destruct b|].
  rewrite append_cons. simpl. by rewrite IH.
Qed.

Lemma string_drop_app (a b : string) :
  string_drop (String.length a) (String.append a b) = b.
Proof.
  unfold string_drop. rewrite string_length_app.
  replace (String.length a + String.length b - String.length a)%nat
    with (String.length b) by lia.
  induction a as [|c a IH]; [apply substring_full|].
  rewrite append_cons. simpl. exact IH.
Qed.

Lemma prefix_app (p s : string) :
  String.prefix p s = true -> exists rest, s = String.append p rest.
Proof.
  revert s. induction p as [|c p IH]; intros s.
  - intros _. by exists s.
  - destruct s as [|c' s]; simpl; [done|].
    destruct (Ascii.ascii_dec c c') as [->|]; [|done].
    intros H. destruct (IH s H) as (rest & ->). by exists rest.
Qed.

Lemma strstr_found (s p : string) (k : nat) :
  strstr s p = Some k ->
  exists pre rest,
    s = String.append pre (String.append p rest)
    /\ String.length pre = k
    /\ String.substring 0 k s = pre
    /\ string_drop (k + String.length p) s = rest.
Proof.
  revert k. induction s as [|c s IH]; intros k; cbn [strstr].
  - destruct (String.prefix p "") eqn:Hp; [|done].
    intros [= <-]. destruct (prefix_app p "" Hp) as (rest & E).
    exists ""%string, rest. cbn [String.append String.length].
    split; [done|]. split; [done|]. split; [done|].
    rewrite E. apply string_drop_app.
  - destruct (String.prefix p (String c s)) eqn:Hp.
    + intros [= <-]. destruct (prefix_app p _ Hp) as (rest & E).
      exists ""%string, rest. cbn [String.append String.length].
      split; [done|]. split; [done|]. split; [done|].
      rewrite E. apply string_drop_app.
    + destruct (strstr s p) as [k'|] eqn:Hs; [|done]. cbn. intros [= <-].
      destruct (IH k' eq_refl) as (pre & rest & E & Hl & Hsub & Hdrop).
      exists (String c pre), rest. cbn [String.append String.length].
      split; [by rewrite E|]. split; [by rewrite Hl|].
      split; [cbn; by rewrite Hsub|].
      rewrite <- Hdrop. unfold string_drop. cbn. done.
Qed.

Lemma replaceSubstr_loop_total (pat out : string) (fuel : nat) :
  pat <> ""%string ->
  forall str : string,
    (String.length str < fuel)%nat ->
    exists r, replaceSubstr_loop fuel str pat out = Some r
              /\ (out = pat -> r = str).
Proof.
  intros Hpat. induction fuel as [|fuel IH]; intros str Hlen; [lia|].
  cbn [replaceSubstr_loop].
  destruct (strstr str pat) as [k|] eqn:Hs; [|by exists str].
  destruct (strstr_found str pat k Hs) as (pre & rest & E & Hl & Hsub & Hdrop).
  rewrite Hdrop, Hsub.
  assert (Hp : (0 < String.length pat)%nat) by (destruct pat; [done|cbn; lia]).
  destruct (IH rest) as (r & -> & Hr).
  { rewrite E, !string_length_app in Hlen. lia. }
  eexists. split; [reflexivity|].
  intros ->. rewrite (Hr eq_refl). by rewrite E.
Qed.

Lemma replaceSubstr_loop_empty (out : string) (fuel : nat) :
  forall str : string, replaceSubstr_loop fuel str "" out = None.
Proof.
  induction fuel as [|fuel IH]; intros str; [done|]. cbn [replaceSubstr_loop].
  assert (Hs : strstr str "" = Some 0%nat) by (by destruct str).
  rewrite Hs. cbn [String.length Nat.add].
  assert (Hd : string_drop 0 str = str).
  { unfold string_drop. rewrite Nat.sub_0_r. apply substring_full. }
  by rewrite Hd, IH.
Qed.

(** X22: replaceSubstr with a non-empty pattern always returns; the
    result is the string itself when the pattern does not occur in it and
    when the pattern is replaced by itself, and otherwise begins with the
    text before the first occurrence followed by the replacement.  With
    the empty pattern the loop never ends. *)
Theorem replaceSubstr_returns (str pat out : string) :
  pat <> ""%string ->
  (exists r, replaceSubstr str pat out = Some r
     /\ (strstr str pat = None -> r = str)
     /\ (out = pat -> r = str)
     /\ (forall k, strstr str pat = Some k ->
           String.prefix (String.append (String.substring 0 k str) out) r = true))
  /\ (forall fuel, replaceSubstr_loop fuel str "" out = None).
Proof.
  intros Hpat. split; [|intros fuel; apply replaceSubstr_loop_empty].
  destruct (replaceSubstr_loop_total pat out (S (String.length str)) Hpat str) as (r & Hr & Hid);
    [lia|].
  exists r. split; [done|]. split; [|split; [done|]].
  - intros Hno. unfold replaceSubstr in Hr. cbn [replaceSubstr_loop] in Hr.
    rewrite Hno in Hr. by injection Hr as <-.
  - intros k Hk. unfold replaceSubstr in Hr. cbn [replaceSubstr_loop] in Hr.
    rewrite Hk in Hr.
    destruct (replaceSubstr_loop _ _ pat out) as [r'|]; [|done].
    cbn in Hr. injection Hr as <-.
    apply String.prefix_correct.
    rewrite string_app_assoc. apply substring_app_l.
Qed.

Lemma replaceSubstr_returns_witness :
  exists r, replaceSubstr "http://a/announce" "a/" "b/" = Some r.
Proof.
  destruct (replaceSubstr_returns "http://a/announce" "a/" "b/") as ((r & Hr & _) & _);
    [discriminate|]. by exists r.
Defined.

Lemma replaceSubstr_total (str pat out : string) :
  pat <> ""%string -> is_Some (replaceSubstr str pat out).
Proof.
  intros Hpat.
  destruct (replaceSubstr_loop_total pat out (S (String.length str)) Hpat str) as (r & Hr & _);
    [lia|]. by exists r.
Qed.

Lemma replace_in_node_total (pat out : string) (node : tr_benc) :
  pat <> ""%string -> is_Some (replace_in_node pat out node).
Proof.
  intros Hpat. unfold replace_in_node.
  destruct (tr_bencGetStr node) as [s|]; [|done].
  destruct (strstr s pat); [|done].
  destruct (replaceSubstr_total s pat out Hpat) as [r ->]. done.
Qed.

Lemma replace_in_tier_total (pat out : string) (tier : tr_benc) :
  pat <> ""%string -> is_Some (replace_in_tier pat out tier).
Proof.
  intros Hpat. destruct tier as [| |l|]; try done. cbn [replace_in_tier].
  assert (H : is_Some (mapM (replace_in_node pat out) l)).
  { apply mapM_is_Some. apply Forall_forall. intros n _.
    by apply replace_in_node_total. }
  destruct H as [l' ->]. done.
Qed.

Lemma mapM_same {A} (f : A -> option A) (l : list A) :
  Forall (fun x => f x = Some x) l -> mapM f l = Some l.
Proof.
  intros H. apply mapM_Some. induction H; constructor; done.
Qed.

Lemma replace_in_tier_same (pat out : string) (tier : tr_benc) :
  existsb (node_contains pat) (list_children tier) = false ->
  replace_in_tier pat out tier = Some tier.
Proof.
  destruct tier as [| |l|]; try done. cbn [replace_in_tier list_children]. intros H.
  rewrite mapM_same; [done|].
  induction l as [|n l IH]; [constructor|].
  cbn [existsb] in H. apply orb_false_iff in H as [Hn Hl].
  constructor; [|by apply IH].
  unfold replace_in_node, node_contains in *.
  destruct (tr_bencGetStr n) as [s|]; [|done].
  destruct (strstr s pat); [|done]. by apply bool_decide_eq_false in Hn as [].
Qed.

(** X23: replaceURL with a non-empty pattern always returns, and with a
    pattern that occurs neither in the "announce" string nor in a member of
    the "announce-list" it reports no change and leaves the metainfo as it
    was. *)
Theorem replaceURL_returns (metainfo : tr_benc) (pat out : string) :
  pat <> ""%string ->
  is_Some (replaceURL metainfo pat out)
  /\ ((forall s, tr_bencDictFindStr metainfo "announce" = Some s -> strstr s pat = None) ->
      (forall tiers, tr_bencDictFindList metainfo "announce-list" = Some tiers ->
         existsb (fun t => existsb (node_contains pat) (list_children t)) tiers = false) ->
      replaceURL metainfo pat out = Some (false, metainfo)).
Proof.
  intros Hpat. split.
  - unfold replaceURL.
    destruct (tr_bencDictFindStr metainfo "announce") as [s|]; cbn [mbind option_bind].
    + destruct (strstr s pat).
      * destruct (replaceSubstr_total s pat out Hpat) as [r ->].
        cbn [fmap option_fmap option_map mbind option_bind].
        destruct (tr_bencDictFindList _ "announce-list") as [tiers|]; [|done].
        assert (H : is_Some (mapM (replace_in_tier pat out) tiers)).
        { apply mapM_is_Some, Forall_forall. intros t _. by apply replace_in_tier_total. }
        destruct H as [tiers' ->]. done.
      * cbn [mbind option_bind].
        destruct (tr_bencDictFindList _ "announce-list") as [tiers|]; [|done].
        assert (H : is_Some (mapM (replace_in_tier pat out) tiers)).
        { apply mapM_is_Some, Forall_forall. intros t _. by apply replace_in_tier_total. }
        destruct H as [tiers' ->]. done.
    + destruct (tr_bencDictFindList _ "announce-list") as [tiers|]; [|done].
      assert (H : is_Some (mapM (replace_in_tier pat out) tiers)).
      { apply mapM_is_Some, Forall_forall. intros t _. by apply replace_in_tier_total. }
      destruct H as [tiers' ->]. done.
  - intros Hann Hlist. unfold replaceURL.
    assert (E0 : match tr_bencDictFindStr metainfo "announce" with
                 | Some str =>
                     match strstr str pat with
                     | Some _ =>
                         (fun newstr => (true, tr_bencDictAddStr metainfo "announce" newstr))
                           <$> replaceSubstr str pat out
                     | None => Some (false, metainfo)
                     end
                 | None => Some (false, metainfo)
                 end = Some (false, metainfo)).
    { destruct (tr_bencDictFindStr metainfo "announce") as [s|]; [|done].
      by rewrite (Hann s eq_refl). }
    rewrite E0. cbn [mbind option_bind].
    destruct (tr_bencDictFindList metainfo "announce-list") as [tiers|] eqn:Hl; [|done].
    specialize (Hlist tiers eq_refl).
    assert (Hsame : mapM (replace_in_tier pat out) tiers = Some tiers).
    { apply mapM_same. clear Hl. induction tiers as [|t tiers IH]; [constructor|].
      cbn [existsb] in Hlist. apply orb_false_iff in Hlist as [Ht Hr].
      constructor; [by apply replace_in_tier_same|by apply IH]. }
    rewrite Hsame. cbn [mbind option_bind]. rewrite Hlist. cbn [orb].
    destruct metainfo as [| | |d]; try done. cbn [dict_store].
    rewrite assoc_replace_same; [done|].
    rewrite findList_of_find in Hl.
    destruct (tr_bencDictFind (BDict d) "announce-list") as [[| |l|]|]; try done.
    by injection Hl as ->.
Qed.

Lemma replaceURL_returns_witness :
  is_Some (replaceURL two_tier_metainfo "http://a/" "http://c/").
Proof.
  apply (replaceURL_returns two_tier_metainfo "http://a/" "http://c/"). discriminate.
Defined.

(* EDITOR-END *)
End EditorProps.
